(** * MILO: thermal residuals, Newton / transient solver, sensitivities and
      the subgrid (mortar) model

    A shallow embedding of the parts of
      - [src/interfaces/solverInterface.cpp]  (class [solver]),
      - the thermal physics module            (class [thermal]),
      - the subgrid finite element model      (class [SubGridFEM2])
    that the specification makes statements about.

    Conventions of the embedding.
      - [ScalarT] (a C++ [double]) is read as an exact rational [Q]; sums and
        products are compared with [==] ([Qeq]), comparisons are the boolean
        tests [Qltb] / [Qle_bool].
      - A Kokkos view is a total function of its indices; a column of a
        Tpetra multi-vector is a [list Q]; a multi-vector is the list of
        its columns.
      - C++ [int]s read from views or settings are [Z]; loop counters that
        range over [0 .. n) are [nat].
      - Code of the repository that is not part of the modelled files
        (the assembler, the Belos/Aztec solvers, the MPI exporter, the
        function manager) enters as [Variable]s of a [Section]. *)

From Stdlib Require Import ZArith QArith Qabs Qminmax List Bool Lia Lqa.
From Stdlib Require String.
From Stdlib Require Reals Lra.
Import ListNotations.

Open Scope Q_scope.

(** ** Scalars and vectors *)

Definition ScalarT := Q.
Definition vec := list Q.
Definition multivec := list vec.

(** [a > b] on doubles. *)
Definition Qltb (a b : Q) : bool := negb (Qle_bool b a).

(** The literals [1.0e-14], [1.0e-12] and [1.e13] of the sources. *)
Definition tiny_residual : Q := 1 # 100000000000000.
Definition final_time_tol : Q := 1 # 1000000000000.
Definition condest_max : Q := 10000000000000 # 1.

(** [for (i = 0; i < n; i++) v(i) = f i] on a vector of [n] local rows. *)
Definition tabulate (n : nat) (f : nat -> Q) : vec := map f (seq 0 n).

(** [kv(i, j)]: row [i] of column [j] of a multi-vector's local view. An
    index outside the view has no meaning in C++; the model reads [0]
    there. *)
Definition kv (m : multivec) (i : nat) (j : Z) : Q :=
  if (j <? 0)%Z then 0 else nth i (nth (Z.to_nat j) m []) 0.

(** [kv(i, j) = x_i] for all local rows: column [j] is overwritten (a
    column outside the view is left alone here). *)
Fixpoint set_col (j : nat) (c : vec) (m : multivec) : multivec :=
  match m, j with
  | [], _ => []
  | _ :: rest, O => c :: rest
  | c0 :: rest, S j' => c0 :: set_col j' c rest
  end.

(** [y->update(a, x, 1.0)]: [y := y + a x], row by row. *)
Fixpoint axpy (a : Q) (x y : vec) : vec :=
  match y, x with
  | yi :: y', xi :: x' => (yi + a * xi) :: axpy a x' y'
  | _, _ => y
  end.

(** [normInf] of a vector. *)
Definition normInf (v : vec) : Q :=
  fold_right (fun x m => Qmax (Qabs x) m) 0 v.

(** Sum of a list of scalars, and the dot product of two columns. *)
Definition Qsum (l : list Q) : Q := fold_right Qplus 0 l.

Fixpoint dot (x y : vec) : Q :=
  match x, y with
  | xi :: x', yi :: y' => xi * yi + dot x' y'
  | _, _ => 0
  end.

(** A residual view [res(e,row)] and the update [res(e,row) += v]. A view
    is a total function of its indices. *)
Definition res_view := nat -> Z -> Q.

Definition add_res (res : res_view) (e : nat) (row : Z) (v : Q) : res_view :=
  fun e' row' =>
    if (e' =? e)%nat && (row' =? row)%Z then res e' row' + v else res e' row'.

(** [sum_n n f] is the sum of [f 0 .. f (n-1)]. *)
Definition sum_n (n : nat) (f : nat -> Q) : Q := Qsum (map f (seq 0 n)).

(** [pick b v]: [v] where the test [b] holds, else [0]. *)
Definition pick (b : bool) (v : Q) : Q := if b then v else 0.

Lemma Qltb_lt (a b : Q) : Qltb a b = true <-> a < b.
Proof.
  unfold Qltb. rewrite negb_true_iff.
  split.
  - intros H. apply Qnot_le_lt. intros Hle.
    apply Qle_bool_iff in Hle. congruence.
  - intros H. destruct (Qle_bool b a) eqn:E; trivial.
    apply Qle_bool_iff in E. apply Qlt_not_le in H. contradiction.
Qed.

Lemma Qltb_ge (a b : Q) : Qltb a b = false <-> b <= a.
Proof.
  unfold Qltb. rewrite negb_false_iff. apply Qle_bool_iff.
Qed.

(** ** Sums and accumulating loops *)

Lemma Qsum_ext (A : Type) (f g : A -> Q) (l : list A) :
  (forall a, In a l -> f a == g a) -> Qsum (map f l) == Qsum (map g l).
Proof.
  induction l as [|a l IH]; intros H; simpl.
  - reflexivity.
  - rewrite (H a (or_introl eq_refl)), IH.
    + reflexivity.
    + intros b Hb. apply H. now right.
Qed.

Lemma Qsum_zero (A : Type) (f : A -> Q) (l : list A) :
  (forall a, In a l -> f a == 0) -> Qsum (map f l) == 0.
Proof.
  induction l as [|a l IH]; intros H; simpl.
  - reflexivity.
  - rewrite (H a (or_introl eq_refl)), IH.
    + ring.
    + intros b Hb. apply H. now right.
Qed.

Lemma sum_n_ext (n : nat) (f g : nat -> Q) :
  (forall i, (i < n)%nat -> f i == g i) -> sum_n n f == sum_n n g.
Proof.
  intros H. apply Qsum_ext. intros i Hi. apply in_seq in Hi. apply H. lia.
Qed.

Lemma sum_n_zero (n : nat) (f : nat -> Q) :
  (forall i, (i < n)%nat -> f i == 0) -> sum_n n f == 0.
Proof.
  intros H. apply Qsum_zero. intros i Hi. apply in_seq in Hi. apply H. lia.
Qed.

(** A sum with a single selected index. *)
Lemma Qsum_pick_seq (g : nat -> Q) (e : nat) (len start : nat) :
  Qsum (map (fun e0 => pick (e =? e0)%nat (g e0)) (seq start len))
  == pick ((start <=? e)%nat && (e <? start + len)%nat) (g e).
Proof.
  revert start. induction len as [|len IH]; intros start; simpl.
  - replace ((start <=? e)%nat && (e <? start + 0)%nat) with false.
    + reflexivity.
    + symmetry. apply andb_false_iff.
      destruct (Nat.leb_spec start e); [right|left; reflexivity].
      apply Nat.ltb_ge. lia.
  - rewrite IH.
    destruct (Nat.eqb_spec e start) as [->|Hne].
    + replace ((S start <=? start)%nat) with false
        by (symmetry; apply Nat.leb_gt; lia).
      replace ((start <=? start)%nat && (start <? start + S len)%nat)
        with true.
      * simpl. ring.
      * symmetry. apply andb_true_iff. split.
        -- apply Nat.leb_le. lia.
        -- apply Nat.ltb_lt. lia.
    + replace ((S start <=? e)%nat && (e <? S start + len)%nat)
        with ((start <=? e)%nat && (e <? start + S len)%nat).
      * simpl. ring.
      * replace (start + S len)%nat with (S start + len)%nat by lia.
        f_equal.
        destruct (Nat.leb_spec start e), (Nat.leb_spec (S start) e);
          trivial; lia.
Qed.

Lemma sum_n_pick (g : nat -> Q) (e n : nat) :
  sum_n n (fun e0 => pick (e =? e0)%nat (g e0)) == pick (e <? n)%nat (g e).
Proof.
  unfold sum_n. rewrite Qsum_pick_seq. reflexivity.
Qed.

Lemma add_res_spec (res : res_view) (e0 : nat) (row0 : Z) (v : Q)
    (e : nat) (row : Z) :
  add_res res e0 row0 v e row
  == res e row + pick ((e =? e0)%nat && (row =? row0)%Z) v.
Proof.
  unfold add_res, pick.
  destruct ((e =? e0)%nat && (row =? row0)%Z); ring.
Qed.

(** A loop whose body adds [f a e row] to every entry adds the sum. *)
Lemma fold_add (A : Type) (body : A -> res_view -> res_view)
    (f : A -> nat -> Z -> Q) (l : list A) :
  (forall a r e row, In a l -> body a r e row == r e row + f a e row) ->
  forall r e row,
    fold_left (fun r a => body a r) l r e row
    == r e row + Qsum (map (fun a => f a e row) l).
Proof.
  induction l as [|a l IH]; intros H r e row; simpl.
  - ring.
  - rewrite IH.
    + rewrite (H a r e row (or_introl eq_refl)). ring.
    + intros b r' e' row' Hb. apply H. now right.
Qed.

Lemma pick_and (a b : bool) (v : Q) : pick (a && b) v = pick a (pick b v).
Proof. destruct a, b; reflexivity. Qed.

Lemma pick_false (v : Q) : pick false v = 0.
Proof. reflexivity. Qed.

Lemma pick_true (v : Q) : pick true v = v.
Proof. reflexivity. Qed.

Lemma nth_tabulate (n : nat) (f : nat -> Q) (i : nat) :
  (i < n)%nat -> nth i (tabulate n f) 0 = f i.
Proof.
  intros H. unfold tabulate.
  rewrite (nth_indep _ 0 (f 0%nat)) by (rewrite length_map, length_seq; exact H).
  rewrite map_nth, seq_nth by exact H. reflexivity.
Qed.

Lemma length_tabulate (n : nat) (f : nat -> Q) : length (tabulate n f) = n.
Proof. unfold tabulate. now rewrite length_map, length_seq. Qed.

Lemma length_set_col (j : nat) (c : vec) (m : multivec) :
  length (set_col j c m) = length m.
Proof.
  revert j. induction m as [|c0 m IH]; intros [|j]; simpl; auto.
Qed.

Lemma nth_set_col_eq (j : nat) (c : vec) (m : multivec) :
  (j < length m)%nat -> nth j (set_col j c m) [] = c.
Proof.
  revert j. induction m as [|c0 m IH]; intros [|j] H; simpl in *;
    try lia; auto. apply IH. lia.
Qed.

Lemma nth_set_col_neq (j j' : nat) (c : vec) (m : multivec) :
  j <> j' -> nth j' (set_col j c m) [] = nth j' m [].
Proof.
  revert j j'. induction m as [|c0 m IH]; intros [|j] [|j'] H; simpl;
    try reflexivity; try congruence. apply IH. congruence.
Qed.

(** ** What the solver prints on rank 0 *)

Inductive message : Type :=
| MsgIteration (NLiter : Z) (NLerr NLerr_scaled : Q)
| MsgFailedToConverge (NLiter : Z) (NLerr : Q)
| MsgLoadBalancing (factor : Q)
| MsgTimeStep (timeiter : Z) (current_time : Q)
| MsgSadPreconditioner (condest : Q).

Definition matrix := list (list Q).

(** * The thermal physics module *)

Module Thermal.

Import String.
Open Scope Q_scope.

(** Kokkos views as total functions of their indices. A variable index is
    a C++ [int] ([ux_num] may be [-1]); an AD scalar is read at its value. *)
Definition view4 := nat -> Z -> nat -> nat -> Q.    (* (e, var, k, dim) *)
Definition view3 := nat -> Z -> nat -> Q.           (* (e, var, k) *)
Definition field := nat -> nat -> Q.                (* FDATA (e, k) *)

(** The members of [class thermal] the residuals read. *)
Record thermal : Type := {
  spaceDim : Z;
  e_num : nat;
  ux_num : Z; uy_num : Z; uz_num : Z;
  have_nsvel : bool;
  formparam : Q
}.

(** The part of the workset the residuals read. *)
Record workset : Type := {
  numElem : nat;                    (* res.dimension(0) *)
  numip : nat;                      (* sol.dimension(2) *)
  numBasis : nat;                   (* ebasis.dimension(1) *)
  local_soln : view4;
  local_soln_dot : view4;
  local_soln_grad : view4;
  basis : nat -> nat -> nat -> Q;               (* ebasis(e,i,k) *)
  basis_grad : nat -> nat -> nat -> nat -> Q;   (* ebasis_grad(e,i,k,d) *)
  offsets : nat -> nat -> Z;                    (* offsets(var,i) *)
  (* side data *)
  numElem_side : nat;               (* sideinfo.dimension(0) *)
  numip_side : nat;                 (* ebasis.dimension(2) on the side *)
  numBasis_side : nat;
  sideinfo : nat -> nat -> nat -> nat -> Z;     (* (e, var, side, slot) *)
  currentside : nat;
  isAdjoint : bool;
  local_soln_side : view4;
  local_soln_grad_side : view4;
  local_aux_side : view3;
  basis_side : nat -> nat -> nat -> Q;
  basis_grad_side : nat -> nat -> nat -> nat -> Q;
  normals : nat -> nat -> nat -> Q;             (* (e,k,d) *)
  h : nat -> Q
}.

(** What the function manager returns for the coefficient names. *)
Record coefficients : Type := {
  source : field; diff : field; cp : field; rho : field;   (* "ip" *)
  nsource : field; diff_side : field; robin_alpha : field  (* "side ip" *)
}.

(** The loops over the quadrature points [k] and the basis functions [i]
    of one element. *)
Definition loops2 (nk ni : nat) (body : nat -> nat -> res_view -> res_view)
    (res : res_view) : res_view :=
  fold_left
    (fun r k => fold_left (fun r i => body k i r) (seq 0 ni) r)
    (seq 0 nk) res.

(** The loop over the elements [e] around them. *)
Definition loops3 (ne nk ni : nat)
    (body : nat -> nat -> nat -> res_view -> res_view) (res : res_view)
    : res_view :=
  fold_left (fun r e => loops2 nk ni (body e) r) (seq 0 ne) res.

(** [thermal::setVars]: one pass over [varlist], after
    [ux_num = uy_num = uz_num = -1]. *)
Definition scan_var (th : thermal) (entry : nat * String.string) : thermal :=
  let '(i, name) := entry in
  {| spaceDim := spaceDim th;
     e_num := if String.eqb name "e"%string then i else e_num th;
     ux_num := if String.eqb name "ux"%string then Z.of_nat i else ux_num th;
     uy_num := if String.eqb name "uy"%string then Z.of_nat i else uy_num th;
     uz_num := if String.eqb name "uz"%string then Z.of_nat i else uz_num th;
     have_nsvel := have_nsvel th;
     formparam := formparam th |}.

Definition setVars (varlist : list String.string) (th : thermal) : thermal :=
  let th0 := {| spaceDim := spaceDim th; e_num := e_num th;
                ux_num := (-1)%Z; uy_num := (-1)%Z; uz_num := (-1)%Z;
                have_nsvel := have_nsvel th; formparam := formparam th |} in
  let th1 := fold_left scan_var
               (combine (seq 0 (List.length varlist)) varlist) th0 in
  {| spaceDim := spaceDim th1; e_num := e_num th1;
     ux_num := ux_num th1; uy_num := uy_num th1; uz_num := uz_num th1;
     have_nsvel := if (0 <=? ux_num th1)%Z then true else have_nsvel th1;
     formparam := formparam th1 |}.

Section Residuals.

Set Default Proof Using "Type".

Variable th : thermal.
Variable wk : workset.
Variable cf : coefficients.

Definition ev : Z := Z.of_nat (e_num th).

(** The first [+=] of the three branches of [volumeResidual]. *)
Definition volume_base (d : nat) (e k i : nat) : Q :=
  let sol_dot := local_soln_dot wk in
  let sol_grad := local_soln_grad wk in
  let ebasis := basis wk in
  let ebasis_grad := basis_grad wk in
  match d with
  | 1%nat =>
      rho cf e k * cp cf e k * sol_dot e ev k 0%nat * ebasis e i k
      + diff cf e k * (sol_grad e ev k 0%nat * ebasis_grad e i k 0%nat)
      - source cf e k * ebasis e i k
  | 2%nat =>
      rho cf e k * cp cf e k * sol_dot e ev k 0%nat * ebasis e i k
      + diff cf e k * (sol_grad e ev k 0%nat * ebasis_grad e i k 0%nat
                       + sol_grad e ev k 1%nat * ebasis_grad e i k 1%nat)
      - source cf e k * ebasis e i k
  | _ =>
      rho cf e k * cp cf e k * sol_dot e ev k 0%nat * ebasis e i k
      + diff cf e k * (sol_grad e ev k 0%nat * ebasis_grad e i k 0%nat
                       + sol_grad e ev k 1%nat * ebasis_grad e i k 1%nat
                       + sol_grad e ev k 2%nat * ebasis_grad e i k 2%nat)
      - source cf e k * ebasis e i k
  end.

(** The second [+=], under [if (have_nsvel)]. *)
Definition volume_nsvel (d : nat) (e k i : nat) : Q :=
  let sol := local_soln wk in
  let sol_grad := local_soln_grad wk in
  let ebasis := basis wk in
  let ebasis_grad := basis_grad wk in
  match d with
  | 1%nat =>
      sol e (ux_num th) k 0%nat * sol_grad e ev k 0%nat * ebasis e i k
  | 2%nat =>
      sol e (ux_num th) k 0%nat * sol_grad e ev k 0%nat * ebasis e i k
      + sol e (uy_num th) k 0%nat * sol_grad e ev k 1%nat * ebasis e i k
  | _ =>
      sol_grad e (ux_num th) k 0%nat * ebasis_grad e i k 0%nat
      + sol_grad e (uy_num th) k 1%nat * ebasis_grad e i k 1%nat
      + sol_grad e (uz_num th) k 0%nat * ebasis_grad e i k 2%nat
  end.

(** The branch [volumeResidual] takes: [spaceDim == 1], [spaceDim == 2],
    else the three-dimensional loop. *)
Definition branch : nat :=
  if (spaceDim th =? 1)%Z then 1%nat
  else if (spaceDim th =? 2)%Z then 2%nat else 3%nat.

(** The body of the innermost loop. *)
Definition volume_point (d : nat) (e k i : nat) (res : res_view) : res_view :=
  let resindex := offsets wk (e_num th) i in
  let res1 := add_res res e resindex (volume_base d e k i) in
  if have_nsvel th
  then add_res res1 e resindex (volume_nsvel d e k i)
  else res1.

(** [thermal::volumeResidual]: the new content of [wkset->res]. *)
Definition volumeResidual (res : res_view) : res_view :=
  loops3 (numElem wk) (numip wk) (numBasis wk) (volume_point branch) res.

(** ** [thermal::boundaryResidual] *)

(** [sf]: [formparam], or [1.0] in adjoint mode. *)
Definition sf : Q := if isAdjoint wk then 1 else formparam th.

(** [lambda]: the mortar trace on a [-1] neighbour, else [0.0]. *)
Definition lambda (e k : nat) : Q :=
  if (sideinfo wk e (e_num th) (currentside wk) 1%nat =? -1)%Z
  then local_aux_side wk e ev k else 0.

Definition neumann_term (e k i : nat) : Q :=
  - nsource cf e k * basis_side wk e i k.

(** The three [+=] on [res] in the weak Dirichlet branch. *)
Definition weakDiriScale (e k : nat) : Q := 10 * diff_side cf e k / h wk e.

Definition nitsche_x (e k i : nat) : Q :=
  let eval := local_soln_side wk e ev k 0%nat in
  let dedx := local_soln_grad_side wk e ev k 0%nat in
  let v := basis_side wk e i k in
  let dvdx := basis_grad_side wk e i k 0%nat in
  - diff_side cf e k * dedx * normals wk e k 0%nat * v
  - sf * diff_side cf e k * dvdx * normals wk e k 0%nat * (eval - lambda e k)
  + weakDiriScale e k * (eval - lambda e k) * v.

Definition nitsche_dir (d : nat) (e k i : nat) : Q :=
  let eval := local_soln_side wk e ev k 0%nat in
  let ded := local_soln_grad_side wk e ev k d in
  let v := basis_side wk e i k in
  let dvd := basis_grad_side wk e i k d in
  - diff_side cf e k * ded * normals wk e k d * v
  - sf * diff_side cf e k * dvd * normals wk e k d * (eval - lambda e k).

Definition weak_point (e k i : nat) (res : res_view) : res_view :=
  let resindex := offsets wk (e_num th) i in
  let res1 := add_res res e resindex (nitsche_x e k i) in
  let res2 := if (1 <? spaceDim th)%Z
              then add_res res1 e resindex (nitsche_dir 1 e k i) else res1 in
  if (2 <? spaceDim th)%Z
  then add_res res2 e resindex (nitsche_dir 2 e k i) else res2.

(** The [adjrhs] updates of the weak Dirichlet branch in adjoint mode. *)
Definition adjrhs_point (e k i : nat) (adjrhs : res_view) : res_view :=
  let resindex := offsets wk (e_num th) i in
  let v := basis_side wk e i k in
  let dv := basis_grad_side wk e i k in
  let kn (d : nat) := sf * diff_side cf e k * dv d * normals wk e k d
                      * lambda e k in
  if isAdjoint wk then
    let a1 := add_res adjrhs e resindex
                (kn 0%nat - weakDiriScale e k * lambda e k * v) in
    let a2 := if (1 <? spaceDim th)%Z
              then add_res a1 e resindex (kn 1%nat) else a1 in
    if (2 <? spaceDim th)%Z then add_res a2 e resindex (kn 2%nat) else a2
  else adjrhs.

(** The kind of the current side of element [e]. *)
Definition side_kind (e : nat) : Z :=
  sideinfo wk e (e_num th) (currentside wk) 0%nat.

(** [thermal::boundaryResidual]: the new content of [wkset->res]. *)
Definition boundary_elem (e : nat) (res : res_view) : res_view :=
  if (side_kind e =? 2)%Z
  then loops2 (numip_side wk) (numBasis_side wk)
         (fun k i r => add_res r e (offsets wk (e_num th) i)
                               (neumann_term e k i)) res
  else if (side_kind e =? 1)%Z
  then loops2 (numip_side wk) (numBasis_side wk) (weak_point e) res
  else res.

Definition boundaryResidual (res : res_view) : res_view :=
  fold_left (fun r e => boundary_elem e r) (seq 0 (numElem_side wk)) res.

(** The new content of [wkset->adjrhs]. *)
Definition boundaryResidual_adjrhs (adjrhs : res_view) : res_view :=
  fold_left
    (fun a e => if (side_kind e =? 2)%Z then a
                else if (side_kind e =? 1)%Z
                then loops2 (numip_side wk) (numBasis_side wk)
                            (adjrhs_point e) a
                else a)
    (seq 0 (numElem_side wk)) adjrhs.

(** ** What the specification says the residuals add

    The weak forms in the words of the specification, to be compared with
    the loops above. *)

(** The number of space directions the residuals use. *)
Definition ndim : nat :=
  if (2 <? spaceDim th)%Z then 3%nat
  else if (1 <? spaceDim th)%Z then 2%nat else 1%nat.

(** [rho cp du/dt phi_i + kappa grad u . grad phi_i - f phi_i], plus
    [v . grad u phi_i] when a velocity field is coupled, in [d] space
    dimensions; [v = (ux, uy, uz)]. *)
Definition spec_volume_term (d : nat) (e k i : nat) : Q :=
  let u_t := local_soln_dot wk e ev k 0%nat in
  let grad_u (c : nat) := local_soln_grad wk e ev k c in
  let phi := basis wk e i k in
  let grad_phi (c : nat) := basis_grad wk e i k c in
  let v (c : nat) :=
    local_soln wk e (match c with
                     | O => ux_num th
                     | S O => uy_num th
                     | _ => uz_num th
                     end) k 0%nat in
  rho cf e k * cp cf e k * u_t * phi
  + diff cf e k * sum_n d (fun c => grad_u c * grad_phi c)
  - source cf e k * phi
  + pick (have_nsvel th) (sum_n d (fun c => v c * grad_u c) * phi).

(** [- kappa du/dn phi - s kappa dphi/dn (u - g) + (10 kappa / h) (u - g) phi]
    with [s = 1] in adjoint mode and [s = form_param] otherwise. *)
Definition spec_nitsche_term (e k i : nat) : Q :=
  let kappa := diff_side cf e k in
  let u := local_soln_side wk e ev k 0%nat in
  let g := lambda e k in
  let phi := basis_side wk e i k in
  let n (c : nat) := normals wk e k c in
  let du_dn := sum_n ndim (fun c => local_soln_grad_side wk e ev k c * n c) in
  let dphi_dn := sum_n ndim (fun c => basis_grad_side wk e i k c * n c) in
  let s := if isAdjoint wk then 1 else formparam th in
  - kappa * du_dn * phi
  - s * kappa * dphi_dn * (u - g)
  + (10 * kappa / h wk e) * (u - g) * phi.

(** The same form with the boundary value [g] the side prescribes at its
    quadrature points: the [g] of the specification. *)
Definition spec_nitsche_datum (g : nat -> nat -> Q) (e k i : nat) : Q :=
  let kappa := diff_side cf e k in
  let u := local_soln_side wk e ev k 0%nat in
  let phi := basis_side wk e i k in
  let n (c : nat) := normals wk e k c in
  let du_dn := sum_n ndim (fun c => local_soln_grad_side wk e ev k c * n c) in
  let dphi_dn := sum_n ndim (fun c => basis_grad_side wk e i k c * n c) in
  let s := if isAdjoint wk then 1 else formparam th in
  - kappa * du_dn * phi
  - s * kappa * dphi_dn * (u - g e k)
  + (10 * kappa / h wk e) * (u - g e k) * phi.

(** [- g_N phi] *)
Definition spec_neumann_term (e k i : nat) : Q :=
  - (nsource cf e k * basis_side wk e i k).

(** ** Facts about the residual loops *)

Lemma loops2_add (nk ni : nat) (body : nat -> nat -> res_view -> res_view)
    (f : nat -> nat -> nat -> Z -> Q) :
  (forall k i r e row, body k i r e row == r e row + f k i e row) ->
  forall r e row,
    loops2 nk ni body r e row
    == r e row + sum_n nk (fun k => sum_n ni (fun i => f k i e row)).
Proof.
  intros H r e row. unfold loops2.
  rewrite (fold_add nat
             (fun k r => fold_left (fun r i => body k i r) (seq 0 ni) r)
             (fun k e row => sum_n ni (fun i => f k i e row))).
  - reflexivity.
  - intros k r' e' row' _.
    rewrite (fold_add nat (fun i r => body k i r) (fun i e row => f k i e row)).
    + reflexivity.
    + intros i r'' e'' row'' _. apply H.
Qed.

Lemma sum_n_pick_out (b : bool) (n : nat) (f : nat -> Q) :
  sum_n n (fun i => pick b (f i)) == pick b (sum_n n f).
Proof.
  destruct b; simpl.
  - reflexivity.
  - apply sum_n_zero. intros. reflexivity.
Qed.

Lemma volume_point_adds (d e k i : nat) (res : res_view) (e' : nat) (row : Z) :
  volume_point d e k i res e' row
  == res e' row
     + pick (e' =? e)%nat
         (pick (row =? offsets wk (e_num th) i)%Z
               (volume_base d e k i
                + pick (have_nsvel th) (volume_nsvel d e k i))).
Proof.
  unfold volume_point. rewrite <- pick_and.
  destruct (have_nsvel th); simpl.
  - rewrite !add_res_spec.
    destruct ((e' =? e)%nat && (row =? offsets wk (e_num th) i)%Z);
      simpl; ring.
  - rewrite add_res_spec.
    destruct ((e' =? e)%nat && (row =? offsets wk (e_num th) i)%Z);
      simpl; ring.
Qed.

(** What [volumeResidual] adds to [res(e,row)], in terms of the two
    [+=] of the branch it takes. *)
Lemma volumeResidual_adds (res : res_view) (e : nat) (row : Z) :
  volumeResidual res e row
  == res e row
     + pick (e <? numElem wk)%nat
         (sum_n (numip wk) (fun k =>
            sum_n (numBasis wk) (fun i =>
              pick (row =? offsets wk (e_num th) i)%Z
                   (volume_base branch e k i
                    + pick (have_nsvel th) (volume_nsvel branch e k i))))).
Proof.
  unfold volumeResidual, loops3.
  rewrite (fold_add nat
             (fun e0 r => loops2 (numip wk) (numBasis wk)
                                 (volume_point branch e0) r)
             (fun e0 e row =>
                pick (e =? e0)%nat
                  (sum_n (numip wk) (fun k =>
                     sum_n (numBasis wk) (fun i =>
                       pick (row =? offsets wk (e_num th) i)%Z
                            (volume_base branch e0 k i
                             + pick (have_nsvel th)
                                    (volume_nsvel branch e0 k i))))))).
  - fold (sum_n (numElem wk)
            (fun e0 => pick (e =? e0)%nat
               (sum_n (numip wk) (fun k =>
                  sum_n (numBasis wk) (fun i =>
                    pick (row =? offsets wk (e_num th) i)%Z
                         (volume_base branch e0 k i
                          + pick (have_nsvel th)
                                 (volume_nsvel branch e0 k i))))))).
    rewrite sum_n_pick. reflexivity.
  - intros e0 r e' row' _.
    rewrite (loops2_add _ _ _
               (fun k i e' row' =>
                  pick (e' =? e0)%nat
                    (pick (row' =? offsets wk (e_num th) i)%Z
                       (volume_base branch e0 k i
                        + pick (have_nsvel th) (volume_nsvel branch e0 k i))))).
    + apply Qplus_inj_l.
      rewrite <- sum_n_pick_out. apply sum_n_ext. intros k _.
      rewrite <- sum_n_pick_out. reflexivity.
    + intros k i r' e'' row''. apply volume_point_adds.
Qed.

Lemma branch_cases : branch = 1%nat \/ branch = 2%nat \/ branch = 3%nat.
Proof.
  unfold branch.
  destruct (spaceDim th =? 1)%Z; [now left|].
  destruct (spaceDim th =? 2)%Z; [right; now left|right; now right].
Qed.

(** In one and two dimensions, and in three without a coupled velocity,
    the two [+=] add the term of the specification. *)
Lemma volume_matches_spec (e k i : nat) :
  branch = 1%nat \/ branch = 2%nat \/ have_nsvel th = false ->
  volume_base branch e k i + pick (have_nsvel th) (volume_nsvel branch e k i)
  == spec_volume_term branch e k i.
Proof.
  intros H. unfold spec_volume_term, volume_base, volume_nsvel, sum_n.
  destruct branch_cases as [Hb|[Hb|Hb]]; rewrite Hb in *; simpl.
  - destruct (have_nsvel th); simpl; ring.
  - destruct (have_nsvel th); simpl; ring.
  - destruct H as [H|[H|H]]; try discriminate. rewrite H. simpl. ring.
Qed.

(** The canonical thermal residual: what [volumeResidual] adds to row
    [row] of element [e] wherever the convective slip of the
    three-dimensional branch is not reached. *)
Lemma volumeResidual_canonical (res : res_view) (e : nat) (row : Z) :
  branch = 1%nat \/ branch = 2%nat \/ have_nsvel th = false ->
  (e < numElem wk)%nat ->
  volumeResidual res e row
  == res e row
     + sum_n (numip wk) (fun k =>
         sum_n (numBasis wk) (fun i =>
           pick (row =? offsets wk (e_num th) i)%Z
                (spec_volume_term branch e k i))).
Proof.
  intros H He. rewrite volumeResidual_adds.
  replace (e <? numElem wk)%nat with true
    by (symmetry; apply Nat.ltb_lt; exact He).
  simpl. apply Qplus_inj_l.
  apply sum_n_ext. intros k _. apply sum_n_ext. intros i _.
  destruct (row =? offsets wk (e_num th) i)%Z; simpl; [|reflexivity].
  now apply volume_matches_spec.
Qed.

(** *** The boundary residual *)

Lemma weak_point_adds (e k i : nat) (res : res_view) (e' : nat) (row : Z) :
  weak_point e k i res e' row
  == res e' row
     + pick (e' =? e)%nat
         (pick (row =? offsets wk (e_num th) i)%Z (spec_nitsche_term e k i)).
Proof.
  unfold weak_point, spec_nitsche_term, ndim, sum_n, nitsche_x, nitsche_dir,
    weakDiriScale, sf.
  rewrite <- pick_and.
  destruct (Z.ltb_spec 2 (spaceDim th)), (Z.ltb_spec 1 (spaceDim th));
    try lia;
    rewrite ?add_res_spec;
    destruct ((e' =? e)%nat && (row =? offsets wk (e_num th) i)%Z);
    simpl; ring.
Qed.

Lemma neumann_point_adds (e k i : nat) (res : res_view) (e' : nat) (row : Z) :
  add_res res e (offsets wk (e_num th) i) (neumann_term e k i) e' row
  == res e' row
     + pick (e' =? e)%nat
         (pick (row =? offsets wk (e_num th) i)%Z (spec_neumann_term e k i)).
Proof.
  rewrite add_res_spec, <- pick_and.
  unfold neumann_term, spec_neumann_term.
  destruct ((e' =? e)%nat && (row =? offsets wk (e_num th) i)%Z);
    simpl; ring.
Qed.

(** What the pass over element [e0] adds. *)
Definition boundary_added (e0 : nat) (row : Z) : Q :=
  if (side_kind e0 =? 2)%Z then
    sum_n (numip_side wk) (fun k =>
      sum_n (numBasis_side wk) (fun i =>
        pick (row =? offsets wk (e_num th) i)%Z (spec_neumann_term e0 k i)))
  else if (side_kind e0 =? 1)%Z then
    sum_n (numip_side wk) (fun k =>
      sum_n (numBasis_side wk) (fun i =>
        pick (row =? offsets wk (e_num th) i)%Z (spec_nitsche_term e0 k i)))
  else 0.

Lemma boundary_elem_adds (e0 : nat) (res : res_view) (e : nat) (row : Z) :
  boundary_elem e0 res e row
  == res e row + pick (e =? e0)%nat (boundary_added e0 row).
Proof.
  unfold boundary_elem, boundary_added.
  destruct (side_kind e0 =? 2)%Z; [|destruct (side_kind e0 =? 1)%Z].
  - rewrite (loops2_add _ _ _
               (fun k i e row =>
                  pick (e =? e0)%nat
                    (pick (row =? offsets wk (e_num th) i)%Z
                          (spec_neumann_term e0 k i)))).
    + apply Qplus_inj_l.
      rewrite <- sum_n_pick_out. apply sum_n_ext. intros k _.
      rewrite <- sum_n_pick_out. reflexivity.
    + intros k i r e' row'. apply neumann_point_adds.
  - rewrite (loops2_add _ _ _
               (fun k i e row =>
                  pick (e =? e0)%nat
                    (pick (row =? offsets wk (e_num th) i)%Z
                          (spec_nitsche_term e0 k i)))).
    + apply Qplus_inj_l.
      rewrite <- sum_n_pick_out. apply sum_n_ext. intros k _.
      rewrite <- sum_n_pick_out. reflexivity.
    + intros k i r e' row'. apply weak_point_adds.
  - destruct (e =? e0)%nat; simpl; ring.
Qed.

Lemma boundaryResidual_adds (res : res_view) (e : nat) (row : Z) :
  boundaryResidual res e row
  == res e row + pick (e <? numElem_side wk)%nat (boundary_added e row).
Proof.
  unfold boundaryResidual.
  rewrite (fold_add nat (fun e0 r => boundary_elem e0 r)
             (fun e0 e row => pick (e =? e0)%nat (boundary_added e0 row))).
  - fold (sum_n (numElem_side wk)
            (fun e0 => pick (e =? e0)%nat (boundary_added e0 row))).
    rewrite sum_n_pick. reflexivity.
  - intros e0 r e' row' _. apply boundary_elem_adds.
Qed.

(** On a side element [e] whose kind is 1 (weak Dirichlet),
    [boundaryResidual] adds, for every side quadrature point [k] and
    every basis function [i], the Nitsche term
    [- kappa du/dn phi - s kappa dphi/dn (u - g) + (10 kappa / h) (u - g) phi]
    to row [offsets(e_num,i)], with [s = 1] in adjoint mode and
    [s = formparam] otherwise, where [g] is the [lambda] of the source:
    the mortar trace on a [-1] neighbour and [0.0] on every other side;
    on one whose kind is 2 (Neumann) it adds [- g_N phi]. *)
Theorem boundaryResidual_nitsche_form (res : res_view) (e : nat) (row : Z)
    (He : (e < numElem_side wk)%nat) :
  (side_kind e = 1%Z ->
   boundaryResidual res e row
   == res e row
      + sum_n (numip_side wk) (fun k =>
          sum_n (numBasis_side wk) (fun i =>
            pick (row =? offsets wk (e_num th) i)%Z
                 (spec_nitsche_term e k i))))
  /\ (side_kind e = 2%Z ->
      boundaryResidual res e row
      == res e row
         + sum_n (numip_side wk) (fun k =>
             sum_n (numBasis_side wk) (fun i =>
               pick (row =? offsets wk (e_num th) i)%Z
                    (spec_neumann_term e k i)))).
Proof.
  assert (Hlt : (e <? numElem_side wk)%nat = true)
    by (apply Nat.ltb_lt; exact He).
  split; intros Hk; rewrite boundaryResidual_adds, Hlt; simpl;
    unfold boundary_added; rewrite Hk; reflexivity.
Qed.

End Residuals.

(** ** An instance with one element, one quadrature point and one basis
    function *)

(** The thermal variable is variable 0, the velocity components are
    variables 1 to 3. *)
Definition demo_thermal (dim : Z) : thermal :=
  setVars ["e"%string; "ux"%string; "uy"%string; "uz"%string]
    {| spaceDim := dim; e_num := 0; ux_num := (-1)%Z; uy_num := (-1)%Z;
       uz_num := (-1)%Z; have_nsvel := false; formparam := 1 |}.

(** [u = 2], [du/dx = 1], [ux = 1], all other values and gradients 0;
    [phi = 1], [grad phi = 0]; on the side [n = (1,0,0)], [h = 1],
    [lambda = 1/2]. *)
Definition demo_workset (kind : Z) : workset :=
  {| numElem := 1; numip := 1; numBasis := 1;
     local_soln := fun e v k c => if (v =? 1)%Z then 1 else 0;
     local_soln_dot := fun e v k c => 0;
     local_soln_grad := fun e v k c =>
       if (v =? 0)%Z && (c =? 0)%nat then 1 else 0;
     basis := fun e i k => 1;
     basis_grad := fun e i k c => 0;
     offsets := fun v i => Z.of_nat i;
     numElem_side := 1; numip_side := 1; numBasis_side := 1;
     sideinfo := fun e v s slot =>
       match slot with O => kind | S O => (-1)%Z | _ => 0%Z end;
     currentside := 0;
     isAdjoint := false;
     local_soln_side := fun e v k c => 2;
     local_soln_grad_side := fun e v k c => if (c =? 0)%nat then 1 else 0;
     local_aux_side := fun e v k => 1 # 2;
     basis_side := fun e i k => 1;
     basis_grad_side := fun e i k c => 0;
     normals := fun e k c => if (c =? 0)%nat then 1 else 0;
     h := fun e => 1 |}.

(** [kappa = 1], [g_N = 3], no source, no heat capacity. *)
Definition demo_coefficients : coefficients :=
  {| source := fun e k => 0; diff := fun e k => 1;
     cp := fun e k => 0; rho := fun e k => 0;
     nsource := fun e k => 3; diff_side := fun e k => 1;
     robin_alpha := fun e k => 0 |}.

Definition zero_res : res_view := fun e row => 0.

(** The same element with a weak Dirichlet side on the outer boundary:
    the second tag is the id of boundary set 0, no neighbour marker. *)
Definition demo_boundary_workset : workset :=
  let wk := demo_workset 1 in
  {| numElem := numElem wk; numip := numip wk; numBasis := numBasis wk;
     local_soln := local_soln wk; local_soln_dot := local_soln_dot wk;
     local_soln_grad := local_soln_grad wk;
     basis := basis wk; basis_grad := basis_grad wk; offsets := offsets wk;
     numElem_side := numElem_side wk; numip_side := numip_side wk;
     numBasis_side := numBasis_side wk;
     sideinfo := fun e v s slot =>
       match slot with O => 1%Z | _ => 0%Z end;
     currentside := currentside wk;
     isAdjoint := isAdjoint wk;
     local_soln_side := local_soln_side wk;
     local_soln_grad_side := local_soln_grad_side wk;
     local_aux_side := local_aux_side wk;
     basis_side := basis_side wk; basis_grad_side := basis_grad_side wk;
     normals := normals wk; h := h wk |}.

Example demo_setVars_detects_velocity :
  have_nsvel (demo_thermal 3) = true /\ ux_num (demo_thermal 3) = 1%Z
  /\ e_num (demo_thermal 3) = 0%nat.
Proof. vm_compute. repeat split. Qed.

(** In two dimensions the convective term [ux du/dx phi = 1] is there. *)
Example demo_volume_2d :
  volumeResidual (demo_thermal 2) (demo_workset 0) demo_coefficients
                 zero_res 0%nat 0%Z == 1.
Proof. vm_compute. reflexivity. Qed.

(** C2: in three dimensions with a coupled velocity the specification's
    term is [v . grad u phi = 1], as in two dimensions, but the loop adds
    products of velocity gradients and basis gradients, here 0. *)
Lemma C2_convection_3d_diverges :
  let th := demo_thermal 3 in
  let wk := demo_workset 0 in
  have_nsvel th = true /\ branch th = 3%nat
  /\ volumeResidual th wk demo_coefficients zero_res 0%nat 0%Z == 0
  /\ zero_res 0%nat 0%Z
     + sum_n (numip wk) (fun k =>
         sum_n (numBasis wk) (fun i =>
           pick (0 =? offsets wk (e_num th) i)%Z
                (spec_volume_term th wk demo_coefficients 3 0 k i)))
     == 1.
Proof.
  vm_compute. repeat split.
Qed.

(** On the instance: a weak Dirichlet side next to a mortar neighbour
    with [kappa = 1], [du/dn = 1], [u - lambda = 3/2], [h = 1] gets
    [-1 + 15 = 14]; a Neumann side with [g_N = 3] gets [-3]. *)
Lemma boundaryResidual_nitsche_form_witness :
  (0 < numElem_side (demo_workset 1))%nat
  /\ boundaryResidual (demo_thermal 3) (demo_workset 1) demo_coefficients
                      zero_res 0%nat 0%Z == 14
  /\ boundaryResidual (demo_thermal 3) (demo_workset 2) demo_coefficients
                      zero_res 0%nat 0%Z == -3.
Proof.
  split; [simpl; lia|]. split.
  - destruct (boundaryResidual_nitsche_form (demo_thermal 3) (demo_workset 1)
                demo_coefficients zero_res 0%nat 0%Z ltac:(simpl; lia))
      as [H _].
    rewrite (H eq_refl). vm_compute. reflexivity.
  - destruct (boundaryResidual_nitsche_form (demo_thermal 3) (demo_workset 2)
                demo_coefficients zero_res 0%nat 0%Z ltac:(simpl; lia))
      as [_ H].
    rewrite (H eq_refl). vm_compute. reflexivity.
Defined.

(** C3: on a weak Dirichlet side of the outer boundary (kind 1, the
    second tag is the boundary-set id 0, not the [-1] neighbour marker)
    whose prescribed value is [g = 2], at a point where [u = 2 = g],
    [kappa = 1], [du/dn = 1], [h = 1], [phi = 1] and [grad phi = 0], the
    form [- kappa du/dn phi - s kappa dphi/dn (u - g) + (10 kappa / h) (u - g) phi]
    is [-1]: the penalty vanishes where [u] meets the datum.
    [boundaryResidual] sets [lambda = 0.0] there, the call that would read
    the Dirichlet value being commented out, and adds [-1 + 10 * 2 = 19],
    whatever value the side prescribes. *)
Lemma C3_weak_dirichlet_ignores_datum :
  let th := demo_thermal 3 in
  let wk := demo_boundary_workset in
  let g : nat -> nat -> Q := fun e k => 2 in
  side_kind th wk 0%nat = 1%Z
  /\ sideinfo wk 0%nat (e_num th) (currentside wk) 1%nat = 0%Z
  /\ local_soln_side wk 0%nat (ev th) 0%nat 0%nat == g 0%nat 0%nat
  /\ lambda th wk 0%nat 0%nat == 0
  /\ boundaryResidual th wk demo_coefficients zero_res 0%nat 0%Z == 19
  /\ zero_res 0%nat 0%Z
     + sum_n (numip_side wk) (fun k =>
         sum_n (numBasis_side wk) (fun i =>
           pick (0 =? offsets wk (e_num th) i)%Z
                (spec_nitsche_datum th wk demo_coefficients g 0%nat k i)))
     == -1
  /\ ~ (boundaryResidual th wk demo_coefficients zero_res 0%nat 0%Z
        == zero_res 0%nat 0%Z
           + sum_n (numip_side wk) (fun k =>
               sum_n (numBasis_side wk) (fun i =>
                 pick (0 =? offsets wk (e_num th) i)%Z
                      (spec_nitsche_datum th wk demo_coefficients g
                                          0%nat k i)))).
Proof.
  vm_compute. repeat split; discriminate.
Qed.

End Thermal.

(** * The subgrid finite element model ([SubGridFEM2]) *)

Module SubGrid.

(** [Kokkos::View<int****>]: side info indexed by (element, variable,
    side, slot); slot 0 is the kind, slot 1 the neighbour marker. *)
Definition sideinfo_view := nat -> nat -> nat -> nat -> Z.

Definition set4 (v : sideinfo_view) (e i j k : nat) (x : Z) : sideinfo_view :=
  fun e' i' j' k' =>
    if (e' =? e)%nat && (i' =? i)%nat && (j' =? j)%nat && (k' =? k)%nat
    then x else v e' i' j' k'.

(** A freshly allocated view holds zeros. *)
Definition fresh_view : sideinfo_view := fun _ _ _ _ => 0%Z.

(** The body of the [j] loop of "Redefine the sideinfo for the subcells":
    copy the slots of (e,i,j), then redefine a weak Dirichlet side. *)
Definition redefine_side (sideinfo : sideinfo_view) (d3 : nat) (e i j : nat)
    (sub : sideinfo_view) : sideinfo_view :=
  let sub1 := fold_left (fun s k => set4 s 0 i j k (sideinfo e i j k))
                        (seq 0 d3) sub in
  if (sub1 0%nat i j 0%nat =? 1)%Z
  then set4 (set4 sub1 0 i j 0 4%Z) 0 i j 1 (-1)%Z
  else sub1.

(** [subsideinfo] of subcell [e]; [d1], [d2], [d3] are
    [sideinfo.dimension(1..3)]. *)
Definition subsideinfo (sideinfo : sideinfo_view) (d1 d2 d3 : nat) (e : nat)
    : sideinfo_view :=
  fold_left
    (fun s i => fold_left (fun s j => redefine_side sideinfo d3 e i j s)
                          (seq 0 d2) s)
    (seq 0 d1) fresh_view.

(** What [addMacro] and [updateFlux] use of a subgrid [cell]. *)
Record cell : Type := {
  c_sideinfo : sideinfo_view;
  c_numElem : nat;
  c_numSides : nat                  (* sideip.size() *)
}.

(** The cells [addMacro] registers for one macro element: one cell of one
    element per entry of the subgrid connectivity, each with its redefined
    side info. *)
Definition addMacro_cells (sideinfo : sideinfo_view) (d1 d2 d3 : nat)
    (connectivity_size numSides : nat) : list cell :=
  map (fun e => {| c_sideinfo := subsideinfo sideinfo d1 d2 d3 e;
                   c_numElem := 1; c_numSides := numSides |})
      (seq 0 connectivity_size).

(** [cost_estimate = 1.0*currcells[0].size()*(currcells[0][0]->numElem)*time_steps] *)
Definition cost_estimate (currcells0 : list cell) (time_steps : Z) : Q :=
  1 * inject_Z (Z.of_nat (length currcells0))
    * inject_Z (Z.of_nat (c_numElem (nth 0 currcells0
                                       {| c_sideinfo := fresh_view;
                                          c_numElem := 0; c_numSides := 0 |})))
    * inject_Z time_steps.

(** ** The final-time flag and [adjPrev] *)

(** [if (abs(current_time - final_time) < 1.0e-12) is_final_time = true] *)
Definition is_final_time (current_time final_time : Q) : bool :=
  Qltb (Qabs (current_time - final_time)) final_time_tol.

(** The head of the cell loop of [subGridNonlinearSolver]: the cell's
    [adjPrev] after it. *)
Definition reset_adjPrev (isAdjoint is_final : bool) (adjPrev : list (list Q))
    : list (list Q) :=
  if isAdjoint
  then if is_final then map (map (fun _ => 0)) adjPrev else adjPrev
  else adjPrev.

(** ** Facts about the redefined side info *)

Section Sideinfo.

Set Default Proof Using "Type".

Variable sideinfo : sideinfo_view.
Variables d1 d2 d3 : nat.
Variable e : nat.

(** The slots of (0,i,j) after the body of the [j] loop has run on [sub]:
    the copied slots, with a kind 1 redefined to kind 4 and marker -1. *)
Definition redefined_from (sub : sideinfo_view) (i j k : nat) : Z :=
  let copied (k : nat) :=
    if (k <? d3)%nat then sideinfo e i j k else sub 0%nat i j k in
  if (copied 0%nat =? 1)%Z
  then (if (k =? 0)%nat then 4 else if (k =? 1)%nat then -1 else copied k)%Z
  else copied k.

Lemma copy_slots (i j : nat) (n : nat) (sub : sideinfo_view)
    (e' i' j' k : nat) :
  fold_left (fun s k => set4 s 0 i j k (sideinfo e i j k)) (seq 0 n) sub
            e' i' j' k
  = if (e' =? 0)%nat && (i' =? i)%nat && (j' =? j)%nat && (k <? n)%nat
    then sideinfo e i j k else sub e' i' j' k.
Proof.
  induction n as [|n IH].
  - simpl. now rewrite andb_false_r.
  - rewrite seq_S, fold_left_app. simpl. unfold set4 at 1. rewrite IH.
    destruct (Nat.eqb_spec e' 0), (Nat.eqb_spec i' i), (Nat.eqb_spec j' j);
      simpl; try reflexivity.
    destruct (Nat.eqb_spec k n) as [->|Hk].
    + replace (n <? S n)%nat with true by (symmetry; apply Nat.ltb_lt; lia).
      reflexivity.
    + replace (k <? S n)%nat with (k <? n)%nat; [reflexivity|].
      destruct (Nat.ltb_spec k n), (Nat.ltb_spec k (S n)); trivial; lia.
Qed.

Lemma set4_spec (v : sideinfo_view) (e0 i j k : nat) (x : Z)
    (e' i' j' k' : nat) :
  set4 v e0 i j k x e' i' j' k'
  = if (e' =? e0)%nat && (i' =? i)%nat && (j' =? j)%nat && (k' =? k)%nat
    then x else v e' i' j' k'.
Proof. reflexivity. Qed.

Lemma redefine_side_spec (i j : nat) (sub : sideinfo_view)
    (e' i' j' k : nat) :
  redefine_side sideinfo d3 e i j sub e' i' j' k
  = if (e' =? 0)%nat && (i' =? i)%nat && (j' =? j)%nat
    then redefined_from sub i j k else sub e' i' j' k.
Proof.
  unfold redefine_side, redefined_from.
  rewrite (copy_slots i j d3 sub 0 i j 0).
  rewrite !Nat.eqb_refl. cbn [andb].
  set (c0 := if (0 <? d3)%nat then sideinfo e i j 0%nat
             else sub 0%nat i j 0%nat).
  destruct (c0 =? 1)%Z; rewrite ?set4_spec, copy_slots;
    destruct ((e' =? 0)%nat && (i' =? i)%nat && (j' =? j)%nat) eqn:Hown;
    cbn [andb]; try reflexivity.
  - apply andb_true_iff in Hown. destruct Hown as [Hown Hj].
    apply andb_true_iff in Hown. destruct Hown as [He Hi].
    apply Nat.eqb_eq in He, Hi, Hj. subst e' i' j'.
    destruct (Nat.eqb_spec k 0), (Nat.eqb_spec k 1); subst;
      try lia; reflexivity.
  - apply andb_true_iff in Hown. destruct Hown as [Hown Hj].
    apply andb_true_iff in Hown. destruct Hown as [He Hi].
    apply Nat.eqb_eq in He, Hi, Hj. subst e' i' j'. reflexivity.
Qed.

Lemma redefined_from_ext (sub sub' : sideinfo_view) (i j k : nat) :
  (forall k, sub 0%nat i j k = sub' 0%nat i j k) ->
  redefined_from sub i j k = redefined_from sub' i j k.
Proof.
  intros H. unfold redefined_from. now rewrite !H.
Qed.

(** The [j] loop for variable [i]. *)
Lemma side_loop_spec (i : nat) (n : nat) (sub : sideinfo_view)
    (e' i' j' k : nat) :
  fold_left (fun s j => redefine_side sideinfo d3 e i j s) (seq 0 n) sub
            e' i' j' k
  = if (e' =? 0)%nat && (i' =? i)%nat && (j' <? n)%nat
    then redefined_from sub i j' k else sub e' i' j' k.
Proof.
  induction n as [|n IH] in e', i', j', k |- *.
  - simpl. now rewrite andb_false_r.
  - rewrite seq_S, fold_left_app. simpl.
    rewrite redefine_side_spec.
    destruct (Nat.eqb_spec e' 0) as [->|He]; cbn [andb];
      [|rewrite IH; replace (e' =? 0)%nat with false
          by (symmetry; now apply Nat.eqb_neq); reflexivity].
    destruct (Nat.eqb_spec i' i) as [->|Hi]; cbn [andb];
      [|rewrite IH; replace (i' =? i)%nat with false
          by (symmetry; now apply Nat.eqb_neq);
        cbn; rewrite ?andb_false_r; reflexivity].
    destruct (Nat.eqb_spec j' n) as [->|Hj].
    + replace (n <? S n)%nat with true by (symmetry; apply Nat.ltb_lt; lia).
      apply redefined_from_ext. intros k'. rewrite IH.
      rewrite !Nat.eqb_refl, Nat.ltb_irrefl. reflexivity.
    + rewrite IH, !Nat.eqb_refl. cbn [andb].
      replace (j' <? S n)%nat with (j' <? n)%nat; [reflexivity|].
      destruct (Nat.ltb_spec j' n), (Nat.ltb_spec j' (S n)); trivial; lia.
Qed.

(** The [i] loop around it. *)
Lemma var_loop_spec (n : nat) (sub : sideinfo_view) (e' i' j' k : nat) :
  fold_left
    (fun s i => fold_left (fun s j => redefine_side sideinfo d3 e i j s)
                          (seq 0 d2) s)
    (seq 0 n) sub e' i' j' k
  = if (e' =? 0)%nat && (i' <? n)%nat && (j' <? d2)%nat
    then redefined_from sub i' j' k else sub e' i' j' k.
Proof.
  induction n as [|n IH] in e', i', j', k |- *.
  - simpl. now rewrite andb_false_r.
  - rewrite seq_S, fold_left_app. simpl.
    rewrite side_loop_spec.
    destruct (Nat.eqb_spec e' 0) as [->|He]; cbn [andb];
      [|rewrite IH; replace (e' =? 0)%nat with false
          by (symmetry; now apply Nat.eqb_neq); reflexivity].
    destruct (Nat.eqb_spec i' n) as [->|Hi]; cbn [andb].
    + replace (n <? S n)%nat with true by (symmetry; apply Nat.ltb_lt; lia).
      cbn [andb].
      destruct (j' <? d2)%nat.
      * apply redefined_from_ext. intros k'. rewrite IH.
        rewrite Nat.ltb_irrefl. rewrite andb_false_r. reflexivity.
      * rewrite IH, Nat.ltb_irrefl, andb_false_r. reflexivity.
    + rewrite IH. cbn [andb Nat.eqb].
      replace (i' <? S n)%nat with (i' <? n)%nat; [reflexivity|].
      destruct (Nat.ltb_spec i' n), (Nat.ltb_spec i' (S n)); trivial; lia.
Qed.

(** [subsideinfo] slot by slot. *)
Lemma subsideinfo_spec (e' i j k : nat) :
  subsideinfo sideinfo d1 d2 d3 e e' i j k
  = if (e' =? 0)%nat && (i <? d1)%nat && (j <? d2)%nat
    then redefined_from fresh_view i j k else 0%Z.
Proof.
  unfold subsideinfo. rewrite var_loop_spec. reflexivity.
Qed.

End Sideinfo.

(** ** [SubGridFEM2::updateFlux] *)

Section UpdateFlux.

Set Default Proof Using "Type".

Variable cells : list cell.                       (* cells[usernum] *)
Variable flux : nat -> nat -> nat -> nat -> nat -> Q.
    (* wkset[0]->flux(c,n,i) after computeFlux on cell e, side s *)
Variable cwts : nat -> nat -> nat -> nat -> Q.    (* wts_side(c,i) on (e,s) *)
Variable auxside_basis : nat -> nat -> nat -> nat -> nat -> nat -> Q.
    (* auxside_basis[s][macrowkset.usebasis[n]](c,j,i) of cell e *)
Variable mortar_dim1 : nat -> nat -> nat -> nat.  (* its dimension(1) *)
Variable mortar_dim2 : nat -> nat -> nat -> nat.  (* its dimension(2) *)
Variable nummacroVars : nat.
Variable macro_offsets : nat -> nat -> Z.         (* macrowkset.offsets(n,j) *)
Variable macroelemindex : nat.
Variable fwt : Q.

Definition dummy_cell : cell :=
  {| c_sideinfo := fresh_view; c_numElem := 0; c_numSides := 0 |}.

Definition cell_at (e : nat) : cell := nth e cells dummy_cell.

(** [sideinfo(c,n,s,1) == -1] on cell [e]. *)
Definition marked (e c n s : nat) : bool :=
  (c_sideinfo (cell_at e) c n s 1%nat =? -1)%Z.

Definition flux_term (e s c n j i : nat) : Q :=
  auxside_basis e s n c j i * flux e s c n i * cwts e s c i * fwt.

(** The projection loops for element [c] and macro variable [n]. *)
Definition project (e s c n : nat) (res : res_view) : res_view :=
  if marked e c n s
  then fold_left
         (fun r j =>
            fold_left
              (fun r i => add_res r macroelemindex (macro_offsets n j)
                                  (flux_term e s c n j i))
              (seq 0 (mortar_dim2 e s n)) r)
         (seq 0 (mortar_dim1 e s n)) res
  else res.

Definition update_side (e s : nat) (res : res_view) : res_view :=
  if marked e 0 0 s
  then fold_left
         (fun r c => fold_left (fun r n => project e s c n r)
                               (seq 0 nummacroVars) r)
         (seq 0 (c_numElem (cell_at e))) res
  else res.

(** The new content of [macrowkset.res]. *)
Definition updateFlux (res : res_view) : res_view :=
  fold_left
    (fun r e => fold_left (fun r s => update_side e s r)
                          (seq 0 (c_numSides (cell_at e))) r)
    (seq 0 (length cells)) res.

(** What the projection adds to [macrowkset.res(m,row)]: only terms of
    sides whose neighbour marker is [-1], both for (element 0, variable 0)
    and for the element and variable projected. *)
Definition projected (e s c n : nat) (m : nat) (row : Z) : Q :=
  pick (marked e c n s)
    (sum_n (mortar_dim1 e s n) (fun j =>
       sum_n (mortar_dim2 e s n) (fun i =>
         pick ((m =? macroelemindex)%nat && (row =? macro_offsets n j)%Z)
              (flux_term e s c n j i)))).

Definition side_flux (e s : nat) (m : nat) (row : Z) : Q :=
  pick (marked e 0 0 s)
    (sum_n (c_numElem (cell_at e)) (fun c =>
       sum_n nummacroVars (fun n => projected e s c n m row))).

Definition flux_projection (m : nat) (row : Z) : Q :=
  sum_n (length cells) (fun e =>
    sum_n (c_numSides (cell_at e)) (fun s => side_flux e s m row)).

Lemma fold2_add (n1 : nat) (n2 : nat -> nat)
    (body : nat -> nat -> res_view -> res_view)
    (f : nat -> nat -> nat -> Z -> Q) :
  (forall a b r m row, body a b r m row == r m row + f a b m row) ->
  forall r m row,
    fold_left (fun r a => fold_left (fun r b => body a b r) (seq 0 (n2 a)) r)
              (seq 0 n1) r m row
    == r m row + sum_n n1 (fun a => sum_n (n2 a) (fun b => f a b m row)).
Proof.
  intros H r m row.
  rewrite (fold_add nat
             (fun a r => fold_left (fun r b => body a b r) (seq 0 (n2 a)) r)
             (fun a m row => sum_n (n2 a) (fun b => f a b m row))).
  - reflexivity.
  - intros a r' m' row' _.
    rewrite (fold_add nat (fun b r => body a b r) (fun b m row => f a b m row)).
    + reflexivity.
    + intros b r'' m'' row'' _. apply H.
Qed.

Lemma project_adds (e s c n : nat) (r : res_view) (m : nat) (row : Z) :
  project e s c n r m row == r m row + projected e s c n m row.
Proof.
  unfold project, projected. destruct (marked e c n s); simpl; [|ring].
  apply (fold2_add (mortar_dim1 e s n) (fun _ => mortar_dim2 e s n)
           (fun j i r => add_res r macroelemindex (macro_offsets n j)
                                 (flux_term e s c n j i))
           (fun j i m row =>
              pick ((m =? macroelemindex)%nat && (row =? macro_offsets n j)%Z)
                   (flux_term e s c n j i))).
  intros j i r' m' row'. apply add_res_spec.
Qed.

Lemma update_side_adds (e s : nat) (r : res_view) (m : nat) (row : Z) :
  update_side e s r m row == r m row + side_flux e s m row.
Proof.
  unfold update_side, side_flux. destruct (marked e 0 0 s); simpl; [|ring].
  apply (fold2_add (c_numElem (cell_at e)) (fun _ => nummacroVars)
           (fun c n r => project e s c n r)
           (fun c n m row => projected e s c n m row)).
  intros c n r' m' row'. apply project_adds.
Qed.

Lemma updateFlux_adds (r : res_view) (m : nat) (row : Z) :
  updateFlux r m row == r m row + flux_projection m row.
Proof.
  unfold updateFlux, flux_projection.
  apply (fold2_add (length cells) (fun e => c_numSides (cell_at e))
           (fun e s r => update_side e s r)
           (fun e s m row => side_flux e s m row)).
  intros e s r' m' row'. apply update_side_adds.
Qed.

(** Without a side marked [-1] nothing is projected. *)
Lemma flux_projection_unmarked (m : nat) (row : Z) :
  (forall e s, (e < length cells)%nat -> (s < c_numSides (cell_at e))%nat ->
               marked e 0 0 s = false) ->
  flux_projection m row == 0.
Proof.
  intros H. unfold flux_projection.
  apply sum_n_zero. intros e He. apply sum_n_zero. intros s Hs.
  unfold side_flux. rewrite (H e s He Hs). reflexivity.
Qed.

End UpdateFlux.

(** ** The claims about the subgrid model *)

Lemma nth_addMacro_cells (sideinfo : sideinfo_view) (d1 d2 d3 : nat)
    (n numSides e : nat) :
  (e < n)%nat ->
  nth e (addMacro_cells sideinfo d1 d2 d3 n numSides) dummy_cell
  = {| c_sideinfo := subsideinfo sideinfo d1 d2 d3 e;
       c_numElem := 1; c_numSides := numSides |}.
Proof.
  intros H. unfold addMacro_cells.
  rewrite (nth_indep _ dummy_cell
             {| c_sideinfo := subsideinfo sideinfo d1 d2 d3 0;
                c_numElem := 1; c_numSides := numSides |})
    by (rewrite length_map, length_seq; exact H).
  rewrite (map_nth (fun e => {| c_sideinfo := subsideinfo sideinfo d1 d2 d3 e;
                                c_numElem := 1; c_numSides := numSides |})
                   (seq 0 n) 0%nat e).
  rewrite seq_nth by exact H. reflexivity.
Qed.

(** The cost estimate of a subgrid model is its number of elements times
    its number of time steps. *)
Lemma cost_estimate_addMacro (sideinfo : sideinfo_view) (d1 d2 d3 : nat)
    (n numSides : nat) (time_steps : Z) :
  (0 < n)%nat ->
  let cells := addMacro_cells sideinfo d1 d2 d3 n numSides in
  cost_estimate cells time_steps
  == inject_Z (Z.of_nat (fold_right (fun c acc => (c_numElem c + acc)%nat)
                                    0%nat cells))
     * inject_Z time_steps.
Proof.
  intros Hn cells. unfold cost_estimate.
  change {| c_sideinfo := fresh_view; c_numElem := 0; c_numSides := 0 |}
    with dummy_cell.
  unfold cells at 2. rewrite nth_addMacro_cells by exact Hn. cbn [c_numElem].
  assert (Hlen : length cells = n)
    by (unfold cells, addMacro_cells; now rewrite length_map, length_seq).
  assert (Hsum : fold_right (fun c acc => (c_numElem c + acc)%nat) 0%nat cells
                 = n).
  { unfold cells, addMacro_cells. clear Hlen Hn cells.
    assert (Hgen : forall len start,
      fold_right (fun c acc => (c_numElem c + acc)%nat) 0%nat
        (map (fun e => {| c_sideinfo := subsideinfo sideinfo d1 d2 d3 e;
                          c_numElem := 1; c_numSides := numSides |})
             (seq start len)) = len).
    { induction len as [|len IH]; intros start; simpl; [reflexivity|].
      now rewrite IH. }
    apply Hgen. }
  rewrite Hlen, Hsum. simpl. ring.
Qed.

(** C10. When a macro element is registered, every side of a subcell whose
    inherited kind is 1 gets kind 4 and neighbour marker -1, every other
    side keeps its slots, and no side of a registered cell has kind 1; so
    the thermal boundary residual on such a cell never enters its weak
    Dirichlet branch and adds nothing on a side that was weak Dirichlet.
    [updateFlux] adds to the macro residual exactly the projected flux of
    the sides whose marker is -1. *)
Theorem C10_macro_sides_redefined
    (sideinfo : sideinfo_view) (d1 d2 d3 : nat) (e i j : nat)
    (Hi : (i < d1)%nat) (Hj : (j < d2)%nat) (Hd : (0 < d3)%nat) :
  let sub := subsideinfo sideinfo d1 d2 d3 e in
  (sideinfo e i j 0%nat = 1%Z ->
   sub 0%nat i j 0%nat = 4%Z /\ sub 0%nat i j 1%nat = (-1)%Z
   /\ forall k, (2 <= k < d3)%nat -> sub 0%nat i j k = sideinfo e i j k)
  /\ (sideinfo e i j 0%nat <> 1%Z ->
      forall k, (k < d3)%nat -> sub 0%nat i j k = sideinfo e i j k)
  /\ sub 0%nat i j 0%nat <> 1%Z
  /\ (forall n numSides, (e < n)%nat ->
        c_sideinfo (nth e (addMacro_cells sideinfo d1 d2 d3 n numSides)
                        dummy_cell) = sub)
  /\ (forall (th : Thermal.thermal) (wk : Thermal.workset)
             (cf : Thermal.coefficients) (res : res_view) (row : Z),
        Thermal.sideinfo wk = sub -> Thermal.e_num th = i ->
        Thermal.currentside wk = j ->
        Thermal.side_kind th wk 0 <> 1%Z
        /\ (sideinfo e i j 0%nat = 1%Z ->
            Thermal.boundaryResidual th wk cf res 0%nat row == res 0%nat row))
  /\ (forall cells flux cwts auxside_basis mortar_dim1 mortar_dim2
             nummacroVars macro_offsets macroelemindex fwt res m row,
        updateFlux cells flux cwts auxside_basis mortar_dim1 mortar_dim2
                   nummacroVars macro_offsets macroelemindex fwt res m row
        == res m row
           + flux_projection cells flux cwts auxside_basis mortar_dim1
               mortar_dim2 nummacroVars macro_offsets macroelemindex fwt
               m row).
Proof.
  intros sub.
  assert (Hsub : forall k, sub 0%nat i j k = redefined_from sideinfo d3 e fresh_view i j k).
  { intros k. unfold sub. rewrite subsideinfo_spec.
    replace (i <? d1)%nat with true by (symmetry; now apply Nat.ltb_lt).
    replace (j <? d2)%nat with true by (symmetry; now apply Nat.ltb_lt).
    reflexivity. }
  assert (Hd3 : (0 <? d3)%nat = true) by now apply Nat.ltb_lt.
  assert (Hkind1 : sideinfo e i j 0%nat = 1%Z -> sub 0%nat i j 0%nat = 4%Z).
  { intros H1. rewrite Hsub. unfold redefined_from. rewrite Hd3, H1.
    reflexivity. }
  assert (Hnot1 : sub 0%nat i j 0%nat <> 1%Z).
  { destruct (Z.eq_dec (sideinfo e i j 0%nat) 1) as [H1|H1].
    - rewrite (Hkind1 H1). discriminate.
    - rewrite Hsub. unfold redefined_from. rewrite Hd3.
      replace (sideinfo e i j 0%nat =? 1)%Z with false
        by (symmetry; now apply Z.eqb_neq).
      exact H1. }
  split; [|split; [|split; [|split; [|split]]]].
  - intros H1. split; [now apply Hkind1|]. split.
    + rewrite Hsub. unfold redefined_from. rewrite Hd3, H1. reflexivity.
    + intros k Hk. rewrite Hsub. unfold redefined_from. rewrite Hd3, H1.
      cbn [Z.eqb Pos.eqb].
      replace (k =? 0)%nat with false by (symmetry; apply Nat.eqb_neq; lia).
      replace (k =? 1)%nat with false by (symmetry; apply Nat.eqb_neq; lia).
      replace (k <? d3)%nat with true by (symmetry; apply Nat.ltb_lt; lia).
      reflexivity.
  - intros H1 k Hk. rewrite Hsub. unfold redefined_from. rewrite Hd3.
    replace (sideinfo e i j 0%nat =? 1)%Z with false
      by (symmetry; now apply Z.eqb_neq).
    replace (k <? d3)%nat with true by (symmetry; apply Nat.ltb_lt; lia).
    reflexivity.
  - exact Hnot1.
  - intros n numSides Hn. rewrite nth_addMacro_cells by exact Hn. reflexivity.
  - intros th wk cf res row Hs He Hc.
    assert (Hk : Thermal.side_kind th wk 0 = sub 0%nat i j 0%nat).
    { unfold Thermal.side_kind. now rewrite Hs, He, Hc. }
    split; [rewrite Hk; exact Hnot1|].
    intros H1. rewrite Thermal.boundaryResidual_adds.
    unfold Thermal.boundary_added. rewrite Hk, (Hkind1 H1).
    change (4 =? 2)%Z with false. change (4 =? 1)%Z with false.
    unfold pick. destruct (0 <? Thermal.numElem_side wk)%nat; ring.
  - intros. apply updateFlux_adds.
Qed.

(** An instance: one variable, two sides, four slots; side 0 is weak
    Dirichlet on boundary set 7, side 1 is Neumann. *)
Definition demo_sideinfo : sideinfo_view :=
  fun e i j k =>
    match k with
    | O => if (j =? 0)%nat then 1%Z else 2%Z
    | S O => 7%Z
    | _ => 0%Z
    end.

Lemma C10_macro_sides_redefined_witness :
  (0 < 1)%nat /\ (0 < 2)%nat /\ (0 < 4)%nat
  /\ subsideinfo demo_sideinfo 1 2 4 0 0%nat 0%nat 0%nat 0%nat = 4%Z
  /\ subsideinfo demo_sideinfo 1 2 4 0 0%nat 0%nat 0%nat 1%nat = (-1)%Z
  /\ subsideinfo demo_sideinfo 1 2 4 0 0%nat 0%nat 0%nat 0%nat <> 1%Z.
Proof.
  split; [lia|]. split; [lia|]. split; [lia|].
  destruct (C10_macro_sides_redefined demo_sideinfo 1 2 4 0 0 0
              ltac:(lia) ltac:(lia) ltac:(lia)) as (H & _ & Hn & _).
  destruct (H eq_refl) as (H0 & H1 & _).
  repeat split; assumption.
Defined.

Example demo_subsideinfo_neumann_side_kept :
  subsideinfo demo_sideinfo 1 2 4 0 0%nat 0%nat 1%nat 0%nat = 2%Z
  /\ subsideinfo demo_sideinfo 1 2 4 0 0%nat 0%nat 1%nat 1%nat = 7%Z.
Proof. vm_compute. split; reflexivity. Qed.

End SubGrid.

(** * The solver interface ([solverInterface.cpp]) *)

Module Solver.

(** The members of [class solver] read by the modelled functions: the
    settings fixed by the constructor and the flags the drivers flip. *)
Record solver : Type := {
  NLtol : Q;
  MaxNLiter : Z;
  NLsolver_is_AA : bool;          (* NLsolver == "AA" *)
  usestrongDBCs : bool;
  verbosity : Z;
  rank : Z;                       (* Comm->getRank() *)
  isTransient : bool;
  numsteps : Z;
  finaltime : Q;
  time_order : Z;
  allow_remesh : bool;
  compute_objective : bool;
  num_local_rows : nat;           (* LA_ownedAndShared.size() *)
  solvetimes0 : Q;                (* solvetimes[0] *)
  useDirect : bool;
  useDomDecomp : bool;
  usePrec : bool;
  dropTol : Q;
  fillParam : Q;
  useadjoint : bool;
  current_time : Q;
  is_final_time : bool;
  store_adjPrev : bool;
  gNLiter : Z
}.

Definition set_time (t : Q) (f : bool) (sv : solver) : solver :=
  {| NLtol := NLtol sv; MaxNLiter := MaxNLiter sv;
     NLsolver_is_AA := NLsolver_is_AA sv; usestrongDBCs := usestrongDBCs sv;
     verbosity := verbosity sv; rank := rank sv;
     isTransient := isTransient sv; numsteps := numsteps sv;
     finaltime := finaltime sv; time_order := time_order sv;
     allow_remesh := allow_remesh sv;
     compute_objective := compute_objective sv;
     num_local_rows := num_local_rows sv; solvetimes0 := solvetimes0 sv;
     useDirect := useDirect sv; useDomDecomp := useDomDecomp sv;
     usePrec := usePrec sv; dropTol := dropTol sv; fillParam := fillParam sv;
     useadjoint := useadjoint sv;
     current_time := t; is_final_time := f;
     store_adjPrev := store_adjPrev sv; gNLiter := gNLiter sv |}.

Definition set_newton_members (sap : bool) (g : Z) (sv : solver) : solver :=
  {| NLtol := NLtol sv; MaxNLiter := MaxNLiter sv;
     NLsolver_is_AA := NLsolver_is_AA sv; usestrongDBCs := usestrongDBCs sv;
     verbosity := verbosity sv; rank := rank sv;
     isTransient := isTransient sv; numsteps := numsteps sv;
     finaltime := finaltime sv; time_order := time_order sv;
     allow_remesh := allow_remesh sv;
     compute_objective := compute_objective sv;
     num_local_rows := num_local_rows sv; solvetimes0 := solvetimes0 sv;
     useDirect := useDirect sv; useDomDecomp := useDomDecomp sv;
     usePrec := usePrec sv; dropTol := dropTol sv; fillParam := fillParam sv;
     useadjoint := useadjoint sv;
     current_time := current_time sv; is_final_time := is_final_time sv;
     store_adjPrev := sap; gNLiter := g |}.

(** The argument list of [assembler->assembleJacRes]. *)
Record asm_args : Type := {
  a_u : vec; a_u_dot : vec; a_phi : vec; a_phi_dot : vec;
  a_alpha : Q; a_beta : Q;
  a_build_jacobian : bool; a_compute_sens : bool; a_compute_disc_sens : bool;
  a_isTransient : bool; a_current_time : Q;
  a_useadjoint : bool; a_store_adjPrev : bool; a_is_final_time : bool
}.

(** ** Sensitivities: what every rank holds when the gradient is formed *)

Record rank_input : Type := {
  r_owned : nat;                    (* LA_owned.size() *)
  r_a2 : vec;                       (* a2_kv(i,0) *)
  r_res : multivec;                 (* res_kv(i,p): column p of the exported residual *)
  r_multiscale : bool;              (* assembler->cells[0][0]->multiscale *)
  r_subgradient : list (list vec);  (* cells[b][e]->subgradient(0,p) *)
  r_J : matrix;                     (* the exported parameter-map Jacobian: one row per
                                       owned parameter DOF, one column per residual row *)
  r_paramOwned : list nat           (* params->paramOwned *)
}.

Record sens_input : Type := {
  s_ranks : list rank_input;
  s_obj_sens : list Q;              (* obj_sens.fastAccessDx(j), j < obj_sens.size() *)
  s_num_active_params : nat;
  s_numDiscParams : nat             (* params->getNumParams(4) *)
}.

(** [Teuchos::reduceAll] with REDUCE_SUM / REDUCE_MIN / REDUCE_MAX over the
    value of this rank and those of the other ranks. *)
Definition reduceAll (op : Q -> Q -> Q) (mine : Q) (others : list Q) : Q :=
  fold_left op others mine.

Definition reduceAll_sum (vals : list Q) : Q := Qsum vals.

(** [for (i < LA_owned.size()) currsens += a2_kv(i,0) * res_kv(i,p)] *)
Definition currsens (owned : nat) (a2 resp : vec) : Q :=
  Qsum (map (fun i => nth i a2 0 * nth i resp 0) (seq 0 owned)).

(** [localsens[paramiter]] of one rank in the per-step routine. *)
Definition localsens (r : rank_input) (p : nat) : Q :=
  if r_multiscale r
  then fold_left (fun acc row0 => acc + - nth p row0 0)
                 (concat (r_subgradient r)) 0
  else - currsens (r_owned r) (r_a2 r) (nth p (r_res r) []).

(** [obj_sens.fastAccessDx(j)] when [j < obj_sens.size()], else [0.0]. *)
Definition cobj (obj_sens : list Q) (j : nat) : Q :=
  if (j <? length obj_sens)%nat then nth j obj_sens 0 else 0.

(** [gradient.push_back(v)] when [gradient.size() <= idx], else
    [gradient[idx] += v]. *)
Fixpoint add_at (idx : nat) (v : Q) (g : list Q) : list Q :=
  match g, idx with
  | [], _ => []
  | x :: g', O => (x + v) :: g'
  | x :: g', S i => x :: add_at i v g'
  end.

Definition accumulate (g : list Q) (idx : nat) (v : Q) : list Q :=
  if (length g <=? idx)%nat then g ++ [v] else add_at idx v g.

(** The scalar-parameter half of the per-step [computeSensitivities]. *)
Definition scalar_globalval (si : sens_input) (p : nat) : Q :=
  reduceAll_sum (map (fun r => localsens r p) (s_ranks si))
  + cobj (s_obj_sens si) p.

Definition scalar_sensitivities (si : sens_input) (gradient : list Q) : list Q :=
  if (0 <? s_num_active_params si)%nat
  then fold_left (fun g p => accumulate g p (scalar_globalval si p))
                 (seq 0 (s_num_active_params si)) gradient
  else gradient.

(** [J->apply(a, sens)]: the rows a rank owns times the distributed
    vector (the exporter has summed the rows, the apply imports the
    entries of [a] it needs). *)
Definition a_global (ranks : list rank_input) : vec :=
  concat (map (fun r => firstn (r_owned r) (r_a2 r)) ranks).

Definition apply (J : matrix) (a : vec) : vec := map (fun row => dot row a) J.

(** [discLocalGradient[gid] = sens_kv(i,0)] for [i < paramOwned.size()]. *)
Fixpoint set_at (idx : nat) (v : Q) (g : list Q) : list Q :=
  match g, idx with
  | [], _ => []
  | _ :: g', O => v :: g'
  | x :: g', S i => x :: set_at i v g'
  end.

Definition discLocalGradient (numParams : nat) (paramOwned : list nat)
    (sens : vec) : list Q :=
  fold_left (fun g i => set_at (nth i paramOwned O) (nth i sens 0) g)
            (seq 0 (length paramOwned)) (repeat 0 numParams).

Definition disc_local (si : sens_input) (r : rank_input) : list Q :=
  discLocalGradient (s_numDiscParams si) (r_paramOwned r)
                    (apply (r_J r) (a_global (s_ranks si))).

Definition disc_globalval (si : sens_input) (i : nat) : Q :=
  reduceAll_sum (map (fun r => nth i (disc_local si r) 0) (s_ranks si))
  + cobj (s_obj_sens si) (i + s_num_active_params si).

Definition disc_sensitivities (si : sens_input) (gradient : list Q) : list Q :=
  if (0 <? s_numDiscParams si)%nat
  then fold_left
         (fun g i => accumulate g (s_num_active_params si + i)
                                (disc_globalval si i))
         (seq 0 (s_numDiscParams si)) gradient
  else gradient.

(** [solver::computeSensitivities(u, u_dot, a2, gradient, alpha, beta)]. *)
Definition computeSensitivities (si : sens_input) (gradient : list Q) : list Q :=
  disc_sensitivities si (scalar_sensitivities si gradient).

(** ** The trajectory-level sensitivity routines *)

Record rank_traj : Type := {
  rt_owned : nat;                   (* LA_owned.size() *)
  rt_GA : multivec;                 (* GA_soln / A_soln, one column per time *)
  rt_res : nat -> multivec;         (* exported residual of the pass of step timeiter *)
  rt_J : nat -> matrix;             (* exported parameter-map Jacobian of step timeiter *)
  rt_paramOwned : list nat
}.

(** [nsteps = 1; if (isTransient) nsteps = solvetimes.size()-1]. *)
Definition nsteps_of (transient : bool) (solvetimes_size : nat) : nat :=
  if transient then (solvetimes_size - 1)%nat else 1%nat.

(** [a2_kv(i,0) = GA_kv(i, nsteps-timeiter)] (transient) or
    [GA_kv(i, nsteps-timeiter-1)] (steady). *)
Definition a2_at (transient : bool) (nsteps : nat) (r : rank_traj)
    (timeiter : nat) : vec :=
  let col := if transient
             then (Z.of_nat nsteps - Z.of_nat timeiter)%Z
             else (Z.of_nat nsteps - Z.of_nat timeiter - 1)%Z in
  tabulate (rt_owned r) (fun i => kv (rt_GA r) i col).

(** [localsens[paramiter] -= currsens] over the time steps. *)
Definition localsens_traj (transient : bool) (nsteps : nat) (r : rank_traj)
    (p : nat) : Q :=
  fold_left
    (fun acc t => acc - currsens (rt_owned r) (a2_at transient nsteps r t)
                                 (nth p (rt_res r t) []))
    (seq 0 nsteps) 0.

(** [solver::computeSensitivities(GF_soln, GA_soln)]: the returned vector. *)
Definition computeSensitivities_traj (transient : bool) (solvetimes_size : nat)
    (num_active_params : nat) (ranks : list rank_traj) : list Q :=
  let nsteps := nsteps_of transient solvetimes_size in
  map (fun p => reduceAll_sum
                  (map (fun r => localsens_traj transient nsteps r p) ranks))
      (seq 0 num_active_params).

Fixpoint vadd (x y : vec) : vec :=
  match x, y with
  | xi :: x', yi :: y' => (xi + yi) :: vadd x' y'
  | _, _ => x
  end.

Definition a_global_at (transient : bool) (nsteps : nat)
    (ranks : list rank_traj) (t : nat) : vec :=
  concat (map (fun r => a2_at transient nsteps r t) ranks).

(** [totalsens->update(1.0, *sens, 1.0)] over the time steps, starting from
    the zero vector on the owned parameter rows. *)
Definition totalsens (transient : bool) (nsteps : nat)
    (ranks : list rank_traj) (r : rank_traj) : vec :=
  fold_left
    (fun acc t => vadd acc (apply (rt_J r t)
                                  (a_global_at transient nsteps ranks t)))
    (seq 0 nsteps) (repeat 0 (length (rt_paramOwned r))).

(** [solver::computeDiscretizedSensitivities(F_soln, A_soln)]. *)
Definition computeDiscretizedSensitivities (transient : bool)
    (solvetimes_size : nat) (numParams : nat) (ranks : list rank_traj)
    : list Q :=
  let nsteps := nsteps_of transient solvetimes_size in
  map (fun i =>
         reduceAll_sum
           (map (fun r => nth i (discLocalGradient numParams (rt_paramOwned r)
                                   (totalsens transient nsteps ranks r)) 0)
                ranks))
      (seq 0 numParams).

(** ** The Epetra linear solver: the domain-decomposition preconditioner *)

Record az_params : Type := {
  AZ_drop : Q; AZ_ilut_fill : Q; AZ_athresh : Q; AZ_rthresh : Q
}.

Definition set_thresh (a r : Q) (p : az_params) : az_params :=
  {| AZ_drop := AZ_drop p; AZ_ilut_fill := AZ_ilut_fill p;
     AZ_athresh := a; AZ_rthresh := r |}.

(** [condest > 1.e13 || condest < 1.0] *)
Definition poor_condest (condest : Q) : bool :=
  Qltb condest_max condest || Qltb condest 1.

Record prec_setup : Type := {
  constructed : list az_params;     (* every ConstructPreconditioner call, in order *)
  destroyed : nat;                  (* DestroyPreconditioner calls *)
  condest : Q;                      (* the last estimate *)
  final_params : az_params;
  p_cout : list message
}.

Section LinearSolverEpetra.

Set Default Proof Using "Type".

(** [linsolver.ConstructPreconditioner(condest)] for the current options. *)
Variable ConstructPreconditioner : az_params -> Q.

Definition lo5 : Q := 1 # 100000.   (* 1.e-5 *)
Definition lo2 : Q := 1 # 100.      (* 1.e-2 and 0.01 *)

(** The [useDomDecomp] branch of
    [solver::linearSolver(Epetra_CrsMatrix, ...)]. *)
Definition domDecompPreconditioner (sv : solver) (defaults : az_params)
    : prec_setup :=
  let p0 := {| AZ_drop := dropTol sv; AZ_ilut_fill := fillParam sv;
               AZ_athresh := AZ_athresh defaults;
               AZ_rthresh := AZ_rthresh defaults |} in
  let c0 := ConstructPreconditioner p0 in
  if poor_condest c0 then
    let p1 := set_thresh lo5 0 p0 in
    let c1 := ConstructPreconditioner p1 in
    if poor_condest c1 then
      let p2 := set_thresh lo5 lo2 p1 in
      let c2 := ConstructPreconditioner p2 in
      if poor_condest c2 then
        let p3 := set_thresh lo2 0 p2 in
        let c3 := ConstructPreconditioner p3 in
        if poor_condest c3 then
          let p4 := set_thresh lo2 lo2 p3 in
          let c4 := ConstructPreconditioner p4 in
          {| constructed := [p0; p1; p2; p3; p4]; destroyed := 4;
             condest := c4; final_params := p4;
             p_cout := if Qltb condest_max c4
                       then [MsgSadPreconditioner c4] else [] |}
        else {| constructed := [p0; p1; p2; p3]; destroyed := 3;
                condest := c3; final_params := p3; p_cout := [] |}
      else {| constructed := [p0; p1; p2]; destroyed := 2;
              condest := c2; final_params := p2; p_cout := [] |}
    else {| constructed := [p0; p1]; destroyed := 1;
            condest := c1; final_params := p1; p_cout := [] |}
  else {| constructed := [p0]; destroyed := 0;
          condest := c0; final_params := p0; p_cout := [] |}.

(** The thresholds the re-setups use, in the order of the source. *)
Definition cascade : list (Q * Q) :=
  [(lo5, 0); (lo5, lo2); (lo2, 0); (lo2, lo2)].

Definition thresholds (p : az_params) : Q * Q := (AZ_athresh p, AZ_rthresh p).

(** Which of the three solves the Epetra overload runs, and with which
    preconditioner set-up. *)
Inductive epetra_solve : Type :=
| DirectKlu
| GmresDomDecomp (setup : prec_setup)
| GmresMultiLevel
| GmresNoPrec.

Definition linearSolver_epetra (sv : solver) (defaults : az_params)
    : epetra_solve :=
  if useDirect sv then DirectKlu
  else if useDomDecomp sv
       then GmresDomDecomp (domDecompPreconditioner sv defaults)
       else if usePrec sv then GmresMultiLevel else GmresNoPrec.

End LinearSolverEpetra.

(** ** The Newton loop and the time loop *)

Section Model.

Set Default Proof Using "Type".

(** Everything the assembler, the parameter manager, the mesh and the
    multiscale manager keep between calls. *)
Variable World : Type.

(** Collaborators outside the modelled file. *)
Variable assembleJacRes : World -> asm_args -> World * (multivec * matrix).
Variable exportVec : vec -> vec.        (* doExport(.., Tpetra::ADD) into a zeroed vector *)
Variable exportMat : matrix -> matrix.
Variable importVec : vec -> vec.        (* doImport(.., Tpetra::ADD) *)
Variable linearSolver : matrix -> vec -> vec.   (* the Tpetra overload *)
Variable setDirichlet : World -> vec -> vec.
Variable multiscale_update : World -> World * (Q * list Q).
    (* multiscale_manager->update() on this rank and on the others *)
Variable remesh : World -> vec -> World.
Variable sacadoizeParams : bool -> World -> World.
Variable computeObjective : World -> vec -> Q -> Z -> Q.
Variable sens_view :
  World -> solver -> vec -> vec -> vec -> Q -> Q -> World * sens_input.
    (* what the sensitivity passes of computeSensitivities assemble and
       export on every rank *)

(** The local variables of [nonlinearSolver] together with the vectors it
    updates in place, the members it writes and the text it prints. *)
Record newton : Type := {
  n_world : World;
  n_u : vec; n_u_dot : vec; n_phi : vec; n_phi_dot : vec;
  NLiter : Z;
  NLerr_first : Q; NLerr_scaled : Q; NLerr : Q;
  n_store_adjPrev : bool;
  n_gNLiter : Z;
  n_cout : list message
}.

Section NonlinearSolver.

Variable sv : solver.
Variables alpha beta : Q.

Definition maxiter : Z := if useadjoint sv then 2 else MaxNLiter sv.

(** [while (NLerr_scaled[0] > NLtol && NLiter < maxiter)] *)
Definition loop_cond (s : newton) : bool :=
  Qltb (NLtol sv) (NLerr_scaled s) && (NLiter s <? maxiter)%Z.

(** The residual and Jacobian the pass assembles and exports. *)
Definition assembled (s : newton) : World * (vec * matrix) :=
  let build_jacobian := negb (NLsolver_is_AA sv) in
  let sap := useadjoint sv && (NLiter s =? 1)%Z in
  let '(w, (res_over, J_over)) :=
    assembleJacRes (n_world s)
      {| a_u := n_u s; a_u_dot := n_u_dot s;
         a_phi := n_phi s; a_phi_dot := n_phi_dot s;
         a_alpha := alpha; a_beta := beta;
         a_build_jacobian := build_jacobian;
         a_compute_sens := false; a_compute_disc_sens := false;
         a_isTransient := isTransient sv;
         a_current_time := current_time sv;
         a_useadjoint := useadjoint sv;
         a_store_adjPrev := sap;
         a_is_final_time := is_final_time sv |} in
  (w, (exportVec (nth 0 res_over []), exportMat J_over)).

(** [res->normInf] of the pass started in state [s]. *)
Definition residual_norm (s : newton) : Q :=
  normInf (fst (snd (assembled s))).

(** One pass through the body of the [while] loop. *)
Definition newton_body (s : newton) : newton :=
  let sap := useadjoint sv && (NLiter s =? 1)%Z in
  let '(w, (res, J)) := assembled s in
  let first := if (NLiter s =? 0)%Z then normInf res else NLerr_first s in
  let err := if (NLiter s =? 0)%Z then NLerr s else normInf res in
  let scaled :=
    if (NLiter s =? 0)%Z
    then (if Qltb tiny_residual first then 1 else 0)
    else err / first in
  let cout' :=
    if (rank sv =? 0)%Z && (1 <? verbosity sv)%Z
    then n_cout s ++ [MsgIteration (NLiter s) err scaled]
    else n_cout s in
  let solve := Qltb (NLtol sv) scaled in
  let du := importVec (linearSolver J res) in
  let upd (x : vec) (a : Q) (mine : bool) :=
    if solve && mine then axpy a du x else x in
  {| n_world := w;
     n_u := upd (n_u s) 1 (negb (useadjoint sv));
     n_u_dot := upd (n_u_dot s) alpha (negb (useadjoint sv));
     n_phi := upd (n_phi s) 1 (useadjoint sv);
     n_phi_dot := upd (n_phi_dot s) alpha (useadjoint sv);
     NLiter := (NLiter s + 1)%Z;
     NLerr_first := first; NLerr_scaled := scaled; NLerr := err;
     n_store_adjPrev := sap;
     n_gNLiter := NLiter s;
     n_cout := cout' |}.

(** The loop; [fuel] bounds the number of passes. *)
Fixpoint newton_loop (fuel : nat) (s : newton) : newton :=
  match fuel with
  | O => s
  | S fuel' => if loop_cond s then newton_loop fuel' (newton_body s) else s
  end.

(** The state on entry to the loop. *)
Definition newton_init (w : World) (u u_dot phi phi_dot : vec) : newton :=
  {| n_world := w;
     n_u := if usestrongDBCs sv then setDirichlet w u else u;
     n_u_dot := u_dot; n_phi := phi; n_phi_dot := phi_dot;
     NLiter := 0%Z;
     NLerr_first := 10 * NLtol sv;
     NLerr_scaled := 10 * NLtol sv;
     NLerr := 10 * NLtol sv;
     n_store_adjPrev := store_adjPrev sv;
     n_gNLiter := gNLiter sv;
     n_cout := [] |}.

(** The report after the loop. *)
Definition failure_report (s : newton) : list message :=
  if (rank sv =? 0)%Z
  then if negb (useadjoint sv)
       then if ((MaxNLiter sv <? NLiter s)%Z
                || Qltb (NLtol sv) (NLerr_scaled s))
               && (1 <? verbosity sv)%Z
            then [MsgFailedToConverge (NLiter s) (NLerr s)]
            else []
       else []
  else [].

(** The loop of [solver::nonlinearSolver]: it leaves after at most
    [maxiter] passes, which is the fuel it is given. *)
Definition newton_run (w : World) (u u_dot phi phi_dot : vec) : newton :=
  newton_loop (Z.to_nat maxiter) (newton_init w u u_dot phi phi_dot).

(** [solver::nonlinearSolver]. *)
Definition nonlinearSolver (w : World) (u u_dot phi phi_dot : vec)
    : newton :=
  let s := newton_run w u u_dot phi phi_dot in
  {| n_world := n_world s;
     n_u := n_u s; n_u_dot := n_u_dot s;
     n_phi := n_phi s; n_phi_dot := n_phi_dot s;
     NLiter := NLiter s;
     NLerr_first := NLerr_first s; NLerr_scaled := NLerr_scaled s;
     NLerr := NLerr s;
     n_store_adjPrev := n_store_adjPrev s;
     n_gNLiter := n_gNLiter s;
     n_cout := n_cout s ++ failure_report s |}.

(** The state at the head of the loop after [n] passes. *)
Definition after_passes (n : nat) (s0 : newton) : newton :=
  Nat.iter n newton_body s0.

End NonlinearSolver.

(** ** [solver::transientSolver] *)

(** The vectors, the members and the output of the time loop. *)
Record transient : Type := {
  t_world : World;
  t_sv : solver;
  t_u : vec; t_u_dot : vec; t_phi : vec; t_phi_dot : vec;
  t_solmat : multivec;
  t_obj : Q;
  t_gradient : list Q;
  t_cout : list message
}.

(** [deltat = finaltime / numsteps] *)
Definition deltat (sv : solver) : Q := finaltime sv / inject_Z (numsteps sv).

(** [alpha]: [1./deltat], [3.0/2.0/deltat] or [0.0]. *)
Definition alpha_of (sv : solver) : Q :=
  if (time_order sv =? 1)%Z then 1 / deltat sv
  else if (time_order sv =? 2)%Z then 3 / 2 / deltat sv
  else 0.

(** The load-balancing block at the head of every time step. [gmin] and
    [gmax] are the two locals of the source; both reductions are given
    [&gmin] as their result. *)
Definition load_balancing (sv : solver) (w : World)
    : World * Q * list message :=
  let '(w', (my_cost, others)) := multiscale_update w in
  let gmin := 0 in
  let gmin := reduceAll Qmin my_cost others in
  let gmax := 0 in
  let gmin := reduceAll Qmax my_cost others in
  let factor := gmax / gmin in
  (w', factor,
   if (rank sv =? 0)%Z && (0 <? verbosity sv)%Z
   then [MsgLoadBalancing factor] else []).

(** Stage 1 of a step: load balancing, the forward clock, the banner. *)
Definition begin_step (timeiter : nat) (s : transient) : transient :=
  let sv := t_sv s in
  let '(w, _, msg) := load_balancing sv (t_world s) in
  let sv' := if useadjoint sv then sv
             else set_time (current_time sv + deltat sv) (is_final_time sv) sv in
  let banner := if (rank sv =? 0)%Z && (0 <? verbosity sv)%Z
                then [MsgTimeStep (Z.of_nat timeiter) (current_time sv')]
                else [] in
  {| t_world := w; t_sv := sv';
     t_u := t_u s; t_u_dot := t_u_dot s;
     t_phi := t_phi s; t_phi_dot := t_phi_dot s;
     t_solmat := t_solmat s; t_obj := t_obj s; t_gradient := t_gradient s;
     t_cout := t_cout s ++ msg ++ banner |}.

(** Stage 2: the vectors handed to the nonlinear solver. *)
Definition seed (L_soln : multivec) (alpha : Q) (timeiter : nat)
    (s : transient) : transient :=
  let sv := t_sv s in
  let n := num_local_rows sv in
  let numivec := Z.of_nat (length L_soln) in
  let ti := Z.of_nat timeiter in
  let solmat := t_solmat s in
  let u := t_u s in
  let with_vecs (u' u_dot' phi_dot' : vec) :=
    {| t_world := t_world s; t_sv := sv;
       t_u := u'; t_u_dot := u_dot';
       t_phi := t_phi s; t_phi_dot := phi_dot';
       t_solmat := solmat; t_obj := t_obj s; t_gradient := t_gradient s;
       t_cout := t_cout s |} in
  if useadjoint sv then
    let u' := tabulate n (fun i => kv L_soln i (numivec - ti - 1)) in
    if (time_order sv =? 1)%Z
    then with_vecs u'
           (tabulate n (fun i => alpha * kv L_soln i (numivec - ti - 1)
                                 - alpha * kv L_soln i (numivec - ti - 2)))
           (repeat 0 (length (t_phi_dot s)))
    else with_vecs u' (t_u_dot s) (t_phi_dot s)
  else
    if (time_order sv =? 1)%Z || (ti =? 0)%Z
    then with_vecs u
           (tabulate n (fun i => alpha * nth i u 0 - alpha * kv solmat i ti))
           (t_phi_dot s)
    else if (time_order sv =? 2)%Z
    then with_vecs u
           (tabulate n (fun i => alpha * nth i u 0
                                 - alpha * 4 / 3 * kv solmat i ti
                                 + alpha * 1 / 3 * kv solmat i (ti - 1)))
           (t_phi_dot s)
    else with_vecs u (t_u_dot s) (t_phi_dot s).

(** Stage 3: the nonlinear solve and the store into [SolMat]. *)
Definition solve_and_store (alpha beta : Q) (timeiter : nat)
    (s : transient) : transient :=
  let sv := t_sv s in
  let n := num_local_rows sv in
  let r := nonlinearSolver sv alpha beta (t_world s)
             (t_u s) (t_u_dot s) (t_phi s) (t_phi_dot s) in
  let stored := if useadjoint sv then n_phi r else n_u r in
  {| t_world := n_world r;
     t_sv := set_newton_members (n_store_adjPrev r) (n_gNLiter r) sv;
     t_u := n_u r; t_u_dot := n_u_dot r;
     t_phi := n_phi r; t_phi_dot := n_phi_dot r;
     t_solmat := set_col (S timeiter) (tabulate n (fun i => nth i stored 0))
                         (t_solmat s);
     t_obj := t_obj s; t_gradient := t_gradient s;
     t_cout := t_cout s ++ n_cout r |}.

(** Stage 4: remeshing, gradient or objective, the adjoint clock. *)
Definition finish_step (alpha beta : Q) (timeiter : nat)
    (s : transient) : transient :=
  let sv := t_sv s in
  let w1 := if allow_remesh sv && negb (useadjoint sv)
            then remesh (t_world s) (t_u s) else t_world s in
  let '(w2, obj', gradient') :=
    if useadjoint sv then
      let '(w, si) := sens_view w1 sv (t_u s) (t_u_dot s) (t_phi s) alpha beta in
      (sacadoizeParams false w, t_obj s, computeSensitivities si (t_gradient s))
    else if compute_objective sv then
      (sacadoizeParams false w1,
       t_obj s + computeObjective w1 (t_u s) (current_time sv) (Z.of_nat timeiter),
       t_gradient s)
    else (w1, t_obj s, t_gradient s) in
  let sv' := if useadjoint sv
             then set_time (current_time sv - deltat sv) false sv
             else sv in
  {| t_world := w2; t_sv := sv';
     t_u := t_u s; t_u_dot := t_u_dot s;
     t_phi := t_phi s; t_phi_dot := t_phi_dot s;
     t_solmat := t_solmat s; t_obj := obj'; t_gradient := gradient';
     t_cout := t_cout s |}.

(** The body of the [for (timeiter ...)] loop. *)
Definition time_step (L_soln : multivec) (alpha beta : Q) (timeiter : nat)
    (s : transient) : transient :=
  finish_step alpha beta timeiter
    (solve_and_store alpha beta timeiter
       (seed L_soln alpha timeiter (begin_step timeiter s))).

(** The state before the loop. *)
Definition transient_init (sv : solver) (w : World) (initial : vec)
    (SolMat : multivec) (gradient : list Q) : transient :=
  let n := num_local_rows sv in
  {| t_world := w;
     t_sv := if useadjoint sv then set_time (finaltime sv) true sv
             else set_time (solvetimes0 sv) false sv;
     t_u := initial;
     t_u_dot := repeat 0 n; t_phi := repeat 0 n; t_phi_dot := repeat 0 n;
     t_solmat := SolMat; t_obj := 0; t_gradient := gradient;
     t_cout := [] |}.

(** The state after the first [k] time steps. *)
Definition after_steps (sv : solver) (w : World) (initial : vec)
    (L_soln SolMat : multivec) (gradient : list Q) (k : nat) : transient :=
  fold_left (fun s t => time_step L_soln (alpha_of sv) 1 t s) (seq 0 k)
            (transient_init sv w initial SolMat gradient).

(** [solver::transientSolver(initial, L_soln, SolMat, obj, gradient)]. *)
Definition transientSolver (sv : solver) (w : World) (initial : vec)
    (L_soln SolMat : multivec) (gradient : list Q) : transient :=
  after_steps sv w initial L_soln SolMat gradient (Z.to_nat (numsteps sv)).

(** ** Facts about the Newton loop *)

Section NewtonFacts.

Variable sv : solver.
Variables alpha beta : Q.

Local Abbreviation body := (newton_body sv alpha beta).
Local Abbreviation cond := (loop_cond sv).
Local Abbreviation passes := (after_passes sv alpha beta).

Lemma after_passes_succ_r (n : nat) (s : newton) :
  passes (S n) s = passes n (body s).
Proof.
  unfold passes, after_passes.
  induction n as [|n IH]; simpl in *; [reflexivity|].
  now rewrite <- IH.
Qed.

Lemma NLiter_body (s : newton) : NLiter (body s) = (NLiter s + 1)%Z.
Proof.
  unfold body, newton_body. destruct (assembled sv alpha beta s) as [w [res J]].
  reflexivity.
Qed.

Lemma NLiter_passes (n : nat) (s : newton) :
  NLiter (passes n s) = (NLiter s + Z.of_nat n)%Z.
Proof.
  unfold passes, after_passes.
  induction n as [|n IH].
  - simpl. lia.
  - change (Nat.iter (S n) (newton_body sv alpha beta) s)
      with (body (Nat.iter n (newton_body sv alpha beta) s)).
    rewrite NLiter_body, IH. lia.
Qed.

(** The loop makes [n] passes, with the condition true before each and,
    unless the fuel ran out, false after the last. *)
Lemma newton_loop_passes (fuel : nat) (s : newton) :
  exists n : nat,
    (n <= fuel)%nat
    /\ newton_loop sv alpha beta fuel s = passes n s
    /\ (forall m, (m < n)%nat -> cond (passes m s) = true)
    /\ (n = fuel \/ cond (passes n s) = false).
Proof.
  revert s. induction fuel as [|fuel IH]; intros s.
  - exists 0%nat. repeat split; auto. intros m Hm. lia.
  - simpl. destruct (loop_cond sv s) eqn:Hc.
    + destruct (IH (newton_body sv alpha beta s)) as (n & Hle & Heq & Hbefore & Hlast).
      exists (S n). rewrite after_passes_succ_r.
      repeat split.
      * lia.
      * exact Heq.
      * intros [|m] Hm.
        -- exact Hc.
        -- rewrite after_passes_succ_r. apply Hbefore. lia.
      * destruct Hlast as [->|Hlast]; [now left|now right].
    + exists 0%nat. repeat split.
      * lia.
      * intros m Hm. lia.
      * right. exact Hc.
Qed.

Lemma body_first_pass (s : newton) :
  NLiter s = 0%Z ->
  NLerr_first (body s) = residual_norm sv alpha beta s
  /\ NLerr_scaled (body s)
     = (if Qltb tiny_residual (residual_norm sv alpha beta s) then 1 else 0).
Proof.
  intros H0. unfold body, newton_body, residual_norm.
  destruct (assembled sv alpha beta s) as [w [res J]]. simpl.
  rewrite H0. simpl. split; reflexivity.
Qed.

Lemma body_later_pass (s : newton) :
  NLiter s <> 0%Z ->
  NLerr_first (body s) = NLerr_first s
  /\ NLerr_scaled (body s) = residual_norm sv alpha beta s / NLerr_first s.
Proof.
  intros H0. unfold body, newton_body, residual_norm.
  destruct (assembled sv alpha beta s) as [w [res J]]. simpl.
  apply Z.eqb_neq in H0. rewrite H0. split; reflexivity.
Qed.

(** Without a solve the vectors are the ones the pass started with. *)
Lemma body_no_update (s : newton) :
  Qltb (NLtol sv) (NLerr_scaled (body s)) = false ->
  n_u (body s) = n_u s /\ n_u_dot (body s) = n_u_dot s
  /\ n_phi (body s) = n_phi s /\ n_phi_dot (body s) = n_phi_dot s.
Proof.
  unfold body, newton_body.
  destruct (assembled sv alpha beta s) as [w [res J]]. simpl.
  intros ->. simpl. repeat split; reflexivity.
Qed.

Lemma NLerr_first_passes (s0 : newton) (m : nat) :
  NLiter s0 = 0%Z ->
  NLerr_first (passes (S m) s0) = residual_norm sv alpha beta s0.
Proof.
  intros H0. induction m as [|m IH].
  - apply (body_first_pass s0 H0).
  - change (passes (S (S m)) s0) with (body (passes (S m) s0)).
    destruct (body_later_pass (passes (S m) s0)) as [Hf _].
    + rewrite NLiter_passes, H0. lia.
    + rewrite Hf. exact IH.
Qed.

Lemma cond_true (s : newton) :
  cond s = true <->
  NLtol sv < NLerr_scaled s /\ (NLiter s < maxiter sv)%Z.
Proof.
  unfold cond, loop_cond. rewrite andb_true_iff, Qltb_lt, Z.ltb_lt. tauto.
Qed.

Lemma cond_false (s : newton) :
  cond s = false <->
  NLerr_scaled s <= NLtol sv \/ (maxiter sv <= NLiter s)%Z.
Proof.
  unfold cond, loop_cond. rewrite andb_false_iff, Qltb_ge, Z.ltb_ge. tauto.
Qed.

(** C1. Every call of [nonlinearSolver] makes some number [n] of passes
    through the Newton loop: a pass is made exactly while the scaled
    residual exceeds [NLtol] and the pass count is below the maximum, and
    the loop is left once the scaled residual is at most [NLtol] or the
    count has reached the maximum. The scaled residual is 1 or 0 after the
    first pass and the ratio of the current to the first residual norm
    afterwards. When the first residual norm is at most 10^-14 the scaled
    residual is set to 0, at most that one pass is made and no vector is
    updated. In adjoint mode at most two passes are made, whatever
    [MaxNLiter] is. *)
Theorem C1_newton_stopping_rule (w : World) (u u_dot phi phi_dot : vec) :
  let s0 := newton_init sv w u u_dot phi phi_dot in
  let r := nonlinearSolver sv alpha beta w u u_dot phi phi_dot in
  let r0 := residual_norm sv alpha beta s0 in
  exists n : nat,
    (NLiter r = Z.of_nat n
     /\ n_u r = n_u (passes n s0) /\ n_u_dot r = n_u_dot (passes n s0)
     /\ n_phi r = n_phi (passes n s0) /\ n_phi_dot r = n_phi_dot (passes n s0)
     /\ NLerr_scaled r = NLerr_scaled (passes n s0))
    /\ (forall m, (m < n)%nat ->
          NLtol sv < NLerr_scaled (passes m s0)
          /\ (NLiter (passes m s0) < maxiter sv)%Z)
    /\ (NLerr_scaled r <= NLtol sv \/ (maxiter sv <= NLiter r)%Z)
    /\ (forall m, (m < n)%nat ->
          NLerr_scaled (passes (S m) s0)
          = match m with
            | O => if Qltb tiny_residual r0 then 1 else 0
            | S _ => residual_norm sv alpha beta (passes m s0) / r0
            end)
    /\ (r0 <= tiny_residual ->
          (n <= 1)%nat
          /\ (n = 1%nat -> NLerr_scaled r = 0)
          /\ n_u r = n_u s0 /\ n_u_dot r = n_u_dot s0
          /\ n_phi r = n_phi s0 /\ n_phi_dot r = n_phi_dot s0)
    /\ (useadjoint sv = true -> (NLiter r <= 2)%Z).
Proof.
  intros s0 r r0.
  destruct (newton_loop_passes (Z.to_nat (maxiter sv)) s0)
    as (n & Hle & Heq & Hbefore & Hlast).
  assert (Hrun : newton_run sv alpha beta w u u_dot phi phi_dot = passes n s0)
    by exact Heq.
  assert (Hit0 : NLiter s0 = 0%Z) by reflexivity.
  assert (Hiter : NLiter r = Z.of_nat n).
  { unfold r, nonlinearSolver. simpl. rewrite Hrun, NLiter_passes, Hit0. lia. }
  assert (Hstop : cond (passes n s0) = false).
  { destruct Hlast as [->|H]; [|exact H].
    apply cond_false. right. rewrite NLiter_passes, Hit0. lia. }
  assert (Hscaled : NLerr_scaled r = NLerr_scaled (passes n s0)).
  { unfold r, nonlinearSolver. simpl. now rewrite Hrun. }
  exists n. split; [|split; [|split; [|split; [|split]]]].
  - split; [exact Hiter|].
    unfold r, nonlinearSolver. simpl. rewrite Hrun.
    repeat split; reflexivity.
  - intros m Hm. apply cond_true. auto.
  - rewrite Hscaled, Hiter.
    apply cond_false in Hstop. rewrite NLiter_passes, Hit0 in Hstop.
    simpl in Hstop. exact Hstop.
  - intros [|m] Hm.
    + apply (body_first_pass s0 Hit0).
    + change (passes (S (S m)) s0) with (body (passes (S m) s0)).
      destruct (body_later_pass (passes (S m) s0)) as [_ Hs].
      * rewrite NLiter_passes, Hit0. lia.
      * rewrite Hs, NLerr_first_passes by exact Hit0. reflexivity.
  - intros Htiny.
    destruct n as [|n].
    + split; [lia|]. split; [intros H; discriminate|].
      unfold r, nonlinearSolver. simpl. rewrite Hrun.
      repeat split; reflexivity.
    + assert (Hc0 : cond s0 = true) by (apply (Hbefore 0%nat); lia).
      apply cond_true in Hc0. destruct Hc0 as [Htol _].
      assert (Hpos : 0 < NLtol sv).
      { unfold s0 in Htol. simpl in Htol. lra. }
      assert (Hs1 : NLerr_scaled (body s0) = 0).
      { destruct (body_first_pass s0 Hit0) as [_ Hs]. rewrite Hs.
        fold r0. apply Qltb_ge in Htiny. now rewrite Htiny. }
      assert (Hno : Qltb (NLtol sv) (NLerr_scaled (body s0)) = false).
      { rewrite Hs1. apply Qltb_ge. lra. }
      assert (Hn : n = 0%nat).
      { destruct n as [|n]; [reflexivity|].
        assert (Hc1 : cond (passes 1 s0) = true) by (apply Hbefore; lia).
        apply cond_true in Hc1. destruct Hc1 as [Hc1 _].
        change (passes 1 s0) with (body s0) in Hc1.
        rewrite Hs1 in Hc1. lra. }
      subst n. split; [lia|]. split.
      * intros _. rewrite Hscaled. exact Hs1.
      * destruct (body_no_update s0 Hno) as (H1 & H2 & H3 & H4).
        unfold r, nonlinearSolver. simpl. rewrite Hrun.
        change (passes 1 s0) with (body s0).
        rewrite H1, H2, H3, H4. repeat split; reflexivity.
  - intros Hadj. rewrite Hiter.
    unfold maxiter in Hle. rewrite Hadj in Hle. simpl in Hle. lia.
Qed.

(** *** What the solver prints *)

Definition is_iteration_msg (m : message) : Prop :=
  match m with MsgIteration _ _ _ => True | _ => False end.

Lemma cout_body (s : newton) :
  Forall is_iteration_msg (n_cout s) ->
  Forall is_iteration_msg (n_cout (body s)).
Proof.
  intros H. unfold body, newton_body.
  destruct (assembled sv alpha beta s) as [w [res J]]. cbn [n_cout].
  destruct ((rank sv =? 0)%Z && (1 <? verbosity sv)%Z); [|exact H].
  apply Forall_app. split; [exact H|]. repeat constructor.
Qed.

Lemma cout_passes (n : nat) (s : newton) :
  Forall is_iteration_msg (n_cout s) ->
  Forall is_iteration_msg (n_cout (passes n s)).
Proof.
  intros H. induction n as [|n IH]; [exact H|].
  change (passes (S n) s) with (body (passes n s)). now apply cout_body.
Qed.

Lemma cout_newton_run (w : World) (u u_dot phi phi_dot : vec) :
  Forall is_iteration_msg
    (n_cout (newton_run sv alpha beta w u u_dot phi phi_dot)).
Proof.
  unfold newton_run.
  destruct (newton_loop_passes (Z.to_nat (maxiter sv))
              (newton_init sv w u u_dot phi phi_dot))
    as (n & _ & Heq & _).
  rewrite Heq. apply cout_passes. constructor.
Qed.

(** The failure message is printed exactly under the guards of the source. *)
Lemma failure_reported_iff (w : World) (u u_dot phi phi_dot : vec)
    (it : Z) (e : Q) :
  let r := nonlinearSolver sv alpha beta w u u_dot phi phi_dot in
  In (MsgFailedToConverge it e) (n_cout r)
  <-> (it = NLiter r /\ e = NLerr r
       /\ rank sv = 0%Z /\ useadjoint sv = false /\ (1 < verbosity sv)%Z
       /\ ((MaxNLiter sv < NLiter r)%Z \/ NLtol sv < NLerr_scaled r)).
Proof.
  clear multiscale_update remesh sacadoizeParams computeObjective sens_view.
  intros r. unfold r, nonlinearSolver. cbn [n_cout NLiter NLerr NLerr_scaled].
  set (s := newton_run sv alpha beta w u u_dot phi phi_dot).
  rewrite in_app_iff.
  assert (Hloop : ~ In (MsgFailedToConverge it e) (n_cout s)).
  { intros Hin.
    pose proof (cout_newton_run w u u_dot phi phi_dot) as Hall.
    rewrite Forall_forall in Hall. exact (Hall _ Hin). }
  unfold failure_report.
  destruct (Z.eqb_spec (rank sv) 0) as [Hr|Hr];
    [|split; [intros [H|[]]; tauto | intros (_ & _ & H & _); contradiction]].
  destruct (useadjoint sv) eqn:Ha; cbn [negb];
    [split; [intros [H|[]]; tauto | intros (_ & _ & _ & H & _); discriminate]|].
  destruct (Z.ltb_spec 1 (verbosity sv)) as [Hv|Hv].
  - rewrite andb_true_r.
    destruct ((MaxNLiter sv <? NLiter s)%Z || Qltb (NLtol sv) (NLerr_scaled s))
      eqn:Hc.
    + split.
      * intros [H|[H|[]]]; [tauto|]. inversion H; subst.
        apply orb_true_iff in Hc. rewrite Z.ltb_lt, Qltb_lt in Hc.
        repeat split; auto.
      * intros (-> & -> & _). right. left. reflexivity.
    + split; [intros [H|[]]; tauto|].
      intros (_ & _ & _ & _ & _ & H).
      apply orb_false_iff in Hc. rewrite Z.ltb_ge, Qltb_ge in Hc.
      destruct Hc as [Hc1 Hc2], H as [H|H]; [lia|].
      exfalso. apply (Qlt_not_le _ _ H). exact Hc2.
  - rewrite andb_false_r.
    split; [intros [H|[]]; tauto|]. intros (_ & _ & _ & _ & H & _). lia.
Qed.

End NewtonFacts.

(** ** The preconditioner cascade and the failure report *)

(** [(athresh, rthresh)] grows: first by [athresh], then by [rthresh]. *)
Definition lex_lt (x y : Q * Q) : Prop :=
  fst x < fst y \/ (fst x == fst y /\ snd x < snd y).

Lemma cascade_increasing (i : nat) :
  (S i < length cascade)%nat ->
  lex_lt (nth i cascade (0, 0)) (nth (S i) cascade (0, 0)).
Proof.
  intros H. unfold cascade in *. simpl in H.
  destruct i as [|[|[|i]]]; [| | |lia]; unfold lex_lt; simpl.
  - right. split; reflexivity.
  - left. reflexivity.
  - right. split; reflexivity.
Qed.

(** The re-setups of the domain-decomposition branch. *)
Lemma domDecomp_cascade (CP : az_params -> Q) (sv : solver)
    (defaults : az_params) :
  let p := domDecompPreconditioner CP sv defaults in
  let p0 := {| AZ_drop := dropTol sv; AZ_ilut_fill := fillParam sv;
               AZ_athresh := AZ_athresh defaults;
               AZ_rthresh := AZ_rthresh defaults |} in
  exists tried : list az_params,
    constructed p = p0 :: tried
    /\ (poor_condest (CP p0) = true <-> tried <> [])
    /\ map thresholds tried = firstn (length tried) cascade
    /\ destroyed p = length tried
    /\ (forall q, In q (removelast (constructed p)) ->
                  poor_condest (CP q) = true)
    /\ final_params p = last (constructed p) p0
    /\ condest p = CP (final_params p)
    /\ (length tried = 4%nat \/ poor_condest (condest p) = false)
    /\ p_cout p = (if (length tried =? 4)%nat && Qltb condest_max (condest p)
                   then [MsgSadPreconditioner (condest p)] else []).
Proof.
  intros p p0. unfold p, domDecompPreconditioner. fold p0.
  set (p1 := set_thresh lo5 0 p0).
  set (p2 := set_thresh lo5 lo2 p1).
  set (p3 := set_thresh lo2 0 p2).
  set (p4 := set_thresh lo2 lo2 p3).
  destruct (poor_condest (CP p0)) eqn:H0.
  2:{ exists []. cbn. repeat split; try congruence; try tauto.
      all: try (now right). }
  destruct (poor_condest (CP p1)) eqn:H1.
  2:{ exists [p1]. cbn. repeat split; try congruence.
      - intros q [<-|[]]. exact H0.
      - now right. }
  destruct (poor_condest (CP p2)) eqn:H2.
  2:{ exists [p1; p2]. cbn. repeat split; try congruence.
      - intros q [<-|[<-|[]]]; assumption.
      - now right. }
  destruct (poor_condest (CP p3)) eqn:H3.
  2:{ exists [p1; p2; p3]. cbn. repeat split; try congruence.
      - intros q [<-|[<-|[<-|[]]]]; assumption.
      - now right. }
  exists [p1; p2; p3; p4]. cbn. repeat split; try congruence.
  - intros q [<-|[<-|[<-|[<-|[]]]]]; assumption.
  - now left.
Qed.

(** ** Facts about the time loop *)

(** The settings of a solver object: its members with the four that the
    drivers write put to fixed values. *)
Definition settings (sv : solver) : solver :=
  set_newton_members false 0 (set_time 0 false sv).

Lemma settings_set_time (t : Q) (f : bool) (sv : solver) :
  settings (set_time t f sv) = settings sv.
Proof. reflexivity. Qed.

Lemma settings_set_newton_members (b : bool) (g : Z) (sv : solver) :
  settings (set_newton_members b g sv) = settings sv.
Proof. reflexivity. Qed.

Lemma settings_begin_step (k : nat) (s : transient) :
  settings (t_sv (begin_step k s)) = settings (t_sv s).
Proof.
  unfold begin_step.
  destruct (load_balancing (t_sv s) (t_world s)) as [[w f] msg].
  simpl. destruct (useadjoint (t_sv s)); reflexivity.
Qed.

Lemma t_sv_seed (L_soln : multivec) (a : Q) (k : nat) (s : transient) :
  t_sv (seed L_soln a k s) = t_sv s.
Proof.
  unfold seed.
  destruct (useadjoint (t_sv s)), (time_order (t_sv s) =? 1)%Z,
    (Z.of_nat k =? 0)%Z, (time_order (t_sv s) =? 2)%Z; reflexivity.
Qed.

Lemma settings_solve_and_store (a b : Q) (k : nat) (s : transient) :
  settings (t_sv (solve_and_store a b k s)) = settings (t_sv s).
Proof. reflexivity. Qed.

Lemma t_sv_finish_step (a b : Q) (k : nat) (s : transient) :
  t_sv (finish_step a b k s)
  = if useadjoint (t_sv s)
    then set_time (current_time (t_sv s) - deltat (t_sv s)) false (t_sv s)
    else t_sv s.
Proof.
  unfold finish_step.
  destruct (useadjoint (t_sv s)).
  - destruct (sens_view _ _ _ _ _ _ _) as [w si]. reflexivity.
  - destruct (compute_objective (t_sv s)); reflexivity.
Qed.

Lemma settings_time_step (L_soln : multivec) (a b : Q) (k : nat)
    (s : transient) :
  settings (t_sv (time_step L_soln a b k s)) = settings (t_sv s).
Proof.
  unfold time_step. rewrite t_sv_finish_step.
  set (x := solve_and_store a b k _).
  assert (Hx : settings (t_sv x) = settings (t_sv s)).
  { unfold x. rewrite settings_solve_and_store, t_sv_seed.
    apply settings_begin_step. }
  destruct (useadjoint (t_sv x)); [rewrite settings_set_time|]; exact Hx.
Qed.

(** What the settings determine. *)
Lemma settings_fields (a b : solver) :
  settings a = settings b ->
  useadjoint a = useadjoint b /\ time_order a = time_order b
  /\ num_local_rows a = num_local_rows b /\ deltat a = deltat b
  /\ alpha_of a = alpha_of b /\ finaltime a = finaltime b
  /\ numsteps a = numsteps b.
Proof.
  intros H.
  assert (Hu : useadjoint a = useadjoint b)
    by exact (f_equal useadjoint H).
  assert (Ht : time_order a = time_order b)
    by exact (f_equal time_order H).
  assert (Hn : num_local_rows a = num_local_rows b)
    by exact (f_equal num_local_rows H).
  assert (Hf : finaltime a = finaltime b)
    by exact (f_equal finaltime H).
  assert (Hs : numsteps a = numsteps b)
    by exact (f_equal numsteps H).
  assert (Hd : deltat a = deltat b) by (unfold deltat; now rewrite Hf, Hs).
  repeat split; auto.
  unfold alpha_of. now rewrite Ht, Hd.
Qed.

Section TransientFacts.

Variable sv : solver.
Variable w : World.
Variable initial : vec.
Variables L_soln SolMat : multivec.
Variable gradient : list Q.

Local Abbreviation st := (after_steps sv w initial L_soln SolMat gradient).

Lemma after_steps_S (k : nat) :
  st (S k) = time_step L_soln (alpha_of sv) 1 k (st k).
Proof.
  unfold st, after_steps. rewrite seq_S, fold_left_app. reflexivity.
Qed.

Lemma settings_after_steps (k : nat) : settings (t_sv (st k)) = settings sv.
Proof.
  induction k as [|k IH].
  - unfold st, after_steps, transient_init. simpl.
    destruct (useadjoint sv); reflexivity.
  - rewrite after_steps_S, settings_time_step. exact IH.
Qed.

Lemma length_solmat_time_step (a b : Q) (k : nat) (s : transient) :
  length (t_solmat (time_step L_soln a b k s)) = length (t_solmat s).
Proof.
  unfold time_step.
  assert (Hf : forall x, t_solmat (finish_step a b k x) = t_solmat x).
  { intros x. unfold finish_step.
    destruct (useadjoint (t_sv x)).
    - destruct (sens_view _ _ _ _ _ _ _) as [w' si]. reflexivity.
    - destruct (compute_objective (t_sv x)); reflexivity. }
  rewrite Hf. unfold solve_and_store. cbn [t_solmat].
  rewrite length_set_col.
  assert (Hs : forall x, t_solmat (seed L_soln a k x) = t_solmat x).
  { intros x. unfold seed.
    destruct (useadjoint (t_sv x)), (time_order (t_sv x) =? 1)%Z,
      (Z.of_nat k =? 0)%Z, (time_order (t_sv x) =? 2)%Z; reflexivity. }
  rewrite Hs. unfold begin_step.
  destruct (load_balancing (t_sv s) (t_world s)) as [[w' f] msg].
  reflexivity.
Qed.

Lemma length_solmat_after_steps (k : nat) :
  length (t_solmat (st k)) = length SolMat.
Proof.
  induction k as [|k IH].
  - reflexivity.
  - rewrite after_steps_S, length_solmat_time_step. exact IH.
Qed.

Lemma t_u_finish_step (a b : Q) (k : nat) (x : transient) :
  t_u (finish_step a b k x) = t_u x
  /\ t_phi (finish_step a b k x) = t_phi x
  /\ t_solmat (finish_step a b k x) = t_solmat x.
Proof.
  unfold finish_step. destruct (useadjoint (t_sv x)).
  - destruct (sens_view _ _ _ _ _ _ _) as [w' si]. repeat split.
  - destruct (compute_objective (t_sv x)); repeat split.
Qed.

Lemma begin_step_vectors (k : nat) (s : transient) :
  t_u (begin_step k s) = t_u s /\ t_u_dot (begin_step k s) = t_u_dot s
  /\ t_phi (begin_step k s) = t_phi s
  /\ t_phi_dot (begin_step k s) = t_phi_dot s
  /\ t_solmat (begin_step k s) = t_solmat s
  /\ t_gradient (begin_step k s) = t_gradient s.
Proof.
  unfold begin_step.
  destruct (load_balancing (t_sv s) (t_world s)) as [[w' f] msg].
  repeat split.
Qed.




(** *** The adjoint pass *)

Lemma t_sv_begin_step_adjoint (k : nat) (s : transient) :
  useadjoint (t_sv s) = true -> t_sv (begin_step k s) = t_sv s.
Proof.
  intros H. unfold begin_step.
  destruct (load_balancing (t_sv s) (t_world s)) as [[w' f] msg].
  cbn [t_sv]. now rewrite H.
Qed.

(** One adjoint step moves the clock back by [deltat] and clears the
    final-time flag; before the solve the clock and the flag are those the
    step started with. *)
Lemma adjoint_clock_step (a b : Q) (k : nat) (s : transient) :
  useadjoint (t_sv s) = true ->
  let sd := seed L_soln a k (begin_step k s) in
  t_sv sd = t_sv s
  /\ current_time (t_sv (time_step L_soln a b k s))
     = current_time (t_sv s) - deltat (t_sv s)
  /\ is_final_time (t_sv (time_step L_soln a b k s)) = false.
Proof.
  intros H sd.
  assert (Hsd : t_sv sd = t_sv s).
  { unfold sd. rewrite t_sv_seed. now apply t_sv_begin_step_adjoint. }
  split; [exact Hsd|].
  unfold time_step. fold sd. rewrite t_sv_finish_step.
  unfold solve_and_store. cbn [t_sv].
  rewrite Hsd. cbn. rewrite H. cbn. split; reflexivity.
Qed.

Lemma adjoint_clock (Hadj : useadjoint sv = true) (k : nat) :
  current_time (t_sv (st k))
  == finaltime sv - inject_Z (Z.of_nat k) * deltat sv
  /\ is_final_time (t_sv (st k)) = (k =? 0)%nat.
Proof.
  induction k as [|k [IHt IHf]].
  - unfold st, after_steps, transient_init. simpl. rewrite Hadj. simpl.
    split; [ring|reflexivity].
  - destruct (settings_fields _ _ (settings_after_steps k))
      as (Ha & _ & _ & Hd & _).
    destruct (adjoint_clock_step (alpha_of sv) 1 k (st k)) as (_ & Hc & Hf).
    { congruence. }
    rewrite after_steps_S, Hc, Hf, Hd, IHt. split; [|reflexivity].
    rewrite Nat2Z.inj_succ. unfold Z.succ. rewrite inject_Z_plus. ring.
Qed.

(** The test of [subgridSolver] at the time of adjoint step [k]. *)
Lemma subgrid_flag_at_step (ct ft dt : Q) (k : nat) :
  ct == ft - inject_Z (Z.of_nat k) * dt ->
  final_time_tol <= dt ->
  SubGrid.is_final_time ct ft = (k =? 0)%nat.
Proof.
  intros Hct Hdt. unfold SubGrid.is_final_time.
  assert (Htol : 0 < final_time_tol) by reflexivity.
  destruct k as [|k].
  - simpl. apply Qltb_lt.
    assert (H0 : ct - ft == 0) by (rewrite Hct; simpl; ring).
    rewrite (Qabs_wd _ _ H0). exact Htol.
  - simpl. apply Qltb_ge.
    assert (Hk : 1 <= inject_Z (Z.of_nat (S k))).
    { change 1 with (inject_Z 1). rewrite <- Zle_Qle. lia. }
    assert (Hd : ct - ft == - (inject_Z (Z.of_nat (S k)) * dt))
      by (rewrite Hct; ring).
    rewrite (Qabs_wd _ _ Hd), Qabs_opp.
    rewrite Qabs_pos by nra.
    nra.
Qed.

Lemma seed_fields (a : Q) (k : nat) (s : transient) :
  t_world (seed L_soln a k s) = t_world s
  /\ t_phi (seed L_soln a k s) = t_phi s
  /\ t_solmat (seed L_soln a k s) = t_solmat s
  /\ t_gradient (seed L_soln a k s) = t_gradient s.
Proof.
  unfold seed.
  destruct (useadjoint (t_sv s)), (time_order (t_sv s) =? 1)%Z,
    (Z.of_nat k =? 0)%Z, (time_order (t_sv s) =? 2)%Z; repeat split.
Qed.

(** The adjoint traversal. In adjoint mode the time loop starts at
    [current_time = finaltime] with [is_final_time] set. Step [k] runs at
    time [finaltime - k deltat] with the flag set only for [k = 0]; it
    loads [u] from column [numivec-1-k] of the forward trajectory (the
    column whose forward time is the current time when the forward pass
    started at time 0) and, when the time order is 1, rebuilds
    [u_dot = alpha (u_col - u_(col-1))] from it; it then calls the
    nonlinear solver in adjoint mode, passes the result to
    [computeSensitivities], which adds to the gradient, and moves the
    clock back by [deltat]. A subgrid cell's [adjPrev] is zeroed only when
    the subgrid's own final-time test holds, which (for
    [deltat >= 10^-12] and equal final times) is on step 0 only. *)
Theorem adjoint_reverse_traversal (Hadj : useadjoint sv = true) (k : nat) :
  let n := num_local_rows sv in
  let a := alpha_of sv in
  let col := (Z.of_nat (length L_soln) - Z.of_nat k - 1)%Z in
  let sd := seed L_soln a k (begin_step k (st k)) in
  let r := nonlinearSolver (t_sv sd) a 1 (t_world sd)
             (t_u sd) (t_u_dot sd) (t_phi sd) (t_phi_dot sd) in
  let x := solve_and_store a 1 k sd in
  (current_time (t_sv (st 0)) = finaltime sv
   /\ is_final_time (t_sv (st 0)) = true)
  /\ current_time (t_sv sd)
     == finaltime sv - inject_Z (Z.of_nat k) * deltat sv
  /\ is_final_time (t_sv sd) = (k =? 0)%nat
  /\ useadjoint (t_sv sd) = true
  /\ (forall i, (i < n)%nat -> nth i (t_u sd) 0 = kv L_soln i col)
  /\ (time_order sv = 1%Z ->
      forall i, (i < n)%nat ->
        nth i (t_u_dot sd) 0
        == a * (kv L_soln i col - kv L_soln i (col - 1)))
  /\ (length L_soln = S (Z.to_nat (numsteps sv)) ->
      (Z.of_nat k < numsteps sv)%Z -> solvetimes0 sv == 0 ->
      solvetimes0 sv + inject_Z col * deltat sv == current_time (t_sv sd))
  /\ t_phi (st (S k)) = n_phi r
  /\ t_gradient (st (S k))
     = computeSensitivities
         (snd (sens_view (t_world x) (t_sv x) (t_u x) (t_u_dot x) (t_phi x)
                         a 1))
         (t_gradient (st k))
  /\ current_time (t_sv (st (S k))) = current_time (t_sv sd) - deltat sv
  /\ (forall (final_time : Q) (adjPrev : list (list Q)),
        final_time == finaltime sv -> final_time_tol <= deltat sv ->
        SubGrid.reset_adjPrev true
          (SubGrid.is_final_time (current_time (t_sv sd)) final_time) adjPrev
        = if (k =? 0)%nat then map (map (fun _ => 0)) adjPrev else adjPrev).
Proof.
  intros n a col sd r x.
  destruct (settings_fields _ _ (settings_after_steps k))
    as (Ha & Ho & Hr & Hd & _).
  assert (Hka : useadjoint (t_sv (st k)) = true) by congruence.
  destruct (adjoint_clock_step a 1 k (st k) Hka) as (Hsd & Hclk & _).
  fold sd in Hsd.
  destruct (adjoint_clock Hadj k) as (Htime & Hflag).
  destruct (begin_step_vectors k (st k)) as (_ & _ & _ & _ & _ & Bg).
  assert (Hbs : t_sv (begin_step k (st k)) = t_sv (st k))
    by now apply t_sv_begin_step_adjoint.
  split.
  { unfold st, after_steps, transient_init. simpl. rewrite Hadj.
    split; reflexivity. }
  split; [rewrite Hsd; exact Htime|].
  split; [rewrite Hsd; exact Hflag|].
  split; [rewrite Hsd; exact Hka|].
  split.
  { intros i Hi. unfold sd, seed. rewrite Hbs, Hka.
    destruct (time_order (t_sv (st k)) =? 1)%Z; cbn [t_u];
      rewrite Hr, nth_tabulate by exact Hi; reflexivity. }
  split.
  { intros H1 i Hi. unfold sd, seed. rewrite Hbs, Hka.
    replace (time_order (t_sv (st k)) =? 1)%Z with true
      by (symmetry; apply Z.eqb_eq; congruence).
    cbn [t_u_dot]. rewrite Hr, nth_tabulate by exact Hi.
    unfold col.
    replace (Z.of_nat (length L_soln) - Z.of_nat k - 1 - 1)%Z
      with (Z.of_nat (length L_soln) - Z.of_nat k - 2)%Z by lia.
    ring. }
  split.
  { intros Hlen Hk H0. rewrite Hsd, Htime, H0. unfold col. rewrite Hlen.
    rewrite Nat2Z.inj_succ, Z2Nat.id by lia.
    replace (Z.succ (numsteps sv) - Z.of_nat k - 1)%Z
      with (numsteps sv - Z.of_nat k)%Z by lia.
    unfold deltat, Zminus. rewrite inject_Z_plus, inject_Z_opp.
    field. intros Hz.
    assert (Hn : ~ inject_Z (numsteps sv) == inject_Z 0).
    { rewrite inject_Z_injective. lia. }
    apply Hn. exact Hz. }
  assert (Hstep : st (S k) = finish_step a 1 k x)
    by (rewrite after_steps_S; reflexivity).
  split.
  { rewrite Hstep. destruct (t_u_finish_step a 1 k x) as (_ & Fp & _).
    rewrite Fp. reflexivity. }
  assert (Hxa : useadjoint (t_sv x) = true).
  { unfold x, solve_and_store. cbn. rewrite Hsd. exact Hka. }
  split.
  { rewrite Hstep. unfold finish_step. rewrite Hxa.
    rewrite andb_false_r.
    destruct (sens_view (t_world x) (t_sv x) (t_u x) (t_u_dot x) (t_phi x) a 1)
      as [w' si].
    cbn [t_gradient snd].
    destruct (seed_fields a k (begin_step k (st k))) as (_ & _ & _ & Sg).
    unfold x, solve_and_store. cbn [t_gradient]. fold sd in Sg.
    rewrite Sg, Bg. reflexivity. }
  split.
  { rewrite after_steps_S. fold a. rewrite Hclk, Hsd, Hd. reflexivity. }
  intros ft adjPrev Hft Hdt. unfold SubGrid.reset_adjPrev.
  rewrite (subgrid_flag_at_step (current_time (t_sv sd)) ft (deltat sv) k).
  - reflexivity.
  - rewrite Hsd, Htime, Hft. reflexivity.
  - exact Hdt.
Qed.

End TransientFacts.

(** ** Load balancing *)

(** The load-balancing factor that is printed: [gmax] is still [0.0] when
    the quotient is formed, whatever the costs are. *)
Lemma load_balancing_factor (sv : solver) (w : World) :
  snd (fst (load_balancing sv w)) == 0.
Proof.
  unfold load_balancing.
  destruct (multiscale_update w) as [w' [my_cost others]]. simpl.
  unfold Qdiv. ring.
Qed.

End Model.

(** ** Facts about the sensitivity routines *)

Lemma length_add_at (idx : nat) (v : Q) (g : list Q) :
  length (add_at idx v g) = length g.
Proof.
  revert idx. induction g as [|x g IH]; intros [|idx]; simpl; auto.
Qed.

Lemma nth_add_at (idx : nat) (v : Q) (g : list Q) (j : nat) :
  (idx < length g)%nat ->
  nth j (add_at idx v g) 0 == nth j g 0 + pick (j =? idx)%nat v.
Proof.
  revert idx j. induction g as [|x g IH]; intros idx j H; simpl in H.
  - lia.
  - destruct idx as [|idx], j as [|j]; simpl; unfold pick; simpl; try ring.
    apply IH. lia.
Qed.

Lemma accumulate_spec (g : list Q) (idx : nat) (v : Q) :
  (idx <= length g)%nat ->
  length (accumulate g idx v) = Nat.max (length g) (S idx)
  /\ forall j, nth j (accumulate g idx v) 0
               == nth j g 0 + pick (j =? idx)%nat v.
Proof.
  intros H. unfold accumulate.
  destruct (Nat.leb_spec (length g) idx) as [Hle|Hlt].
  - assert (Hidx : idx = length g) by lia. subst idx. split.
    + rewrite length_app. simpl. lia.
    + intros j. destruct (Nat.eqb_spec j (length g)) as [->|Hne].
      * rewrite nth_middle, nth_overflow by lia. unfold pick. ring.
      * unfold pick. destruct (Nat.lt_ge_cases j (length g)).
        -- rewrite app_nth1 by lia. ring.
        -- rewrite !nth_overflow; [ring|lia|rewrite length_app; simpl; lia].
  - split.
    + rewrite length_add_at. lia.
    + intros j. now apply nth_add_at.
Qed.

(** A run of [accumulate] over the indices [base .. base+n-1]. *)
Lemma fold_accumulate (base n : nat) (val : nat -> Q) (g : list Q) :
  (base <= length g)%nat ->
  let g' := fold_left (fun g p => accumulate g (base + p) (val p))
                      (seq 0 n) g in
  length g' = Nat.max (length g) (base + n)
  /\ forall j, nth j g' 0
               == nth j g 0
                  + pick ((base <=? j)%nat && (j <? base + n)%nat)
                         (val (j - base)%nat).
Proof.
  intros Hb. induction n as [|n [IHl IHn]].
  - simpl. split; [lia|]. intros j.
    replace ((base <=? j)%nat && (j <? base + 0)%nat) with false.
    + unfold pick. ring.
    + symmetry. apply andb_false_iff.
      destruct (Nat.leb_spec base j); [right|now left].
      apply Nat.ltb_ge. lia.
  - cbv zeta in *. rewrite seq_S, fold_left_app. simpl.
    set (g1 := fold_left _ (seq 0 n) g) in *.
    destruct (accumulate_spec g1 (base + n) (val n)) as [Hl Hn]; [lia|].
    split; [lia|]. intros j. rewrite Hn, IHn.
    destruct (Nat.eqb_spec j (base + n)) as [->|Hne].
    + replace ((base <=? base + n)%nat && (base + n <? base + n)%nat)
        with false
        by (symmetry; apply andb_false_iff; right; apply Nat.ltb_ge; lia).
      replace ((base <=? base + n)%nat && (base + n <? base + S n)%nat)
        with true
        by (symmetry; apply andb_true_iff; split;
            [apply Nat.leb_le|apply Nat.ltb_lt]; lia).
      replace (base + n - base)%nat with n by lia. unfold pick. ring.
    + replace ((j <? base + S n)%nat) with ((j <? base + n)%nat).
      * unfold pick. destruct ((base <=? j)%nat && (j <? base + n)%nat); ring.
      * destruct (Nat.ltb_spec j (base + n)), (Nat.ltb_spec j (base + S n));
          trivial; lia.
Qed.

Lemma scalar_sensitivities_spec (si : sens_input) (g : list Q) :
  length (scalar_sensitivities si g)
  = Nat.max (length g) (s_num_active_params si)
  /\ forall j, nth j (scalar_sensitivities si g) 0
               == nth j g 0
                  + pick (j <? s_num_active_params si)%nat
                         (scalar_globalval si j).
Proof.
  unfold scalar_sensitivities.
  destruct (Nat.ltb_spec 0 (s_num_active_params si)) as [Hpos|Hz].
  - destruct (fold_accumulate 0 (s_num_active_params si)
                (scalar_globalval si) g) as [Hl Hn]; [lia|].
    simpl in Hl, Hn. split; [exact Hl|].
    intros j. rewrite Hn. rewrite Nat.sub_0_r. reflexivity.
  - assert (H0 : s_num_active_params si = 0%nat) by lia. rewrite H0.
    split; [lia|]. intros j. simpl. unfold pick. ring.
Qed.

Lemma disc_sensitivities_spec (si : sens_input) (g : list Q) :
  (s_num_active_params si <= length g)%nat ->
  forall j, nth j (disc_sensitivities si g) 0
            == nth j g 0
               + pick ((s_num_active_params si <=? j)%nat
                       && (j <? s_num_active_params si + s_numDiscParams si)%nat)
                      (disc_globalval si (j - s_num_active_params si)%nat).
Proof.
  intros Hlen j. unfold disc_sensitivities.
  destruct (Nat.ltb_spec 0 (s_numDiscParams si)) as [Hpos|Hz].
  - destruct (fold_accumulate (s_num_active_params si) (s_numDiscParams si)
                (disc_globalval si) g Hlen) as [_ Hn].
    apply Hn.
  - assert (H0 : s_numDiscParams si = 0%nat) by lia. rewrite H0.
    replace ((s_num_active_params si <=? j)%nat
             && (j <? s_num_active_params si + 0)%nat) with false.
    + unfold pick. ring.
    + symmetry. apply andb_false_iff.
      destruct (Nat.leb_spec (s_num_active_params si) j); [right|now left].
      apply Nat.ltb_ge. lia.
Qed.

(** The multiscale branch sums the negated subgradient entries. *)
Lemma fold_subgradient (p : nat) (rows : list vec) (acc : Q) :
  fold_left (fun acc row0 => acc + - nth p row0 0) rows acc
  == acc - Qsum (map (fun row0 => nth p row0 0) rows).
Proof.
  revert acc. induction rows as [|row rows IH]; intros acc; simpl.
  - ring.
  - rewrite IH. ring.
Qed.

Lemma fold_minus (A : Type) (f : A -> Q) (l : list A) (acc : Q) :
  fold_left (fun acc t => acc - f t) l acc == acc - Qsum (map f l).
Proof.
  revert acc. induction l as [|t l IH]; intros acc; simpl.
  - ring.
  - rewrite IH. ring.
Qed.

Lemma nth_map_seq (f : nat -> Q) (n p : nat) :
  (p < n)%nat -> nth p (map f (seq 0 n)) 0 = f p.
Proof. intros H. exact (nth_tabulate n f p H). Qed.

(** The local term of one rank for parameter [p]: [- phi^T (dR/dtheta_p)]
    over the rows it owns, or the negated subgradient entries of its cells
    when its first cell is multiscale. *)
Definition local_term (r : rank_input) (p : nat) : Q :=
  if r_multiscale r
  then - Qsum (map (fun row0 => nth p row0 0) (concat (r_subgradient r)))
  else - sum_n (r_owned r)
               (fun i => nth i (r_a2 r) 0 * nth i (nth p (r_res r) []) 0).

Lemma localsens_local_term (r : rank_input) (p : nat) :
  localsens r p == local_term r p.
Proof.
  unfold localsens, local_term. destruct (r_multiscale r).
  - rewrite fold_subgradient. ring.
  - reflexivity.
Qed.

(** For an active scalar parameter [p], a call of the per-step
    [computeSensitivities] adds to entry [p] of the gradient (an absent
    entry counts as 0 and is created) the sum over all ranks of the rank's
    local term plus slot [p] of [obj_sens] (0 when there is no such slot);
    the local term is minus the product of the adjoint with column [p] of
    the exported residual over the owned rows, except on a rank whose
    first cell is multiscale, where it is the negated sum of the cells'
    subgradient entries. The trajectory-level overload returns the sum
    over ranks and time steps of the negated products. *)
Lemma scalar_gradient_entry (si : sens_input) (gradient : list Q)
    (p : nat) (Hp : (p < s_num_active_params si)%nat) :
  nth p (computeSensitivities si gradient) 0
  == nth p gradient 0
     + Qsum (map (fun r => local_term r p) (s_ranks si))
     + cobj (s_obj_sens si) p
  /\ ((forall r, In r (s_ranks si) -> r_multiscale r = false) ->
      nth p (computeSensitivities si gradient) 0
      == nth p gradient 0
         + Qsum (map (fun r =>
                        - sum_n (r_owned r)
                            (fun i => nth i (r_a2 r) 0
                                      * nth i (nth p (r_res r) []) 0))
                     (s_ranks si))
         + cobj (s_obj_sens si) p)
  /\ (forall (transient : bool) (solvetimes_size : nat)
             (ranks : list rank_traj),
        let nsteps := nsteps_of transient solvetimes_size in
        nth p (computeSensitivities_traj transient solvetimes_size
                 (s_num_active_params si) ranks) 0
        == Qsum (map (fun r =>
                        - sum_n nsteps
                            (fun t =>
                               sum_n (rt_owned r)
                                 (fun i =>
                                    nth i (a2_at transient nsteps r t) 0
                                    * nth i (nth p (rt_res r t) []) 0)))
                     ranks)).
Proof.
  assert (Hmain :
    nth p (computeSensitivities si gradient) 0
    == nth p gradient 0
       + Qsum (map (fun r => local_term r p) (s_ranks si))
       + cobj (s_obj_sens si) p).
  { unfold computeSensitivities.
    destruct (scalar_sensitivities_spec si gradient) as [Hl Hn].
    rewrite disc_sensitivities_spec by lia.
    rewrite Hn.
    replace (p <? s_num_active_params si)%nat with true
      by (symmetry; apply Nat.ltb_lt; exact Hp).
    replace ((s_num_active_params si <=? p)%nat) with false
      by (symmetry; apply Nat.leb_gt; exact Hp).
    simpl. unfold scalar_globalval, reduceAll_sum.
    rewrite (Qsum_ext _ (fun r => localsens r p) (fun r => local_term r p)).
    - ring.
    - intros r _. apply localsens_local_term. }
  split; [exact Hmain|]. split.
  - intros Hcoarse. rewrite Hmain.
    rewrite (Qsum_ext _ (fun r => local_term r p)
               (fun r => - sum_n (r_owned r)
                             (fun i => nth i (r_a2 r) 0
                                       * nth i (nth p (r_res r) []) 0))).
    + reflexivity.
    + intros r Hr. unfold local_term. now rewrite (Hcoarse r Hr).
  - intros transient sz ranks nsteps.
    unfold computeSensitivities_traj. fold nsteps.
    rewrite nth_map_seq by exact Hp.
    unfold reduceAll_sum. apply Qsum_ext. intros r _.
    unfold localsens_traj. rewrite fold_minus.
    unfold sum_n, currsens. ring.
Qed.

(** *** Discretized parameters *)

(** The local row that is written last into slot [gid] of
    [discLocalGradient]: the last [j] with [paramOwned[j] == gid]. *)
Definition last_owner (paramOwned : list nat) (gid : nat) : option nat :=
  fold_left (fun acc j => if (nth j paramOwned O =? gid)%nat then Some j else acc)
            (seq 0 (length paramOwned)) None.

Lemma length_set_at (idx : nat) (v : Q) (g : list Q) :
  length (set_at idx v g) = length g.
Proof.
  revert idx. induction g as [|x g IH]; intros [|idx]; simpl; auto.
Qed.

Lemma nth_set_at (idx : nat) (v : Q) (g : list Q) (j : nat) :
  (j < length g)%nat ->
  nth j (set_at idx v g) 0 = if (idx =? j)%nat then v else nth j g 0.
Proof.
  revert idx j. induction g as [|x g IH]; intros idx j H; simpl in H.
  - lia.
  - destruct idx as [|idx], j as [|j]; simpl; try reflexivity.
    apply IH. lia.
Qed.

Lemma discLocalGradient_entry (numParams : nat) (paramOwned : list nat)
    (sens : vec) (gid : nat) :
  (gid < numParams)%nat ->
  nth gid (discLocalGradient numParams paramOwned sens) 0
  = match last_owner paramOwned gid with
    | Some j => nth j sens 0
    | None => 0
    end.
Proof.
  intros Hg. unfold discLocalGradient, last_owner.
  set (value := fun acc : option nat =>
                  match acc with Some j => nth j sens 0 | None => 0 end).
  assert (Hgen : forall (l : list nat) (g : list Q) (acc : option nat),
    (gid < length g)%nat -> nth gid g 0 = value acc ->
    nth gid (fold_left (fun g i => set_at (nth i paramOwned O) (nth i sens 0) g)
                       l g) 0
    = value (fold_left (fun acc j => if (nth j paramOwned O =? gid)%nat
                                     then Some j else acc) l acc)).
  { induction l as [|i l IH]; intros g acc Hlen Hval; simpl.
    - exact Hval.
    - apply IH.
      + now rewrite length_set_at.
      + rewrite nth_set_at by exact Hlen.
        destruct (nth i paramOwned O =? gid)%nat; [reflexivity|exact Hval]. }
  apply Hgen.
  - now rewrite repeat_length.
  - simpl. apply nth_repeat.
Qed.

Lemma last_owner_lt (paramOwned : list nat) (gid j : nat) :
  last_owner paramOwned gid = Some j -> (j < length paramOwned)%nat.
Proof.
  unfold last_owner.
  assert (Hgen : forall (l : list nat) (acc : option nat),
    (forall x, In x l -> (x < length paramOwned)%nat) ->
    (forall x, acc = Some x -> (x < length paramOwned)%nat) ->
    fold_left (fun acc j => if (nth j paramOwned O =? gid)%nat
                            then Some j else acc) l acc = Some j ->
    (j < length paramOwned)%nat).
  { induction l as [|i l IH]; intros acc Hl Hacc; simpl.
    - apply Hacc.
    - apply IH.
      + intros x Hx. apply Hl. now right.
      + intros x. destruct (nth i paramOwned O =? gid)%nat.
        * intros [= <-]. apply Hl. now left.
        * apply Hacc. }
  apply Hgen.
  - intros x Hx. apply in_seq in Hx. lia.
  - discriminate.
Qed.

Lemma nth_apply (J : matrix) (a : vec) (j : nat) :
  nth j (apply J a) 0 = dot (nth j J []) a.
Proof.
  unfold apply. exact (map_nth (fun row => dot row a) J [] j).
Qed.

Lemma length_vadd (x y : vec) : length (vadd x y) = length x.
Proof.
  revert y. induction x as [|xi x IH]; intros [|yi y]; simpl; auto.
Qed.

Lemma nth_vadd (x y : vec) (j : nat) :
  (j < length x)%nat -> nth j (vadd x y) 0 == nth j x 0 + nth j y 0.
Proof.
  revert y j. induction x as [|xi x IH]; intros y j H; simpl in H.
  - lia.
  - destruct y as [|yi y].
    + simpl. destruct j; ring.
    + destruct j as [|j]; simpl.
      * ring.
      * apply IH. lia.
Qed.

Lemma fold_vadd (A : Type) (f : A -> vec) (l : list A) (x0 : vec) (j : nat) :
  (j < length x0)%nat ->
  nth j (fold_left (fun acc t => vadd acc (f t)) l x0) 0
  == nth j x0 0 + Qsum (map (fun t => nth j (f t) 0) l).
Proof.
  revert x0. induction l as [|t l IH]; intros x0 H; simpl.
  - ring.
  - rewrite IH by (rewrite length_vadd; exact H).
    rewrite nth_vadd by exact H. ring.
Qed.

(** Entry [gid] of a rank's local gradient: row [j] of the assembled
    matrix times [phi] for the local row [j] the rank holds for [gid],
    else 0. *)
Lemma disc_local_entry (numParams : nat) (paramOwned : list nat)
    (J : matrix) (a : vec) (gid : nat) :
  (gid < numParams)%nat ->
  nth gid (discLocalGradient numParams paramOwned (apply J a)) 0
  = match last_owner paramOwned gid with
    | Some j => dot (nth j J []) a
    | None => 0
    end.
Proof.
  intros Hg. rewrite discLocalGradient_entry by exact Hg.
  destruct (last_owner paramOwned gid) as [j|]; [|reflexivity].
  apply nth_apply.
Qed.

(** For a discretized parameter DOF [i], a call of the per-step
    [computeSensitivities] adds to entry [nActive + i] of the gradient the
    sum over all ranks of the local entry plus slot [nActive + i] of
    [obj_sens]; the local entry of the rank that holds the DOF at local
    row [j] is row [j] of the exported parameter-map matrix times the
    adjoint. [computeDiscretizedSensitivities] returns, per DOF, the sum
    over ranks and over the time steps of the same product. *)
Lemma field_gradient_entry (si : sens_input) (gradient : list Q)
    (i : nat) (Hi : (i < s_numDiscParams si)%nat) :
  nth (s_num_active_params si + i) (computeSensitivities si gradient) 0
  == nth (s_num_active_params si + i) gradient 0
     + Qsum (map (fun r =>
                    match last_owner (r_paramOwned r) i with
                    | Some j => dot (nth j (r_J r) []) (a_global (s_ranks si))
                    | None => 0
                    end)
                 (s_ranks si))
     + cobj (s_obj_sens si) (i + s_num_active_params si)
  /\ (forall (transient : bool) (solvetimes_size : nat)
             (ranks : list rank_traj),
        let nsteps := nsteps_of transient solvetimes_size in
        nth i (computeDiscretizedSensitivities transient solvetimes_size
                 (s_numDiscParams si) ranks) 0
        == Qsum (map (fun r =>
                        match last_owner (rt_paramOwned r) i with
                        | Some j =>
                            sum_n nsteps
                              (fun t =>
                                 dot (nth j (rt_J r t) [])
                                     (a_global_at transient nsteps ranks t))
                        | None => 0
                        end)
                     ranks)).
Proof.
  split.
  - unfold computeSensitivities.
    destruct (scalar_sensitivities_spec si gradient) as [Hl Hn].
    rewrite disc_sensitivities_spec by lia.
    rewrite Hn.
    replace (s_num_active_params si + i <? s_num_active_params si)%nat
      with false by (symmetry; apply Nat.ltb_ge; lia).
    replace ((s_num_active_params si <=? s_num_active_params si + i)%nat
             && (s_num_active_params si + i
                 <? s_num_active_params si + s_numDiscParams si)%nat)
      with true
      by (symmetry; apply andb_true_iff; split;
          [apply Nat.leb_le|apply Nat.ltb_lt]; lia).
    replace (s_num_active_params si + i - s_num_active_params si)%nat
      with i by lia.
    simpl. unfold disc_globalval, reduceAll_sum, disc_local.
    rewrite (Qsum_ext _ _
               (fun r => match last_owner (r_paramOwned r) i with
                         | Some j => dot (nth j (r_J r) [])
                                         (a_global (s_ranks si))
                         | None => 0
                         end)).
    + ring.
    + intros r _. rewrite disc_local_entry by exact Hi. reflexivity.
  - intros transient sz ranks nsteps.
    unfold computeDiscretizedSensitivities. fold nsteps.
    rewrite nth_map_seq by exact Hi.
    unfold reduceAll_sum. apply Qsum_ext. intros r _.
    rewrite discLocalGradient_entry by exact Hi.
    destruct (last_owner (rt_paramOwned r) i) as [j|] eqn:Ho; [|reflexivity].
    apply last_owner_lt in Ho.
    unfold totalsens. rewrite fold_vadd by (rewrite repeat_length; exact Ho).
    rewrite nth_repeat. unfold sum_n.
    rewrite (Qsum_ext _ _
               (fun t => dot (nth j (rt_J r t) [])
                             (a_global_at transient nsteps ranks t))).
    + ring.
    + intros t _. rewrite nth_apply. reflexivity.
Qed.

(** ** A one-unknown instance

    One rank, one unknown [x]; the residual is [x - 1] (of [phi] in adjoint
    mode), the linear solve returns the Newton step [- res]. *)

Definition demo_assemble (stuck : bool) (w : unit) (a : asm_args)
    : unit * (multivec * matrix) :=
  let x := if a_useadjoint a then a_phi a else a_u a in
  (tt, ([if stuck then [1] else map (fun xi => xi - 1) x], [[1]])).

Definition demo_linearSolver (stuck : bool) (J : matrix) (res : vec) : vec :=
  if stuck then map (fun _ => 0) res else map Qopp res.

Definition demo_same (v : vec) : vec := v.
Definition demo_sameMat (m : matrix) : matrix := m.
Definition demo_setDirichlet (w : unit) (u : vec) : vec := u.
Definition demo_costs (w : unit) : unit * (Q * list Q) := (tt, (2, [4])).
Definition demo_remesh (w : unit) (u : vec) : unit := tt.
Definition demo_sacadoize (seed_active : bool) (w : unit) : unit := tt.
Definition demo_objective (w : unit) (u : vec) (t : Q) (timeiter : Z) : Q := 0.

Definition demo_rank (phi : vec) (multiscale : bool) : rank_input :=
  {| r_owned := 1; r_a2 := phi; r_res := [[1]];
     r_multiscale := multiscale; r_subgradient := [[[5]]];
     r_J := [[1]]; r_paramOwned := [0%nat] |}.

Definition demo_sens (phi : vec) (multiscale : bool) (obj_sens : list Q)
    : sens_input :=
  {| s_ranks := [demo_rank phi multiscale]; s_obj_sens := obj_sens;
     s_num_active_params := 1; s_numDiscParams := 1 |}.

Definition demo_sens_view (w : unit) (sv : solver) (u u_dot phi : vec)
    (alpha beta : Q) : unit * sens_input :=
  (tt, demo_sens phi false []).

Definition demo_solver (adjoint : bool) (order verb maxit : Z) : solver :=
  {| NLtol := 1 # 1000000; MaxNLiter := maxit; NLsolver_is_AA := false;
     usestrongDBCs := true; verbosity := verb; rank := 0;
     isTransient := true; numsteps := 2; finaltime := 1;
     time_order := order; allow_remesh := false;
     compute_objective := false; num_local_rows := 1; solvetimes0 := 0;
     useDirect := false; useDomDecomp := true; usePrec := true;
     dropTol := 0; fillParam := 3;
     useadjoint := adjoint; current_time := 0; is_final_time := false;
     store_adjPrev := false; gNLiter := 0 |}.

(** The forward trajectory the adjoint runs read. *)
Definition demo_trajectory : multivec := [[0]; [1]; [3]].

Definition demo_nonlinearSolver (stuck : bool) (sv : solver) (u : vec)
    : newton unit :=
  nonlinearSolver unit (demo_assemble stuck) demo_same demo_sameMat demo_same
    (demo_linearSolver stuck) demo_setDirichlet sv 0 1 tt u [0] [0] [0].

Definition demo_after_steps (sv : solver) (L_soln : multivec) (k : nat)
    : transient unit :=
  after_steps unit (demo_assemble false) demo_same demo_sameMat demo_same
    (demo_linearSolver false) demo_setDirichlet demo_costs demo_remesh
    demo_sacadoize demo_objective demo_sens_view
    sv tt [0] L_soln [[0]; [0]; [0]] [] k.

(** The state handed to the nonlinear solver in step [k]. *)
Definition demo_seeded (sv : solver) (L_soln : multivec) (k : nat)
    : transient unit :=
  seed unit L_soln (alpha_of sv) k
    (begin_step unit demo_costs k (demo_after_steps sv L_soln k)).

Example demo_newton_converges :
  let r := demo_nonlinearSolver false (demo_solver false 1 0 10) [0] in
  n_u unit r = [1] /\ NLiter unit r = 2%Z /\ NLerr_scaled unit r == 0.
Proof. vm_compute. repeat split. Qed.

Example demo_forward_run :
  t_solmat unit (demo_after_steps (demo_solver false 2 0 10) [] 2)
  = [[0]; [1]; [1]].
Proof. vm_compute. reflexivity. Qed.


(** On the instance: an adjoint run of order 1, step 1, reads column 1
    of the trajectory at time [1 - 1/2]. *)
Lemma adjoint_reverse_traversal_witness :
  useadjoint (demo_solver true 1 0 10) = true
  /\ nth 0 (t_u unit (demo_seeded (demo_solver true 1 0 10)
                                  demo_trajectory 1)) 0 = 1
  /\ is_final_time (t_sv unit (demo_seeded (demo_solver true 1 0 10)
                                           demo_trajectory 1)) = false.
Proof.
  split; [reflexivity|].
  pose proof (adjoint_reverse_traversal unit
                (demo_assemble false) demo_same demo_sameMat demo_same
                (demo_linearSolver false) demo_setDirichlet demo_costs
                demo_remesh demo_sacadoize demo_objective demo_sens_view
                (demo_solver true 1 0 10) tt [0] demo_trajectory
                [[0]; [0]; [0]] [] eq_refl 1%nat) as H.
  cbv zeta in H. destruct H as (_ & _ & Hflag & _ & Hu & _).
  unfold demo_seeded, demo_after_steps. split.
  - rewrite (Hu 0%nat ltac:(simpl; lia)). reflexivity.
  - rewrite Hflag. reflexivity.
Defined.

(** C5: an adjoint run of time order 2 over the stored trajectory
    [0, 1, 3], step 0. The step loads [u = 3] from the last column, but
    [u_dot] keeps the value it came in with (the zero vector here, for any
    trajectory) instead of being rebuilt from the trajectory: under the
    comment [need to update phi_dot, u, u_dot] the branch for order 2 is
    commented out ([not re-implemented yet]). The branch for order 1 next
    to it rebuilds [u_dot = alpha (u_col - u_(col-1))] on the same input. *)
Lemma C5_second_order_u_dot_not_rebuilt :
  let sv := demo_solver true 2 0 10 in
  let sd := demo_seeded sv demo_trajectory 0 in
  let sv1 := demo_solver true 1 0 10 in
  t_u unit sd = [3]
  /\ t_u_dot unit sd = [0]
  /\ t_u_dot unit (demo_seeded sv [[7]; [5]; [2]] 0) = [0]
  /\ ~ (nth 0 (t_u_dot unit sd) 0
        == alpha_of sv * (kv demo_trajectory 0 2 - kv demo_trajectory 0 1))
  /\ nth 0 (t_u_dot unit (demo_seeded sv1 demo_trajectory 0)) 0
     == alpha_of sv1 * (kv demo_trajectory 0 2 - kv demo_trajectory 0 1).
Proof.
  vm_compute. repeat split; discriminate.
Qed.

Definition demo_phi : vec := [2].

(** On the instance: one coarse-scale rank, adjoint [2], residual column
    [1], an empty gradient: the entry is [-2]. *)
Lemma scalar_gradient_entry_witness :
  (0 < s_num_active_params (demo_sens demo_phi false []))%nat
  /\ nth 0 (computeSensitivities (demo_sens demo_phi false []) []) 0 == -2.
Proof.
  split; [simpl; lia|].
  destruct (scalar_gradient_entry (demo_sens demo_phi false []) [] 0%nat
              ltac:(simpl; lia)) as (H & _).
  rewrite H. vm_compute. reflexivity.
Defined.

(** On the instance: exported matrix [1], adjoint [2], no objective
    slot: the entry of the one parameter DOF is [2]. *)
Lemma field_gradient_entry_witness :
  (0 < s_numDiscParams (demo_sens demo_phi false []))%nat
  /\ nth 1 (computeSensitivities (demo_sens demo_phi false []) []) 0 == 2.
Proof.
  split; [simpl; lia|].
  destruct (field_gradient_entry (demo_sens demo_phi false []) [] 0%nat
              ltac:(simpl; lia)) as (H & _).
  simpl Nat.add in H. rewrite H. vm_compute. reflexivity.
Defined.

(** C9: the load-balancing factor on two ranks with costs 2 and 4. The
    maximum over the minimum is 2; the factor that is printed is 0. *)
Lemma C9_load_balancing_prints_zero :
  let sv := demo_solver false 1 1 10 in
  let '(_, factor, msg) := load_balancing unit demo_costs sv tt in
  msg = [MsgLoadBalancing factor]
  /\ factor == 0
  /\ reduceAll Qmax 2 [4] / reduceAll Qmin 2 [4] == 2.
Proof.
  vm_compute. repeat split.
Qed.

End Solver.

(** * Further facts about the thermal module

    [thermal::setVars], [thermal::computeFlux] and the adjoint right-hand
    side of [thermal::boundaryResidual]. *)

Module ThermalFacts.

Import String.
Import Thermal.
Open Scope Q_scope.

(** ** [thermal::setVars] *)

(** The index the scan leaves for [name]: the position of its last
    occurrence at or after position [start], else the value it had. *)
Lemma scan_ux_num (vl : list string) (start : nat) (th0 : thermal) :
  let r := fold_left scan_var (combine (seq start (List.length vl)) vl) th0 in
  (forallb (fun name => negb (String.eqb name "ux")) vl = true
   -> ux_num r = ux_num th0)
  /\ (forallb (fun name => negb (String.eqb name "ux")) vl = false
      -> exists j, ux_num r = Z.of_nat (start + j)
                   /\ nth_error vl j = Some "ux"%string
                   /\ forall j', (j < j')%nat ->
                                 nth_error vl j' <> Some "ux"%string)
  /\ have_nsvel r = have_nsvel th0.
Proof.
  revert start th0. induction vl as [|x vl IH]; intros start th0; simpl.
  - split; [reflexivity|split; [discriminate|reflexivity]].
  - specialize (IH (S start) (scan_var th0 (start, x))).
    simpl in IH. destruct IH as (IHa & IHp & IHh).
    split; [|split].
    + intros H. apply andb_prop in H. destruct H as [Hx Hrest].
      rewrite (IHa Hrest). simpl.
      apply negb_true_iff in Hx. rewrite Hx. reflexivity.
    + intros H.
      destruct (forallb (fun name => negb (String.eqb name "ux")) vl) eqn:Hrest.
      * rewrite andb_true_r in H. apply negb_false_iff in H.
        exists 0%nat. rewrite (IHa eq_refl). simpl. rewrite H.
        apply String.eqb_eq in H. subst x.
        split; [f_equal; lia|]. split; [reflexivity|].
        intros [|j'] Hj; [lia|]. simpl. intros Hn.
        assert (Hin : In "ux"%string vl) by (eapply nth_error_In; eauto).
        rewrite forallb_forall in Hrest. specialize (Hrest _ Hin).
        simpl in Hrest. discriminate.
      * destruct (IHp eq_refl) as (j & Hj & Hn & Hlast).
        exists (S j). split; [rewrite Hj; f_equal; lia|].
        split; [exact Hn|].
        intros [|j'] Hlt; [lia|]. simpl. apply Hlast. lia.
    + rewrite IHh. simpl. reflexivity.
Qed.


Lemma scan_e_num (vl : list string) (start : nat) (th0 : thermal) :
  let r := fold_left scan_var (combine (seq start (List.length vl)) vl) th0 in
  (forallb (fun name => negb (String.eqb name "e")) vl = true
   -> e_num r = e_num th0)
  /\ (forallb (fun name => negb (String.eqb name "e")) vl = false
      -> exists j, e_num r = (start + j)%nat
                   /\ nth_error vl j = Some "e"%string
                   /\ forall j', (j < j')%nat ->
                                 nth_error vl j' <> Some "e"%string).
Proof.
  revert start th0. induction vl as [|x vl IH]; intros start th0; simpl.
  - split; [reflexivity|discriminate].
  - specialize (IH (S start) (scan_var th0 (start, x))).
    simpl in IH. destruct IH as (IHa & IHp).
    split.
    + intros H. apply andb_prop in H. destruct H as [Hx Hrest].
      rewrite (IHa Hrest). simpl.
      apply negb_true_iff in Hx. rewrite Hx. reflexivity.
    + intros H.
      destruct (forallb (fun name => negb (String.eqb name "e")) vl) eqn:Hrest.
      * rewrite andb_true_r in H. apply negb_false_iff in H.
        exists 0%nat. rewrite (IHa eq_refl). simpl. rewrite H.
        apply String.eqb_eq in H. subst x.
        split; [lia|]. split; [reflexivity|].
        intros [|j'] Hj; [lia|]. simpl. intros Hn.
        assert (Hin : In "e"%string vl) by (eapply nth_error_In; eauto).
        rewrite forallb_forall in Hrest. specialize (Hrest _ Hin).
        simpl in Hrest. discriminate.
      * destruct (IHp eq_refl) as (j & Hj & Hn & Hlast).
        exists (S j). split; [rewrite Hj; lia|].
        split; [exact Hn|].
        intros [|j'] Hlt; [lia|]. simpl. apply Hlast. lia.
Qed.

Lemma absent_forallb (name : string) (vl : list string) :
  ~ In name vl ->
  forallb (fun x => negb (String.eqb x name)) vl = true.
Proof.
  intros H. apply forallb_forall. intros x Hx.
  apply negb_true_iff. apply String.eqb_neq. intros ->. exact (H Hx).
Qed.

Lemma present_forallb (name : string) (vl : list string) :
  In name vl ->
  forallb (fun x => negb (String.eqb x name)) vl = false.
Proof.
  intros H.
  destruct (forallb (fun x => negb (String.eqb x name)) vl) eqn:E; [|reflexivity].
  rewrite forallb_forall in E. specialize (E _ H).
  rewrite String.eqb_refl in E. discriminate.
Qed.

(** [setVars] never clears [have_nsvel]: the flag is set when the list
    names [ux], and otherwise keeps the value it had (the constructor's
    [false], or the [true] of an earlier call). *)
Theorem setVars_never_clears_velocity_flag (vl : list string) (th : thermal) :
  have_nsvel (setVars vl th)
  = have_nsvel th || existsb (fun name => String.eqb name "ux") vl.
Proof.
  unfold setVars.
  set (th0 := {| spaceDim := spaceDim th; e_num := e_num th;
                 ux_num := (-1)%Z; uy_num := (-1)%Z; uz_num := (-1)%Z;
                 have_nsvel := have_nsvel th; formparam := formparam th |}).
  destruct (scan_ux_num vl 0 th0) as (Ha & Hp & Hh).
  cbn [have_nsvel]. rewrite Hh. cbn [have_nsvel th0].
  destruct (existsb (fun name => String.eqb name "ux") vl) eqn:Hex.
  - assert (Hf : forallb (fun name => negb (String.eqb name "ux")) vl = false).
    { apply existsb_exists in Hex. destruct Hex as (x & Hin & Hx).
      apply String.eqb_eq in Hx. subst x. apply present_forallb, Hin. }
    destruct (Hp Hf) as (j & Hj & _). rewrite Hj.
    replace (0 <=? Z.of_nat (0 + j))%Z with true
      by (symmetry; apply Z.leb_le; lia).
    now rewrite orb_true_r.
  - assert (Hf : forallb (fun name => negb (String.eqb name "ux")) vl = true).
    { apply forallb_forall. intros x Hin.
      destruct (String.eqb x "ux") eqn:E; [|reflexivity].
      assert (existsb (fun name => String.eqb name "ux") vl = true)
        by (apply existsb_exists; eauto).
      congruence. }
    rewrite (Ha Hf). cbn. now rewrite orb_false_r.
Qed.

(** The indices [setVars] leaves: [ux_num] is [-1] when the list does not
    name [ux] and the position of the last [ux] otherwise; [e_num] is the
    position of the last [e], and keeps its old value when the list does
    not name [e]. *)
Theorem setVars_indices (vl : list string) (th : thermal) :
  let r := setVars vl th in
  (~ In "ux"%string vl -> ux_num r = (-1)%Z)
  /\ (In "ux"%string vl ->
      exists j, ux_num r = Z.of_nat j
                /\ nth_error vl j = Some "ux"%string
                /\ forall j', (j < j')%nat ->
                              nth_error vl j' <> Some "ux"%string)
  /\ (~ In "e"%string vl -> e_num r = e_num th)
  /\ (In "e"%string vl ->
      nth_error vl (e_num r) = Some "e"%string
      /\ forall j', (e_num r < j')%nat ->
                    nth_error vl j' <> Some "e"%string).
Proof.
  cbv zeta. unfold setVars.
  set (th0 := {| spaceDim := spaceDim th; e_num := e_num th;
                 ux_num := (-1)%Z; uy_num := (-1)%Z; uz_num := (-1)%Z;
                 have_nsvel := have_nsvel th; formparam := formparam th |}).
  destruct (scan_ux_num vl 0 th0) as (Ha & Hp & _).
  destruct (scan_e_num vl 0 th0) as (Ea & Ep).
  cbn [ux_num e_num].
  split; [|split; [|split]].
  - intros H. rewrite (Ha (absent_forallb _ _ H)). reflexivity.
  - intros H. destruct (Hp (present_forallb _ _ H)) as (j & Hj & Hn & Hl).
    exists j. rewrite Hj. simpl. auto.
  - intros H. rewrite (Ea (absent_forallb _ _ H)). reflexivity.
  - intros H. destruct (Ep (present_forallb _ _ H)) as (j & Hj & Hn & Hl).
    rewrite Hj. simpl. auto.
Qed.


(** ** [thermal::computeFlux] *)

(** [wkset->flux(n,var,i)] and the update [flux(n,var,i) += v]. *)
Definition flux_view := nat -> Z -> nat -> Q.

Definition add_flux (flux : flux_view) (n : nat) (var : Z) (i : nat) (v : Q)
    : flux_view :=
  fun n' var' i' =>
    if (n' =? n)%nat && (var' =? var)%Z && (i' =? i)%nat
    then flux n' var' i' + v else flux n' var' i'.

Section Flux.

Set Default Proof Using "Type".

Variable th : thermal.
Variable wk : workset.
Variable cf : coefficients.
Variable th_numElem : nat.        (* the member [numElem] of [thermal] *)
Variable ip_side_dim1 : nat.      (* wkset->ip_side.dimension(1) *)

(** [sf]: [1.0], or [formparam] in adjoint mode. *)
Definition flux_sf : Q := if isAdjoint wk then formparam th else 1.

Definition penalty (n i : nat) : Q := 10 * diff_side cf n i / h wk n.

Definition flux_dir (d : nat) (n i : nat) : Q :=
  flux_sf * diff_side cf n i * local_soln_grad_side wk n (ev th) i d
  * normals wk n i d.

(** The body of the loop over the side quadrature points. *)
Definition flux_point (n i : nat) (flux : flux_view) : flux_view :=
  let f1 := add_flux flux n (ev th) i
              (flux_dir 0 n i
               + penalty n i * (local_aux_side wk n (ev th) i
                                - local_soln_side wk n (ev th) i 0%nat)) in
  let f2 := if (1 <? spaceDim th)%Z
            then add_flux f1 n (ev th) i (flux_dir 1 n i) else f1 in
  if (2 <? spaceDim th)%Z
  then add_flux f2 n (ev th) i (flux_dir 2 n i) else f2.

(** [thermal::computeFlux]: the new content of [wkset->flux]. *)
Definition computeFlux (flux : flux_view) : flux_view :=
  fold_left
    (fun f n => fold_left (fun f i => flux_point n i f)
                          (seq 0 ip_side_dim1) f)
    (seq 0 th_numElem) flux.

(** What one point adds: the conormal flux over the dimensions the code
    visits, and the penalty on the jump to the mortar trace. *)
Definition flux_added (n i : nat) : Q :=
  flux_dir 0 n i
  + pick (1 <? spaceDim th)%Z (flux_dir 1 n i)
  + pick (2 <? spaceDim th)%Z (flux_dir 2 n i)
  + penalty n i * (local_aux_side wk n (ev th) i
                   - local_soln_side wk n (ev th) i 0%nat).

End Flux.

Lemma add_flux_spec (flux : flux_view) (n : nat) (var : Z) (i : nat) (v : Q)
    (n' : nat) (var' : Z) (i' : nat) :
  add_flux flux n var i v n' var' i'
  == flux n' var' i'
     + pick ((n' =? n)%nat && (var' =? var)%Z && (i' =? i)%nat) v.
Proof.
  unfold add_flux, pick.
  destruct ((n' =? n)%nat && (var' =? var)%Z && (i' =? i)%nat); ring.
Qed.

Lemma fold_add_flux (A : Type) (body : A -> flux_view -> flux_view)
    (f : A -> nat -> Z -> nat -> Q) (l : list A) :
  (forall a r n var i, body a r n var i == r n var i + f a n var i) ->
  forall r n var i,
    fold_left (fun r a => body a r) l r n var i
    == r n var i + Qsum (map (fun a => f a n var i) l).
Proof.
  intros H. induction l as [|a l IH]; intros r n var i; simpl.
  - ring.
  - rewrite IH, H. ring.
Qed.

Lemma flux_point_adds (th : thermal) (wk : workset) (cf : coefficients)
    (n i : nat) (flux : flux_view) (n' : nat) (var : Z) (i' : nat) :
  flux_point th wk cf n i flux n' var i'
  == flux n' var i'
     + pick ((n' =? n)%nat && (var =? ev th)%Z && (i' =? i)%nat)
            (flux_added th wk cf n i).
Proof.
  unfold flux_point, flux_added.
  destruct (2 <? spaceDim th)%Z, (1 <? spaceDim th)%Z;
    rewrite ?add_flux_spec;
    destruct ((n' =? n)%nat && (var =? ev th)%Z && (i' =? i)%nat);
    simpl; ring.
Qed.


(** [computeFlux] adds, to the flux slot of the thermal variable at every
    element [n < numElem] and side point [i], the conormal flux
    [sf kappa grad(u).n] over the dimensions below [spaceDim] plus the
    penalty [(10 kappa / h) (aux - u)], with [sf = formparam] in adjoint
    mode and [1] otherwise; every other slot keeps its value. *)
Theorem computeFlux_adds (th : thermal) (wk : workset) (cf : coefficients)
    (th_numElem ip_side_dim1 : nat) (flux : flux_view)
    (n : nat) (var : Z) (i : nat) :
  computeFlux th wk cf th_numElem ip_side_dim1 flux n var i
  == flux n var i
     + pick ((n <? th_numElem)%nat && (var =? ev th)%Z
             && (i <? ip_side_dim1)%nat)
            (flux_added th wk cf n i).
Proof.
  unfold computeFlux.
  rewrite (fold_add_flux nat
             (fun n0 f => fold_left (fun f i0 => flux_point th wk cf n0 i0 f)
                                    (seq 0 ip_side_dim1) f)
             (fun n0 n var i =>
                pick (n =? n0)%nat
                  (pick ((var =? ev th)%Z && (i <? ip_side_dim1)%nat)
                        (flux_added th wk cf n0 i)))).
  - apply Qplus_inj_l.
    fold (sum_n th_numElem
            (fun n0 => pick (n =? n0)%nat
                         (pick ((var =? ev th)%Z && (i <? ip_side_dim1)%nat)
                               (flux_added th wk cf n0 i)))).
    rewrite sum_n_pick, <- pick_and, andb_assoc. reflexivity.
  - intros n0 r n' var' i'.
    rewrite (fold_add_flux nat (fun i0 f => flux_point th wk cf n0 i0 f)
               (fun i0 n var i =>
                  pick (i =? i0)%nat
                    (pick ((n =? n0)%nat && (var =? ev th)%Z)
                          (flux_added th wk cf n0 i0)))).
    + apply Qplus_inj_l.
      fold (sum_n ip_side_dim1
              (fun i0 => pick (i' =? i0)%nat
                           (pick ((n' =? n0)%nat && (var' =? ev th)%Z)
                                 (flux_added th wk cf n0 i0)))).
      rewrite sum_n_pick.
      destruct (i' <? ip_side_dim1)%nat, (n' =? n0)%nat, (var' =? ev th)%Z;
        reflexivity.
    + intros i0 r' n'' var'' i''. rewrite flux_point_adds.
      apply Qplus_inj_l.
      destruct (n'' =? n0)%nat, (var'' =? ev th)%Z, (i'' =? i0)%nat;
        reflexivity.
Qed.


(** ** The adjoint right-hand side of [thermal::boundaryResidual] *)

Section AdjointRhs.

Set Default Proof Using "Type".

Variable th : thermal.
Variable wk : workset.
Variable cf : coefficients.

(** The conormal derivative of basis function [i] over the dimensions the
    code visits. *)
Definition dv_dn (e k i : nat) : Q :=
  basis_grad_side wk e i k 0%nat * normals wk e k 0%nat
  + pick (1 <? spaceDim th)%Z
         (basis_grad_side wk e i k 1%nat * normals wk e k 1%nat)
  + pick (2 <? spaceDim th)%Z
         (basis_grad_side wk e i k 2%nat * normals wk e k 2%nat).

Definition du_dn (e k : nat) : Q :=
  local_soln_grad_side wk e (ev th) k 0%nat * normals wk e k 0%nat
  + pick (1 <? spaceDim th)%Z
         (local_soln_grad_side wk e (ev th) k 1%nat * normals wk e k 1%nat)
  + pick (2 <? spaceDim th)%Z
         (local_soln_grad_side wk e (ev th) k 2%nat * normals wk e k 2%nat).

(** What one point adds to [adjrhs] in adjoint mode. *)
Definition adjrhs_added (e k i : nat) : Q :=
  lambda th wk e k
  * (sf th wk * diff_side cf e k * dv_dn e k i
     - weakDiriScale wk cf e k * basis_side wk e i k).

(** The weak Dirichlet term without the mortar trace. *)
Definition nitsche_homogeneous (e k i : nat) : Q :=
  let u := local_soln_side wk e (ev th) k 0%nat in
  let v := basis_side wk e i k in
  - diff_side cf e k * du_dn e k * v
  - sf th wk * diff_side cf e k * dv_dn e k i * u
  + weakDiriScale wk cf e k * u * v.

Lemma adjrhs_point_adds (e k i : nat) (a : res_view) (e' : nat) (row : Z) :
  adjrhs_point th wk cf e k i a e' row
  == a e' row
     + pick (e' =? e)%nat
         (pick (row =? offsets wk (e_num th) i)%Z
               (pick (isAdjoint wk) (adjrhs_added e k i))).
Proof.
  unfold adjrhs_point, adjrhs_added, dv_dn, weakDiriScale.
  rewrite <- pick_and.
  destruct (isAdjoint wk); simpl.
  - destruct (2 <? spaceDim th)%Z, (1 <? spaceDim th)%Z;
      rewrite ?add_res_spec;
      destruct ((e' =? e)%nat && (row =? offsets wk (e_num th) i)%Z);
      simpl; ring.
  - destruct ((e' =? e)%nat && (row =? offsets wk (e_num th) i)%Z);
      simpl; ring.
Qed.

Lemma nitsche_split (e k i : nat) :
  spec_nitsche_term th wk cf e k i
  == nitsche_homogeneous e k i + adjrhs_added e k i.
Proof.
  unfold spec_nitsche_term, nitsche_homogeneous, adjrhs_added, dv_dn, du_dn,
    ndim, sum_n, sf, weakDiriScale.
  destruct (Z.ltb_spec 2 (spaceDim th)), (Z.ltb_spec 1 (spaceDim th));
    try lia; simpl; ring.
Qed.


Definition adjrhs_sum (e : nat) (row : Z) : Q :=
  sum_n (numip_side wk) (fun k =>
    sum_n (numBasis_side wk) (fun i =>
      pick (row =? offsets wk (e_num th) i)%Z (adjrhs_added e k i))).

Lemma adjrhs_elem_adds (e0 : nat) (a : res_view) (e : nat) (row : Z) :
  (if (side_kind th wk e0 =? 2)%Z then a
   else if (side_kind th wk e0 =? 1)%Z
        then loops2 (numip_side wk) (numBasis_side wk)
                    (adjrhs_point th wk cf e0) a
        else a) e row
  == a e row
     + pick (e =? e0)%nat
         (pick (isAdjoint wk && (side_kind th wk e0 =? 1)%Z)
               (adjrhs_sum e0 row)).
Proof.
  destruct (Z.eqb_spec (side_kind th wk e0) 2) as [H2|H2].
  - rewrite H2. change (2 =? 1)%Z with false. rewrite andb_false_r.
    rewrite !pick_false. destruct (e =? e0)%nat; simpl; ring.
  - destruct (side_kind th wk e0 =? 1)%Z.
    + rewrite (loops2_add _ _ _
                 (fun k i e row =>
                    pick (e =? e0)%nat
                      (pick (row =? offsets wk (e_num th) i)%Z
                            (pick (isAdjoint wk) (adjrhs_added e0 k i))))).
      * apply Qplus_inj_l. rewrite andb_true_r. unfold adjrhs_sum.
        destruct (e =? e0)%nat, (isAdjoint wk); cbn [pick];
          try (apply sum_n_zero; intros k _; apply sum_n_zero; intros i _;
               destruct (row =? offsets wk (e_num th) i)%Z; reflexivity).
        apply sum_n_ext. intros k _. apply sum_n_ext. intros i _.
        reflexivity.
      * intros k i r e' row'. apply adjrhs_point_adds.
    + rewrite andb_false_r, !pick_false.
      destruct (e =? e0)%nat; simpl; ring.
Qed.

Lemma boundaryResidual_adjrhs_adds (adjrhs : res_view) (e : nat) (row : Z) :
  boundaryResidual_adjrhs th wk cf adjrhs e row
  == adjrhs e row
     + pick ((e <? numElem_side wk)%nat && isAdjoint wk
             && (side_kind th wk e =? 1)%Z)
            (adjrhs_sum e row).
Proof.
  unfold boundaryResidual_adjrhs.
  rewrite (fold_add nat
             (fun e0 a =>
                if (side_kind th wk e0 =? 2)%Z then a
                else if (side_kind th wk e0 =? 1)%Z
                     then loops2 (numip_side wk) (numBasis_side wk)
                                 (adjrhs_point th wk cf e0) a
                     else a)
             (fun e0 e row =>
                pick (e =? e0)%nat
                  (pick (isAdjoint wk && (side_kind th wk e0 =? 1)%Z)
                        (adjrhs_sum e0 row)))).
  - fold (sum_n (numElem_side wk)
            (fun e0 => pick (e =? e0)%nat
                         (pick (isAdjoint wk && (side_kind th wk e0 =? 1)%Z)
                               (adjrhs_sum e0 row)))).
    rewrite sum_n_pick, <- pick_and, andb_assoc. reflexivity.
  - intros e0 r e' row' _. apply adjrhs_elem_adds.
Qed.

Lemma sum_n_plus (n : nat) (f g : nat -> Q) :
  sum_n n (fun i => f i + g i) == sum_n n f + sum_n n g.
Proof.
  unfold sum_n. induction (seq 0 n) as [|a l IH]; simpl.
  - ring.
  - rewrite IH. ring.
Qed.

(** [adjrhs] is written only in adjoint mode and only on the weak
    Dirichlet sides; what is added there is the mortar trace [lambda]
    times [sf kappa dphi/dn - (10 kappa / h) phi], so nothing on a side
    with no [-1] neighbour, where [lambda] is [0]. *)
Theorem adjrhs_collects_mortar_data (adjrhs : res_view) (e : nat) (row : Z) :
  boundaryResidual_adjrhs th wk cf adjrhs e row
  == adjrhs e row
     + pick ((e <? numElem_side wk)%nat && isAdjoint wk
             && (side_kind th wk e =? 1)%Z)
         (sum_n (numip_side wk) (fun k =>
            sum_n (numBasis_side wk) (fun i =>
              pick (row =? offsets wk (e_num th) i)%Z
                   (lambda th wk e k
                    * (sf th wk * diff_side cf e k * dv_dn e k i
                       - weakDiriScale wk cf e k * basis_side wk e i k))))).
Proof.
  exact (boundaryResidual_adjrhs_adds adjrhs e row).
Qed.

(** In adjoint mode, on a weak Dirichlet side element, what
    [boundaryResidual] adds to [res] is what it adds to [adjrhs] plus the
    weak Dirichlet term without the mortar trace: [adjrhs] holds exactly
    the part of the residual that depends on [lambda]. *)
Theorem adjoint_residual_splits (res adjrhs : res_view) (e : nat) (row : Z)
    (He : (e < numElem_side wk)%nat)
    (Hk : side_kind th wk e = 1%Z)
    (Hadj : isAdjoint wk = true) :
  boundaryResidual th wk cf res e row - res e row
  == (boundaryResidual_adjrhs th wk cf adjrhs e row - adjrhs e row)
     + sum_n (numip_side wk) (fun k =>
         sum_n (numBasis_side wk) (fun i =>
           pick (row =? offsets wk (e_num th) i)%Z
                (nitsche_homogeneous e k i))).
Proof.
  assert (Hlt : (e <? numElem_side wk)%nat = true)
    by (apply Nat.ltb_lt; exact He).
  rewrite boundaryResidual_adds, boundaryResidual_adjrhs_adds.
  rewrite Hlt, Hadj, Hk. unfold boundary_added. rewrite Hk.
  cbn [andb pick Z.eqb Pos.eqb]. unfold adjrhs_sum.
  assert (Hs :
    sum_n (numip_side wk) (fun k =>
      sum_n (numBasis_side wk) (fun i =>
        pick (row =? offsets wk (e_num th) i)%Z
             (spec_nitsche_term th wk cf e k i)))
    == sum_n (numip_side wk) (fun k =>
         sum_n (numBasis_side wk) (fun i =>
           pick (row =? offsets wk (e_num th) i)%Z (adjrhs_added e k i)))
       + sum_n (numip_side wk) (fun k =>
           sum_n (numBasis_side wk) (fun i =>
             pick (row =? offsets wk (e_num th) i)%Z
                  (nitsche_homogeneous e k i)))).
  { rewrite <- sum_n_plus. apply sum_n_ext. intros k _.
    rewrite <- sum_n_plus. apply sum_n_ext. intros i _.
    destruct (row =? offsets wk (e_num th) i)%Z; cbn [pick];
      [rewrite nitsche_split|]; ring. }
  rewrite Hs. ring.
Qed.

End AdjointRhs.


(** In forward mode, on a side with a [-1] neighbour, the weak Dirichlet
    residual of basis function [i] at a side point is minus the flux
    [computeFlux] adds at that point times the basis value, minus the
    symmetry term [formparam kappa dphi/dn (u - aux)]. *)
Theorem weak_dirichlet_residual_vs_flux (th : thermal) (wk : workset)
    (cf : coefficients) (e k i : nat) (res : res_view)
    (Hfwd : isAdjoint wk = false)
    (Hm : sideinfo wk e (e_num th) (currentside wk) 1%nat = (-1)%Z) :
  weak_point th wk cf e k i res e (offsets wk (e_num th) i)
  == res e (offsets wk (e_num th) i)
     - basis_side wk e i k * flux_added th wk cf e k
     - formparam th * diff_side cf e k * dv_dn th wk e k i
       * (local_soln_side wk e (ev th) k 0%nat - local_aux_side wk e (ev th) k).
Proof.
  rewrite weak_point_adds, Nat.eqb_refl, Z.eqb_refl. cbn [pick].
  unfold spec_nitsche_term, flux_added, flux_dir, flux_sf, penalty, dv_dn,
    lambda, ndim, sum_n.
  rewrite Hfwd, Hm. cbn [Z.eqb Pos.eqb].
  destruct (Z.ltb_spec 2 (spaceDim th)), (Z.ltb_spec 1 (spaceDim th));
    try lia; simpl; ring.
Qed.

(** ** An adjoint side instance *)

(** One side element of kind 1 with a [-1] neighbour, in adjoint mode:
    [u = 2], [du/dx = 1], [aux = 1/2], [phi = 1], [dphi/dx = 1],
    [n = (1,0,0)], [h = 1]. *)
Definition adjoint_side : workset :=
  {| numElem := 1; numip := 1; numBasis := 1;
     local_soln := fun e v k c => 0;
     local_soln_dot := fun e v k c => 0;
     local_soln_grad := fun e v k c => 0;
     basis := fun e i k => 1;
     basis_grad := fun e i k c => 0;
     offsets := fun v i => Z.of_nat i;
     numElem_side := 1; numip_side := 1; numBasis_side := 1;
     sideinfo := fun e v s slot =>
       match slot with O => 1%Z | S O => (-1)%Z | _ => 0%Z end;
     currentside := 0;
     isAdjoint := true;
     local_soln_side := fun e v k c => 2;
     local_soln_grad_side := fun e v k c => if (c =? 0)%nat then 1 else 0;
     local_aux_side := fun e v k => 1 # 2;
     basis_side := fun e i k => 1;
     basis_grad_side := fun e i k c => if (c =? 0)%nat then 1 else 0;
     normals := fun e k c => if (c =? 0)%nat then 1 else 0;
     h := fun e => 1 |}.

Definition forward_side : workset :=
  {| numElem := 1; numip := 1; numBasis := 1;
     local_soln := fun e v k c => 0;
     local_soln_dot := fun e v k c => 0;
     local_soln_grad := fun e v k c => 0;
     basis := fun e i k => 1;
     basis_grad := fun e i k c => 0;
     offsets := fun v i => Z.of_nat i;
     numElem_side := 1; numip_side := 1; numBasis_side := 1;
     sideinfo := fun e v s slot =>
       match slot with O => 1%Z | S O => (-1)%Z | _ => 0%Z end;
     currentside := 0;
     isAdjoint := false;
     local_soln_side := fun e v k c => 2;
     local_soln_grad_side := fun e v k c => if (c =? 0)%nat then 1 else 0;
     local_aux_side := fun e v k => 1 # 2;
     basis_side := fun e i k => 1;
     basis_grad_side := fun e i k c => if (c =? 0)%nat then 1 else 0;
     normals := fun e k c => if (c =? 0)%nat then 1 else 0;
     h := fun e => 1 |}.

(** On the adjoint instance [res] gets [-1 - 3/2 + 15 = 25/2] and [adjrhs]
    gets [1/2 (1 - 10) = -9/2]; the difference [17] is the term without
    the trace, [-1 - 2 + 20]. *)
Lemma adjoint_residual_splits_witness :
  (0 < numElem_side adjoint_side)%nat
  /\ boundaryResidual (demo_thermal 3) adjoint_side demo_coefficients
       zero_res 0%nat 0%Z - zero_res 0%nat 0%Z
     == (boundaryResidual_adjrhs (demo_thermal 3) adjoint_side
           demo_coefficients zero_res 0%nat 0%Z - zero_res 0%nat 0%Z)
        + 17.
Proof.
  split; [simpl; lia|].
  rewrite (adjoint_residual_splits (demo_thermal 3) adjoint_side
             demo_coefficients zero_res zero_res 0%nat 0%Z
             ltac:(simpl; lia) eq_refl eq_refl).
  vm_compute. reflexivity.
Defined.

(** On the forward instance ([formparam = 1]) the flux is
    [1 + 10 (1/2 - 2) = -14] and the residual [14 - 3/2 = 25/2]. *)
Lemma weak_dirichlet_residual_vs_flux_witness :
  isAdjoint forward_side = false
  /\ flux_added (demo_thermal 3) forward_side demo_coefficients 0 0 == -14
  /\ weak_point (demo_thermal 3) forward_side demo_coefficients 0 0 0
       zero_res 0%nat 0%Z == 25 # 2.
Proof.
  split; [reflexivity|]. split; [vm_compute; reflexivity|].
  change 0%Z with (offsets forward_side (e_num (demo_thermal 3)) 0).
  rewrite (weak_dirichlet_residual_vs_flux (demo_thermal 3) forward_side
             demo_coefficients 0 0 0 zero_res eq_refl eq_refl).
  vm_compute. reflexivity.
Defined.

End ThermalFacts.

(** * Further facts about the subgrid model

    The Newton loop of [SubGridFEM2::subGridNonlinearSolver], the
    sub-steps of [SubGridFEM2::subgridSolver] and the point collections
    [getIP], [getIPWts] and [evaluateBasis2]. *)

(** ** Row-wise facts about [update] *)

Lemma length_axpy (a : Q) (x y : vec) : length (axpy a x y) = length y.
Proof.
  revert x. induction y as [|yi y IH]; intros [|xi x]; simpl; auto.
Qed.

Lemma nth_axpy (a : Q) (x y : vec) (i : nat) :
  nth i (axpy a x y) 0
  == nth i y 0 + a * pick (i <? length y)%nat (nth i x 0).
Proof.
  revert x i. induction y as [|yi y IH]; intros x i.
  - destruct x, i; simpl; unfold pick; ring.
  - destruct x as [|xi x], i as [|i]; simpl.
    + unfold pick; ring.
    + unfold pick. destruct (_ <? _)%nat; ring.
    + unfold pick; ring.
    + rewrite IH. reflexivity.
Qed.

Module SubGridSolver.

(** The settings and members of [SubGridFEM2] the solvers read. *)
Record subgrid : Type := {
  sub_NLtol : Q;
  sub_maxNLiter : Z;
  subgridverbose : Z;
  local_rank : Z;                   (* LocalComm->getRank() *)
  time_steps : Z;
  macro_deltat : Q;
  final_time : Q
}.

(** What [subGridNonlinearSolver] prints. *)
Inductive sub_message : Type :=
| MsgSubIteration (iter : Z) (resnorm_scaled : Q).

(** The arguments of one assembly pass over the cells of a subgrid. *)
Record sub_args : Type := {
  sa_u : vec; sa_u_dot : vec; sa_phi : vec; sa_phi_dot : vec;
  sa_lambda : nat -> nat -> nat -> Q;
  sa_time : Q;
  sa_isTransient : bool;
  sa_isAdjoint : bool;
  sa_num_active_params : Z;
  sa_alpha : Q;
  sa_usernum : nat;
  sa_is_final_time : bool
}.

Section Newton.

Set Default Proof Using "Type".

(** The cells, the workset, the Tpetra objects and the Amesos2 solver of
    the subgrid. *)
Variable World : Type.

(** The gathers, the cells' [computeJacRes] and the sums into [res_over],
    [sub_J_over] and [sub_M_over], followed by the export: the residual
    [res] and the Jacobian [J] of the pass. *)
Variable assemble : World -> sub_args -> World * (vec * matrix).

(** [Am2Solver->numericFactorization().solve()] and the import into [du]. *)
Variable solve : World -> matrix -> vec -> World * vec.

Variable sg : subgrid.

(** The locals of [subGridNonlinearSolver] and the vectors it updates. *)
Record subnewton : Type := {
  sn_world : World;
  sn_u : vec; sn_u_dot : vec; sn_phi : vec; sn_phi_dot : vec;
  sn_iter : Z;
  resnorm : Q; resnorm_initial : Q; resnorm_scaled : Q;
  sn_cout : list sub_message
}.

Section Call.

Variable lambda : nat -> nat -> nat -> Q.
Variable time : Q.
Variables isTransient isAdjoint : bool.
Variable num_active_params : Z.
Variable alpha : Q.
Variable usernum : nat.
Variable is_final : bool.           (* the member [is_final_time] *)

(** [while (iter < sub_maxNLiter && resnorm_scaled[0] > sub_NLtol)] *)
Definition sub_cond (s : subnewton) : bool :=
  (sn_iter s <? sub_maxNLiter sg)%Z
  && Qltb (sub_NLtol sg) (resnorm_scaled s).

Definition sub_assembled (s : subnewton) : World * (vec * matrix) :=
  assemble (sn_world s)
    {| sa_u := sn_u s; sa_u_dot := sn_u_dot s;
       sa_phi := sn_phi s; sa_phi_dot := sn_phi_dot s;
       sa_lambda := lambda; sa_time := time;
       sa_isTransient := isTransient; sa_isAdjoint := isAdjoint;
       sa_num_active_params := num_active_params;
       sa_alpha := alpha; sa_usernum := usernum;
       sa_is_final_time := is_final |}.

(** [res->normInf] of the pass started in state [s]. *)
Definition sub_residual_norm (s : subnewton) : Q :=
  normInf (fst (snd (sub_assembled s))).

(** One pass through the body of the [while] loop. *)
Definition sub_body (s : subnewton) : subnewton :=
  let '(w, (res, J)) := sub_assembled s in
  let initial := if (sn_iter s =? 0)%Z then normInf res
                 else resnorm_initial s in
  let norm := if (sn_iter s =? 0)%Z then resnorm s else normInf res in
  let scaled :=
    if (sn_iter s =? 0)%Z
    then (if Qltb 0 initial then 1 else 0)
    else norm / initial in
  let cout' :=
    if (local_rank sg =? 0)%Z && (5 <? subgridverbose sg)%Z
    then sn_cout s ++ [MsgSubIteration (sn_iter s) scaled]
    else sn_cout s in
  if Qltb (sub_NLtol sg) scaled then
    let '(w', du) := solve w J res in
    {| sn_world := w';
       sn_u := if isAdjoint then sn_u s else axpy 1 du (sn_u s);
       sn_u_dot := if isAdjoint then sn_u_dot s
                   else axpy alpha du (sn_u_dot s);
       sn_phi := if isAdjoint then axpy 1 du (sn_phi s) else sn_phi s;
       sn_phi_dot := if isAdjoint then axpy alpha du (sn_phi_dot s)
                     else sn_phi_dot s;
       sn_iter := (sn_iter s + 1)%Z;
       resnorm := norm; resnorm_initial := initial; resnorm_scaled := scaled;
       sn_cout := cout' |}
  else
    {| sn_world := w;
       sn_u := sn_u s; sn_u_dot := sn_u_dot s;
       sn_phi := sn_phi s; sn_phi_dot := sn_phi_dot s;
       sn_iter := (sn_iter s + 1)%Z;
       resnorm := norm; resnorm_initial := initial; resnorm_scaled := scaled;
       sn_cout := cout' |}.

(** The loop; [fuel] bounds the number of passes. *)
Fixpoint sub_loop (fuel : nat) (s : subnewton) : subnewton :=
  match fuel with
  | O => s
  | S fuel' => if sub_cond s then sub_loop fuel' (sub_body s) else s
  end.

(** The state on entry to the loop. *)
Definition sub_init (w : World) (u u_dot phi phi_dot : vec) : subnewton :=
  {| sn_world := w;
     sn_u := u; sn_u_dot := u_dot; sn_phi := phi; sn_phi_dot := phi_dot;
     sn_iter := 0%Z;
     resnorm := 10 * sub_NLtol sg;
     resnorm_initial := 10 * sub_NLtol sg;
     resnorm_scaled := 10 * sub_NLtol sg;
     sn_cout := [] |}.

(** [SubGridFEM2::subGridNonlinearSolver]: the loop leaves after at most
    [sub_maxNLiter] passes, which is the fuel it is given. *)
Definition subGridNonlinearSolver (w : World) (u u_dot phi phi_dot : vec)
    : subnewton :=
  sub_loop (Z.to_nat (sub_maxNLiter sg)) (sub_init w u u_dot phi phi_dot).

(** The state at the head of the loop after [n] passes. *)
Definition sub_passes (n : nat) (s0 : subnewton) : subnewton :=
  Nat.iter n sub_body s0.

(** *** Facts about the loop *)

Lemma sub_passes_succ_r (n : nat) (s : subnewton) :
  sub_passes (S n) s = sub_passes n (sub_body s).
Proof.
  unfold sub_passes.
  induction n as [|n IH]; simpl in *; [reflexivity|].
  now rewrite <- IH.
Qed.

Lemma sub_body_fields (s : subnewton) :
  sn_iter (sub_body s) = (sn_iter s + 1)%Z
  /\ resnorm_initial (sub_body s)
     = (if (sn_iter s =? 0)%Z then sub_residual_norm s
        else resnorm_initial s)
  /\ resnorm_scaled (sub_body s)
     = (if (sn_iter s =? 0)%Z
        then (if Qltb 0 (sub_residual_norm s) then 1 else 0)
        else sub_residual_norm s / resnorm_initial s).
Proof.
  unfold sub_body, sub_residual_norm.
  destruct (sub_assembled s) as [w [res J]]. cbn [fst snd].
  destruct (sn_iter s =? 0)%Z;
    match goal with |- context [if ?c then _ else _] => idtac end.
  - destruct (Qltb (sub_NLtol sg) (if Qltb 0 (normInf res) then 1 else 0));
      [destruct (solve w J res)|]; repeat split.
  - destruct (Qltb (sub_NLtol sg) (normInf res / resnorm_initial s));
      [destruct (solve w J res)|]; repeat split.
Qed.

Lemma sub_iter_passes (n : nat) (s : subnewton) :
  sn_iter (sub_passes n s) = (sn_iter s + Z.of_nat n)%Z.
Proof.
  unfold sub_passes. induction n as [|n IH].
  - simpl. lia.
  - change (Nat.iter (S n) sub_body s) with (sub_body (Nat.iter n sub_body s)).
    destruct (sub_body_fields (Nat.iter n sub_body s)) as (Hi & _).
    rewrite Hi, IH. lia.
Qed.

(** The loop makes [n] passes, with the condition true before each and,
    unless the fuel ran out, false after the last. *)
Lemma sub_loop_passes (fuel : nat) (s : subnewton) :
  exists n : nat,
    (n <= fuel)%nat
    /\ sub_loop fuel s = sub_passes n s
    /\ (forall m, (m < n)%nat -> sub_cond (sub_passes m s) = true)
    /\ (n = fuel \/ sub_cond (sub_passes n s) = false).
Proof.
  revert s. induction fuel as [|fuel IH]; intros s.
  - exists 0%nat. split; [lia|]. split; [reflexivity|].
    split; [intros m Hm; lia|now left].
  - simpl. destruct (sub_cond s) eqn:Hc.
    + destruct (IH (sub_body s)) as (n & Hle & Heq & Hbefore & Hlast).
      exists (S n). rewrite sub_passes_succ_r.
      split; [lia|]. split; [exact Heq|]. split.
      * intros [|m] Hm; [exact Hc|].
        rewrite sub_passes_succ_r. apply Hbefore. lia.
      * destruct Hlast as [->|Hlast]; [now left|now right].
    + exists 0%nat. split; [lia|]. split; [reflexivity|].
      split; [intros m Hm; lia|right; exact Hc].
Qed.

Lemma sub_cond_true (s : subnewton) :
  sub_cond s = true <->
  (sn_iter s < sub_maxNLiter sg)%Z /\ sub_NLtol sg < resnorm_scaled s.
Proof.
  clear assemble solve lambda time isTransient isAdjoint num_active_params
    alpha usernum is_final.
  unfold sub_cond. rewrite andb_true_iff, Z.ltb_lt, Qltb_lt. tauto.
Qed.

Lemma sub_cond_false (s : subnewton) :
  sub_cond s = false <->
  (sub_maxNLiter sg <= sn_iter s)%Z \/ resnorm_scaled s <= sub_NLtol sg.
Proof.
  clear assemble solve lambda time isTransient isAdjoint num_active_params
    alpha usernum is_final.
  unfold sub_cond. rewrite andb_false_iff, Z.ltb_ge, Qltb_ge. tauto.
Qed.

(** The loop is entered only with a positive tolerance: on entry the
    scaled norm is [10 sub_NLtol]. *)
Lemma sub_cond_init (w : World) (u u_dot phi phi_dot : vec) :
  sub_cond (sub_init w u u_dot phi phi_dot) = true -> 0 < sub_NLtol sg.
Proof.
  clear assemble solve lambda time isTransient isAdjoint num_active_params
    alpha usernum is_final.
  rewrite sub_cond_true. cbn [resnorm_scaled sub_init]. intros [_ H]. lra.
Qed.

Lemma sub_initial_passes (s0 : subnewton) (m : nat) :
  sn_iter s0 = 0%Z ->
  resnorm_initial (sub_passes (S m) s0) = sub_residual_norm s0.
Proof.
  intros H0. induction m as [|m IH].
  - destruct (sub_body_fields s0) as (_ & Hi & _).
    change (sub_passes 1 s0) with (sub_body s0). rewrite Hi, H0. reflexivity.
  - change (sub_passes (S (S m)) s0) with (sub_body (sub_passes (S m) s0)).
    destruct (sub_body_fields (sub_passes (S m) s0)) as (_ & Hi & _).
    rewrite Hi, sub_iter_passes, H0.
    replace (0 + Z.of_nat (S m) =? 0)%Z with false
      by (symmetry; apply Z.eqb_neq; lia).
    exact IH.
Qed.

Lemma sub_scaled_first (s0 : subnewton) :
  sn_iter s0 = 0%Z ->
  resnorm_scaled (sub_passes 1 s0)
  = (if Qltb 0 (sub_residual_norm s0) then 1 else 0).
Proof.
  intros H0. change (sub_passes 1 s0) with (sub_body s0).
  destruct (sub_body_fields s0) as (_ & _ & Hs). rewrite Hs, H0. reflexivity.
Qed.

(** What a pass keeps: the vectors of the other mode, the lengths, and
    row by row the difference between the time derivative and [alpha]
    times the solution. *)
Definition kept (s s' : subnewton) : Prop :=
  length (sn_u s') = length (sn_u s)
  /\ length (sn_u_dot s') = length (sn_u_dot s)
  /\ length (sn_phi s') = length (sn_phi s)
  /\ length (sn_phi_dot s') = length (sn_phi_dot s)
  /\ (isAdjoint = false ->
      sn_phi s' = sn_phi s /\ sn_phi_dot s' = sn_phi_dot s
      /\ forall i, nth i (sn_u_dot s') 0 - alpha * nth i (sn_u s') 0
                   == nth i (sn_u_dot s) 0 - alpha * nth i (sn_u s) 0)
  /\ (isAdjoint = true ->
      sn_u s' = sn_u s /\ sn_u_dot s' = sn_u_dot s
      /\ forall i, nth i (sn_phi_dot s') 0 - alpha * nth i (sn_phi s') 0
                   == nth i (sn_phi_dot s) 0 - alpha * nth i (sn_phi s) 0).

Lemma kept_refl (s : subnewton) : kept s s.
Proof.
  unfold kept. repeat split; intros; reflexivity.
Qed.

Lemma kept_trans (s1 s2 s3 : subnewton) :
  kept s1 s2 -> kept s2 s3 -> kept s1 s3.
Proof.
  unfold kept.
  intros (A1 & A2 & A3 & A4 & Af & Aa) (B1 & B2 & B3 & B4 & Bf & Ba).
  split; [congruence|]. split; [congruence|]. split; [congruence|].
  split; [congruence|]. split.
  - intros H. destruct (Af H) as (P1 & P2 & P3).
    destruct (Bf H) as (R1 & R2 & R3).
    split; [congruence|]. split; [congruence|].
    intros i. rewrite R3. apply P3.
  - intros H. destruct (Aa H) as (P1 & P2 & P3).
    destruct (Ba H) as (R1 & R2 & R3).
    split; [congruence|]. split; [congruence|].
    intros i. rewrite R3. apply P3.
Qed.

Lemma update_keeps (du x x_dot : vec) (i : nat) :
  length x = length x_dot ->
  nth i (axpy alpha du x_dot) 0 - alpha * nth i (axpy 1 du x) 0
  == nth i x_dot 0 - alpha * nth i x 0.
Proof.
  intros Hlen. rewrite !nth_axpy, Hlen. ring.
Qed.

Lemma sub_body_kept (s : subnewton) :
  (isAdjoint = false -> length (sn_u s) = length (sn_u_dot s)) ->
  (isAdjoint = true -> length (sn_phi s) = length (sn_phi_dot s)) ->
  kept s (sub_body s).
Proof.
  intros Hu Hp. unfold sub_body.
  destruct (sub_assembled s) as [w [res J]].
  match goal with
  | |- context [if Qltb (sub_NLtol sg) ?x then _ else _] =>
      destruct (Qltb (sub_NLtol sg) x)
  end.
  - destruct (solve w J res) as [w' du]. unfold kept. cbn.
    destruct isAdjoint; rewrite ?length_axpy;
      repeat split; try reflexivity; try discriminate;
      intros; apply update_keeps; auto.
  - unfold kept. cbn. repeat split; intros; reflexivity.
Qed.

Lemma sub_passes_kept (n : nat) (s : subnewton) :
  (isAdjoint = false -> length (sn_u s) = length (sn_u_dot s)) ->
  (isAdjoint = true -> length (sn_phi s) = length (sn_phi_dot s)) ->
  kept s (sub_passes n s).
Proof.
  intros Hu Hp. induction n as [|n IH].
  - apply kept_refl.
  - change (sub_passes (S n) s) with (sub_body (sub_passes n s)).
    apply (kept_trans _ _ _ IH). apply sub_body_kept.
    + intros H. destruct IH as (A1 & A2 & _). rewrite A1, A2. auto.
    + intros H. destruct IH as (_ & _ & A3 & A4 & _). rewrite A3, A4. auto.
Qed.

Lemma subGridNonlinearSolver_kept (w : World) (u u_dot phi phi_dot : vec) :
  (isAdjoint = false -> length u = length u_dot) ->
  (isAdjoint = true -> length phi = length phi_dot) ->
  kept (sub_init w u u_dot phi phi_dot)
       (subGridNonlinearSolver w u u_dot phi phi_dot).
Proof.
  intros Hu Hp. unfold subGridNonlinearSolver.
  destruct (sub_loop_passes (Z.to_nat (sub_maxNLiter sg))
              (sub_init w u u_dot phi phi_dot)) as (n & _ & Hrun & _).
  rewrite Hrun. apply sub_passes_kept; assumption.
Qed.

(** Every call of [subGridNonlinearSolver] makes some number [n] of
    passes, at most [sub_maxNLiter]: a pass is made exactly while the
    count is below [sub_maxNLiter] and the scaled norm exceeds
    [sub_NLtol]. With a tolerance that is not positive no pass is made at
    all. The scaled norm is 1 or 0 after the first pass, according to
    whether the first residual norm is positive, and the ratio of the
    current to the first norm afterwards. When the first residual norm is
    not positive at most one pass is made and no vector is updated. *)
Theorem subgrid_newton_stopping_rule (w : World) (u u_dot phi phi_dot : vec) :
  let s0 := sub_init w u u_dot phi phi_dot in
  let r := subGridNonlinearSolver w u u_dot phi phi_dot in
  let r0 := sub_residual_norm s0 in
  exists n : nat,
    r = sub_passes n s0
    /\ sn_iter r = Z.of_nat n
    /\ (Z.of_nat n <= Z.max 0 (sub_maxNLiter sg))%Z
    /\ (forall m, (m < n)%nat ->
          (sn_iter (sub_passes m s0) < sub_maxNLiter sg)%Z
          /\ sub_NLtol sg < resnorm_scaled (sub_passes m s0))
    /\ ((sub_maxNLiter sg <= sn_iter r)%Z
        \/ resnorm_scaled r <= sub_NLtol sg)
    /\ (sub_NLtol sg <= 0 -> n = 0%nat)
    /\ ((0 < n)%nat ->
        resnorm_scaled (sub_passes 1 s0) = (if Qltb 0 r0 then 1 else 0))
    /\ (forall m, (0 < m < n)%nat ->
          resnorm_scaled (sub_passes (S m) s0)
          = sub_residual_norm (sub_passes m s0) / r0)
    /\ (Qltb 0 r0 = false ->
        (n <= 1)%nat /\ sn_u r = u /\ sn_u_dot r = u_dot
        /\ sn_phi r = phi /\ sn_phi_dot r = phi_dot).
Proof.
  cbv zeta. unfold subGridNonlinearSolver.
  set (s0 := sub_init w u u_dot phi phi_dot).
  assert (H0 : sn_iter s0 = 0%Z) by reflexivity.
  destruct (sub_loop_passes (Z.to_nat (sub_maxNLiter sg)) s0)
    as (n & Hle & Hrun & Hbefore & Hlast).
  exists n. rewrite Hrun.
  assert (Hiter : sn_iter (sub_passes n s0) = Z.of_nat n)
    by (rewrite sub_iter_passes, H0; lia).
  assert (Htol : (0 < n)%nat -> 0 < sub_NLtol sg).
  { intros Hn. apply (sub_cond_init w u u_dot phi phi_dot).
    apply (Hbefore 0%nat Hn). }
  split; [reflexivity|]. split; [exact Hiter|]. split; [lia|].
  split; [intros m Hm; apply sub_cond_true, Hbefore, Hm|].
  split.
  { destruct Hlast as [Hn|Hc].
    - left. rewrite Hiter, Hn. lia.
    - apply sub_cond_false in Hc. tauto. }
  split.
  { intros Hneg. destruct n as [|n]; [reflexivity|].
    assert (0 < sub_NLtol sg) by (apply Htol; lia). lra. }
  split; [intros _; apply sub_scaled_first, H0|].
  split.
  { intros m [Hm0 Hmn].
    change (sub_passes (S m) s0) with (sub_body (sub_passes m s0)).
    destruct (sub_body_fields (sub_passes m s0)) as (_ & _ & Hs).
    rewrite Hs, sub_iter_passes, H0.
    replace (0 + Z.of_nat m =? 0)%Z with false
      by (symmetry; apply Z.eqb_neq; lia).
    destruct m as [|m]; [lia|].
    rewrite (sub_initial_passes s0 m H0). reflexivity. }
  intros Hzero.
  assert (Hs1 : resnorm_scaled (sub_passes 1 s0) = 0)
    by (rewrite (sub_scaled_first s0 H0), Hzero; reflexivity).
  assert (Hn1 : (n <= 1)%nat).
  { destruct (le_lt_dec n 1) as [|Hgt]; [assumption|].
    assert (Hc := Hbefore 1%nat Hgt). apply sub_cond_true in Hc.
    rewrite Hs1 in Hc. assert (0 < sub_NLtol sg) by (apply Htol; lia). lra. }
  split; [exact Hn1|].
  destruct n as [|[|n]]; [repeat split| |lia].
  assert (Hpos : 0 < sub_NLtol sg) by (apply Htol; lia).
  change (sub_passes 1 s0) with (sub_body s0) in *.
  unfold sub_body in *. unfold sub_residual_norm in Hzero.
  destruct (sub_assembled s0) as [w1 [res J]]. cbn [fst snd] in Hzero.
  rewrite H0 in *. cbn [Z.eqb] in *. rewrite Hzero in *.
  replace (Qltb (sub_NLtol sg) 0) with false in *
    by (symmetry; apply Qltb_ge; lra).
  repeat split.
Qed.

(** The ratio of the norms is never formed with a divisor that is not
    positive: once the loop goes on after its first pass, the first
    residual norm, by which every later norm is divided, is positive. *)
Theorem subgrid_newton_divisor_positive (w : World)
    (u u_dot phi phi_dot : vec) (m : nat) :
  let s0 := sub_init w u u_dot phi phi_dot in
  (0 < m)%nat ->
  sub_cond s0 = true ->
  sub_cond (sub_passes 1 s0) = true ->
  resnorm_initial (sub_passes m s0) = sub_residual_norm s0
  /\ 0 < sub_residual_norm s0.
Proof.
  cbv zeta. intros Hm Hc0 Hc1.
  set (s0 := sub_init w u u_dot phi phi_dot) in *.
  assert (H0 : sn_iter s0 = 0%Z) by reflexivity.
  split.
  - destruct m as [|m]; [lia|]. apply sub_initial_passes, H0.
  - assert (Hpos : 0 < sub_NLtol sg)
      by (apply (sub_cond_init w u u_dot phi phi_dot), Hc0).
    apply sub_cond_true in Hc1. destruct Hc1 as [_ Hc1].
    rewrite (sub_scaled_first s0 H0) in Hc1.
    destruct (Qltb 0 (sub_residual_norm s0)) eqn:E.
    + apply Qltb_lt in E. exact E.
    + lra.
Qed.

(** The solver keeps the time derivative in step with the solution: row
    by row, [u_dot - alpha u] is the same after the call as before it (in
    adjoint mode, [phi_dot - alpha phi]), and the vectors of the other
    mode are not touched. *)
Theorem subgrid_newton_keeps_time_derivative (w : World)
    (u u_dot phi phi_dot : vec)
    (Hu : isAdjoint = false -> length u = length u_dot)
    (Hp : isAdjoint = true -> length phi = length phi_dot) :
  let r := subGridNonlinearSolver w u u_dot phi phi_dot in
  (isAdjoint = false ->
   sn_phi r = phi /\ sn_phi_dot r = phi_dot
   /\ forall i, nth i (sn_u_dot r) 0 - alpha * nth i (sn_u r) 0
                == nth i u_dot 0 - alpha * nth i u 0)
  /\ (isAdjoint = true ->
      sn_u r = u /\ sn_u_dot r = u_dot
      /\ forall i, nth i (sn_phi_dot r) 0 - alpha * nth i (sn_phi r) 0
                   == nth i phi_dot 0 - alpha * nth i phi 0).
Proof.
  cbv zeta.
  destruct (subGridNonlinearSolver_kept w u u_dot phi phi_dot Hu Hp)
    as (_ & _ & _ & _ & Hf & Ha).
  split; assumption.
Qed.

End Call.

(** ** The forward sub-steps of [SubGridFEM2::subgridSolver] *)

Section SubSteps.

(** [wkset[0]->alpha = alpha; wkset[0]->deltat = 1.0/alpha] *)
Variable set_wkset_alpha : World -> Q -> Q -> World.

(** [computeSubGridSolnSens], which reads the solution vectors and writes
    [d_u] and [subgradient], and [updateFlux] with its weight. *)
Variable computeSubGridSolnSens : World -> sub_args -> Q -> bool -> World.
Variable updateFlux : World -> vec -> Q -> World.

Variable lambda : nat -> nat -> nat -> Q.
Variables isTransient isAdjoint compute_sens : bool.
Variable num_active_params : Z.
Variable usernum : nat.
Variable is_final : bool.

(** The vectors [u], [u_dot], [phi], [phi_dot] of the subgrid and the
    locals [sgtime] and [alpha] of the transient branch. *)
Record substate : Type := {
  ss_world : World;
  ss_u : vec; ss_u_dot : vec; ss_phi : vec; ss_phi_dot : vec;
  ss_sgtime : Q;
  ss_alpha : Q;
  ss_cout : list sub_message
}.

(** [putScalar(0.0)] *)
Definition zeroed (x : vec) : vec := map (fun _ => 0) x.

(** The body of the [for (tstep ...)] loop of the branch taken when the
    call is transient and not adjoint. *)
Definition forward_substep (s : substate) : substate :=
  let sgtime := ss_sgtime s + macro_deltat sg / inject_Z (time_steps sg) in
  let alpha := inject_Z (time_steps sg) / macro_deltat sg in
  let w1 := set_wkset_alpha (ss_world s) alpha (1 / alpha) in
  let lambda_scale := 1 in
  let u_dot0 := zeroed (ss_u_dot s) in
  let phi_dot0 := if isAdjoint then zeroed (ss_phi_dot s) else ss_phi_dot s in
  let r := subGridNonlinearSolver lambda sgtime isTransient isAdjoint
             num_active_params alpha usernum is_final
             w1 (ss_u s) u_dot0 (ss_phi s) phi_dot0 in
  let w2 := computeSubGridSolnSens (sn_world r)
              {| sa_u := sn_u r; sa_u_dot := sn_u_dot r;
                 sa_phi := sn_phi r; sa_phi_dot := sn_phi_dot r;
                 sa_lambda := lambda; sa_time := sgtime;
                 sa_isTransient := isTransient; sa_isAdjoint := isAdjoint;
                 sa_num_active_params := num_active_params;
                 sa_alpha := alpha; sa_usernum := usernum;
                 sa_is_final_time := is_final |}
              lambda_scale compute_sens in
  let w3 := updateFlux w2 (sn_u r) (1 / inject_Z (time_steps sg)) in
  {| ss_world := w3;
     ss_u := sn_u r; ss_u_dot := sn_u_dot r;
     ss_phi := sn_phi r; ss_phi_dot := sn_phi_dot r;
     ss_sgtime := sgtime; ss_alpha := alpha;
     ss_cout := ss_cout s ++ sn_cout r |}.

(** The state after the first [k] sub-steps. *)
Definition after_substeps (k : nat) (s0 : substate) : substate :=
  Nat.iter k forward_substep s0.

(** The loop over [tstep < time_steps]. *)
Definition forward_substeps (s0 : substate) : substate :=
  after_substeps (Z.to_nat (time_steps sg)) s0.

Lemma nth_zeroed (x : vec) (i : nat) : nth i (zeroed x) 0 = 0.
Proof.
  unfold zeroed. revert i. induction x as [|a x IH]; intros [|i]; simpl; auto.
Qed.

Lemma length_zeroed (x : vec) : length (zeroed x) = length x.
Proof. apply length_map. Qed.

Lemma forward_substep_spec (s : substate) :
  isAdjoint = false ->
  length (ss_u s) = length (ss_u_dot s) ->
  let s' := forward_substep s in
  length (ss_u s') = length (ss_u_dot s')
  /\ ss_phi s' = ss_phi s /\ ss_phi_dot s' = ss_phi_dot s
  /\ ss_sgtime s'
     = ss_sgtime s + macro_deltat sg / inject_Z (time_steps sg)
  /\ forall i,
       nth i (ss_u_dot s') 0
       == inject_Z (time_steps sg) / macro_deltat sg
          * (nth i (ss_u s') 0 - nth i (ss_u s) 0).
Proof.
  intros Hfwd Hlen. cbv zeta. unfold forward_substep. cbn.
  rewrite Hfwd.
  set (alpha := inject_Z (time_steps sg) / macro_deltat sg).
  set (w1 := set_wkset_alpha (ss_world s) alpha (1 / alpha)).
  set (t := ss_sgtime s + macro_deltat sg / inject_Z (time_steps sg)).
  destruct (subGridNonlinearSolver_kept lambda t isTransient false
              num_active_params alpha usernum is_final
              w1 (ss_u s) (zeroed (ss_u_dot s)) (ss_phi s) (ss_phi_dot s))
    as (L1 & L2 & _ & _ & Hf & _).
  { intros _. rewrite length_zeroed. exact Hlen. }
  { discriminate. }
  cbn in L1, L2, Hf. destruct (Hf eq_refl) as (P1 & P2 & P3).
  split; [rewrite L1, L2, length_zeroed; exact Hlen|].
  split; [exact P1|]. split; [exact P2|]. split; [reflexivity|].
  intros i. specialize (P3 i). rewrite nth_zeroed in P3.
  assert (E : forall a b c d : Q, a - c * b == 0 - c * d -> a == c * (b - d)).
  { intros a b c d H.
    setoid_replace a with ((a - c * b) + c * b) by ring.
    rewrite H. ring. }
  apply E. exact P3.
Qed.

Lemma after_substeps_spec (k : nat) (s0 : substate) :
  isAdjoint = false ->
  length (ss_u s0) = length (ss_u_dot s0) ->
  length (ss_u (after_substeps k s0)) = length (ss_u_dot (after_substeps k s0))
  /\ ss_phi (after_substeps k s0) = ss_phi s0
  /\ ss_phi_dot (after_substeps k s0) = ss_phi_dot s0
  /\ ss_sgtime (after_substeps k s0)
     == ss_sgtime s0
        + inject_Z (Z.of_nat k) * (macro_deltat sg / inject_Z (time_steps sg)).
Proof.
  intros Hfwd Hlen. induction k as [|k IH].
  - simpl. repeat split; try assumption. ring.
  - destruct IH as (L & P1 & P2 & T).
    change (after_substeps (S k) s0)
      with (forward_substep (after_substeps k s0)).
    destruct (forward_substep_spec (after_substeps k s0) Hfwd L)
      as (L' & Q1 & Q2 & T' & _).
    split; [exact L'|]. split; [congruence|]. split; [congruence|].
    rewrite T', T, Nat2Z.inj_succ. unfold Z.succ. rewrite inject_Z_plus.
    ring.
Qed.

(** In a transient forward call the sub-steps are backward Euler steps of
    size [macro_deltat / time_steps]: after sub-step [k+1] the clock
    [sgtime] has advanced by [k+1] such steps, and row by row [u_dot] is
    [time_steps / macro_deltat] times the change of [u] over the
    sub-step; the adjoint vectors are the ones the call started with. *)
Theorem forward_substeps_backward_euler (s0 : substate) (k : nat)
    (Hfwd : isAdjoint = false)
    (Hlen : length (ss_u s0) = length (ss_u_dot s0)) :
  let s := after_substeps k s0 in
  let s' := after_substeps (S k) s0 in
  ss_sgtime s'
  == ss_sgtime s0
     + inject_Z (Z.of_nat (S k))
       * (macro_deltat sg / inject_Z (time_steps sg))
  /\ (forall i,
        nth i (ss_u_dot s') 0
        == inject_Z (time_steps sg) / macro_deltat sg
           * (nth i (ss_u s') 0 - nth i (ss_u s) 0))
  /\ ss_phi s' = ss_phi s0 /\ ss_phi_dot s' = ss_phi_dot s0.
Proof.
  cbv zeta.
  destruct (after_substeps_spec (S k) s0 Hfwd Hlen) as (_ & P1 & P2 & T).
  destruct (after_substeps_spec k s0 Hfwd Hlen) as (L & _).
  change (after_substeps (S k) s0)
    with (forward_substep (after_substeps k s0)) in *.
  destruct (forward_substep_spec (after_substeps k s0) Hfwd L)
    as (_ & _ & _ & _ & D).
  split; [exact T|]. split; [exact D|]. split; assumption.
Qed.

Lemma sgtime_after_substeps (k : nat) (s0 : substate) :
  ss_sgtime (after_substeps k s0)
  == ss_sgtime s0
     + inject_Z (Z.of_nat k) * (macro_deltat sg / inject_Z (time_steps sg)).
Proof.
  induction k as [|k IH].
  - simpl. ring.
  - change (after_substeps (S k) s0)
      with (forward_substep (after_substeps k s0)).
    unfold forward_substep at 1. cbn [ss_sgtime].
    rewrite IH, Nat2Z.inj_succ. unfold Z.succ. rewrite inject_Z_plus. ring.
Qed.

(** The sub-steps of a transient forward call cover the macro step: with
    a positive number of sub-steps the clock ends [macro_deltat] after
    the time the stored solution was taken from. *)
Theorem forward_substeps_cover_macro_step (s0 : substate)
    (Hts : (0 < time_steps sg)%Z) :
  ss_sgtime (forward_substeps s0) == ss_sgtime s0 + macro_deltat sg.
Proof.
  unfold forward_substeps.
  rewrite sgtime_after_substeps, Z2Nat.id by lia. apply Qplus_inj_l.
  field. intros H. unfold Qeq in H. simpl in H. lia.
Qed.

End SubSteps.

End Newton.

Arguments sn_world {World} _.
Arguments sn_u {World} _.
Arguments sn_u_dot {World} _.
Arguments sn_phi {World} _.
Arguments sn_phi_dot {World} _.
Arguments sn_iter {World} _.
Arguments resnorm {World} _.
Arguments resnorm_initial {World} _.
Arguments resnorm_scaled {World} _.
Arguments sn_cout {World} _.
Arguments ss_world {World} _.
Arguments ss_u {World} _.
Arguments ss_u_dot {World} _.
Arguments ss_phi {World} _.
Arguments ss_phi_dot {World} _.
Arguments ss_sgtime {World} _.
Arguments ss_alpha {World} _.
Arguments ss_cout {World} _.

(** ** The sub-step times of the adjoint branch of [subgridSolver] *)

Section AdjointSchedule.

Variable sg : subgrid.
Variable prev_time : Q.

(** [subsolvetimes] and [sgtime] after [n] passes of the loop that solves
    the forward problem again: each pass advances [sgtime] and pushes
    it. *)
Definition push_times (n : nat) : list Q * Q :=
  fold_left
    (fun (st : list Q * Q) (_ : nat) =>
       let sgtime := snd st + macro_deltat sg / inject_Z (time_steps sg) in
       (fst st ++ [sgtime], sgtime))
    (seq 0 n) ([prev_time], prev_time).

Definition subsolvetimes : list Q :=
  fst (push_times (Z.to_nat (time_steps sg))).

(** [tindex = numsubtimes-1-tstep] and [sgtime = subsolvetimes[tindex]] of
    pass [tstep] of the loop that solves the adjoint problem; the forward
    solution the pass reads is [curr_fsol[tindex-1]]. *)
Definition adjoint_tindex (tstep : nat) : nat :=
  (length subsolvetimes - 1 - tstep)%nat.

Definition adjoint_sgtime (tstep : nat) : Q :=
  nth (adjoint_tindex tstep) subsolvetimes 0.

Lemma push_times_spec (n : nat) :
  length (fst (push_times n)) = S n
  /\ snd (push_times n)
     == prev_time
        + inject_Z (Z.of_nat n) * (macro_deltat sg / inject_Z (time_steps sg))
  /\ forall j, (j <= n)%nat ->
       nth j (fst (push_times n)) 0
       == prev_time
          + inject_Z (Z.of_nat j)
            * (macro_deltat sg / inject_Z (time_steps sg)).
Proof.
  unfold push_times. induction n as [|n IH].
  - simpl. split; [reflexivity|]. split; [ring|].
    intros j Hj. replace j with 0%nat by lia. simpl. ring.
  - rewrite seq_S, fold_left_app. simpl.
    destruct IH as (L & T & N).
    split; [rewrite length_app, L; simpl; lia|].
    assert (T' : snd (fold_left
                        (fun (st : list Q * Q) (_ : nat) =>
                           (fst st ++ [snd st + macro_deltat sg
                                                / inject_Z (time_steps sg)],
                            snd st + macro_deltat sg
                                     / inject_Z (time_steps sg)))
                        (seq 0 n) ([prev_time], prev_time))
                   + macro_deltat sg / inject_Z (time_steps sg)
                 == prev_time
                    + inject_Z (Z.of_nat (S n))
                      * (macro_deltat sg / inject_Z (time_steps sg))).
    { rewrite T, Nat2Z.inj_succ. unfold Z.succ. rewrite inject_Z_plus. ring. }
    split; [exact T'|].
    intros j Hj. destruct (Nat.eq_dec j (S n)) as [->|Hne].
    + rewrite app_nth2 by lia. rewrite L, Nat.sub_diag. simpl. exact T'.
    + rewrite app_nth1 by lia. apply N. lia.
Qed.

(** The adjoint passes run through the sub-step times backwards: pass
    [tstep] has an index between 1 and [time_steps], so that
    [curr_fsol[tindex-1]] is one of the [time_steps] stored forward
    solutions, and its time is [prev_time] plus [time_steps - tstep]
    sub-steps, the time at which that forward solution was computed. *)
Theorem adjoint_substeps_reversed (tstep : nat)
    (Ht : (Z.of_nat tstep < time_steps sg)%Z) :
  let n := Z.to_nat (time_steps sg) in
  let tindex := adjoint_tindex tstep in
  length subsolvetimes = S n
  /\ tindex = (n - tstep)%nat
  /\ (1 <= tindex <= n)%nat
  /\ adjoint_sgtime tstep
     == prev_time
        + inject_Z (time_steps sg - Z.of_nat tstep)
          * (macro_deltat sg / inject_Z (time_steps sg))
  /\ adjoint_sgtime tstep == nth (S (tindex - 1)) subsolvetimes 0
  /\ (tstep = 0%nat -> adjoint_sgtime tstep == prev_time + macro_deltat sg).
Proof.
  cbv zeta. unfold adjoint_sgtime, adjoint_tindex, subsolvetimes.
  destruct (push_times_spec (Z.to_nat (time_steps sg))) as (L & _ & N).
  rewrite L.
  assert (Hi : (S (Z.to_nat (time_steps sg)) - 1 - tstep
                = Z.to_nat (time_steps sg) - tstep)%nat) by lia.
  rewrite Hi.
  split; [reflexivity|]. split; [reflexivity|]. split; [lia|].
  assert (Hn : nth (Z.to_nat (time_steps sg) - tstep)
                   (fst (push_times (Z.to_nat (time_steps sg)))) 0
               == prev_time
                  + inject_Z (time_steps sg - Z.of_nat tstep)
                    * (macro_deltat sg / inject_Z (time_steps sg))).
  { rewrite N by lia.
    replace (Z.of_nat (Z.to_nat (time_steps sg) - tstep))
      with (time_steps sg - Z.of_nat tstep)%Z by lia.
    reflexivity. }
  split; [exact Hn|]. split.
  - replace (S (Z.to_nat (time_steps sg) - tstep - 1))
      with (Z.to_nat (time_steps sg) - tstep)%nat by lia.
    reflexivity.
  - intros ->. rewrite Hn. apply Qplus_inj_l.
    change (Z.of_nat 0) with 0%Z. rewrite Z.sub_0_r.
    field. intros H. unfold Qeq in H. simpl in H. lia.
Qed.

End AdjointSchedule.

(** ** A one-unknown subgrid

    The residual is [x - 3] with [x] the unknown of the mode ([u], or
    [phi] in adjoint mode), the Jacobian is [1], and the solver returns
    [- res]: the first pass finds the solution, the second one sees a
    zero residual. Two sub-steps cover a macro step of size 1. *)

Definition demo_subgrid : subgrid :=
  {| sub_NLtol := 1 # 2; sub_maxNLiter := 3; subgridverbose := 10;
     local_rank := 0; time_steps := 2; macro_deltat := 1; final_time := 1 |}.

Definition demo_assemble (w : unit) (a : sub_args)
    : unit * (vec * matrix) :=
  (tt, ([nth 0 (if sa_isAdjoint a then sa_phi a else sa_u a) 0 - 3], [[1]])).

Definition demo_solve (w : unit) (J : matrix) (res : vec) : unit * vec :=
  (tt, map Qopp res).

Definition demo_lambda : nat -> nat -> nat -> Q := fun _ _ _ => 0.

Definition demo_newton (adjoint : bool) : subnewton unit :=
  subGridNonlinearSolver unit demo_assemble demo_solve demo_subgrid
    demo_lambda 0 true adjoint 0 2 0 false tt [0] [0] [0] [0].

Definition demo_substate : substate unit :=
  {| ss_world := tt; ss_u := [0]; ss_u_dot := [0];
     ss_phi := [0]; ss_phi_dot := [0];
     ss_sgtime := 0; ss_alpha := 0; ss_cout := [] |}.

Definition demo_after_substeps (k : nat) : substate unit :=
  after_substeps unit demo_assemble demo_solve demo_subgrid
    (fun w _ _ => w) (fun w _ _ _ => w) (fun w _ _ => w)
    demo_lambda true false false 0 0 false k demo_substate.

Example demo_newton_two_passes :
  sn_iter (demo_newton false) = 2%Z
  /\ sn_u (demo_newton false) = [0 + 1 * - (0 - 3)]
  /\ resnorm_scaled (demo_newton false) == 0.
Proof. vm_compute. repeat split. Qed.

Lemma subgrid_newton_divisor_positive_witness :
  resnorm_initial
    (sub_passes unit demo_assemble demo_solve demo_subgrid demo_lambda
       0 true false 0 2 0 false 1
       (sub_init unit demo_subgrid tt [0] [0] [0] [0]))
  = sub_residual_norm unit demo_assemble demo_lambda 0 true false 0 2 0 false
      (sub_init unit demo_subgrid tt [0] [0] [0] [0])
  /\ 0 < sub_residual_norm unit demo_assemble demo_lambda 0 true false 0 2 0
           false (sub_init unit demo_subgrid tt [0] [0] [0] [0]).
Proof.
  apply (subgrid_newton_divisor_positive unit demo_assemble demo_solve
           demo_subgrid demo_lambda 0 true false 0 2 0 false
           tt [0] [0] [0] [0] 1%nat).
  - lia.
  - vm_compute. reflexivity.
  - vm_compute. reflexivity.
Defined.

(** In adjoint mode the solver leaves [u] and [u_dot] alone and moves
    [phi] to 3 and [phi_dot] to [alpha 3 = 6]. *)
Lemma subgrid_newton_keeps_time_derivative_witness :
  sn_u (demo_newton true) = [0] /\ sn_u_dot (demo_newton true) = [0]
  /\ nth 0 (sn_phi_dot (demo_newton true)) 0
     - 2 * nth 0 (sn_phi (demo_newton true)) 0 == 0
  /\ nth 0 (sn_phi (demo_newton true)) 0 == 3.
Proof.
  destruct (subgrid_newton_keeps_time_derivative unit demo_assemble
              demo_solve demo_subgrid demo_lambda 0 true true 0 2 0 false
              tt [0] [0] [0] [0] (fun _ => eq_refl) (fun _ => eq_refl))
    as [_ H].
  destruct (H eq_refl) as (Hu & Hd & Hi).
  split; [exact Hu|]. split; [exact Hd|]. split.
  - rewrite (Hi 0%nat). vm_compute. reflexivity.
  - vm_compute. reflexivity.
Defined.

(** The first sub-step ends at time 1/2 with [u = 3] and
    [u_dot = 2 (3 - 0)]; the second leaves [u] where it is, so its
    [u_dot] is 0. *)
Lemma forward_substeps_backward_euler_witness :
  ss_sgtime (demo_after_substeps 2) == 1
  /\ nth 0 (ss_u (demo_after_substeps 1)) 0 == 3
  /\ nth 0 (ss_u_dot (demo_after_substeps 1)) 0 == 6
  /\ nth 0 (ss_u_dot (demo_after_substeps 2)) 0 == 0.
Proof.
  destruct (forward_substeps_backward_euler unit demo_assemble demo_solve
              demo_subgrid (fun w _ _ => w) (fun w _ _ _ => w)
              (fun w _ _ => w) demo_lambda true false false 0 0 false
              demo_substate 1 eq_refl eq_refl) as (T & D & _).
  split; [rewrite T; vm_compute; reflexivity|].
  split; [vm_compute; reflexivity|].
  split; [vm_compute; reflexivity|].
  rewrite (D 0%nat). vm_compute. reflexivity.
Defined.

Lemma forward_substeps_cover_macro_step_witness :
  ss_sgtime
    (forward_substeps unit demo_assemble demo_solve demo_subgrid
       (fun w _ _ => w) (fun w _ _ _ => w) (fun w _ _ => w)
       demo_lambda true false false 0 0 false demo_substate)
  == 0 + 1.
Proof.
  apply (forward_substeps_cover_macro_step unit demo_assemble demo_solve
           demo_subgrid (fun w _ _ => w) (fun w _ _ _ => w)
           (fun w _ _ => w) demo_lambda true false false 0 0 false
           demo_substate).
  reflexivity.
Defined.

(** With two sub-steps from time 0 the adjoint passes are at times 1 and
    1/2, with the forward solutions 1 and 0. *)
Lemma adjoint_substeps_reversed_witness :
  adjoint_tindex demo_subgrid 0 0 = 2%nat
  /\ adjoint_sgtime demo_subgrid 0 0 == 1
  /\ adjoint_tindex demo_subgrid 0 1 = 1%nat
  /\ adjoint_sgtime demo_subgrid 0 1 == 1 # 2.
Proof.
  destruct (adjoint_substeps_reversed demo_subgrid 0 0%nat eq_refl)
    as (_ & I0 & _ & T0 & _).
  destruct (adjoint_substeps_reversed demo_subgrid 0 1%nat eq_refl)
    as (_ & I1 & _ & T1 & _).
  split; [exact I0|]. split; [rewrite T0; vm_compute; reflexivity|].
  split; [exact I1|]. rewrite T1. vm_compute. reflexivity.
Defined.

End SubGridSolver.

(** ** The point collections of the subgrid model *)

Module SubGridPoints.

(** What [getIP], [getIPWts] and [evaluateBasis2] read of a subgrid
    cell. *)
Record ipcell : Type := {
  ip_numElem : nat;                 (* numElem *)
  ip_dim1 : nat;                    (* ip.dimension(1) *)
  ip_dim2 : nat;                    (* ip.dimension(2) *)
  ip : nat -> nat -> nat -> Q;      (* ip(c,i,j) *)
  GIDs : nat -> nat -> Z            (* GIDs(c,j) *)
}.

(** [refip(0,prog,j)]; a freshly allocated view holds zeros. *)
Definition pts_view := nat -> nat -> Q.

Definition fresh_pts : pts_view := fun _ _ => 0.

Definition set_pt (v : pts_view) (p j : nat) (x : Q) : pts_view :=
  fun p' j' => if (p' =? p)%nat && (j' =? j)%nat then x else v p' j'.

(** [totalip += numip_per_cell*cells[usernum][e]->numElem] *)
Definition totalip (numip_per_cell : nat) (cells : list ipcell) : nat :=
  fold_left (fun t c => (t + numip_per_cell * ip_numElem c)%nat) cells 0%nat.

(** The body of the loop over [i]: the coordinates of point [(c,i)] go to
    row [prog], then [prog++]. *)
Definition copy_point (cell : ipcell) (c i : nat) (st : pts_view * nat)
    : pts_view * nat :=
  (fold_left (fun v j => set_pt v (snd st) j (ip cell c i j))
             (seq 0 (ip_dim2 cell)) (fst st),
   S (snd st)).

Definition copy_cell (cell : ipcell) (st : pts_view * nat) : pts_view * nat :=
  fold_left
    (fun st c => fold_left (fun st i => copy_point cell c i st)
                           (seq 0 (ip_dim1 cell)) st)
    (seq 0 (ip_numElem cell)) st.

(** [SubGridFEM2::getIP]: the view and the final value of [prog]. *)
Definition getIP (cells : list ipcell) : pts_view * nat :=
  fold_left (fun st cell => copy_cell cell st) cells (fresh_pts, 0%nat).

(** [SubGridFEM2::getIPWts]: [refwts(0,prog) = wts(i)] for every element
    of every cell and every [i < wts.dimension(0)]. *)
Definition wts_view := nat -> Q.

Definition set_wt (v : wts_view) (p : nat) (x : Q) : wts_view :=
  fun p' => if (p' =? p)%nat then x else v p'.

Definition getIPWts (wts : nat -> Q) (wts_dim0 : nat) (cells : list ipcell)
    : wts_view * nat :=
  fold_left
    (fun st cell =>
       fold_left
         (fun st c =>
            fold_left (fun st i => (set_wt (fst st) (snd st) (wts i),
                                    S (snd st)))
                      (seq 0 wts_dim0) st)
         (seq 0 (ip_numElem cell)) st)
    cells (fun _ => 0, 0%nat).

(** The points in the order the loops visit them: cell by cell, element
    by element, point by point. *)
Definition points (cells : list ipcell) : list (ipcell * nat * nat) :=
  flat_map
    (fun cell =>
       flat_map (fun c => map (fun i => (cell, c, i)) (seq 0 (ip_dim1 cell)))
                (seq 0 (ip_numElem cell)))
    cells.

Lemma fold_left_flat_map (A B S : Type) (f : S -> B -> S) (g : A -> list B)
    (l : list A) (a : S) :
  fold_left f (flat_map g l) a
  = fold_left (fun a x => fold_left f (g x) a) l a.
Proof.
  revert a. induction l as [|x l IH]; intros a; simpl; [reflexivity|].
  rewrite fold_left_app. apply IH.
Qed.

Lemma fold_left_map (A B S : Type) (f : S -> B -> S) (h : A -> B)
    (l : list A) (a : S) :
  fold_left f (map h l) a = fold_left (fun a x => f a (h x)) l a.
Proof.
  revert a. induction l as [|x l IH]; intros a; simpl; [reflexivity|].
  apply IH.
Qed.

Definition copy_item (st : pts_view * nat) (it : ipcell * nat * nat)
    : pts_view * nat :=
  copy_point (fst (fst it)) (snd (fst it)) (snd it) st.

Lemma getIP_points (cells : list ipcell) :
  getIP cells = fold_left copy_item (points cells) (fresh_pts, 0%nat).
Proof.
  unfold getIP, points. rewrite fold_left_flat_map.
  generalize (fresh_pts, 0%nat).
  induction cells as [|cell cells IH]; intros st; simpl; [reflexivity|].
  rewrite <- IH. f_equal. unfold copy_cell.
  rewrite fold_left_flat_map.
  generalize (seq 0 (ip_numElem cell)). intros l. revert st.
  induction l as [|c l IHl]; intros st; simpl; [reflexivity|].
  rewrite <- IHl. f_equal. rewrite fold_left_map. reflexivity.
Qed.

Lemma copy_row (cell : ipcell) (c i : nat) (n : nat) (v : pts_view)
    (p : nat) (p' j' : nat) :
  fold_left (fun v j => set_pt v p j (ip cell c i j)) (seq 0 n) v p' j'
  = if (p' =? p)%nat && (j' <? n)%nat then ip cell c i j' else v p' j'.
Proof.
  induction n as [|n IH].
  - simpl. rewrite andb_false_r. reflexivity.
  - rewrite seq_S, fold_left_app. simpl. unfold set_pt at 1. rewrite IH.
    destruct (Nat.eqb_spec p' p) as [->|Hp]; simpl.
    + destruct (Nat.eqb_spec j' n) as [->|Hj].
      * replace (n <? S n)%nat with true by (symmetry; apply Nat.ltb_lt; lia).
        reflexivity.
      * destruct (Nat.ltb_spec j' n), (Nat.ltb_spec j' (S n));
          try lia; reflexivity.
    + reflexivity.
Qed.

Lemma copy_items (l : list (ipcell * nat * nat)) (v : pts_view) (p0 : nat) :
  snd (fold_left copy_item l (v, p0)) = (p0 + length l)%nat
  /\ forall p j,
       fst (fold_left copy_item l (v, p0)) p j
       = if (p0 <=? p)%nat && (p <? p0 + length l)%nat
         then match nth_error l (p - p0) with
              | Some (cell, c, i) =>
                  if (j <? ip_dim2 cell)%nat then ip cell c i j else v p j
              | None => v p j
              end
         else v p j.
Proof.
  revert v p0. induction l as [|[[cell c] i] l IH]; intros v p0.
  - simpl. split; [lia|]. intros p j.
    destruct ((p0 <=? p)%nat && (p <? p0 + 0)%nat) eqn:E; [|reflexivity].
    apply andb_prop in E. destruct E as [E1 E2].
    apply Nat.leb_le in E1. apply Nat.ltb_lt in E2. lia.
  - cbn [fold_left]. unfold copy_item at 2. unfold copy_point.
    cbn [fst snd].
    destruct (IH (fold_left (fun v j => set_pt v p0 j (ip cell c i j))
                            (seq 0 (ip_dim2 cell)) v) (S p0)) as [Hs Hv].
    split; [rewrite Hs; simpl; lia|].
    intros p j. rewrite Hv, copy_row. cbn [length].
    destruct (Nat.leb_spec (S p0) p) as [H1|H1];
      destruct (Nat.ltb_spec p (S p0 + length l)) as [H2|H2];
      destruct (Nat.leb_spec p0 p) as [H3|H3];
      destruct (Nat.ltb_spec p (p0 + S (length l))) as [H4|H4];
      try lia; cbn [andb].
    + replace (p - p0)%nat with (S (p - S p0)) by lia. cbn [nth_error].
      replace (p =? p0)%nat with false by (symmetry; apply Nat.eqb_neq; lia).
      reflexivity.
    + replace (p =? p0)%nat with false by (symmetry; apply Nat.eqb_neq; lia).
      reflexivity.
    + assert (p = p0) by lia. subst p.
      rewrite Nat.sub_diag, Nat.eqb_refl. cbn [nth_error andb]. reflexivity.
    + replace (p =? p0)%nat with false by (symmetry; apply Nat.eqb_neq; lia).
      reflexivity.
Qed.

Lemma length_points (numip_per_cell : nat) (cells : list ipcell) :
  (forall cell, In cell cells -> ip_dim1 cell = numip_per_cell) ->
  length (points cells) = totalip numip_per_cell cells.
Proof.
  unfold totalip, points.
  assert (G : forall t,
            (forall cell, In cell cells -> ip_dim1 cell = numip_per_cell) ->
            (t + length (flat_map
                  (fun cell =>
                     flat_map (fun c => map (fun i => (cell, c, i))
                                            (seq 0 (ip_dim1 cell)))
                              (seq 0 (ip_numElem cell))) cells))%nat
            = fold_left (fun t c => (t + numip_per_cell * ip_numElem c)%nat)
                        cells t).
  { induction cells as [|cell cells IH]; intros t H; simpl; [lia|].
    rewrite <- IH by (intros; apply H; now right).
    rewrite length_app.
    assert (E : length (flat_map (fun c => map (fun i => (cell, c, i))
                                               (seq 0 (ip_dim1 cell)))
                                 (seq 0 (ip_numElem cell)))
                = (numip_per_cell * ip_numElem cell)%nat).
    { rewrite (H cell (or_introl eq_refl)).
      generalize (length_seq (ip_numElem cell) 0).
      generalize (seq 0 (ip_numElem cell)). intros l.
      revert l. generalize (ip_numElem cell).
      intros n l. revert n. induction l as [|c l IHl]; intros n Hn; simpl in *.
      - subst n. lia.
      - destruct n as [|n]; [discriminate|].
        rewrite length_app, length_map, length_seq.
        rewrite (IHl n) by lia. lia. }
    rewrite E. lia. }
  intros H. rewrite <- (G 0%nat H). reflexivity.
Qed.

(** [getIP] lists the integration points of all elements of all cells in
    the order cell, element, point: row [p] of the result holds the
    coordinates of the [p]-th point of that order, the rows from the
    number of points on are never written, and the number of points is
    the allocated [totalip] when every cell has [numip_per_cell] points
    per element. *)
Theorem getIP_lists_points (numip_per_cell : nat) (cells : list ipcell) :
  let refip := fst (getIP cells) in
  let prog := snd (getIP cells) in
  prog = length (points cells)
  /\ (forall p cell c i j,
        nth_error (points cells) p = Some (cell, c, i) ->
        (j < ip_dim2 cell)%nat ->
        refip p j = ip cell c i j)
  /\ (forall p j, (length (points cells) <= p)%nat -> refip p j = 0)
  /\ ((forall cell, In cell cells -> ip_dim1 cell = numip_per_cell) ->
      prog = totalip numip_per_cell cells).
Proof.
  cbv zeta. rewrite getIP_points.
  destruct (copy_items (points cells) fresh_pts 0) as [Hs Hv].
  split; [rewrite Hs; reflexivity|]. split; [|split].
  - intros p cell c i j Hn Hj. rewrite Hv. simpl.
    assert (Hp : (p < length (points cells))%nat)
      by (apply nth_error_Some; congruence).
    replace (p <? length (points cells))%nat with true
      by (symmetry; apply Nat.ltb_lt; exact Hp).
    rewrite Nat.sub_0_r, Hn.
    replace (j <? ip_dim2 cell)%nat with true
      by (symmetry; apply Nat.ltb_lt; exact Hj).
    reflexivity.
  - intros p j Hp. rewrite Hv. simpl.
    replace (p <? length (points cells))%nat with false
      by (symmetry; apply Nat.ltb_ge; exact Hp).
    reflexivity.
  - intros H. rewrite Hs. simpl. apply length_points, H.
Qed.

(** The elements of all cells, in the order of the loops. *)
Definition elements (cells : list ipcell) : list nat :=
  flat_map (fun cell => seq 0 (ip_numElem cell)) cells.

Definition copy_wt (wts : nat -> Q) (st : wts_view * nat) (i : nat)
    : wts_view * nat :=
  (set_wt (fst st) (snd st) (wts i), S (snd st)).

Lemma getIPWts_items (wts : nat -> Q) (wts_dim0 : nat) (cells : list ipcell) :
  getIPWts wts wts_dim0 cells
  = fold_left (copy_wt wts)
      (flat_map (fun _ => seq 0 wts_dim0) (elements cells))
      (fun _ => 0, 0%nat).
Proof.
  unfold getIPWts, elements. rewrite !fold_left_flat_map.
  reflexivity.
Qed.

Lemma copy_wts (wts : nat -> Q) (l : list nat) (v : wts_view) (p0 : nat) :
  snd (fold_left (copy_wt wts) l (v, p0)) = (p0 + length l)%nat
  /\ forall p,
       fst (fold_left (copy_wt wts) l (v, p0)) p
       = if (p0 <=? p)%nat && (p <? p0 + length l)%nat
         then wts (nth (p - p0) l 0%nat) else v p.
Proof.
  revert v p0. induction l as [|i l IH]; intros v p0.
  - simpl. split; [lia|]. intros p.
    destruct ((p0 <=? p)%nat && (p <? p0 + 0)%nat) eqn:E; [|reflexivity].
    apply andb_prop in E. destruct E as [E1 E2].
    apply Nat.leb_le in E1. apply Nat.ltb_lt in E2. lia.
  - cbn [fold_left]. unfold copy_wt at 2. cbn [fst snd].
    destruct (IH (set_wt v p0 (wts i)) (S p0)) as [Hs Hv].
    split; [rewrite Hs; simpl; lia|].
    intros p. rewrite Hv. unfold set_wt. cbn [length].
    destruct (Nat.leb_spec (S p0) p) as [H1|H1];
      destruct (Nat.ltb_spec p (S p0 + length l)) as [H2|H2];
      destruct (Nat.leb_spec p0 p) as [H3|H3];
      destruct (Nat.ltb_spec p (p0 + S (length l))) as [H4|H4];
      try lia; cbn [andb].
    + replace (p - p0)%nat with (S (p - S p0)) by lia. reflexivity.
    + replace (p =? p0)%nat with false by (symmetry; apply Nat.eqb_neq; lia).
      reflexivity.
    + assert (p = p0) by lia. subst p.
      rewrite Nat.sub_diag, Nat.eqb_refl. reflexivity.
    + replace (p =? p0)%nat with false by (symmetry; apply Nat.eqb_neq; lia).
      reflexivity.
Qed.

Lemma repeated_seq (A : Type) (n : nat) (l : list A) :
  length (flat_map (fun _ => seq 0 n) l) = (n * length l)%nat
  /\ forall p, (p < n * length l)%nat ->
       nth p (flat_map (fun _ => seq 0 n) l) 0%nat = (p mod n)%nat.
Proof.
  induction l as [|a l [IHl IHn]]; simpl.
  - split; [lia|]. intros p Hp. lia.
  - split; [rewrite length_app, length_seq, IHl; lia|].
    intros p Hp. destruct (Nat.lt_ge_cases p n) as [Hlt|Hge].
    + rewrite app_nth1 by (rewrite length_seq; exact Hlt).
      rewrite seq_nth by exact Hlt. rewrite Nat.mod_small by exact Hlt.
      reflexivity.
    + rewrite app_nth2 by (rewrite length_seq; exact Hge).
      rewrite length_seq, IHn by lia.
      assert (Hn : n <> 0%nat) by lia.
      replace p with ((p - n) + 1 * n)%nat at 2 by lia.
      rewrite Nat.Div0.mod_add. reflexivity.
Qed.

(** [getIPWts] repeats the reference weights once for every element of
    every cell: entry [p] is [wts(p mod n)] with [n] the number of
    reference weights, whatever the size of the element; the entries from
    [n] times the number of elements on are never written. *)
Theorem getIPWts_repeats_reference_weights (wts : nat -> Q)
    (wts_dim0 : nat) (cells : list ipcell) :
  let refwts := fst (getIPWts wts wts_dim0 cells) in
  let prog := snd (getIPWts wts wts_dim0 cells) in
  let nelem := length (elements cells) in
  prog = (wts_dim0 * nelem)%nat
  /\ (forall p, (p < wts_dim0 * nelem)%nat ->
        refwts p = wts (p mod wts_dim0)%nat)
  /\ (forall p, (wts_dim0 * nelem <= p)%nat -> refwts p = 0)
  /\ nelem = fold_left (fun t c => (t + ip_numElem c)%nat) cells 0%nat.
Proof.
  cbv zeta. rewrite getIPWts_items.
  destruct (repeated_seq nat wts_dim0 (elements cells)) as [Hl Hn].
  destruct (copy_wts wts (flat_map (fun _ => seq 0 wts_dim0) (elements cells))
              (fun _ => 0) 0) as [Hs Hv].
  unfold wts_view in *.
  split; [rewrite Hs, Hl; reflexivity|]. split; [|split].
  - intros p Hp. rewrite Hv, Hl. simpl.
    replace (p <? wts_dim0 * length (elements cells))%nat with true
      by (symmetry; apply Nat.ltb_lt; exact Hp).
    rewrite Nat.sub_0_r, Hn by exact Hp. reflexivity.
  - intros p Hp. rewrite Hv, Hl. simpl.
    replace (p <? wts_dim0 * length (elements cells))%nat with false
      by (symmetry; apply Nat.ltb_ge; exact Hp).
    reflexivity.
  - unfold elements.
    assert (G : forall t,
              (t + length (flat_map (fun cell => seq 0 (ip_numElem cell))
                                    cells))%nat
              = fold_left (fun t c => (t + ip_numElem c)%nat) cells t).
    { clear. induction cells as [|cell cells IH]; intros t; simpl; [lia|].
      rewrite length_app, length_seq, <- IH. lia. }
    rewrite <- (G 0%nat). reflexivity.
Qed.

(** ** The owners table of [SubGridFEM2::evaluateBasis2] *)

Section Owners.

Variable cells : list ipcell.                 (* cells[0] *)
Variable numpts : nat.                        (* pts.dimension(1) *)
Variable numGIDs : nat.                       (* cells[0][0]->GIDs.dimension(1) *)

(** [inRefCell(0,i)] after [checkPointwiseInclusion] for element [c] of
    cell [e]. *)
Variable inRefCell : nat -> nat -> nat -> Z.

(** [owners(i,j)]; a freshly allocated view holds zeros. The entries
    are the values of the cell index and of the GIDs, taken to fit the
    [int] of the view. *)
Definition owners_view := nat -> nat -> Z.

Definition fresh_owners : owners_view := fun _ _ => 0%Z.

Definition set_owner (v : owners_view) (i j : nat) (x : Z) : owners_view :=
  fun i' j' => if (i' =? i)%nat && (j' =? j)%nat then x else v i' j'.

Definition dummy_ipcell : ipcell :=
  {| ip_numElem := 0; ip_dim1 := 0; ip_dim2 := 0;
     ip := fun _ _ _ => 0; GIDs := fun _ _ => 0%Z |}.

(** The body of the loop over the points, for element [c] of cell [e]. *)
Definition claim_point (e c i : nat) (own : owners_view) : owners_view :=
  if (inRefCell e c i =? 1)%Z
  then fold_left
         (fun o j => set_owner o i (j + 1) (GIDs (nth e cells dummy_ipcell) c j))
         (seq 0 numGIDs)
         (set_owner own i 0 (Z.of_nat e))
  else own.

Definition claim_points (e c : nat) (own : owners_view) : owners_view :=
  fold_left (fun o i => claim_point e c i o) (seq 0 numpts) own.

(** The first loop nest of [evaluateBasis2]: the owners table. *)
Definition owners : owners_view :=
  fold_left
    (fun o e =>
       fold_left (fun o c => claim_points e c o)
                 (seq 0 (ip_numElem (nth e cells dummy_ipcell))) o)
    (seq 0 (length cells)) fresh_owners.

(** The elements in the order the loops visit them. *)
Definition visited : list (nat * nat) :=
  flat_map
    (fun e => map (fun c => (e, c))
                  (seq 0 (ip_numElem (nth e cells dummy_ipcell))))
    (seq 0 (length cells)).

(** The last visited element that contains point [i]. *)
Definition last_containing (i : nat) : option (nat * nat) :=
  find (fun ec => (inRefCell (fst ec) (snd ec) i =? 1)%Z) (rev visited).

(** The row [owners(i,.)] of a point claimed by element [c] of cell [e]. *)
Definition owner_row (e c : nat) (j : nat) : Z :=
  if (j =? 0)%nat then Z.of_nat e
  else GIDs (nth e cells dummy_ipcell) c (j - 1).

Lemma set_gids (e c i : nat) (n : nat) (o : owners_view) (i' j' : nat) :
  fold_left
    (fun o j => set_owner o i (j + 1) (GIDs (nth e cells dummy_ipcell) c j))
    (seq 0 n) o i' j'
  = if (i' =? i)%nat && (1 <=? j')%nat && (j' <=? n)%nat
    then GIDs (nth e cells dummy_ipcell) c (j' - 1) else o i' j'.
Proof.
  induction n as [|n IH].
  - simpl. destruct (i' =? i)%nat, j' as [|j']; reflexivity.
  - rewrite seq_S, fold_left_app. cbn [fold_left Nat.add].
    unfold set_owner at 1. rewrite IH.
    destruct (Nat.eqb_spec i' i) as [->|Hi]; cbn [andb]; [|reflexivity].
    destruct (Nat.leb_spec 1 j'), (Nat.leb_spec j' n),
      (Nat.leb_spec j' (S n)), (Nat.eqb_spec j' (n + 1)) as [Hj|Hj];
      try lia; cbn [andb]; try reflexivity.
    rewrite Hj. replace (n + 1 - 1)%nat with n by lia. reflexivity.
Qed.

Lemma claim_point_spec (e c i : nat) (own : owners_view) (i' j' : nat) :
  claim_point e c i own i' j'
  = if (inRefCell e c i =? 1)%Z && (i' =? i)%nat && (j' <=? numGIDs)%nat
    then owner_row e c j' else own i' j'.
Proof.
  unfold claim_point, owner_row.
  destruct (inRefCell e c i =? 1)%Z; [|reflexivity].
  rewrite set_gids. unfold set_owner. simpl.
  destruct (Nat.eqb_spec i' i) as [->|Hi]; simpl; [|reflexivity].
  destruct j' as [|j']; simpl; [reflexivity|].
  destruct (Nat.leb_spec (S j') numGIDs); reflexivity.
Qed.

Lemma claim_points_spec (e c : nat) (own : owners_view) (i' j' : nat) :
  claim_points e c own i' j'
  = if (i' <? numpts)%nat && (inRefCell e c i' =? 1)%Z
       && (j' <=? numGIDs)%nat
    then owner_row e c j' else own i' j'.
Proof.
  unfold claim_points. induction numpts as [|n IH].
  - reflexivity.
  - rewrite seq_S, fold_left_app. simpl. rewrite claim_point_spec, IH.
    destruct (Nat.eqb_spec i' n) as [->|Hi].
    + replace (n <? S n)%nat with true by (symmetry; apply Nat.ltb_lt; lia).
      replace (n <? n)%nat with false by (symmetry; apply Nat.ltb_ge; lia).
      simpl. rewrite andb_true_r. reflexivity.
    + rewrite andb_false_r. simpl.
      destruct (Nat.ltb_spec i' n), (Nat.ltb_spec i' (S n));
        try lia; reflexivity.
Qed.

Lemma claim_visited (l : list (nat * nat)) (v : owners_view) (i j : nat) :
  fold_left (fun o ec => claim_points (fst ec) (snd ec) o) l v i j
  = if (i <? numpts)%nat && (j <=? numGIDs)%nat
    then match find (fun ec => (inRefCell (fst ec) (snd ec) i =? 1)%Z)
                    (rev l) with
         | Some ec => owner_row (fst ec) (snd ec) j
         | None => v i j
         end
    else v i j.
Proof.
  induction l as [|[e c] l IH] using rev_ind.
  - simpl. destruct ((i <? numpts)%nat && (j <=? numGIDs)%nat); reflexivity.
  - rewrite fold_left_app, rev_app_distr. simpl.
    rewrite claim_points_spec, IH.
    destruct (i <? numpts)%nat, (inRefCell e c i =? 1)%Z,
      (j <=? numGIDs)%nat; reflexivity.
Qed.

Lemma owners_visited :
  owners = fold_left (fun o ec => claim_points (fst ec) (snd ec) o)
                     visited fresh_owners.
Proof.
  unfold owners, visited. rewrite fold_left_flat_map.
  generalize fresh_owners. generalize (seq 0 (length cells)).
  intros l. induction l as [|e l IH]; intros o; simpl; [reflexivity|].
  rewrite <- IH. f_equal. rewrite fold_left_map. reflexivity.
Qed.

(** The owner of a point is the last visited element that contains it:
    its row holds that cell's index and that element's GIDs. A point no
    element contains keeps the zero row of the fresh table, which is also
    the row of a point owned by cell 0 whose GIDs are all zero. *)
Theorem evaluateBasis2_last_owner_wins (i j : nat) :
  (i < numpts)%nat -> (j <= numGIDs)%nat ->
  owners i j
  = match last_containing i with
    | Some (e, c) =>
        if (j =? 0)%nat then Z.of_nat e
        else GIDs (nth e cells dummy_ipcell) c (j - 1)
    | None => 0%Z
    end.
Proof.
  intros Hi Hj. rewrite owners_visited, claim_visited.
  replace (i <? numpts)%nat with true by (symmetry; apply Nat.ltb_lt; exact Hi).
  replace (j <=? numGIDs)%nat with true
    by (symmetry; apply Nat.leb_le; exact Hj).
  unfold last_containing. simpl.
  destruct (find _ (rev visited)) as [[e c]|]; reflexivity.
Qed.

End Owners.

(** Two cells of one element each that both contain point 0, and no
    element containing point 1: point 0 goes to the cell visited last. *)
Definition demo_cell (gid : Z) : ipcell :=
  {| ip_numElem := 1; ip_dim1 := 1; ip_dim2 := 1;
     ip := fun _ _ _ => 0; GIDs := fun _ _ => gid |}.

Definition demo_inRefCell (e c i : nat) : Z :=
  if (i =? 0)%nat then 1%Z else 0%Z.

Lemma evaluateBasis2_last_owner_wins_witness :
  owners [demo_cell 7; demo_cell 9] 2%nat 1%nat demo_inRefCell 0%nat 0%nat = 1%Z
  /\ owners [demo_cell 7; demo_cell 9] 2%nat 1%nat demo_inRefCell 0%nat 1%nat = 9%Z
  /\ owners [demo_cell 7; demo_cell 9] 2%nat 1%nat demo_inRefCell 1%nat 1%nat = 0%Z.
Proof.
  split; [|split].
  - rewrite (evaluateBasis2_last_owner_wins [demo_cell 7; demo_cell 9] 2%nat 1%nat
               demo_inRefCell 0%nat 0%nat) by lia.
    reflexivity.
  - rewrite (evaluateBasis2_last_owner_wins [demo_cell 7; demo_cell 9] 2%nat 1%nat
               demo_inRefCell 0%nat 1%nat) by lia.
    reflexivity.
  - rewrite (evaluateBasis2_last_owner_wins [demo_cell 7; demo_cell 9] 2%nat 1%nat
               demo_inRefCell 1%nat 1%nat) by lia.
    reflexivity.
Defined.

End SubGridPoints.

(** * The gather of the subgrid model ([SubGridFEM2::performGather]) *)

Module SubGridGather.

(** An index view with its first two dimensions; its entries are local
    row numbers. *)
Record index_view : Type := {
  iv_dim0 : nat;
  iv_dim1 : nat;
  iv_at : nat -> nat -> nat -> nat
}.

Definition data_view := nat -> nat -> nat -> Q.

(** What the routine reads and writes of a cell. *)
Record gcell : Type := {
  index : index_view; numDOF : nat -> nat;
  paramindex : index_view; numParamDOF : nat -> nat;
  auxindex : index_view; numAuxDOF : nat -> nat;
  g_u : data_view; g_u_dot : data_view;
  g_phi : data_view; g_phi_dot : data_view;
  g_param : data_view; g_aux : data_view
}.

(** The [data] view a case of the [switch] selects: a handle on one of
    the six views of the cell. *)
Inductive field : Type := Fu | Fu_dot | Fphi | Fphi_dot | Fparam | Faux.

Definition read_field (f : field) (cell : gcell) : data_view :=
  match f with
  | Fu => g_u cell | Fu_dot => g_u_dot cell
  | Fphi => g_phi cell | Fphi_dot => g_phi_dot cell
  | Fparam => g_param cell | Faux => g_aux cell
  end.

Definition write_field (f : field) (d : data_view) (cell : gcell) : gcell :=
  {| index := index cell; numDOF := numDOF cell;
     paramindex := paramindex cell; numParamDOF := numParamDOF cell;
     auxindex := auxindex cell; numAuxDOF := numAuxDOF cell;
     g_u := match f with Fu => d | _ => g_u cell end;
     g_u_dot := match f with Fu_dot => d | _ => g_u_dot cell end;
     g_phi := match f with Fphi => d | _ => g_phi cell end;
     g_phi_dot := match f with Fphi_dot => d | _ => g_phi_dot cell end;
     g_param := match f with Fparam => d | _ => g_param cell end;
     g_aux := match f with Faux => d | _ => g_aux cell end |}.

(** The locals [index], [numDOF] and [data], declared before the loop
    over the cells: empty views until a case of the [switch] assigns
    them. [data] is a handle on a view of a cell, given here by the
    position of the cell and the name of the view. *)
Record locals : Type := {
  l_index : index_view;
  l_numDOF : nat -> nat;
  l_data : option (nat * field)
}.

Definition empty_locals : locals :=
  {| l_index := {| iv_dim0 := 0; iv_dim1 := 0; iv_at := fun _ _ _ => 0%nat |};
     l_numDOF := fun _ => 0%nat;
     l_data := None |}.

Inductive gather_message : Type := MsgNothingGathered.

(** The views the cases 0 to 5 of the [switch] take from the cell. *)
Definition selected (type : nat) (cell : gcell)
    : option (index_view * (nat -> nat) * field) :=
  match type with
  | 0%nat => Some (index cell, numDOF cell, Fu)
  | 1%nat => Some (index cell, numDOF cell, Fu_dot)
  | 2%nat => Some (index cell, numDOF cell, Fphi)
  | 3%nat => Some (index cell, numDOF cell, Fphi_dot)
  | 4%nat => Some (paramindex cell, numParamDOF cell, Fparam)
  | 5%nat => Some (auxindex cell, numAuxDOF cell, Faux)
  | _ => None
  end.

(** The [switch] for the cell at position [c]: the default case prints
    and leaves the locals as they are. *)
Definition select (type : nat) (c : nat) (cell : gcell) (l : locals)
    : locals * list gather_message :=
  match selected type cell with
  | Some (iv, nd, f) =>
      ({| l_index := iv; l_numDOF := nd; l_data := Some (c, f) |}, [])
  | None => (l, [MsgNothingGathered])
  end.

(** [data(e,n,i) = x] *)
Definition set_data (d : data_view) (e n i : nat) (x : Q) : data_view :=
  fun e' n' i' =>
    if ((e' =? e) && (n' =? n) && (i' =? i))%nat then x else d e' n' i'.

(** The [parallel_for] over [e] with its loops over [n] and [i]. *)
Definition gather_loops (vec : multivec) (entry : Z) (iv : index_view)
    (nd : nat -> nat) (d : data_view) : data_view :=
  fold_left
    (fun d e =>
       fold_left
         (fun d n =>
            fold_left
              (fun d i => set_data d e n i (kv vec (iv_at iv e n i) entry))
              (seq 0 (nd n)) d)
         (seq 0 (iv_dim1 iv)) d)
    (seq 0 (iv_dim0 iv)) d.

Fixpoint update_at (pos : nat) (g : gcell -> gcell) (cells : list gcell)
    : list gcell :=
  match cells, pos with
  | [], _ => []
  | cell :: rest, O => g cell :: rest
  | cell :: rest, S p => cell :: update_at p g rest
  end.

Definition dummy_gcell : gcell :=
  {| index := l_index empty_locals; numDOF := fun _ => 0%nat;
     paramindex := l_index empty_locals; numParamDOF := fun _ => 0%nat;
     auxindex := l_index empty_locals; numAuxDOF := fun _ => 0%nat;
     g_u := fun _ _ _ => 0; g_u_dot := fun _ _ _ => 0;
     g_phi := fun _ _ _ => 0; g_phi_dot := fun _ _ _ => 0;
     g_param := fun _ _ _ => 0; g_aux := fun _ _ _ => 0 |}.

(** The body of the loop over the cells of the block, for the cell at
    position [c]. *)
Definition gather_cell (vec : multivec) (type : nat) (entry : Z)
    (st : list gcell * locals * list gather_message) (c : nat)
    : list gcell * locals * list gather_message :=
  let '(cells, l, cout) := st in
  let '(l', msg) := select type c (nth c cells dummy_gcell) l in
  let cells' :=
    match l_data l' with
    | Some (pos, f) =>
        update_at pos
          (fun cell =>
             write_field f
               (gather_loops vec entry (l_index l') (l_numDOF l')
                  (read_field f cell))
               cell)
          cells
    | None => cells
    end in
  (cells', l', cout ++ msg).

(** [SubGridFEM2::performGather(b, vec, type, entry)] on the cells of
    block [b]: the cells afterwards and what is printed. *)
Definition performGather (cells : list gcell) (vec : multivec) (type : nat)
    (entry : Z) : list gcell * list gather_message :=
  let '(cells', _, cout) :=
    fold_left (gather_cell vec type entry) (seq 0 (length cells))
              (cells, empty_locals, []) in
  (cells', cout).

(** ** Facts *)

Lemma set_row (d : data_view) (e n : nat) (val : nat -> Q) (m : nat)
    (e' n' i' : nat) :
  fold_left (fun d i => set_data d e n i (val i)) (seq 0 m) d e' n' i'
  = if ((e' =? e) && (n' =? n) && (i' <? m))%nat then val i'
    else d e' n' i'.
Proof.
  induction m as [|m IH].
  - simpl. rewrite andb_false_r. reflexivity.
  - rewrite seq_S, fold_left_app. cbn [fold_left Nat.add].
    unfold set_data at 1. rewrite IH.
    destruct (Nat.eqb_spec e' e) as [->|He]; cbn [andb]; [|reflexivity].
    destruct (Nat.eqb_spec n' n) as [->|Hn]; cbn [andb]; [|reflexivity].
    destruct (Nat.eqb_spec i' m) as [->|Hi].
    + replace (m <? S m)%nat with true by (symmetry; apply Nat.ltb_lt; lia).
      reflexivity.
    + destruct (Nat.ltb_spec i' m), (Nat.ltb_spec i' (S m)); try lia;
        reflexivity.
Qed.

Lemma set_rows (d : data_view) (e : nat) (nd : nat -> nat)
    (val : nat -> nat -> Q) (m : nat) (e' n' i' : nat) :
  fold_left
    (fun d n => fold_left (fun d i => set_data d e n i (val n i))
                          (seq 0 (nd n)) d)
    (seq 0 m) d e' n' i'
  = if ((e' =? e) && (n' <? m) && (i' <? nd n'))%nat then val n' i'
    else d e' n' i'.
Proof.
  induction m as [|m IH].
  - simpl. rewrite andb_false_r. reflexivity.
  - rewrite (seq_S m 0), fold_left_app. cbn [fold_left Nat.add].
    rewrite set_row, IH.
    destruct (Nat.eqb_spec e' e) as [->|He]; cbn [andb]; [|reflexivity].
    destruct (Nat.eqb_spec n' m) as [->|Hn]; cbn [andb].
    + replace (m <? S m)%nat with true by (symmetry; apply Nat.ltb_lt; lia).
      replace (m <? m)%nat with false by (symmetry; apply Nat.ltb_ge; lia).
      cbn [andb]. destruct (i' <? nd m)%nat; reflexivity.
    + destruct (Nat.ltb_spec n' m), (Nat.ltb_spec n' (S m)); try lia;
        reflexivity.
Qed.

Lemma gather_loops_spec (vec : multivec) (entry : Z) (iv : index_view)
    (nd : nat -> nat) (d : data_view) (e n i : nat) :
  gather_loops vec entry iv nd d e n i
  = if ((e <? iv_dim0 iv) && (n <? iv_dim1 iv) && (i <? nd n))%nat
    then kv vec (iv_at iv e n i) entry else d e n i.
Proof.
  unfold gather_loops. induction (iv_dim0 iv) as [|m IH].
  - reflexivity.
  - rewrite (seq_S m 0), fold_left_app. cbn [fold_left Nat.add].
    rewrite (set_rows _ m nd (fun n i => kv vec (iv_at iv m n i) entry)).
    rewrite IH.
    destruct (Nat.eqb_spec e m) as [->|He]; cbn [andb].
    + replace (m <? S m)%nat with true by (symmetry; apply Nat.ltb_lt; lia).
      replace (m <? m)%nat with false by (symmetry; apply Nat.ltb_ge; lia).
      cbn [andb].
      destruct ((n <? iv_dim1 iv)%nat && (i <? nd n)%nat); reflexivity.
    + destruct (Nat.ltb_spec e m), (Nat.ltb_spec e (S m)); try lia;
        reflexivity.
Qed.

(** What the routine does to one cell. *)
Definition gathered (vec : multivec) (type : nat) (entry : Z)
    (cell : gcell) : gcell :=
  match selected type cell with
  | Some (iv, nd, f) =>
      write_field f (gather_loops vec entry iv nd (read_field f cell)) cell
  | None => cell
  end.

Lemma update_at_middle (g : gcell -> gcell) (p : list gcell) (x : gcell)
    (q : list gcell) :
  update_at (length p) g (p ++ x :: q) = p ++ g x :: q.
Proof.
  induction p as [|y p IH]; simpl; [reflexivity|]. now rewrite IH.
Qed.

Lemma split_at (cells : list gcell) (k : nat) :
  (k < length cells)%nat ->
  firstn (S k) cells = firstn k cells ++ [nth k cells dummy_gcell]
  /\ skipn k cells = nth k cells dummy_gcell :: skipn (S k) cells.
Proof.
  revert k. induction cells as [|x cells IH]; intros k Hk; simpl in Hk.
  - lia.
  - destruct k as [|k]; [split; reflexivity|].
    destruct (IH k ltac:(lia)) as [Hf Hs].
    split.
    + change (x :: firstn (S k) cells
              = x :: firstn k cells ++ [nth k cells dummy_gcell]).
      now rewrite Hf.
    + exact Hs.
Qed.

Lemma selected_some (type : nat) (cell : gcell) :
  (type <= 5)%nat -> exists iv nd f, selected type cell = Some (iv, nd, f).
Proof.
  intros H. unfold selected.
  do 6 (destruct type as [|type]; [eauto|]). lia.
Qed.

Lemma selected_none (type : nat) (cell : gcell) :
  (5 < type)%nat -> selected type cell = None.
Proof.
  intros H. unfold selected.
  do 6 (destruct type as [|type]; [lia|]). reflexivity.
Qed.

Lemma gather_prefix (vec : multivec) (type : nat) (entry : Z)
    (cells : list gcell) (k : nat) :
  (k <= length cells)%nat ->
  let '(cells', l, cout) :=
    fold_left (gather_cell vec type entry) (seq 0 k)
              (cells, empty_locals, []) in
  cells' = map (gathered vec type entry) (firstn k cells) ++ skipn k cells
  /\ ((5 < type)%nat ->
      l = empty_locals /\ cout = repeat MsgNothingGathered k)
  /\ ((type <= 5)%nat -> cout = []).
Proof.
  induction k as [|k IH]; intros Hk.
  - simpl. split; [reflexivity|]. split; [split; reflexivity|reflexivity].
  - rewrite seq_S, fold_left_app. cbn [fold_left Nat.add].
    specialize (IH ltac:(lia)).
    destruct (fold_left (gather_cell vec type entry) (seq 0 k)
                (cells, empty_locals, [])) as [[cells' l] cout].
    destruct IH as (Hc & Hdef & Hcase).
    destruct (split_at cells k ltac:(lia)) as [Hf Hs].
    assert (Hlen : length (map (gathered vec type entry) (firstn k cells))
                   = k).
    { rewrite length_map, length_firstn. lia. }
    assert (Hnth : nth k cells' dummy_gcell = nth k cells dummy_gcell).
    { rewrite Hc, app_nth2 by lia. rewrite Hlen, Nat.sub_diag, Hs.
      reflexivity. }
    unfold gather_cell. rewrite Hnth. unfold select.
    destruct (le_lt_dec type 5) as [Hle|Hgt].
    + destruct (selected_some type (nth k cells dummy_gcell) Hle)
        as (iv & nd & f & Hsel).
      rewrite Hsel. cbn [l_data l_index l_numDOF].
      split; [|split; [intros; lia|]].
      * rewrite Hc, Hs. rewrite <- Hlen at 1. rewrite update_at_middle.
        rewrite Hf, map_app, <- app_assoc. cbn [map app].
        unfold gathered at 3. rewrite Hsel. reflexivity.
      * intros _. rewrite (Hcase Hle). reflexivity.
    + rewrite (selected_none type _ Hgt).
      destruct (Hdef Hgt) as [Hl Hcout]. subst l. cbn [l_data empty_locals].
      split; [|split; [|intros; lia]].
      * rewrite Hc, Hf, map_app, <- app_assoc, Hs. cbn [map app].
        unfold gathered at 3. rewrite (selected_none type _ Hgt).
        reflexivity.
      * intros _. split; [reflexivity|].
        rewrite Hcout. cbn [repeat]. symmetry. apply repeat_cons.
Qed.

Lemma performGather_cells (cells : list gcell) (vec : multivec)
    (type : nat) (entry : Z) :
  fst (performGather cells vec type entry)
  = map (gathered vec type entry) cells
  /\ snd (performGather cells vec type entry)
     = if (type <=? 5)%nat then []
       else repeat MsgNothingGathered (length cells).
Proof.
  unfold performGather.
  pose proof (gather_prefix vec type entry cells (length cells) (le_n _)) as H.
  destruct (fold_left (gather_cell vec type entry) (seq 0 (length cells))
              (cells, empty_locals, [])) as [[cells' l] cout].
  destruct H as (Hc & Hdef & Hcase). cbn [fst snd].
  rewrite firstn_all, skipn_all, app_nil_r in Hc. split; [exact Hc|].
  destruct (Nat.leb_spec type 5) as [Hle|Hgt].
  - apply Hcase, Hle.
  - apply Hdef, Hgt.
Qed.

(** For the types 0 to 5 the gather fills, in every cell of the block,
    the view the type names with the entries of column [entry] of the
    vector at the rows its index view lists, for [i] below [numDOF(n)];
    the entries from [numDOF(n)] on, the five other views and the index
    views keep what they held, and nothing is printed. For any other
    type no cell is changed at all, and the message that nothing was
    gathered is printed once for every cell. *)
Theorem performGather_fills_selected_view (cells : list gcell)
    (vec : multivec) (type : nat) (entry : Z) :
  let cells' := fst (performGather cells vec type entry) in
  let cout := snd (performGather cells vec type entry) in
  length cells' = length cells
  /\ (forall c iv nd f,
        (c < length cells)%nat ->
        selected type (nth c cells dummy_gcell) = Some (iv, nd, f) ->
        let cell := nth c cells dummy_gcell in
        let cell' := nth c cells' dummy_gcell in
        cout = []
        /\ (forall e n i,
              read_field f cell' e n i
              = if ((e <? iv_dim0 iv) && (n <? iv_dim1 iv)
                    && (i <? nd n))%nat
                then kv vec (iv_at iv e n i) entry
                else read_field f cell e n i)
        /\ (forall f', f' <> f -> read_field f' cell' = read_field f' cell)
        /\ index cell' = index cell /\ paramindex cell' = paramindex cell
        /\ auxindex cell' = auxindex cell)
  /\ ((5 < type)%nat ->
      cells' = cells /\ cout = repeat MsgNothingGathered (length cells)).
Proof.
  cbv zeta.
  destruct (performGather_cells cells vec type entry) as [Hc Hm].
  rewrite Hc, Hm. split; [apply length_map|]. split.
  - intros c iv nd f Hlt Hsel.
    assert (Hle : (type <= 5)%nat).
    { destruct (le_lt_dec type 5) as [H|H]; [exact H|].
      rewrite (selected_none type _ H) in Hsel. discriminate. }
    replace (type <=? 5)%nat with true by (symmetry; apply Nat.leb_le; exact Hle).
    split; [reflexivity|].
    rewrite (nth_indep _ dummy_gcell (gathered vec type entry dummy_gcell))
      by (rewrite length_map; exact Hlt).
    rewrite map_nth. unfold gathered. rewrite Hsel.
    split; [|split].
    + intros e n i. rewrite <- gather_loops_spec.
      destruct f; reflexivity.
    + intros f' Hne. destruct f, f'; try reflexivity; congruence.
    + repeat split.
  - intros Hgt.
    replace (type <=? 5)%nat with false by (symmetry; apply Nat.leb_gt; exact Hgt).
    split; [|reflexivity].
    rewrite <- (map_id cells) at 2. apply map_ext. intros cell.
    unfold gathered. rewrite (selected_none type cell Hgt). reflexivity.
Qed.

(** One cell with one degree of freedom in row 1 of the vector. *)
Definition demo_gcell : gcell :=
  {| index := {| iv_dim0 := 1; iv_dim1 := 1; iv_at := fun _ _ _ => 1%nat |};
     numDOF := fun _ => 1%nat;
     paramindex := l_index empty_locals; numParamDOF := fun _ => 0%nat;
     auxindex := l_index empty_locals; numAuxDOF := fun _ => 0%nat;
     g_u := fun _ _ _ => 0; g_u_dot := fun _ _ _ => 0;
     g_phi := fun _ _ _ => 0; g_phi_dot := fun _ _ _ => 0;
     g_param := fun _ _ _ => 0; g_aux := fun _ _ _ => 0 |}.

Example demo_performGather :
  g_u (nth 0 (fst (performGather [demo_gcell] [[8; 9]] 0 0)) dummy_gcell)
      0%nat 0%nat 0%nat = 9
  /\ g_phi (nth 0 (fst (performGather [demo_gcell] [[8; 9]] 0 0)) dummy_gcell)
           0%nat 0%nat 0%nat = 0
  /\ snd (performGather [demo_gcell; demo_gcell] [[8; 9]] 7 0)
     = [MsgNothingGathered; MsgNothingGathered].
Proof. vm_compute. repeat split. Qed.

End SubGridGather.

(** * Further facts about the solver interface *)

Module SolverFacts.

Import Solver.

Arguments n_world {World} _.
Arguments n_u {World} _.
Arguments n_u_dot {World} _.
Arguments n_phi {World} _.
Arguments n_phi_dot {World} _.
Arguments NLiter {World} _.
Arguments NLerr_first {World} _.
Arguments NLerr_scaled {World} _.
Arguments NLerr {World} _.

(** ** The time data the constructor sets up *)

(** The entries of the parameter list the constructor reads for the time
    data: [solver], [numSteps], [finaltime] and [Initial Time]. *)
Record time_settings : Type := {
  ts_solver : String.string;
  ts_numSteps : Z;
  ts_finaltime : Q;
  ts_initial_time : Q
}.

(** The value of the [solver] entry the code tests for. *)
Module SolverType.
Import String.
Definition transient : string := "transient"%string.
End SolverType.

(** [isTransient], and [numsteps], which is put to 1 unless the solver is
    transient. *)
Definition ctor_isTransient (ts : time_settings) : bool :=
  String.eqb (ts_solver ts) SolverType.transient.

Definition ctor_numsteps (ts : time_settings) : Z :=
  if ctor_isTransient ts then ts_numSteps ts else 1%Z.

(** [solvetimes]: the initial time, then in a transient run the local
    clock [ctime] after each of the [numsteps] additions of [deltat]. *)
Definition ctor_solvetimes (ts : time_settings) : list Q :=
  if ctor_isTransient ts then
    let deltat := ts_finaltime ts / inject_Z (ctor_numsteps ts) in
    fst (fold_left
           (fun (st : list Q * Q) (_ : nat) =>
              let ctime := snd st + deltat in (fst st ++ [ctime], ctime))
           (seq 0 (Z.to_nat (ctor_numsteps ts)))
           ([ts_initial_time ts], ts_initial_time ts))
  else [ts_initial_time ts].

(** A solver object holds the time data of these settings. *)
Definition constructed (ts : time_settings) (sv : solver) : Prop :=
  isTransient sv = ctor_isTransient ts
  /\ numsteps sv = ctor_numsteps ts
  /\ finaltime sv = ts_finaltime ts
  /\ solvetimes0 sv = nth 0 (ctor_solvetimes ts) 0.

Lemma pushed_times (t0 d : Q) (n : nat) :
  let r := fold_left
             (fun (st : list Q * Q) (_ : nat) =>
                (fst st ++ [snd st + d], snd st + d))
             (seq 0 n) ([t0], t0) in
  length (fst r) = S n
  /\ snd r == t0 + inject_Z (Z.of_nat n) * d
  /\ forall j, (j <= n)%nat ->
       nth j (fst r) 0 == t0 + inject_Z (Z.of_nat j) * d.
Proof.
  cbv zeta. induction n as [|n IH].
  - simpl. split; [reflexivity|]. split; [ring|].
    intros j Hj. replace j with 0%nat by lia. simpl. ring.
  - rewrite seq_S, fold_left_app. simpl.
    destruct IH as (L & T & N).
    split; [rewrite length_app, L; simpl; lia|].
    assert (T' : snd (fold_left
                        (fun (st : list Q * Q) (_ : nat) =>
                           (fst st ++ [snd st + d], snd st + d))
                        (seq 0 n) ([t0], t0)) + d
                 == t0 + inject_Z (Z.of_nat (S n)) * d).
    { rewrite T, Nat2Z.inj_succ. unfold Z.succ. rewrite inject_Z_plus. ring. }
    split; [exact T'|].
    intros j Hj. destruct (Nat.eq_dec j (S n)) as [->|Hne].
    + rewrite app_nth2 by lia. rewrite L, Nat.sub_diag. simpl. exact T'.
    + rewrite app_nth1 by lia. apply N. lia.
Qed.

Lemma constructor_solvetimes_transient (ts : time_settings) :
  ctor_isTransient ts = true ->
  length (ctor_solvetimes ts) = S (Z.to_nat (ts_numSteps ts))
  /\ forall k, (k <= Z.to_nat (ts_numSteps ts))%nat ->
       nth k (ctor_solvetimes ts) 0
       == ts_initial_time ts
          + inject_Z (Z.of_nat k)
            * (ts_finaltime ts / inject_Z (ts_numSteps ts)).
Proof.
  intros Htr. unfold ctor_solvetimes, ctor_numsteps. rewrite Htr.
  destruct (pushed_times (ts_initial_time ts)
              (ts_finaltime ts / inject_Z (ts_numSteps ts))
              (Z.to_nat (ts_numSteps ts))) as (L & _ & N).
  split; [exact L|exact N].
Qed.

(** [solvetimes] holds the initial time alone unless the solver is
    transient; in a transient run it holds [numSteps + 1] times, entry
    [k] being the initial time plus [k] steps of [finaltime / numSteps],
    so that the last one is the initial time plus [finaltime]. *)
Theorem constructor_solvetimes (ts : time_settings) :
  let times := ctor_solvetimes ts in
  let n := Z.to_nat (ts_numSteps ts) in
  (ctor_isTransient ts = false ->
   times = [ts_initial_time ts] /\ ctor_numsteps ts = 1%Z)
  /\ (ctor_isTransient ts = true ->
      length times = S n
      /\ (forall k, (k <= n)%nat ->
            nth k times 0
            == ts_initial_time ts
               + inject_Z (Z.of_nat k)
                 * (ts_finaltime ts / inject_Z (ts_numSteps ts)))
      /\ ((0 < ts_numSteps ts)%Z ->
          nth n times 0 == ts_initial_time ts + ts_finaltime ts)).
Proof.
  cbv zeta. split.
  - intros Hst. unfold ctor_solvetimes, ctor_numsteps. rewrite Hst.
    split; reflexivity.
  - intros Htr.
    destruct (constructor_solvetimes_transient ts Htr) as (L & N).
    split; [exact L|]. split; [exact N|].
    intros Hpos. rewrite N by lia. rewrite Z2Nat.id by lia.
    apply Qplus_inj_l. field. intros H. unfold Qeq in H. simpl in H. lia.
Qed.

(** ** What the Newton loop keeps *)

Section NewtonInvariants.

Set Default Proof Using "Type".

Variable World : Type.
Variable assembleJacRes : World -> asm_args -> World * (multivec * matrix).
Variable exportVec : vec -> vec.
Variable exportMat : matrix -> matrix.
Variable importVec : vec -> vec.
Variable linearSolver : matrix -> vec -> vec.
Variable setDirichlet : World -> vec -> vec.
Variable sv : solver.
Variables alpha beta : Q.

Local Abbreviation body :=
  (newton_body World assembleJacRes exportVec exportMat importVec
     linearSolver sv alpha beta).
Local Abbreviation passes :=
  (after_passes World assembleJacRes exportVec exportMat importVec
     linearSolver sv alpha beta).
Local Abbreviation init := (newton_init World setDirichlet sv).
Local Abbreviation solver_run :=
  (nonlinearSolver World assembleJacRes exportVec exportMat importVec
     linearSolver setDirichlet sv alpha beta).

(** What a pass keeps: the vectors of the other mode, the lengths, and
    row by row the difference between the time derivative and [alpha]
    times the solution. *)
Definition newton_kept (s s' : newton World) : Prop :=
  length (n_u s') = length (n_u s)
  /\ length (n_u_dot s') = length (n_u_dot s)
  /\ length (n_phi s') = length (n_phi s)
  /\ length (n_phi_dot s') = length (n_phi_dot s)
  /\ (useadjoint sv = false ->
      n_phi s' = n_phi s /\ n_phi_dot s' = n_phi_dot s
      /\ forall i, nth i (n_u_dot s') 0 - alpha * nth i (n_u s') 0
                   == nth i (n_u_dot s) 0 - alpha * nth i (n_u s) 0)
  /\ (useadjoint sv = true ->
      n_u s' = n_u s /\ n_u_dot s' = n_u_dot s
      /\ forall i, nth i (n_phi_dot s') 0 - alpha * nth i (n_phi s') 0
                   == nth i (n_phi_dot s) 0 - alpha * nth i (n_phi s) 0).

Lemma newton_kept_refl (s : newton World) : newton_kept s s.
Proof.
  unfold newton_kept. repeat split; intros; reflexivity.
Qed.

Lemma newton_kept_trans (s1 s2 s3 : newton World) :
  newton_kept s1 s2 -> newton_kept s2 s3 -> newton_kept s1 s3.
Proof.
  unfold newton_kept.
  intros (A1 & A2 & A3 & A4 & Af & Aa) (B1 & B2 & B3 & B4 & Bf & Ba).
  split; [congruence|]. split; [congruence|]. split; [congruence|].
  split; [congruence|]. split.
  - intros H. destruct (Af H) as (P1 & P2 & P3).
    destruct (Bf H) as (R1 & R2 & R3).
    split; [congruence|]. split; [congruence|].
    intros i. rewrite R3. apply P3.
  - intros H. destruct (Aa H) as (P1 & P2 & P3).
    destruct (Ba H) as (R1 & R2 & R3).
    split; [congruence|]. split; [congruence|].
    intros i. rewrite R3. apply P3.
Qed.

Lemma newton_update_keeps (du x x_dot : vec) (i : nat) :
  length x = length x_dot ->
  nth i (axpy alpha du x_dot) 0 - alpha * nth i (axpy 1 du x) 0
  == nth i x_dot 0 - alpha * nth i x 0.
Proof.
  intros Hlen. rewrite !nth_axpy, Hlen. ring.
Qed.

Lemma newton_body_kept (s : newton World) :
  (useadjoint sv = false -> length (n_u s) = length (n_u_dot s)) ->
  (useadjoint sv = true -> length (n_phi s) = length (n_phi_dot s)) ->
  newton_kept s (body s).
Proof.
  intros Hu Hp. unfold newton_body.
  destruct (assembled World assembleJacRes exportVec exportMat sv alpha beta s)
    as [w [res J]].
  unfold newton_kept. cbn.
  match goal with
  | |- context [Qltb (NLtol sv) ?x && _] => destruct (Qltb (NLtol sv) x)
  end; cbn [andb].
  - destruct (useadjoint sv); cbn [negb]; rewrite ?length_axpy;
      repeat split; try reflexivity; try discriminate;
      intros; apply newton_update_keeps; auto.
  - repeat split; intros; reflexivity.
Qed.

Lemma newton_passes_kept (n : nat) (s : newton World) :
  (useadjoint sv = false -> length (n_u s) = length (n_u_dot s)) ->
  (useadjoint sv = true -> length (n_phi s) = length (n_phi_dot s)) ->
  newton_kept s (passes n s).
Proof.
  intros Hu Hp. induction n as [|n IH].
  - apply newton_kept_refl.
  - change (passes (S n) s) with (body (passes n s)).
    apply (newton_kept_trans _ _ _ IH). apply newton_body_kept.
    + intros H. destruct IH as (A1 & A2 & _). rewrite A1, A2. auto.
    + intros H. destruct IH as (_ & _ & A3 & A4 & _). rewrite A3, A4. auto.
Qed.

Lemma nonlinearSolver_kept (w : World) (u u_dot phi phi_dot : vec) :
  (useadjoint sv = false ->
   length (n_u (init w u u_dot phi phi_dot)) = length u_dot) ->
  (useadjoint sv = true -> length phi = length phi_dot) ->
  newton_kept (init w u u_dot phi phi_dot) (solver_run w u u_dot phi phi_dot).
Proof.
  intros Hu Hp.
  destruct (newton_loop_passes World assembleJacRes exportVec exportMat
              importVec linearSolver sv alpha beta
              (Z.to_nat (maxiter sv)) (init w u u_dot phi phi_dot))
    as (n & _ & Hrun & _).
  assert (K := newton_passes_kept n (init w u u_dot phi phi_dot) Hu Hp).
  unfold nonlinearSolver, newton_run. rewrite Hrun.
  unfold newton_kept in *. cbn [n_u n_u_dot n_phi n_phi_dot]. exact K.
Qed.

(** [nonlinearSolver] keeps the time derivative in step with the
    solution: row by row, [u_dot - alpha u] after the call is what it was
    once the strong Dirichlet values had been set (in adjoint mode,
    [phi_dot - alpha phi] is what it was on entry), and the vectors of
    the other mode are not touched by the loop. *)
Theorem newton_keeps_time_derivative (w : World) (u u_dot phi phi_dot : vec)
    (Hu : useadjoint sv = false ->
          length (n_u (init w u u_dot phi phi_dot)) = length u_dot)
    (Hp : useadjoint sv = true -> length phi = length phi_dot) :
  let u0 := n_u (init w u u_dot phi phi_dot) in
  let r := solver_run w u u_dot phi phi_dot in
  (useadjoint sv = false ->
   n_phi r = phi /\ n_phi_dot r = phi_dot
   /\ forall i, nth i (n_u_dot r) 0 - alpha * nth i (n_u r) 0
                == nth i u_dot 0 - alpha * nth i u0 0)
  /\ (useadjoint sv = true ->
      n_u r = u0 /\ n_u_dot r = u_dot
      /\ forall i, nth i (n_phi_dot r) 0 - alpha * nth i (n_phi r) 0
                   == nth i phi_dot 0 - alpha * nth i phi 0).
Proof.
  cbv zeta.
  destruct (nonlinearSolver_kept w u u_dot phi phi_dot Hu Hp)
    as (_ & _ & _ & _ & Hf & Ha).
  split; assumption.
Qed.

End NewtonInvariants.

(** ** The time derivative after a forward time step *)

Arguments t_world {World} _.
Arguments t_sv {World} _.
Arguments t_u {World} _.
Arguments t_u_dot {World} _.
Arguments t_phi {World} _.
Arguments t_phi_dot {World} _.
Arguments t_solmat {World} _.
Arguments t_obj {World} _.
Arguments t_gradient {World} _.

Section TimeDerivative.

Set Default Proof Using "Type".

Variable World : Type.
Variable assembleJacRes : World -> asm_args -> World * (multivec * matrix).
Variable exportVec : vec -> vec.
Variable exportMat : matrix -> matrix.
Variable importVec : vec -> vec.
Variable linearSolver : matrix -> vec -> vec.
Variable setDirichlet : World -> vec -> vec.
Variable multiscale_update : World -> World * (Q * list Q).
Variable remesh : World -> vec -> World.
Variable sacadoizeParams : bool -> World -> World.
Variable computeObjective : World -> vec -> Q -> Z -> Q.
Variable sens_view :
  World -> solver -> vec -> vec -> vec -> Q -> Q -> World * sens_input.

Variable sv : solver.
Variable w : World.
Variable initial : vec.
Variables L_soln SolMat : multivec.
Variable gradient : list Q.

Local Abbreviation st :=
  (after_steps World assembleJacRes exportVec exportMat importVec
     linearSolver setDirichlet multiscale_update remesh sacadoizeParams
     computeObjective sens_view sv w initial L_soln SolMat gradient).
Local Abbreviation finish :=
  (finish_step World remesh sacadoizeParams computeObjective sens_view).
Local Abbreviation solve_store :=
  (solve_and_store World assembleJacRes exportVec exportMat importVec
     linearSolver setDirichlet).
Local Abbreviation begin := (begin_step World multiscale_update).

(** The vectors handed to the nonlinear solver in step [k], and the [u]
    the solver starts from once the strong Dirichlet values are set. *)
Definition seeded (k : nat) : transient World :=
  seed World L_soln (alpha_of sv) k (begin k (st k)).

Definition dirichlet_start (k : nat) : vec :=
  n_u (newton_init World setDirichlet (t_sv (seeded k)) (t_world (seeded k))
         (t_u (seeded k)) (t_u_dot (seeded k))
         (t_phi (seeded k)) (t_phi_dot (seeded k))).

Lemma t_u_dot_finish_step (a b : Q) (k : nat) (x : transient World) :
  t_u_dot (finish a b k x) = t_u_dot x.
Proof.
  unfold finish_step. destruct (useadjoint (t_sv x)).
  - destruct (sens_view _ _ _ _ _ _ _) as [w' si]. reflexivity.
  - destruct (compute_objective (t_sv x)); reflexivity.
Qed.

Lemma seeded_forward (k : nat) :
  useadjoint sv = false ->
  useadjoint (t_sv (seeded k)) = false
  /\ t_u (seeded k) = t_u (st k)
  /\ t_solmat (seeded k) = t_solmat (st k)
  /\ (time_order sv = 1%Z ->
      t_u_dot (seeded k)
      = tabulate (num_local_rows sv)
          (fun i => alpha_of sv * nth i (t_u (st k)) 0
                    - alpha_of sv * kv (t_solmat (st k)) i (Z.of_nat k))).
Proof.
  intros Hfwd. unfold seeded.
  destruct (settings_fields _ _
              (settings_after_steps World assembleJacRes exportVec exportMat
                 importVec linearSolver setDirichlet multiscale_update remesh
                 sacadoizeParams computeObjective sens_view
                 sv w initial L_soln SolMat gradient k))
    as (Hadj & Hord & Hrows & _).
  destruct (settings_fields _ _
              (settings_begin_step World multiscale_update k (st k)))
    as (Hadj' & Hord' & Hrows' & _).
  destruct (begin_step_vectors World multiscale_update k (st k))
    as (Bu & _ & _ & _ & Bsol & _).
  set (s := begin k (st k)) in *.
  assert (Hsadj : useadjoint (t_sv s) = false) by congruence.
  assert (Hsord : time_order (t_sv s) = time_order sv) by congruence.
  assert (Hsrows : num_local_rows (t_sv s) = num_local_rows sv) by congruence.
  rewrite t_sv_seed. split; [exact Hsadj|].
  unfold seed. rewrite Hsadj, Hsord, Hsrows, Bu, Bsol.
  destruct (time_order sv =? 1)%Z eqn:E1.
  - cbn [orb t_u t_solmat t_u_dot]. repeat split.
  - destruct (Z.of_nat k =? 0)%Z, (time_order sv =? 2)%Z;
      cbn [orb t_u t_solmat t_u_dot]; repeat split;
      intros H; rewrite H in E1; discriminate.
Qed.

(** After a forward step of time order 1 the time derivative is, row by
    row, [alpha] times the difference between the new solution and the
    previous column of the trajectory, plus [alpha] times what setting
    the strong Dirichlet values changed in [u] before the Newton loop (so
    without strong Dirichlet conditions it is the backward difference
    quotient itself). *)
Theorem forward_step_backward_difference
    (Hfwd : useadjoint sv = false) (Hord : time_order sv = 1%Z) (k : nat)
    (Hlen : length (dirichlet_start k) = num_local_rows sv) :
  forall i, (i < num_local_rows sv)%nat ->
    nth i (t_u_dot (st (S k))) 0
    == alpha_of sv * (nth i (t_u (st (S k))) 0
                      - kv (t_solmat (st k)) i (Z.of_nat k))
       + alpha_of sv * (nth i (t_u (st k)) 0 - nth i (dirichlet_start k) 0).
Proof.
  intros i Hi.
  destruct (seeded_forward k Hfwd) as (Sadj & Su & Ssol & Sdot).
  specialize (Sdot Hord).
  assert (Hstep : st (S k)
                  = finish (alpha_of sv) 1 k
                      (solve_store (alpha_of sv) 1 k (seeded k))).
  { rewrite (after_steps_S World assembleJacRes exportVec exportMat importVec
               linearSolver setDirichlet multiscale_update remesh
               sacadoizeParams computeObjective sens_view).
    reflexivity. }
  destruct (t_u_finish_step World remesh sacadoizeParams computeObjective
              sens_view (alpha_of sv) 1 k
              (solve_store (alpha_of sv) 1 k (seeded k))) as (Fu & _ & _).
  rewrite Hstep, t_u_dot_finish_step, Fu.
  unfold solve_and_store. cbn [t_u t_u_dot].
  destruct (nonlinearSolver_kept World assembleJacRes exportVec exportMat
              importVec linearSolver setDirichlet (t_sv (seeded k))
              (alpha_of sv) 1 (t_world (seeded k))
              (t_u (seeded k)) (t_u_dot (seeded k))
              (t_phi (seeded k)) (t_phi_dot (seeded k)))
    as (_ & _ & _ & _ & Hf & _).
  { intros _. fold (dirichlet_start k). rewrite Hlen, Sdot.
    symmetry. apply length_tabulate. }
  { rewrite Sadj. discriminate. }
  destruct (Hf Sadj) as (_ & _ & Hrow). specialize (Hrow i).
  cbn [n_u_dot newton_init] in Hrow. fold (dirichlet_start k) in Hrow.
  assert (Hseed : nth i (t_u_dot (seeded k)) 0
                  == alpha_of sv * nth i (t_u (st k)) 0
                     - alpha_of sv * kv (t_solmat (st k)) i (Z.of_nat k)).
  { rewrite Sdot, nth_tabulate by exact Hi. reflexivity. }
  rewrite Hseed in Hrow.
  match goal with
  | |- nth i (n_u_dot ?r) 0 == _ =>
      setoid_replace (nth i (n_u_dot r) 0)
        with ((nth i (n_u_dot r) 0 - alpha_of sv * nth i (n_u r) 0)
              + alpha_of sv * nth i (n_u r) 0) by ring
  end.
  rewrite Hrow. ring.
Qed.

Lemma forward_clock_step (a b : Q) (k : nat) (s : transient World) :
  useadjoint (t_sv s) = false ->
  current_time
    (t_sv (time_step World assembleJacRes exportVec exportMat importVec
             linearSolver setDirichlet multiscale_update remesh
             sacadoizeParams computeObjective sens_view L_soln a b k s))
  = current_time (t_sv s) + deltat (t_sv s).
Proof.
  intros H. unfold time_step.
  rewrite (t_sv_finish_step World remesh sacadoizeParams computeObjective
             sens_view).
  unfold solve_and_store. cbn [t_sv].
  rewrite t_sv_seed.
  unfold begin_step.
  destruct (load_balancing World multiscale_update (t_sv s) (t_world s))
    as [[w' f] msg].
  cbn [t_sv]. rewrite H. cbn. rewrite H. reflexivity.
Qed.

Lemma forward_clock (Hfwd : useadjoint sv = false) (k : nat) :
  current_time (t_sv (st k))
  == solvetimes0 sv + inject_Z (Z.of_nat k) * deltat sv.
Proof.
  induction k as [|k IH].
  - unfold after_steps, transient_init. simpl. rewrite Hfwd. simpl. ring.
  - destruct (settings_fields _ _
                (settings_after_steps World assembleJacRes exportVec
                   exportMat importVec linearSolver setDirichlet
                   multiscale_update remesh sacadoizeParams computeObjective
                   sens_view sv w initial L_soln SolMat gradient k))
      as (Ha & _ & _ & Hd & _).
    rewrite (after_steps_S World assembleJacRes exportVec exportMat importVec
               linearSolver setDirichlet multiscale_update remesh
               sacadoizeParams computeObjective sens_view).
    rewrite forward_clock_step by congruence.
    rewrite Hd, IH, Nat2Z.inj_succ. unfold Z.succ. rewrite inject_Z_plus.
    ring.
Qed.

(** In a forward run of a solver set up by the constructor the clock
    visits the entries of [solvetimes]: after [k] steps [current_time] is
    [solvetimes[k]], and the run ends at the initial time plus
    [finaltime] (the time at which an adjoint run starts its clock,
    [finaltime], only when the initial time is 0). *)
Theorem forward_clock_visits_solvetimes (ts : time_settings)
    (Hts : constructed ts sv) (Htr : ctor_isTransient ts = true)
    (Hfwd : useadjoint sv = false) (k : nat)
    (Hk : (Z.of_nat k <= numsteps sv)%Z) :
  current_time (t_sv (st k)) == nth k (ctor_solvetimes ts) 0
  /\ ((0 < numsteps sv)%Z ->
      current_time
        (t_sv (transientSolver World assembleJacRes exportVec exportMat
                 importVec linearSolver setDirichlet multiscale_update remesh
                 sacadoizeParams computeObjective sens_view
                 sv w initial L_soln SolMat gradient))
      == ts_initial_time ts + finaltime sv).
Proof.
  destruct Hts as (_ & Hn & Hf & H0).
  assert (Hsteps : numsteps sv = ts_numSteps ts).
  { rewrite Hn. unfold ctor_numsteps. rewrite Htr. reflexivity. }
  destruct (constructor_solvetimes_transient ts Htr) as (_ & N).
  assert (Hd : deltat sv = ts_finaltime ts / inject_Z (ts_numSteps ts)).
  { unfold deltat. rewrite Hf, Hsteps. reflexivity. }
  assert (H00 : solvetimes0 sv == ts_initial_time ts).
  { rewrite H0, (N 0%nat) by lia. simpl. ring. }
  split.
  - rewrite (forward_clock Hfwd k), (N k) by lia. rewrite Hd, H00.
    reflexivity.
  - intros Hpos. unfold transientSolver.
    rewrite (forward_clock Hfwd (Z.to_nat (numsteps sv))).
    rewrite Z2Nat.id by lia. rewrite H00. apply Qplus_inj_l.
    unfold deltat. field. intros H. unfold Qeq in H. simpl in H. lia.
Qed.

End TimeDerivative.

(** ** The facts on a one-unknown instance

    The instance of the solver interface above, with the residual
    [x - 1]; [demo_pinned] is a strong Dirichlet condition that puts the
    unknown to 5 before the Newton loop. *)

Definition demo_pinned (w : unit) (u : vec) : vec := map (fun _ => 5) u.

Definition demo_settings (t0 : Q) : time_settings :=
  {| ts_solver := SolverType.transient; ts_numSteps := 2;
     ts_finaltime := 1; ts_initial_time := t0 |}.

(** A solver object as the constructor leaves it for [demo_settings]. *)
Definition demo_solver_from (t0 : Q) : solver :=
  {| NLtol := 1 # 1000000; MaxNLiter := 10; NLsolver_is_AA := false;
     usestrongDBCs := true; verbosity := 0; rank := 0;
     isTransient := true; numsteps := 2; finaltime := 1;
     time_order := 1; allow_remesh := false;
     compute_objective := false; num_local_rows := 1; solvetimes0 := t0;
     useDirect := false; useDomDecomp := true; usePrec := true;
     dropTol := 0; fillParam := 3;
     useadjoint := false; current_time := 0; is_final_time := false;
     store_adjPrev := false; gNLiter := 0 |}.

Definition demo_pinned_steps (k : nat) : transient unit :=
  after_steps unit (demo_assemble false) demo_same demo_sameMat demo_same
    (demo_linearSolver false) demo_pinned demo_costs demo_remesh
    demo_sacadoize demo_objective demo_sens_view
    (demo_solver_from 0) tt [0] [] [[0]; [0]; [0]] [] k.

(** From [u = 0], [u_dot = 5] the forward Newton loop with [alpha = 2]
    ends at [u = 1], [u_dot = 7]. *)
Lemma newton_keeps_time_derivative_witness :
  let r := nonlinearSolver unit (demo_assemble false) demo_same demo_sameMat
             demo_same (demo_linearSolver false) demo_setDirichlet
             (demo_solver_from 0) 2 1 tt [0] [5] [0] [0] in
  n_phi r = [0] /\ n_phi_dot r = [0]
  /\ nth 0 (n_u_dot r) 0 - 2 * nth 0 (n_u r) 0 == 5
  /\ nth 0 (n_u r) 0 == 1.
Proof.
  cbv zeta.
  destruct (newton_keeps_time_derivative unit (demo_assemble false)
              demo_same demo_sameMat demo_same (demo_linearSolver false)
              demo_setDirichlet (demo_solver_from 0) 2 1 tt [0] [5] [0] [0]
              (fun _ => eq_refl) (fun _ => eq_refl)) as [H _].
  destruct (H eq_refl) as (Hp & Hd & Hi).
  split; [exact Hp|]. split; [exact Hd|]. split.
  - rewrite (Hi 0%nat). vm_compute. reflexivity.
  - vm_compute. reflexivity.
Defined.

(** The first step of the pinned run starts its Newton loop at [u = 5]
    and ends at [u = 1]: with [alpha = 2] and the previous column 0 the
    time derivative is [2 (1 - 0) + 2 (0 - 5) = -8], not the difference
    quotient 2. *)
Lemma forward_step_backward_difference_witness :
  nth 0 (t_u (demo_pinned_steps 1)) 0 == 1
  /\ nth 0 (t_u_dot (demo_pinned_steps 1)) 0 == -8.
Proof.
  split; [vm_compute; reflexivity|].
  unfold demo_pinned_steps.
  rewrite (forward_step_backward_difference unit (demo_assemble false)
             demo_same demo_sameMat demo_same (demo_linearSolver false)
             demo_pinned demo_costs demo_remesh demo_sacadoize demo_objective
             demo_sens_view (demo_solver_from 0) tt [0] [] [[0]; [0]; [0]] []
             eq_refl eq_refl 0%nat eq_refl 0%nat ltac:(simpl; lia)).
  vm_compute. reflexivity.
Defined.

(** A run of two steps from the initial time 1 to the final time 1
    passes the times 1, 3/2 and 2. *)
Lemma forward_clock_visits_solvetimes_witness :
  ctor_solvetimes (demo_settings 1) = [1; 1 + 1 / 2; 1 + 1 / 2 + 1 / 2]
  /\ current_time
       (t_sv (after_steps unit (demo_assemble false) demo_same demo_sameMat
                demo_same (demo_linearSolver false) demo_setDirichlet
                demo_costs demo_remesh demo_sacadoize demo_objective
                demo_sens_view (demo_solver_from 1) tt [0] []
                [[0]; [0]; [0]] [] 1))
     == 3 # 2.
Proof.
  split; [reflexivity|].
  destruct (forward_clock_visits_solvetimes unit (demo_assemble false)
              demo_same demo_sameMat demo_same (demo_linearSolver false)
              demo_setDirichlet demo_costs demo_remesh demo_sacadoize
              demo_objective demo_sens_view (demo_solver_from 1) tt [0] []
              [[0]; [0]; [0]] [] (demo_settings 1)
              (conj eq_refl (conj eq_refl (conj eq_refl eq_refl)))
              eq_refl eq_refl 1%nat ltac:(simpl; lia)) as [H _].
  rewrite H. vm_compute. reflexivity.
Defined.

End SolverFacts.

(** * The error estimate and the objective of the solver interface *)

Module SolverEstimates.

Import Solver.

(** ** [solver::computeError] *)

(** [a2_kv(i,0) = GA_kv(i,numsteps-timeiter)] on the owned rows. *)
Definition error_a2 (numsteps : nat) (r : rank_traj) (timeiter : nat) : vec :=
  tabulate (rt_owned r)
    (fun i => kv (rt_GA r) i (Z.of_nat numsteps - Z.of_nat timeiter)).

(** [localerror] of one rank: the sum over the time steps of
    [currerror], the product of the adjoint with column 0 of the exported
    residual of the step. *)
Definition localerror (numsteps : nat) (r : rank_traj) : Q :=
  fold_left
    (fun acc t => acc + currsens (rt_owned r) (error_a2 numsteps r t)
                                 (nth 0 (rt_res r t) []))
    (seq 0 numsteps) 0.

(** [solver::computeError(GF_soln, GA_soln)]: the returned estimate. *)
Definition computeError (numsteps : nat) (ranks : list rank_traj) : Q :=
  reduceAll_sum (map (localerror numsteps) ranks).

Lemma fold_plus (A : Type) (f : A -> Q) (l : list A) (acc : Q) :
  fold_left (fun acc t => acc + f t) l acc == acc + Qsum (map f l).
Proof.
  revert acc. induction l as [|a l IH]; intros acc; simpl.
  - ring.
  - rewrite IH. ring.
Qed.

Lemma currsens_rows (owned : nat) (f : nat -> Q) (resp : vec) :
  currsens owned (tabulate owned f) resp
  == sum_n owned (fun i => f i * nth i resp 0).
Proof.
  unfold currsens, sum_n. apply Qsum_ext. intros i Hi.
  apply in_seq in Hi. rewrite nth_tabulate by lia. reflexivity.
Qed.

(** The estimate is the adjoint-weighted residual: the sum over the
    ranks, the time steps and the owned rows of the adjoint of column
    [numsteps - timeiter] times column 0 of the residual assembled at
    step [timeiter]. Column 0 of the adjoint trajectory is never read, so
    two adjoint trajectories that differ only there give the same
    estimate. *)
Theorem computeError_adjoint_weighted_residual (numsteps : nat)
    (ranks : list rank_traj) :
  computeError numsteps ranks
  == Qsum (map (fun r =>
       sum_n numsteps (fun t =>
         sum_n (rt_owned r) (fun i =>
           kv (rt_GA r) i (Z.of_nat numsteps - Z.of_nat t)
           * nth i (nth 0 (rt_res r t) []) 0))) ranks)
  /\ forall ranks',
       Forall2 (fun r r' =>
                  rt_owned r' = rt_owned r /\ rt_res r' = rt_res r
                  /\ forall i col, (0 < col)%Z ->
                       kv (rt_GA r') i col = kv (rt_GA r) i col)
               ranks ranks' ->
       computeError numsteps ranks' == computeError numsteps ranks.
Proof.
  assert (Hr : forall r,
            localerror numsteps r
            == sum_n numsteps (fun t =>
                 sum_n (rt_owned r) (fun i =>
                   kv (rt_GA r) i (Z.of_nat numsteps - Z.of_nat t)
                   * nth i (nth 0 (rt_res r t) []) 0))).
  { intros r. unfold localerror. rewrite fold_plus.
    setoid_replace (0 + Qsum (map (fun t =>
                      currsens (rt_owned r) (error_a2 numsteps r t)
                               (nth 0 (rt_res r t) [])) (seq 0 numsteps)))
      with (Qsum (map (fun t =>
                      currsens (rt_owned r) (error_a2 numsteps r t)
                               (nth 0 (rt_res r t) [])) (seq 0 numsteps)))
      by ring.
    unfold sum_n. apply Qsum_ext. intros t _.
    unfold error_a2. apply currsens_rows. }
  split.
  - unfold computeError, reduceAll_sum. apply Qsum_ext. intros r _. apply Hr.
  - intros ranks' H. unfold computeError, reduceAll_sum.
    induction H as [|r r' l l' (Ho & Hres & Hga) _ IH]; [reflexivity|].
    simpl. rewrite IH. apply Qplus_inj_r. rewrite !Hr, Ho, Hres.
    apply sum_n_ext. intros t Ht. apply sum_n_ext. intros i _.
    rewrite Hga by lia. reflexivity.
Qed.

(** ** [solver::computeObjective] *)

(** A Sacado scalar: its value and its derivative components; [size()]
    is the number of components. *)
Record AD : Type := { ad_val : Q; ad_dx : list Q }.

Definition ad_size (x : AD) : nat := length (ad_dx x).
Definition fastAccessDx (x : AD) (k : nat) : Q := nth k (ad_dx x) 0.

(** What the routine reads of a cell: the view [obj] its
    [computeObjective] returns, its [paramGIDs] and the values of its
    two regularizations. *)
Record obj_cell : Type := {
  oc_numElem : nat;
  oc_obj_dim1 : nat;                      (* obj.dimension(1) *)
  oc_obj : nat -> nat -> AD;              (* obj(c,i) *)
  oc_paramGIDs : nat -> nat -> nat;       (* paramGIDs[c][k] *)
  oc_regDomain : AD;                      (* computeDomainRegularization *)
  oc_regBoundary : AD                     (* computeBoundaryRegularization *)
}.

(** What the routine reads of the parameter manager. *)
Record obj_params : Type := {
  num_active_params : nat;
  globalParamUnknowns : nat;
  paramoffsets : list (list nat);
  domainRegIndices : list nat;
  boundaryRegIndices : list nat
}.

(** The locals of the routine on one rank. *)
Record obj_state : Type := {
  totaldiff : Q;                          (* totaldiff.val() *)
  dmGradient : list Q;
  regGradient : list Q;
  regDomain : AD;
  regBoundary : AD
}.

Section Objective.

Variable pm : obj_params.

Definition numParams : nat :=
  (num_active_params pm + globalParamUnknowns pm)%nat.

(** The body of the loop over [i] for element [c] of a cell. An index
    outside [dmGradient], or a derivative component outside the scalar,
    has no meaning in C++: [add_at] writes nothing there and
    [fastAccessDx] reads 0. *)
Definition add_objective (cell : obj_cell) (c i : nat) (s : obj_state)
    : obj_state :=
  let o := oc_obj cell c i in
  let dm1 :=
    if (0 <? num_active_params pm)%nat
    then (if (0 <? ad_size o)%nat
          then add_at 0 (fastAccessDx o 0) (dmGradient s)
          else dmGradient s)
    else dmGradient s in
  let dm2 :=
    if (0 <? globalParamUnknowns pm)%nat
    then fold_left
           (fun dm row =>
              let poffset := nth row (nth 0 (paramoffsets pm) []) 0%nat in
              let rowIndex := oc_paramGIDs cell c poffset in
              if (num_active_params pm <? ad_size o)%nat
              then add_at (rowIndex + num_active_params pm)
                          (fastAccessDx o (poffset + num_active_params pm)) dm
              else dm)
           (seq 0 (length (nth 0 (paramoffsets pm) []))) dm1
    else dm1 in
  {| totaldiff := totaldiff s + ad_val o;
     dmGradient := dm2; regGradient := regGradient s;
     regDomain := regDomain s; regBoundary := regBoundary s |}.

(** The loops over [c], [p] and [row] that add the derivative of a
    regularization [reg] to [regGradient]. *)
Definition add_regularization (cell : obj_cell) (indices : list nat)
    (reg : AD) (rg : list Q) : list Q :=
  fold_left
    (fun rg c =>
       fold_left
         (fun rg p =>
            let paramIndex := nth p indices 0%nat in
            fold_left
              (fun rg row =>
                 if (0 <? ad_size reg)%nat
                 then
                   let poffset :=
                     nth row (nth paramIndex (paramoffsets pm) []) 0%nat in
                   let rowIndex := oc_paramGIDs cell c poffset in
                   add_at (rowIndex + num_active_params pm)
                          (fastAccessDx reg poffset) rg
                 else rg)
              (seq 0 (length (nth paramIndex (paramoffsets pm) []))) rg)
         (seq 0 (length indices)) rg)
    (seq 0 (oc_numElem cell)) rg.

(** The body of the loop over the cells [e] of a block. *)
Definition objective_cell (cell : obj_cell) (s : obj_state) : obj_state :=
  let s1 :=
    if (0 <? oc_obj_dim1 cell)%nat
    then fold_left
           (fun s c => fold_left (fun s i => add_objective cell c i s)
                                 (seq 0 (oc_obj_dim1 cell)) s)
           (seq 0 (oc_numElem cell)) s
    else s in
  let numDomainParams := length (domainRegIndices pm) in
  let numBoundaryParams := length (boundaryRegIndices pm) in
  if (0 <? numDomainParams)%nat || (0 <? numBoundaryParams)%nat then
    let s2 :=
      if (0 <? numDomainParams)%nat
      then {| totaldiff := totaldiff s1; dmGradient := dmGradient s1;
              regGradient := add_regularization cell (domainRegIndices pm)
                               (oc_regDomain cell) (regGradient s1);
              regDomain := oc_regDomain cell;
              regBoundary := regBoundary s1 |}
      else s1 in
    let s3 :=
      if (0 <? numBoundaryParams)%nat
      then {| totaldiff := totaldiff s2; dmGradient := dmGradient s2;
              regGradient := add_regularization cell (boundaryRegIndices pm)
                               (oc_regBoundary cell) (regGradient s2);
              regDomain := regDomain s2;
              regBoundary := oc_regBoundary cell |}
      else s2 in
    {| totaldiff := totaldiff s3
                    + (ad_val (regDomain s3) + ad_val (regBoundary s3));
       dmGradient := dmGradient s3; regGradient := regGradient s3;
       regDomain := regDomain s3; regBoundary := regBoundary s3 |}
  else s1.

(** The locals of one rank after the loops over its cells, block by
    block. *)
Definition objective_rank (cells : list obj_cell) : obj_state :=
  fold_left (fun s cell => objective_cell cell s) cells
    {| totaldiff := 0;
       dmGradient := repeat 0 numParams; regGradient := repeat 0 numParams;
       regDomain := {| ad_val := 0; ad_dx := [] |};
       regBoundary := {| ad_val := 0; ad_dx := [] |} |}.

(** [solver::computeObjective]: the returned [fullobj], whose value is
    the sum of [totaldiff] over the ranks and whose derivative [j] is the
    sum over the ranks of [dmGradient[j] + regGradient[j]]. *)
Definition computeObjective (ranks : list (list obj_cell)) : AD :=
  {| ad_val := reduceAll_sum
                 (map (fun cells => totaldiff (objective_rank cells)) ranks);
     ad_dx := map (fun j =>
                     reduceAll_sum
                       (map (fun cells =>
                               nth j (dmGradient (objective_rank cells)) 0
                               + nth j (regGradient (objective_rank cells)) 0)
                            ranks))
                  (seq 0 numParams) |}.

(** *** Facts about the accumulation *)

Lemma nth_add_at_other (idx : nat) (v : Q) (g : list Q) (j : nat) :
  j <> idx -> nth j (add_at idx v g) 0 = nth j g 0.
Proof.
  revert idx j. induction g as [|x g IH]; intros [|idx] [|j] H; simpl;
    try reflexivity; try congruence.
  apply IH. congruence.
Qed.

Lemma nth_add_at_head (v : Q) (g : list Q) :
  (0 < length g)%nat -> nth 0 (add_at 0 v g) 0 == nth 0 g 0 + v.
Proof.
  destruct g as [|x g]; simpl; [lia|]. intros _. reflexivity.
Qed.

(** The derivative of the objective of one point with respect to the
    first active parameter, as the loop reads it. *)
Definition first_dx (o : AD) : Q :=
  if (0 <? ad_size o)%nat then fastAccessDx o 0 else 0.

Lemma add_objective_spec (cell : obj_cell) (c i : nat) (s : obj_state) :
  length (dmGradient s) = numParams ->
  let s' := add_objective cell c i s in
  totaldiff s' = totaldiff s + ad_val (oc_obj cell c i)
  /\ regGradient s' = regGradient s
  /\ regDomain s' = regDomain s /\ regBoundary s' = regBoundary s
  /\ length (dmGradient s') = numParams
  /\ forall j, (j < num_active_params pm)%nat ->
       nth j (dmGradient s') 0
       == nth j (dmGradient s) 0
          + pick (j =? 0)%nat (first_dx (oc_obj cell c i)).
Proof.
  intros Hlen. cbv zeta. unfold add_objective.
  cbn [totaldiff dmGradient regGradient regDomain regBoundary].
  split; [reflexivity|]. split; [reflexivity|].
  split; [reflexivity|]. split; [reflexivity|].
  set (o := oc_obj cell c i).
  set (dm1 := if (0 <? num_active_params pm)%nat
              then (if (0 <? ad_size o)%nat
                    then add_at 0 (fastAccessDx o 0) (dmGradient s)
                    else dmGradient s)
              else dmGradient s).
  assert (H1 : length dm1 = numParams
               /\ forall j, (j < num_active_params pm)%nat ->
                    nth j dm1 0
                    == nth j (dmGradient s) 0 + pick (j =? 0)%nat (first_dx o)).
  { unfold dm1, first_dx.
    destruct (Nat.ltb_spec 0 (num_active_params pm)) as [Hn|Hn].
    - destruct (0 <? ad_size o)%nat.
      + split; [rewrite length_add_at; exact Hlen|].
        intros [|j] Hj; cbn [Nat.eqb pick].
        * apply nth_add_at_head. rewrite Hlen. unfold numParams. lia.
        * rewrite nth_add_at_other by lia. ring.
      + split; [exact Hlen|]. intros j _. destruct (j =? 0)%nat; simpl; ring.
    - split; [exact Hlen|]. intros j Hj. lia. }
  destruct H1 as [L1 N1].
  assert (H2 : forall (rows : list nat) (dm : list Q),
            length dm = numParams ->
            let dm' :=
              fold_left
                (fun dm row =>
                   if (num_active_params pm <? ad_size o)%nat
                   then add_at
                          (oc_paramGIDs cell c
                             (nth row (nth 0 (paramoffsets pm) []) 0%nat)
                           + num_active_params pm)
                          (fastAccessDx o
                             (nth row (nth 0 (paramoffsets pm) []) 0%nat
                              + num_active_params pm)) dm
                   else dm) rows dm in
            length dm' = numParams
            /\ forall j, (j < num_active_params pm)%nat ->
                 nth j dm' 0 = nth j dm 0).
  { induction rows as [|row rows IH]; intros dm Hdm; cbv zeta; simpl.
    - split; [exact Hdm|reflexivity].
    - destruct (num_active_params pm <? ad_size o)%nat.
      + destruct (IH (add_at
                        (oc_paramGIDs cell c
                           (nth row (nth 0 (paramoffsets pm) []) 0%nat)
                         + num_active_params pm)
                        (fastAccessDx o
                           (nth row (nth 0 (paramoffsets pm) []) 0%nat
                            + num_active_params pm)) dm))
          as [L N].
        { rewrite length_add_at. exact Hdm. }
        split; [exact L|]. intros j Hj. rewrite (N j Hj).
        apply nth_add_at_other. lia.
      + apply IH. exact Hdm. }
  destruct (0 <? globalParamUnknowns pm)%nat.
  - destruct (H2 (seq 0 (length (nth 0 (paramoffsets pm) []))) dm1 L1)
      as [L2 N2].
    split; [exact L2|]. intros j Hj. rewrite (N2 j Hj). apply N1, Hj.
  - split; [exact L1|exact N1].
Qed.

(** [s'] is [s] with [v] added to the value and [d] to slot 0 of
    [dmGradient], the other slots of the active parameters and the
    regularization data being as in [s]. *)
Definition adds (v d : Q) (s s' : obj_state) : Prop :=
  totaldiff s' == totaldiff s + v
  /\ length (dmGradient s') = numParams
  /\ (forall j, (j < num_active_params pm)%nat ->
        nth j (dmGradient s') 0
        == nth j (dmGradient s) 0 + pick (j =? 0)%nat d)
  /\ regGradient s' = regGradient s
  /\ regDomain s' = regDomain s /\ regBoundary s' = regBoundary s.

Lemma pick_plus (b : bool) (x y : Q) : pick b x + pick b y == pick b (x + y).
Proof. destruct b; unfold pick; ring. Qed.

Lemma adds_nothing (s : obj_state) :
  length (dmGradient s) = numParams -> adds 0 0 s s.
Proof.
  intros H. unfold adds. split; [ring|]. split; [exact H|].
  split; [|auto]. intros j _. destruct (j =? 0)%nat; unfold pick; ring.
Qed.

Lemma adds_trans (v1 d1 v2 d2 : Q) (s1 s2 s3 : obj_state) :
  adds v1 d1 s1 s2 -> adds v2 d2 s2 s3 -> adds (v1 + v2) (d1 + d2) s1 s3.
Proof.
  intros (T1 & L1 & N1 & G1 & D1 & B1) (T2 & L2 & N2 & G2 & D2 & B2).
  unfold adds. split; [rewrite T2, T1; ring|]. split; [exact L2|].
  split; [|repeat split; congruence].
  intros j Hj. rewrite (N2 j Hj), (N1 j Hj), <- pick_plus. ring.
Qed.

Lemma adds_eq (v d v' d' : Q) (s s' : obj_state) :
  v == v' -> d == d' -> adds v d s s' -> adds v' d' s s'.
Proof.
  intros Hv Hd (T & L & N & R). unfold adds.
  split; [rewrite T, Hv; reflexivity|]. split; [exact L|]. split; [|exact R].
  intros j Hj. rewrite (N j Hj). destruct (j =? 0)%nat; unfold pick.
  - rewrite Hd. reflexivity.
  - reflexivity.
Qed.

Lemma adds_length (v d : Q) (s s' : obj_state) :
  adds v d s s' -> length (dmGradient s') = numParams.
Proof. intros H. apply H. Qed.

Lemma add_objective_adds (cell : obj_cell) (c i : nat) (s : obj_state) :
  length (dmGradient s) = numParams ->
  adds (ad_val (oc_obj cell c i)) (first_dx (oc_obj cell c i)) s
       (add_objective cell c i s).
Proof.
  intros H. destruct (add_objective_spec cell c i s H)
    as (T & G & D & B & L & N).
  unfold adds. rewrite T. split; [reflexivity|]. auto.
Qed.

(** A loop whose every pass adds its own amounts adds their sums. *)
Lemma fold_adds (A : Type) (f : A -> obj_state -> obj_state) (v d : A -> Q)
    (l : list A) :
  (forall a s, length (dmGradient s) = numParams ->
               adds (v a) (d a) s (f a s)) ->
  forall s, length (dmGradient s) = numParams ->
    adds (Qsum (map v l)) (Qsum (map d l)) s
         (fold_left (fun s a => f a s) l s).
Proof.
  intros Hf. induction l as [|a l IH]; intros s Hs; simpl.
  - apply adds_nothing, Hs.
  - apply (adds_trans _ _ _ _ s (f a s)).
    + apply Hf, Hs.
    + apply IH. apply (adds_length _ _ _ _ (Hf a s Hs)).
Qed.

(** The sums of the values and of the first derivatives over the points
    of a cell. *)
Definition cell_objective (cell : obj_cell) : Q :=
  sum_n (oc_numElem cell) (fun c =>
    sum_n (oc_obj_dim1 cell) (fun i => ad_val (oc_obj cell c i))).

Definition cell_first_dx (cell : obj_cell) : Q :=
  sum_n (oc_numElem cell) (fun c =>
    sum_n (oc_obj_dim1 cell) (fun i => first_dx (oc_obj cell c i))).

Lemma objective_points_adds (cell : obj_cell) (s : obj_state) :
  length (dmGradient s) = numParams ->
  adds (cell_objective cell) (cell_first_dx cell) s
    (if (0 <? oc_obj_dim1 cell)%nat
     then fold_left
            (fun s c => fold_left (fun s i => add_objective cell c i s)
                                  (seq 0 (oc_obj_dim1 cell)) s)
            (seq 0 (oc_numElem cell)) s
     else s).
Proof.
  intros Hs. unfold cell_objective, cell_first_dx.
  destruct (Nat.ltb_spec 0 (oc_obj_dim1 cell)) as [Hd|Hd].
  - unfold sum_n.
    apply (fold_adds nat
             (fun c s => fold_left (fun s i => add_objective cell c i s)
                                   (seq 0 (oc_obj_dim1 cell)) s)
             (fun c => Qsum (map (fun i => ad_val (oc_obj cell c i))
                                 (seq 0 (oc_obj_dim1 cell))))
             (fun c => Qsum (map (fun i => first_dx (oc_obj cell c i))
                                 (seq 0 (oc_obj_dim1 cell))))); [|exact Hs].
    intros c s0 Hs0.
    apply (fold_adds nat (fun i s => add_objective cell c i s)
             (fun i => ad_val (oc_obj cell c i))
             (fun i => first_dx (oc_obj cell c i))); [|exact Hs0].
    intros i s1 Hs1. apply add_objective_adds, Hs1.
  - assert (H0 : oc_obj_dim1 cell = 0%nat) by lia. rewrite H0.
    apply (adds_eq 0 0); [| |apply adds_nothing, Hs].
    + symmetry. apply sum_n_zero. intros c _. reflexivity.
    + symmetry. apply sum_n_zero. intros c _. reflexivity.
Qed.

(** [rg'] has the length of [rg] and its slots of the active
    parameters. *)
Definition keeps_active (rg rg' : list Q) : Prop :=
  length rg' = length rg
  /\ forall j, (j < num_active_params pm)%nat -> nth j rg' 0 = nth j rg 0.

Lemma keeps_active_fold (A : Type) (f : list Q -> A -> list Q) (l : list A) :
  (forall rg a, keeps_active rg (f rg a)) ->
  forall rg, keeps_active rg (fold_left f l rg).
Proof.
  intros Hf. induction l as [|a l IH]; intros rg; simpl.
  - split; [reflexivity|]. intros j _. reflexivity.
  - destruct (IH (f rg a)) as [L N]. destruct (Hf rg a) as [L' N'].
    split; [congruence|]. intros j Hj. rewrite (N j Hj). apply N', Hj.
Qed.

Lemma add_regularization_keeps (cell : obj_cell) (indices : list nat)
    (reg : AD) (rg : list Q) :
  keeps_active rg (add_regularization cell indices reg rg).
Proof.
  unfold add_regularization.
  apply keeps_active_fold. intros rg1 c.
  apply keeps_active_fold. intros rg2 p.
  apply keeps_active_fold. intros rg3 row. cbv zeta.
  destruct (0 <? ad_size reg)%nat.
  - split; [apply length_add_at|].
    intros j Hj. apply nth_add_at_other. lia.
  - split; [reflexivity|]. intros j _. reflexivity.
Qed.

(** The values of the regularizations that a cell adds. *)
Definition cell_regularization (cell : obj_cell) : Q :=
  pick (0 <? length (domainRegIndices pm))%nat (ad_val (oc_regDomain cell))
  + pick (0 <? length (boundaryRegIndices pm))%nat
         (ad_val (oc_regBoundary cell)).

(** What the loops keep between two cells. *)
Definition between_cells (s : obj_state) : Prop :=
  length (dmGradient s) = numParams
  /\ length (regGradient s) = numParams
  /\ (length (domainRegIndices pm) = 0%nat -> ad_val (regDomain s) = 0)
  /\ (length (boundaryRegIndices pm) = 0%nat -> ad_val (regBoundary s) = 0).

Lemma objective_cell_spec (cell : obj_cell) (s : obj_state) :
  between_cells s ->
  let s' := objective_cell cell s in
  between_cells s'
  /\ totaldiff s'
     == totaldiff s + (cell_objective cell + cell_regularization cell)
  /\ forall j, (j < num_active_params pm)%nat ->
       nth j (dmGradient s') 0
       == nth j (dmGradient s) 0 + pick (j =? 0)%nat (cell_first_dx cell)
       /\ nth j (regGradient s') 0 = nth j (regGradient s) 0.
Proof.
  intros (Hdm & Hrg & Hd0 & Hb0). cbv zeta.
  unfold objective_cell, cell_regularization.
  pose proof (objective_points_adds cell s Hdm) as H1.
  set (s1 := if (0 <? oc_obj_dim1 cell)%nat
             then fold_left
                    (fun s c => fold_left (fun s i => add_objective cell c i s)
                                          (seq 0 (oc_obj_dim1 cell)) s)
                    (seq 0 (oc_numElem cell)) s
             else s) in *.
  destruct H1 as (T1 & L1 & N1 & G1 & D1 & B1).
  pose proof (add_regularization_keeps cell (domainRegIndices pm)
                (oc_regDomain cell) (regGradient s1)) as [KL1 KN1].
  destruct (Nat.ltb_spec 0 (length (domainRegIndices pm))) as [Hnd|Hnd];
    destruct (Nat.ltb_spec 0 (length (boundaryRegIndices pm))) as [Hnb|Hnb];
    cbn [orb totaldiff dmGradient regGradient regDomain regBoundary pick].
  - pose proof (add_regularization_keeps cell (boundaryRegIndices pm)
                  (oc_regBoundary cell)
                  (add_regularization cell (domainRegIndices pm)
                     (oc_regDomain cell) (regGradient s1))) as [KL2 KN2].
    split; [|split].
    + unfold between_cells.
      cbn [totaldiff dmGradient regGradient regDomain regBoundary].
      split; [exact L1|]. split; [congruence|]. split; intros; lia.
    + rewrite T1. ring.
    + intros j Hj. split; [apply N1, Hj|].
      rewrite (KN2 j Hj), (KN1 j Hj), G1. reflexivity.
  - split; [|split].
    + unfold between_cells.
      cbn [totaldiff dmGradient regGradient regDomain regBoundary].
      split; [exact L1|]. split; [congruence|].
      split; [intros; lia|]. intros _. rewrite B1. apply Hb0. lia.
    + rewrite T1, B1, (Hb0 ltac:(lia)). ring.
    + intros j Hj. split; [apply N1, Hj|].
      rewrite (KN1 j Hj), G1. reflexivity.
  - pose proof (add_regularization_keeps cell (boundaryRegIndices pm)
                  (oc_regBoundary cell) (regGradient s1)) as [KL2 KN2].
    split; [|split].
    + unfold between_cells.
      cbn [totaldiff dmGradient regGradient regDomain regBoundary].
      split; [exact L1|]. split; [congruence|].
      split; [|intros; lia]. intros _. rewrite D1. apply Hd0. lia.
    + rewrite T1, D1, (Hd0 ltac:(lia)). ring.
    + intros j Hj. split; [apply N1, Hj|].
      rewrite (KN2 j Hj), G1. reflexivity.
  - split; [|split].
    + unfold between_cells. split; [exact L1|]. split; [congruence|].
      split; intros H.
      * rewrite D1. apply Hd0, H.
      * rewrite B1. apply Hb0, H.
    + rewrite T1. ring.
    + intros j Hj. split; [apply N1, Hj|]. rewrite G1. reflexivity.
Qed.

Lemma objective_cells_spec (cells : list obj_cell) (s : obj_state) :
  between_cells s ->
  let s' := fold_left (fun s cell => objective_cell cell s) cells s in
  between_cells s'
  /\ totaldiff s'
     == totaldiff s
        + Qsum (map (fun cell => cell_objective cell + cell_regularization cell)
                    cells)
  /\ forall j, (j < num_active_params pm)%nat ->
       nth j (dmGradient s') 0
       == nth j (dmGradient s) 0
          + pick (j =? 0)%nat (Qsum (map cell_first_dx cells))
       /\ nth j (regGradient s') 0 = nth j (regGradient s) 0.
Proof.
  revert s. induction cells as [|cell cells IH]; intros s Hs; cbv zeta; simpl.
  - split; [exact Hs|]. split; [ring|]. intros j _. split; [|reflexivity].
    destruct (j =? 0)%nat; unfold pick; ring.
  - destruct (objective_cell_spec cell s Hs) as (B1 & T1 & N1).
    destruct (IH (objective_cell cell s) B1) as (B2 & T2 & N2).
    split; [exact B2|]. split; [rewrite T2, T1; ring|].
    intros j Hj. destruct (N1 j Hj) as [Nd1 Nr1].
    destruct (N2 j Hj) as [Nd2 Nr2]. split; [|congruence].
    rewrite Nd2, Nd1, <- pick_plus. ring.
Qed.

Lemma nth_repeat_zero (n j : nat) : nth j (repeat 0 n) 0 = 0.
Proof.
  revert j. induction n as [|n IH]; intros [|j]; simpl; auto.
Qed.

Lemma objective_rank_spec (cells : list obj_cell) :
  totaldiff (objective_rank cells)
  == Qsum (map (fun cell => cell_objective cell + cell_regularization cell)
               cells)
  /\ forall j, (j < num_active_params pm)%nat ->
       nth j (dmGradient (objective_rank cells)) 0
       + nth j (regGradient (objective_rank cells)) 0
       == pick (j =? 0)%nat (Qsum (map cell_first_dx cells)).
Proof.
  unfold objective_rank.
  set (s0 := {| totaldiff := 0;
                dmGradient := repeat 0 numParams;
                regGradient := repeat 0 numParams;
                regDomain := {| ad_val := 0; ad_dx := [] |};
                regBoundary := {| ad_val := 0; ad_dx := [] |} |}).
  assert (H0 : between_cells s0).
  { unfold between_cells, s0. simpl. rewrite !repeat_length. auto. }
  destruct (objective_cells_spec cells s0 H0) as (_ & T & N).
  split.
  - rewrite T. unfold s0. simpl. ring.
  - intros j Hj. destruct (N j Hj) as [Nd Nr]. rewrite Nd, Nr.
    unfold s0. simpl. rewrite !nth_repeat_zero. ring.
Qed.

Lemma Qsum_pick (A : Type) (b : bool) (f : A -> Q) (l : list A) :
  Qsum (map (fun a => pick b (f a)) l) == pick b (Qsum (map f l)).
Proof.
  destruct b; unfold pick.
  - reflexivity.
  - apply Qsum_zero. intros a _. reflexivity.
Qed.

(** The value of the returned objective is the sum, over the ranks and
    their cells, of the objective values of all points of the cell and of
    the values of the regularizations whose index lists are not empty. *)
Theorem computeObjective_value (ranks : list (list obj_cell)) :
  ad_val (computeObjective ranks)
  == Qsum (map (fun cells =>
       Qsum (map (fun cell =>
         cell_objective cell + cell_regularization cell) cells)) ranks).
Proof.
  unfold computeObjective, reduceAll_sum. cbn [ad_val].
  apply Qsum_ext. intros cells _. apply objective_rank_spec.
Qed.

(** The returned objective has [numParams] derivative components. Of
    those of the active parameters only component 0 is ever filled: it is
    the sum over all points of their first derivative component, and the
    components [1 .. num_active_params-1] are zero whatever the
    derivatives of the points are. *)
Theorem computeObjective_active_gradient (ranks : list (list obj_cell)) :
  ad_size (computeObjective ranks) = numParams
  /\ forall j, (j < num_active_params pm)%nat ->
       fastAccessDx (computeObjective ranks) j
       == pick (j =? 0)%nat
            (Qsum (map (fun cells => Qsum (map cell_first_dx cells)) ranks)).
Proof.
  unfold computeObjective, ad_size, fastAccessDx, reduceAll_sum.
  cbn [ad_dx]. split; [rewrite length_map, length_seq; reflexivity|].
  intros j Hj.
  assert (Hin : (j < numParams)%nat) by (unfold numParams; lia).
  rewrite (nth_indep _ 0
             ((fun j => Qsum (map (fun cells =>
                 nth j (dmGradient (objective_rank cells)) 0
                 + nth j (regGradient (objective_rank cells)) 0) ranks)) 0%nat))
    by (rewrite length_map, length_seq; exact Hin).
  rewrite (map_nth (fun j => Qsum (map (fun cells =>
                 nth j (dmGradient (objective_rank cells)) 0
                 + nth j (regGradient (objective_rank cells)) 0) ranks))).
  rewrite seq_nth by exact Hin. cbn [Nat.add].
  rewrite <- Qsum_pick. apply Qsum_ext. intros cells _.
  apply objective_rank_spec, Hj.
Qed.

End Objective.

End SolverEstimates.

(** * The drivers of the solver interface

    [solver::setInitial], [solver::forwardModel],
    [solver::forwardModel_fr] and [solver::adjointModel], which set the
    mode, allocate the trajectory and call the Newton loop or the time
    loop. *)

Module SolverDrivers.

Import Solver.

(** The values of [solver_type] and [initial_type] the drivers test
    for. *)
Module DriverType.
Import String.
Definition steady_state : string := "steady-state"%string.
Definition transient : string := "transient"%string.
Definition L2_projection : string := "L2-projection"%string.
Definition interpolation : string := "interpolation"%string.
End DriverType.

(** [useadjoint = b] *)
Definition set_adjoint (b : bool) (sv : solver) : solver :=
  {| NLtol := NLtol sv; MaxNLiter := MaxNLiter sv;
     NLsolver_is_AA := NLsolver_is_AA sv; usestrongDBCs := usestrongDBCs sv;
     verbosity := verbosity sv; rank := rank sv;
     isTransient := isTransient sv; numsteps := numsteps sv;
     finaltime := finaltime sv; time_order := time_order sv;
     allow_remesh := allow_remesh sv;
     compute_objective := compute_objective sv;
     num_local_rows := num_local_rows sv; solvetimes0 := solvetimes0 sv;
     useDirect := useDirect sv; useDomDecomp := useDomDecomp sv;
     usePrec := usePrec sv; dropTol := dropTol sv; fillParam := fillParam sv;
     useadjoint := b;
     current_time := current_time sv; is_final_time := is_final_time sv;
     store_adjPrev := store_adjPrev sv; gNLiter := gNLiter sv |}.

Arguments n_world {World} _.
Arguments n_u {World} _.
Arguments n_u_dot {World} _.
Arguments n_phi {World} _.
Arguments n_phi_dot {World} _.
Arguments n_store_adjPrev {World} _.
Arguments n_gNLiter {World} _.
Arguments n_cout {World} _.
Arguments t_world {World} _.
Arguments t_sv {World} _.
Arguments t_u {World} _.
Arguments t_u_dot {World} _.
Arguments t_phi {World} _.
Arguments t_phi_dot {World} _.
Arguments t_solmat {World} _.
Arguments t_obj {World} _.
Arguments t_gradient {World} _.
Arguments t_cout {World} _.

Section Drivers.

Set Default Proof Using "Type".

Variable World : Type.
Variable assembleJacRes : World -> asm_args -> World * (multivec * matrix).
Variable exportVec : vec -> vec.
Variable exportMat : matrix -> matrix.
Variable importVec : vec -> vec.
Variable linearSolver : matrix -> vec -> vec.
Variable setDirichlet : World -> vec -> vec.
Variable multiscale_update : World -> World * (Q * list Q).
Variable remesh : World -> vec -> World.
Variable sacadoizeParams : bool -> World -> World.
Variable computeObjective : World -> vec -> Q -> Z -> Q.
Variable sens_view :
  World -> solver -> vec -> vec -> vec -> Q -> Q -> World * sens_input.

(** What [computeObjective] leaves behind in the assembler and the
    parameter manager: the gathered solution and the seeded
    parameters. *)
Variable objective_world : World -> vec -> World.

(** [assembler->setInitial(rhs, mass, useadjoint)] and
    [assembler->setInitial(initial, useadjoint)]. *)
Variable projection_system : World -> bool -> World * (vec * matrix).
Variable interpolate_initial : World -> bool -> vec -> World * vec.

(** [wkset[0]->y = yt; wkset[0]->s = st] *)
Variable set_fractional : Q -> Q -> World -> World.

Variable solver_type : String.string.
Variable initial_type : String.string.

Local Abbreviation newton_solve :=
  (nonlinearSolver World assembleJacRes exportVec exportMat importVec
     linearSolver setDirichlet).
Local Abbreviation time_loop :=
  (transientSolver World assembleJacRes exportVec exportMat importVec
     linearSolver setDirichlet multiscale_update remesh sacadoizeParams
     computeObjective sens_view).
Local Abbreviation steps :=
  (after_steps World assembleJacRes exportVec exportMat importVec
     linearSolver setDirichlet multiscale_update remesh sacadoizeParams
     computeObjective sens_view).

(** A multi-vector on [LA_overlapped_map], whose local rows are the
    entries of [LA_ownedAndShared]; a fresh one holds zeros. *)
Definition zero_soln (sv : solver) : vec := repeat 0 (num_local_rows sv).

Definition fresh_multivec (sv : solver) (numvecs : nat) : multivec :=
  repeat (zero_soln sv) numvecs.

(** [for (i < LA_ownedAndShared.size()) kv(i,col) = x(i,0)] *)
Definition copy_into (sv : solver) (col : nat) (x : vec) (m : multivec)
    : multivec :=
  set_col col (tabulate (num_local_rows sv) (fun i => nth i x 0)) m.

(** [solver::setInitial]. *)
Definition setInitial (sv : solver) (w : World) : World * vec :=
  let initial := zero_soln sv in
  if String.eqb initial_type DriverType.L2_projection then
    let '(w', (rhs, mass)) := projection_system w (useadjoint sv) in
    let glmass := exportMat mass in
    let glrhs := exportVec rhs in
    let glinitial := linearSolver glmass glrhs in
    (w', importVec glinitial)
  else if String.eqb initial_type DriverType.interpolation then
    interpolate_initial w (useadjoint sv) initial
  else (w, initial).

(** [numsols] *)
Definition numsols (sv : solver) : nat :=
  if String.eqb solver_type DriverType.transient
  then Z.to_nat (numsteps sv + 1) else 1%nat.

(** What a driver leaves: the assembler and the managers, the members of
    the solver object, the trajectory it returns, and its two
    reference arguments. *)
Record driven : Type := {
  d_world : World;
  d_sv : solver;
  d_soln : multivec;
  d_obj : Q;
  d_gradient : list Q;
  d_cout : list message
}.

(** The part the two forward drivers share: the mode, the initial
    condition and the trajectory before the solve. *)
Record prepared : Type := {
  p_world : World;
  p_sv : solver;
  p_initial : vec;
  p_soln : multivec
}.

Definition forward_setup (sv0 : solver) (w0 : World) : prepared :=
  let sv := set_adjoint false sv0 in
  let w1 := sacadoizeParams false w0 in
  let '(w2, initial) := setInitial sv w1 in
  let F_soln := fresh_multivec sv (numsols sv) in
  {| p_world := w2; p_sv := sv; p_initial := initial;
     p_soln := if String.eqb solver_type DriverType.transient
               then copy_into sv 0 initial F_soln else F_soln |}.

(** The steady-state branch of [forwardModel]: the Newton loop runs on
    [F_soln] itself, whose single column it updates in place. Its other
    three arguments are one zero vector in the source; with [alpha = 0]
    the update adds 0 times the Newton step to it. *)
Definition steady_newton (p : prepared) (start : vec) : newton World :=
  let sv := p_sv p in
  newton_solve sv 0 1 (p_world p) start
    (zero_soln sv) (zero_soln sv) (zero_soln sv).

(** [if (compute_objective) obj = computeObjective(F_soln, 0.0, 0)] and
    the return of [F_soln]. *)
Definition steady_finish (p : prepared) (r : newton World)
    (F_soln : multivec) (obj : Q) : driven :=
  let sv := set_newton_members (n_store_adjPrev r) (n_gNLiter r) (p_sv p) in
  let u := nth 0 F_soln [] in
  {| d_world := if compute_objective sv
                then objective_world (n_world r) u else n_world r;
     d_sv := sv;
     d_soln := F_soln;
     d_obj := if compute_objective sv
              then computeObjective (n_world r) u 0 0 else obj;
     d_gradient := [];
     d_cout := n_cout r |}.

(** The transient branch: the time loop, with a trajectory [I_soln] of
    one zero column in the place of the forward trajectory and an empty
    local [gradient]. *)
Definition forward_transient (p : prepared) : driven :=
  let sv := p_sv p in
  let r := time_loop sv (p_world p) (p_initial p)
             (fresh_multivec sv 1) (p_soln p) [] in
  {| d_world := t_world r; d_sv := t_sv r; d_soln := t_solmat r;
     d_obj := t_obj r; d_gradient := t_gradient r; d_cout := t_cout r |}.

(** Neither of the two solver types: nothing is solved. *)
Definition unsolved (p : prepared) (obj : Q) (gradient : list Q) : driven :=
  {| d_world := p_world p; d_sv := p_sv p; d_soln := p_soln p;
     d_obj := obj; d_gradient := gradient; d_cout := [] |}.

(** [solver::forwardModel(obj)]. *)
Definition forwardModel (sv0 : solver) (w0 : World) (obj : Q) : driven :=
  let p := forward_setup sv0 w0 in
  if String.eqb solver_type DriverType.steady_state
  then
    let r := steady_newton p (nth 0 (p_soln p) []) in
    steady_finish p r (set_col 0 (n_u r) (p_soln p)) obj
  else if String.eqb solver_type DriverType.transient
  then forward_transient p
  else unsolved p obj [].

(** [solver::forwardModel_fr(obj, yt, st)]. In the steady-state branch
    the Newton loop runs on [SS_soln], a copy of the initial condition,
    which is then copied into column 0 of [F_soln]. *)
Definition forwardModel_fr (sv0 : solver) (w0 : World) (obj : Q)
    (yt st : Q) : driven :=
  let p := forward_setup sv0 (set_fractional yt st w0) in
  if String.eqb solver_type DriverType.steady_state
  then
    let sv := p_sv p in
    let SS_soln := nth 0 (copy_into sv 0 (p_initial p) (fresh_multivec sv 1))
                       [] in
    let r := steady_newton p SS_soln in
    steady_finish p r (copy_into sv 0 (n_u r) (p_soln p)) obj
  else if String.eqb solver_type DriverType.transient
  then forward_transient p
  else unsolved p obj [].

(** The head of [adjointModel]: the mode, the initial condition and the
    adjoint trajectory, whose column 0 receives the initial condition
    whatever the solver type is. The constructor fills [ownedAndShared]
    by the call that fills [LA_ownedAndShared], so the two have one
    size. *)
Definition adjoint_setup (sv0 : solver) (w0 : World) : prepared :=
  let sv := set_adjoint true sv0 in
  let w1 := sacadoizeParams false w0 in
  let '(w2, initial) := setInitial sv w1 in
  let A_soln := fresh_multivec sv (numsols sv) in
  {| p_world := w2; p_sv := sv; p_initial := initial;
     p_soln := copy_into sv 0 initial A_soln |}.

(** The Newton loop of the steady-state branch of [adjointModel]: [u] is
    [L_soln], a copy of column 0 of [F_soln], and [phi] is the fresh
    [SS_soln]. *)
Definition adjoint_newton (p : prepared) (F_soln : multivec) : newton World :=
  let sv := p_sv p in
  let L_soln := nth 0 (copy_into sv 0 (nth 0 F_soln [])
                         (fresh_multivec sv 1)) [] in
  newton_solve sv 0 1 (p_world p) L_soln
    (zero_soln sv) (zero_soln sv) (zero_soln sv).

(** The branches of [adjointModel], before [useadjoint] is put back. *)
Definition adjoint_solve (p : prepared) (F_soln : multivec)
    (gradient : list Q) : driven :=
  let sv := p_sv p in
  if String.eqb solver_type DriverType.steady_state
  then
    let r := adjoint_newton p F_soln in
    let sv' := set_newton_members (n_store_adjPrev r) (n_gNLiter r) sv in
    let A_soln := copy_into sv 0 (n_phi r) (p_soln p) in
    let '(w', si) := sens_view (n_world r) sv' (nth 0 F_soln [])
                       (zero_soln sv) (nth 0 A_soln []) 0 1 in
    {| d_world := w'; d_sv := sv'; d_soln := A_soln; d_obj := 0;
       d_gradient := computeSensitivities si gradient;
       d_cout := n_cout r |}
  else if String.eqb solver_type DriverType.transient
  then
    let r := time_loop sv (p_world p) (p_initial p) F_soln (p_soln p)
               gradient in
    {| d_world := t_world r; d_sv := t_sv r; d_soln := t_solmat r;
       d_obj := t_obj r; d_gradient := t_gradient r; d_cout := t_cout r |}
  else unsolved p 0 gradient.

(** [solver::adjointModel(F_soln, gradient)]. *)
Definition adjointModel (sv0 : solver) (w0 : World) (F_soln : multivec)
    (gradient : list Q) : driven :=
  let r := adjoint_solve (adjoint_setup sv0 w0) F_soln gradient in
  {| d_world := d_world r; d_sv := set_adjoint false (d_sv r);
     d_soln := d_soln r; d_obj := d_obj r;
     d_gradient := d_gradient r; d_cout := d_cout r |}.

(** ** The trajectory the time loop fills *)

Section Trajectory.

Variable sv : solver.
Variable w : World.
Variable initial : vec.
Variables L_soln SolMat : multivec.
Variable gradient : list Q.

Local Abbreviation st := (steps sv w initial L_soln SolMat gradient).

(** The vector a step stores: [phi] in adjoint mode, [u] otherwise. *)
Definition stored (s : transient World) : vec :=
  if useadjoint sv then t_phi s else t_u s.

Lemma solmat_step (k : nat) :
  t_solmat (st (S k))
  = set_col (S k)
      (tabulate (num_local_rows sv) (fun i => nth i (stored (st (S k))) 0))
      (t_solmat (st k)).
Proof.
  rewrite (after_steps_S World assembleJacRes exportVec exportMat importVec
             linearSolver setDirichlet multiscale_update remesh
             sacadoizeParams computeObjective sens_view).
  unfold time_step, stored.
  set (sd := seed World L_soln (alpha_of sv) k
               (begin_step World multiscale_update k (st k))).
  destruct (t_u_finish_step World remesh sacadoizeParams computeObjective
              sens_view (alpha_of sv) 1 k
              (solve_and_store World assembleJacRes exportVec exportMat
                 importVec linearSolver setDirichlet (alpha_of sv) 1 k sd))
    as (Fu & Fp & Fs).
  rewrite Fu, Fp, Fs.
  destruct (settings_fields _ _
              (settings_after_steps World assembleJacRes exportVec exportMat
                 importVec linearSolver setDirichlet multiscale_update remesh
                 sacadoizeParams computeObjective sens_view
                 sv w initial L_soln SolMat gradient k))
    as (Hadj & _ & Hrows & _).
  destruct (settings_fields _ _
              (settings_begin_step World multiscale_update k (st k)))
    as (Hadj' & _ & Hrows' & _).
  assert (Hsv : t_sv sd = t_sv (begin_step World multiscale_update k (st k)))
    by apply t_sv_seed.
  destruct (seed_fields World L_soln (alpha_of sv) k
              (begin_step World multiscale_update k (st k)))
    as (_ & _ & Ssol & _).
  destruct (begin_step_vectors World multiscale_update k (st k))
    as (_ & _ & _ & _ & Bsol & _).
  unfold solve_and_store. cbn [t_solmat t_u t_phi].
  fold sd. rewrite Hsv, Hadj', Hadj, Hrows', Hrows.
  fold sd in Ssol. rewrite Ssol, Bsol. reflexivity.
Qed.

Lemma solmat_columns (k j : nat) :
  (j <= k)%nat -> (j < length SolMat)%nat ->
  nth j (t_solmat (st k)) []
  = match j with
    | O => nth 0 SolMat []
    | S _ => tabulate (num_local_rows sv)
               (fun i => nth i (stored (st j)) 0)
    end.
Proof.
  induction k as [|k IH]; intros Hj Hcol.
  - replace j with 0%nat by lia. reflexivity.
  - rewrite solmat_step.
    destruct (Nat.eq_dec j (S k)) as [->|Hne].
    + rewrite nth_set_col_eq; [reflexivity|].
      rewrite (length_solmat_after_steps World assembleJacRes exportVec
                 exportMat importVec linearSolver setDirichlet
                 multiscale_update remesh sacadoizeParams computeObjective
                 sens_view).
      exact Hcol.
    + rewrite nth_set_col_neq by lia. apply IH; [lia|exact Hcol].
Qed.

(** The time loop fills the trajectory column by column and never goes
    back: when it returns, column 0 is as the caller passed it and every
    column [j] from 1 to [numsteps] holds, on the local rows, the vector
    the nonlinear solver returned in step [j-1] ([phi] in adjoint mode,
    [u] otherwise), whatever the later steps did. *)
Theorem time_loop_fills_trajectory (j : nat)
    (Hj : (Z.of_nat j <= numsteps sv)%Z)
    (Hcol : (j < length SolMat)%nat) :
  let r := time_loop sv w initial L_soln SolMat gradient in
  length (t_solmat r) = length SolMat
  /\ nth j (t_solmat r) []
     = match j with
       | O => nth 0 SolMat []
       | S _ => tabulate (num_local_rows sv)
                  (fun i => nth i (stored (st j)) 0)
       end.
Proof.
  cbv zeta. unfold transientSolver. split.
  - apply (length_solmat_after_steps World assembleJacRes exportVec
             exportMat importVec linearSolver setDirichlet
             multiscale_update remesh sacadoizeParams computeObjective
             sens_view).
  - apply solmat_columns; [lia|exact Hcol].
Qed.

End Trajectory.

(** ** What the drivers return *)

Lemma kv_nat (m : multivec) (i j : nat) :
  kv m i (Z.of_nat j) = nth i (nth j m []) 0.
Proof.
  unfold kv. replace (Z.of_nat j <? 0)%Z with false
    by (symmetry; apply Z.ltb_ge; lia).
  rewrite Nat2Z.id. reflexivity.
Qed.

Lemma length_fresh_multivec (sv : solver) (k : nat) :
  length (fresh_multivec sv k) = k.
Proof. apply repeat_length. Qed.

Lemma numsols_transient (sv : solver) :
  solver_type = DriverType.transient -> (0 <= numsteps sv)%Z ->
  numsols sv = S (Z.to_nat (numsteps sv)).
Proof.
  intros H Hn. unfold numsols. rewrite H, String.eqb_refl.
  rewrite Z2Nat.inj_add by lia. simpl. lia.
Qed.

Lemma numsols_other (sv : solver) :
  solver_type <> DriverType.transient -> numsols sv = 1%nat.
Proof.
  intros H. unfold numsols. apply String.eqb_neq in H. rewrite H. reflexivity.
Qed.

Lemma transient_not_steady :
  solver_type = DriverType.transient ->
  String.eqb solver_type DriverType.steady_state = false.
Proof. intros H. rewrite H. reflexivity. Qed.

Lemma steady_not_transient :
  solver_type = DriverType.steady_state ->
  String.eqb solver_type DriverType.transient = false.
Proof. intros H. rewrite H. reflexivity. Qed.

(** The columns of the trajectory a time loop returns when its column 0
    was filled with the initial condition. *)
Lemma driven_trajectory (sv : solver) (w : World) (initial : vec)
    (L_soln : multivec) (gradient : list Q) :
  (0 <= numsteps sv)%Z ->
  let SolMat := copy_into sv 0 initial
                  (fresh_multivec sv (S (Z.to_nat (numsteps sv)))) in
  let r := time_loop sv w initial L_soln SolMat gradient in
  length (t_solmat r) = S (Z.to_nat (numsteps sv))
  /\ (forall i, (i < num_local_rows sv)%nat ->
        kv (t_solmat r) i 0 = nth i initial 0)
  /\ forall j i, (1 <= j)%nat -> (Z.of_nat j <= numsteps sv)%Z ->
       (i < num_local_rows sv)%nat ->
       kv (t_solmat r) i (Z.of_nat j)
       = nth i (stored sv (steps sv w initial L_soln SolMat gradient j)) 0.
Proof.
  intros Hn SolMat r.
  assert (Hlen : length SolMat = S (Z.to_nat (numsteps sv))).
  { unfold SolMat, copy_into.
    rewrite length_set_col, length_fresh_multivec. reflexivity. }
  assert (Hr : length (t_solmat r) = length SolMat).
  { apply (length_solmat_after_steps World assembleJacRes exportVec
             exportMat importVec linearSolver setDirichlet
             multiscale_update remesh sacadoizeParams computeObjective
             sens_view). }
  split; [congruence|]. split.
  - intros i Hi. change 0%Z with (Z.of_nat 0). rewrite kv_nat.
    unfold r, transientSolver.
    rewrite (solmat_columns sv w initial L_soln SolMat gradient
               (Z.to_nat (numsteps sv)) 0%nat) by lia.
    unfold SolMat, copy_into.
    rewrite nth_set_col_eq by (rewrite length_fresh_multivec; lia).
    apply nth_tabulate, Hi.
  - intros j i Hj1 Hj Hi. rewrite kv_nat. unfold r, transientSolver.
    rewrite (solmat_columns sv w initial L_soln SolMat gradient
               (Z.to_nat (numsteps sv)) j) by lia.
    destruct j as [|j]; [lia|]. apply nth_tabulate, Hi.
Qed.

(** [forwardModel] solves in forward mode. With the transient solver
    type it returns [numsteps + 1] columns: column 0 is the initial
    condition and column [j] the solution after [j] time steps. With the
    steady-state type it returns the one column the Newton loop ends
    with, started from the zero vector: the initial condition that
    [setInitial] computes is not used. With any other solver type, such
    as the [none] the constructor takes by default, nothing is solved:
    the zero column and the objective come back as they were. *)
Theorem forwardModel_returns_trajectory (sv0 : solver) (w0 : World)
    (obj : Q) :
  let p := forward_setup sv0 w0 in
  let r := forwardModel sv0 w0 obj in
  let n := num_local_rows sv0 in
  useadjoint (p_sv p) = false
  /\ (solver_type = DriverType.transient -> (0 <= numsteps sv0)%Z ->
      length (d_soln r) = S (Z.to_nat (numsteps sv0))
      /\ (forall i, (i < n)%nat ->
            kv (d_soln r) i 0 = nth i (p_initial p) 0)
      /\ forall j i, (1 <= j)%nat -> (Z.of_nat j <= numsteps sv0)%Z ->
           (i < n)%nat ->
           kv (d_soln r) i (Z.of_nat j)
           = nth i (t_u (steps (p_sv p) (p_world p) (p_initial p)
                           (fresh_multivec (p_sv p) 1) (p_soln p) [] j)) 0)
  /\ (solver_type = DriverType.steady_state ->
      d_soln r = [n_u (steady_newton p (zero_soln sv0))])
  /\ (solver_type <> DriverType.transient ->
      solver_type <> DriverType.steady_state ->
      d_soln r = [zero_soln sv0] /\ d_obj r = obj).
Proof.
  cbv zeta. unfold forwardModel, forward_setup.
  destruct (setInitial (set_adjoint false sv0) (sacadoizeParams false w0))
    as [w2 initial].
  cbn [p_sv p_world p_initial p_soln].
  split; [reflexivity|]. split; [|split].
  - intros Htr Hn.
    rewrite (transient_not_steady Htr), Htr, String.eqb_refl.
    unfold forward_transient.
    cbn [p_sv p_world p_initial p_soln d_soln].
    rewrite (numsols_transient (set_adjoint false sv0) Htr) by exact Hn.
    exact (driven_trajectory (set_adjoint false sv0) w2 initial
             (fresh_multivec (set_adjoint false sv0) 1) [] Hn).
  - intros Hst. rewrite (steady_not_transient Hst), Hst, String.eqb_refl.
    rewrite numsols_other by (rewrite Hst; discriminate).
    reflexivity.
  - intros Hnt Hns.
    rewrite numsols_other by exact Hnt.
    apply String.eqb_neq in Hnt. apply String.eqb_neq in Hns.
    rewrite Hnt, Hns. split; reflexivity.
Qed.

(** [forwardModel_fr] is [forwardModel] after [wkset[0]->y] and
    [wkset[0]->s] are set, except in the steady-state branch, where its
    Newton loop starts from the initial condition instead of the zero
    vector: there the two return the same rows of the solution when the
    initial condition is zero on the local rows. *)
Theorem forwardModel_fr_vs_forwardModel (sv0 : solver) (w0 : World)
    (obj yt st : Q) :
  let p := forward_setup sv0 (set_fractional yt st w0) in
  let r := forwardModel sv0 (set_fractional yt st w0) obj in
  let r' := forwardModel_fr sv0 w0 obj yt st in
  (solver_type <> DriverType.steady_state -> r' = r)
  /\ (solver_type = DriverType.steady_state ->
      d_soln r'
      = [tabulate (num_local_rows sv0)
           (fun i =>
              nth i (n_u (steady_newton p
                            (tabulate (num_local_rows sv0)
                               (fun i => nth i (p_initial p) 0)))) 0)]
      /\ ((forall i, (i < num_local_rows sv0)%nat ->
             nth i (p_initial p) 0 = 0) ->
          forall i, (i < num_local_rows sv0)%nat ->
            kv (d_soln r') i 0 = kv (d_soln r) i 0)).
Proof.
  cbv zeta. unfold forwardModel_fr, forwardModel. split.
  - intros Hns. apply String.eqb_neq in Hns. rewrite Hns. reflexivity.
  - intros Hst. rewrite Hst, String.eqb_refl.
    unfold forward_setup.
    destruct (setInitial (set_adjoint false sv0)
                (sacadoizeParams false (set_fractional yt st w0)))
      as [w2 initial].
    cbn [p_sv p_world p_initial p_soln].
    rewrite numsols_other by (rewrite Hst; discriminate).
    rewrite (steady_not_transient Hst).
    unfold steady_finish. cbn [d_soln].
    split; [reflexivity|].
    intros Hzero i Hi.
    assert (Hstart : tabulate (num_local_rows sv0)
                       (fun i => nth i initial 0)
                     = zero_soln sv0).
    { unfold zero_soln, tabulate.
      clear - Hzero. revert Hzero.
      generalize (num_local_rows sv0) as n. intros n Hzero.
      assert (G : forall k, (k <= n)%nat ->
                  map (fun i => nth i initial 0) (seq 0 k) = repeat 0 k).
      { induction k as [|k IH]; intros Hk; [reflexivity|].
        rewrite seq_S, map_app, IH by lia. simpl.
        rewrite Hzero by lia. clear. induction k; simpl; congruence. }
      apply G. lia. }
    change 0%Z with (Z.of_nat 0). rewrite !kv_nat.
    cbn [fresh_multivec repeat copy_into set_col nth].
    change (num_local_rows (set_adjoint false sv0))
      with (num_local_rows sv0).
    rewrite Hstart, nth_tabulate by exact Hi. reflexivity.
Qed.


End Drivers.

(** ** The drivers on the one-unknown instance

    The instance of the solver interface above (residual [x - 1], two
    time steps); interpolation gives the initial condition 3. *)

Definition demo_objective_world (w : unit) (u : vec) : unit := tt.

Definition demo_projection (w : unit) (adjoint : bool)
    : unit * (vec * matrix) :=
  (tt, ([4], [[1]])).

Definition demo_interpolate (w : unit) (adjoint : bool) (initial : vec)
    : unit * vec :=
  (tt, map (fun _ => 3) initial).

Definition demo_forwardModel (solver_type : String.string) : driven unit :=
  forwardModel unit (demo_assemble false) demo_same demo_sameMat demo_same
    (demo_linearSolver false) demo_setDirichlet demo_costs demo_remesh
    demo_sacadoize demo_objective demo_sens_view demo_objective_world
    demo_projection demo_interpolate solver_type DriverType.interpolation
    (demo_solver true 1 0 10) tt 7.

Definition demo_adjointModel (solver_type : String.string) : driven unit :=
  adjointModel unit (demo_assemble false) demo_same demo_sameMat demo_same
    (demo_linearSolver false) demo_setDirichlet demo_costs demo_remesh
    demo_sacadoize demo_objective demo_sens_view
    demo_projection demo_interpolate solver_type DriverType.interpolation
    (demo_solver false 1 0 10) tt [[3]; [1]; [1]] [].

Example demo_forwardModel_runs :
  d_soln unit (demo_forwardModel DriverType.transient) = [[3]; [1]; [1]]
  /\ d_soln unit (demo_forwardModel DriverType.steady_state) = [[1]]
  /\ d_soln unit (demo_forwardModel String.EmptyString) = [[0]]
  /\ d_obj unit (demo_forwardModel String.EmptyString) = 7.
Proof. vm_compute. repeat split. Qed.

Example demo_adjointModel_runs :
  d_soln unit (demo_adjointModel DriverType.transient) = [[3]; [1]; [1]]
  /\ d_soln unit (demo_adjointModel DriverType.steady_state) = [[1]]
  /\ d_soln unit (demo_adjointModel String.EmptyString) = [[3]]
  /\ useadjoint (d_sv unit (demo_adjointModel DriverType.transient)) = false.
Proof. vm_compute. repeat split. Qed.

(** A forward run of two steps on a trajectory whose column 0 holds 3:
    the loop leaves column 0 alone and column 1 holds the solution of
    step 0. *)
Lemma time_loop_fills_trajectory_witness :
  let r := transientSolver unit (demo_assemble false) demo_same demo_sameMat
             demo_same (demo_linearSolver false) demo_setDirichlet
             demo_costs demo_remesh demo_sacadoize demo_objective
             demo_sens_view (demo_solver false 1 0 10) tt [3] []
             [[3]; [0]; [0]] [] in
  length (t_solmat r) = 3%nat
  /\ nth 0 (t_solmat r) [] = [3]
  /\ nth 1 (t_solmat r) [] = [1].
Proof.
  cbv zeta.
  destruct (time_loop_fills_trajectory unit (demo_assemble false) demo_same
              demo_sameMat demo_same (demo_linearSolver false)
              demo_setDirichlet demo_costs demo_remesh demo_sacadoize
              demo_objective demo_sens_view (demo_solver false 1 0 10) tt
              [3] [] [[3]; [0]; [0]] [] 0%nat
              ltac:(simpl; lia) ltac:(simpl; lia)) as [L C0].
  destruct (time_loop_fills_trajectory unit (demo_assemble false) demo_same
              demo_sameMat demo_same (demo_linearSolver false)
              demo_setDirichlet demo_costs demo_remesh demo_sacadoize
              demo_objective demo_sens_view (demo_solver false 1 0 10) tt
              [3] [] [[3]; [0]; [0]] [] 1%nat
              ltac:(simpl; lia) ltac:(simpl; lia)) as [_ C1].
  split; [exact L|]. split; [exact C0|].
  rewrite C1. vm_compute. reflexivity.
Defined.

End SolverDrivers.

(** * The strong Dirichlet values ([solver::setDirichlet]) *)

Module SolverDirichlet.

Import Solver.

Section SetDirichlet.

Set Default Proof Using "Type".

(** What the routine reads of the mesh, the physics and the degree of
    freedom manager: the numbers of blocks, variables, elements and
    sides, column 0 of [side_info], the offsets of the nodes of a side,
    the global indices of an element, and the point conditions. *)
Variable numBlocks : nat.                            (* blocknames.size() *)
Variable numVars : nat -> nat.                       (* numVars[b] *)
Variable numElements : nat -> nat.                   (* myElements[b].size() *)
Variable numSides : nat -> nat -> nat -> nat.        (* side_info.dimension(0) *)
Variable side_info0 : nat -> nat -> nat -> nat -> Z. (* side_info(i,0) *)
Variable elmtOffset : nat -> nat -> nat -> list nat.
    (* getGIDFieldOffsets_closure(blockID, fnum, spaceDim-1, i).first *)
Variable elemGIDs : nat -> nat -> nat -> Z.          (* elemGIDs[k] *)
Variable dbc_dofs : nat -> list Z.                   (* phys->dbc_dofs[b] *)

(** [LA_overlapped_map->getLocalElement]. *)
Variable getLocalElement : Z -> Z.

(** [getDirichletValue(...).val()] at node [j] of side [i] of element
    [e], for variable [n] of block [b], at the current time and in the
    current mode. *)
Variable dirichlet_value : nat -> nat -> nat -> nat -> nat -> Q.

Variable use_meas_as_dbcs : bool.

(** [init_kv(row,0) = x]. A row outside the view has no meaning in C++;
    nothing is written for it here. *)
Definition write_row (row : Z) (x : Q) (v : vec) : vec :=
  if (row <? 0)%Z then v else set_at (Z.to_nat row) x v.

(** The loop over the nodes [j] of side [i]. With [use_meas_as_dbcs]
    the body is empty: its assignment is commented out. *)
Definition side_nodes (b n e i : nat) (v : vec) : vec :=
  fold_left
    (fun v j =>
       let row := getLocalElement
                    (elemGIDs b e (nth j (elmtOffset b n i) 0%nat)) in
       if use_meas_as_dbcs then v
       else write_row row (dirichlet_value b n e i j) v)
    (seq 0 (length (elmtOffset b n i))) v.

(** The loops over the sides, the elements and the variables. *)
Definition element_sides (b n e : nat) (v : vec) : vec :=
  fold_left
    (fun v i => if (side_info0 b n e i =? 1)%Z then side_nodes b n e i v
                else v)
    (seq 0 (numSides b n e)) v.

Definition side_values (b : nat) (v : vec) : vec :=
  fold_left
    (fun v n =>
       fold_left (fun v e => element_sides b n e v)
                 (seq 0 (numElements b)) v)
    (seq 0 (numVars b)) v.

(** The point conditions of a block: [init_kv(row,0) = 0.0]. *)
Definition point_values (b : nat) (v : vec) : vec :=
  fold_left (fun v gid => write_row (getLocalElement gid) 0 v)
            (dbc_dofs b) v.

(** [solver::setDirichlet(initial)]. *)
Definition setDirichlet (initial : vec) : vec :=
  fold_left (fun v b => point_values b (side_values b v))
            (seq 0 numBlocks) initial.

(** ** Facts *)

(** Row [r] is the local row of a point condition of block [b]. *)
Definition point_row (b : nat) (r : nat) : bool :=
  existsb (fun gid => (getLocalElement gid =? Z.of_nat r)%Z) (dbc_dofs b).

Lemma length_write_row (row : Z) (x : Q) (v : vec) :
  length (write_row row x v) = length v.
Proof.
  unfold write_row. destruct (row <? 0)%Z; [reflexivity|].
  apply length_set_at.
Qed.

Lemma nth_write_row (row : Z) (x : Q) (v : vec) (r : nat) :
  (r < length v)%nat ->
  nth r (write_row row x v) 0
  = if (row =? Z.of_nat r)%Z then x else nth r v 0.
Proof.
  intros Hr. unfold write_row.
  destruct (Z.ltb_spec row 0) as [Hneg|Hpos].
  - replace (row =? Z.of_nat r)%Z with false
      by (symmetry; apply Z.eqb_neq; lia).
    reflexivity.
  - rewrite nth_set_at by exact Hr.
    destruct (Nat.eqb_spec (Z.to_nat row) r) as [He|He],
      (Z.eqb_spec row (Z.of_nat r)) as [Hz|Hz]; try reflexivity; lia.
Qed.

Lemma fold_keeps_length (A : Type) (f : vec -> A -> vec) (l : list A) :
  (forall v a, length (f v a) = length v) ->
  forall v, length (fold_left f l v) = length v.
Proof.
  intros Hf. induction l as [|a l IH]; intros v; simpl; [reflexivity|].
  rewrite IH. apply Hf.
Qed.

Lemma fold_unchanged (A : Type) (f : vec -> A -> vec) (l : list A) :
  (forall v a, f v a = v) -> forall v, fold_left f l v = v.
Proof.
  intros Hf. induction l as [|a l IH]; intros v; simpl; [reflexivity|].
  rewrite Hf. apply IH.
Qed.

Lemma length_side_values (b : nat) (v : vec) :
  length (side_values b v) = length v.
Proof.
  unfold side_values. apply fold_keeps_length. intros v1 n.
  apply fold_keeps_length. intros v2 e.
  unfold element_sides. apply fold_keeps_length. intros v3 i.
  destruct (side_info0 b n e i =? 1)%Z; [|reflexivity].
  unfold side_nodes. apply fold_keeps_length. intros v4 j. cbv zeta.
  destruct use_meas_as_dbcs; [reflexivity|apply length_write_row].
Qed.

Lemma side_values_measurements (b : nat) (v : vec) :
  use_meas_as_dbcs = true -> side_values b v = v.
Proof.
  intros Hm. unfold side_values. apply fold_unchanged. intros v1 n.
  apply fold_unchanged. intros v2 e.
  unfold element_sides. apply fold_unchanged. intros v3 i.
  destruct (side_info0 b n e i =? 1)%Z; [|reflexivity].
  unfold side_nodes. apply fold_unchanged. intros v4 j. cbv zeta.
  rewrite Hm. reflexivity.
Qed.

Lemma point_values_spec (b : nat) (v : vec) :
  length (point_values b v) = length v
  /\ forall r, (r < length v)%nat ->
       nth r (point_values b v) 0
       = if point_row b r then 0 else nth r v 0.
Proof.
  unfold point_values, point_row.
  revert v. induction (dbc_dofs b) as [|gid l IH]; intros v.
  - simpl. split; [reflexivity|]. intros; reflexivity.
  - cbn [fold_left existsb].
    destruct (IH (write_row (getLocalElement gid) 0 v)) as [HL HN].
    rewrite length_write_row in HL, HN.
    split; [exact HL|]. intros r Hr. rewrite (HN r Hr).
    rewrite nth_write_row by exact Hr.
    destruct (existsb _ l); [now rewrite orb_true_r|].
    rewrite orb_false_r.
    destruct (getLocalElement gid =? Z.of_nat r)%Z; reflexivity.
Qed.

Lemma length_block (b : nat) (v : vec) :
  length (point_values b (side_values b v)) = length v.
Proof.
  destruct (point_values_spec b (side_values b v)) as [HL _].
  rewrite HL. apply length_side_values.
Qed.

Lemma measured_blocks (k : nat) (v : vec) (r : nat) :
  use_meas_as_dbcs = true -> (r < length v)%nat ->
  nth r (fold_left (fun v b => point_values b (side_values b v))
                   (seq 0 k) v) 0
  = if existsb (fun b => point_row b r) (seq 0 k) then 0 else nth r v 0.
Proof.
  intros Hm Hr. induction k as [|k IH].
  - reflexivity.
  - rewrite seq_S, fold_left_app, existsb_app. cbn [fold_left Nat.add existsb].
    rewrite side_values_measurements by exact Hm.
    destruct (point_values_spec k
                (fold_left (fun v b => point_values b (side_values b v))
                           (seq 0 k) v)) as [_ HN].
    rewrite HN.
    + rewrite IH, orb_false_r.
      destruct (existsb (fun b => point_row b r) (seq 0 k)), (point_row k r);
        reflexivity.
    + rewrite fold_keeps_length; [exact Hr|].
      intros v1 b. apply length_block.
Qed.

(** [setDirichlet] keeps the length of the vector. The rows of the
    point conditions of the last block end at zero, whatever the sides
    prescribe for them. With [use_meas_as_dbcs] no value is written for
    any side: the vector changes only in the rows of the point
    conditions, which are put to zero. *)
Theorem setDirichlet_point_and_measured_rows (initial : vec) :
  length (setDirichlet initial) = length initial
  /\ (forall r, (r < length initial)%nat -> (0 < numBlocks)%nat ->
        point_row (numBlocks - 1) r = true ->
        nth r (setDirichlet initial) 0 = 0)
  /\ (use_meas_as_dbcs = true ->
      forall r, (r < length initial)%nat ->
        nth r (setDirichlet initial) 0
        = if existsb (fun b => point_row b r) (seq 0 numBlocks)
          then 0 else nth r initial 0).
Proof.
  unfold setDirichlet. split; [|split].
  - apply fold_keeps_length. intros v b. apply length_block.
  - intros r Hr Hb Hp.
    destruct numBlocks as [|k]; [lia|].
    replace (S k - 1)%nat with k in Hp by lia.
    rewrite seq_S, fold_left_app. cbn [fold_left Nat.add].
    destruct (point_values_spec k
                (side_values k
                   (fold_left (fun v b => point_values b (side_values b v))
                              (seq 0 k) initial))) as [_ HN].
    rewrite HN, Hp; [reflexivity|].
    rewrite length_side_values, fold_keeps_length; [exact Hr|].
    intros v b. apply length_block.
  - intros Hm r Hr. apply measured_blocks; assumption.
Qed.

End SetDirichlet.

(** One block with one element with one Dirichlet side of one node, in
    row 0, and a point condition in row 1. *)
Example demo_setDirichlet :
  let run (meas : bool) :=
    setDirichlet 1 (fun _ => 1%nat) (fun _ => 1%nat) (fun _ _ _ => 1%nat)
      (fun _ _ _ _ => 1%Z) (fun _ _ _ => [0%nat]) (fun _ _ _ => 0%Z)
      (fun _ => [1%Z]) (fun gid => gid) (fun _ _ _ _ _ => 7) meas [3; 4; 5] in
  run false = [7; 0; 5] /\ run true = [3; 0; 5].
Proof. vm_compute. split; reflexivity. Qed.

End SolverDirichlet.

(** * The random rotations of [solver::updateMeshData]

    The routine draws a quaternion for every seed, normalises it with a
    square root and stores the nine entries of its rotation matrix; the
    scalars are real numbers here. *)

Module MeshData.

Import Reals Lra.
Local Open Scope R_scope.

(** What the routine reads and writes of a cell of the assembler. *)
Record seeded_cell : Type := {
  sc_numElem : nat;
  cell_data_seed : nat -> Z;
  cell_data : nat -> nat -> R
}.

(** The first loop nest: the largest seed of this rank, or 0. *)
Definition localnumSeeds (cells : list seeded_cell) : Z :=
  fold_left
    (fun acc cell =>
       fold_left
         (fun acc k => if (acc <? cell_data_seed cell k)%Z
                       then cell_data_seed cell k else acc)
         (seq 0 (sc_numElem cell)) acc)
    cells 0%Z.

(** [reduceAll(REDUCE_MAX)] over this rank and the others, and
    [numSeeds += 1]. *)
Definition numSeeds (cells : list seeded_cell) (others : list Z) : Z :=
  (fold_left Z.max others (localnumSeeds cells) + 1)%Z.

Section Rotations.

(** The values [ndistribution(generator)] returns one after the other
    for the engine seeded with [newrandseed]. *)
Variable normal_draws : Z -> nat -> R.
Variable newrandseed : Z.

(** The body of the loop over the seeds: pass [k] takes the draws
    [4k .. 4k+3]. *)
Definition quaternion (k : nat) : R * R * R * R :=
  let x := normal_draws newrandseed (4 * k) in
  let y := normal_draws newrandseed (4 * k + 1) in
  let z := normal_draws newrandseed (4 * k + 2) in
  let w := normal_draws newrandseed (4 * k + 3) in
  let r := sqrt (x * x + y * y + z * z + w * w) in
  (x * (1 / r), y * (1 / r), z * (1 / r), w * (1 / r)).

(** The squared length of the quaternion drawn in pass [k], before it
    is normalised. *)
Definition drawn_norm2 (k : nat) : R :=
  let x := normal_draws newrandseed (4 * k) in
  let y := normal_draws newrandseed (4 * k + 1) in
  let z := normal_draws newrandseed (4 * k + 2) in
  let w := normal_draws newrandseed (4 * k + 3) in
  x * x + y * y + z * z + w * w.

(** The nine values stored for a quaternion, row by row. *)
Definition rotation_entries (x y z w : R) : list R :=
  [ w * w + x * x - y * y - z * z;
    2 * (x * y - w * z);
    2 * (x * z + w * y);
    2 * (x * y + w * z);
    w * w - x * x + y * y - z * z;
    2 * (y * z - w * x);
    2 * (x * z - w * y);
    2 * (y * z + w * x);
    w * w - x * x - y * y + z * z ].

Definition rotation_row (k : nat) : list R :=
  let '(x, y, z, w) := quaternion k in rotation_entries x y z w.

(** [rotation_data(k,i)] of a view of [numSeeds] rows and 9 columns,
    which holds zeros where it is not written. *)
Definition rotation_data (n : Z) (k i : nat) : R :=
  if (Z.of_nat k <? n)%Z then nth i (rotation_row k) 0 else 0.

(** [cell_data(c,i) = x] *)
Definition set_cell_data (c i : nat) (x : R) (cell : seeded_cell)
    : seeded_cell :=
  {| sc_numElem := sc_numElem cell;
     cell_data_seed := cell_data_seed cell;
     cell_data := fun c' i' =>
       if ((c' =? c) && (i' =? i))%nat then x else cell_data cell c' i' |}.

(** The last loop nest on one cell. A negative seed indexes outside the
    view; its row reads as row 0 here. *)
Definition update_cell (n : Z) (cell : seeded_cell) : seeded_cell :=
  fold_left
    (fun cell c =>
       let cnode := Z.to_nat (cell_data_seed cell c) in
       fold_left (fun cell i => set_cell_data c i (rotation_data n cnode i) cell)
                 (seq 0 9) cell)
    (seq 0 (sc_numElem cell)) cell.

(** [solver::updateMeshData(newrandseed)] on the cells of this rank, all
    blocks one after the other. *)
Definition updateMeshData (cells : list seeded_cell) (others : list Z)
    : list seeded_cell :=
  map (update_cell (numSeeds cells others)) cells.

(** *** The seeds index inside the view *)

Lemma seed_scan_bounds (cell : seeded_cell) (n : nat) (acc : Z) :
  let m := fold_left
             (fun acc k => if (acc <? cell_data_seed cell k)%Z
                           then cell_data_seed cell k else acc)
             (seq 0 n) acc in
  (acc <= m)%Z
  /\ forall k, (k < n)%nat -> (cell_data_seed cell k <= m)%Z.
Proof.
  cbv zeta. induction n as [|n IH].
  - simpl. split; [lia|]. intros k Hk. lia.
  - rewrite seq_S, fold_left_app. simpl. destruct IH as [Ha Hk].
    destruct (Z.ltb_spec
                (fold_left
                   (fun acc k => if (acc <? cell_data_seed cell k)%Z
                                 then cell_data_seed cell k else acc)
                   (seq 0 n) acc)
                (cell_data_seed cell n)) as [Hlt|Hge].
    + split; [lia|]. intros k Hk'.
      destruct (Nat.eq_dec k n) as [->|Hne]; [lia|].
      specialize (Hk k ltac:(lia)). lia.
    + split; [lia|]. intros k Hk'.
      destruct (Nat.eq_dec k n) as [->|Hne]; [lia|].
      apply Hk. lia.
Qed.

Lemma cells_scan_bounds (cells : list seeded_cell) (acc : Z) :
  let m := fold_left
             (fun acc cell =>
                fold_left
                  (fun acc k => if (acc <? cell_data_seed cell k)%Z
                                then cell_data_seed cell k else acc)
                  (seq 0 (sc_numElem cell)) acc)
             cells acc in
  (acc <= m)%Z
  /\ forall cell k, In cell cells -> (k < sc_numElem cell)%nat ->
       (cell_data_seed cell k <= m)%Z.
Proof.
  cbv zeta. revert acc. induction cells as [|c0 cells IH]; intros acc.
  - simpl. split; [lia|]. intros cell k [].
  - simpl.
    destruct (seed_scan_bounds c0 (sc_numElem c0) acc) as [Ha Hk].
    destruct (IH (fold_left
                    (fun acc k => if (acc <? cell_data_seed c0 k)%Z
                                  then cell_data_seed c0 k else acc)
                    (seq 0 (sc_numElem c0)) acc)) as [Ha' Hk'].
    split; [lia|]. intros cell k [<-|Hin] Hlt.
    + specialize (Hk k Hlt). lia.
    + apply Hk'; assumption.
Qed.

Lemma fold_max_ge (l : list Z) (a : Z) : (a <= fold_left Z.max l a)%Z.
Proof.
  revert a. induction l as [|b l IH]; intros a; simpl; [lia|].
  specialize (IH (Z.max a b)). lia.
Qed.

Lemma seed_below_numSeeds (cells : list seeded_cell) (others : list Z)
    (cell : seeded_cell) (k : nat) :
  In cell cells -> (k < sc_numElem cell)%nat ->
  (cell_data_seed cell k < numSeeds cells others)%Z.
Proof.
  intros Hin Hk. unfold numSeeds, localnumSeeds.
  destruct (cells_scan_bounds cells 0%Z) as [_ H].
  specialize (H cell k Hin Hk).
  pose proof (fold_max_ge others
                (fold_left
                   (fun acc cell =>
                      fold_left
                        (fun acc k => if (acc <? cell_data_seed cell k)%Z
                                      then cell_data_seed cell k else acc)
                        (seq 0 (sc_numElem cell)) acc)
                   cells 0%Z)).
  lia.
Qed.

(** *** What the last loop nest stores *)

Lemma set_row_spec (n : Z) (c cnode : nat) (m : nat) (cell : seeded_cell) :
  let cell' := fold_left
                 (fun cell i => set_cell_data c i (rotation_data n cnode i) cell)
                 (seq 0 m) cell in
  sc_numElem cell' = sc_numElem cell
  /\ cell_data_seed cell' = cell_data_seed cell
  /\ forall c' i', cell_data cell' c' i'
       = if ((c' =? c) && (i' <? m))%nat then rotation_data n cnode i'
         else cell_data cell c' i'.
Proof.
  cbv zeta. induction m as [|m IH].
  - simpl. split; [reflexivity|]. split; [reflexivity|].
    intros c' i'. rewrite andb_false_r. reflexivity.
  - rewrite seq_S, fold_left_app. cbn [fold_left Nat.add].
    destruct IH as (Hn & Hs & Hd).
    split; [exact Hn|]. split; [exact Hs|].
    intros c' i'. cbn [set_cell_data cell_data]. rewrite Hd.
    destruct (Nat.eqb_spec c' c) as [->|Hc]; cbn [andb]; [|reflexivity].
    destruct (Nat.eqb_spec i' m) as [->|Hi].
    + replace (m <? S m)%nat with true by (symmetry; apply Nat.ltb_lt; lia).
      reflexivity.
    + destruct (Nat.ltb_spec i' m), (Nat.ltb_spec i' (S m)); try lia;
        reflexivity.
Qed.

Lemma update_rows_spec (n : Z) (m : nat) (cell : seeded_cell) :
  let cell' := fold_left
                 (fun cell c =>
                    let cnode := Z.to_nat (cell_data_seed cell c) in
                    fold_left
                      (fun cell i =>
                         set_cell_data c i (rotation_data n cnode i) cell)
                      (seq 0 9) cell)
                 (seq 0 m) cell in
  sc_numElem cell' = sc_numElem cell
  /\ cell_data_seed cell' = cell_data_seed cell
  /\ forall c i, cell_data cell' c i
       = if ((c <? m) && (i <? 9))%nat
         then rotation_data n (Z.to_nat (cell_data_seed cell c)) i
         else cell_data cell c i.
Proof.
  cbv zeta. induction m as [|m IH].
  - simpl. split; [reflexivity|]. split; reflexivity.
  - rewrite (seq_S m 0), fold_left_app. cbn [fold_left Nat.add]. cbv zeta.
    cbv zeta in IH. destruct IH as (Hn & Hs & Hd).
    set (prev := fold_left _ (seq 0 m) cell) in *.
    destruct (set_row_spec n m (Z.to_nat (cell_data_seed prev m)) 9 prev)
      as (Hn' & Hs' & Hd').
    split; [congruence|]. split; [congruence|].
    intros c i. rewrite Hd', Hd, Hs.
    destruct (Nat.eqb_spec c m) as [->|Hc]; cbn [andb].
    + replace (m <? S m)%nat with true by (symmetry; apply Nat.ltb_lt; lia).
      replace (m <? m)%nat with false by (symmetry; apply Nat.ltb_ge; lia).
      cbn [andb]. destruct (i <? 9)%nat; reflexivity.
    + destruct (Nat.ltb_spec c m), (Nat.ltb_spec c (S m)); try lia;
        reflexivity.
Qed.

Lemma update_cell_spec (n : Z) (cell : seeded_cell) :
  sc_numElem (update_cell n cell) = sc_numElem cell
  /\ cell_data_seed (update_cell n cell) = cell_data_seed cell
  /\ forall c i, cell_data (update_cell n cell) c i
       = if ((c <? sc_numElem cell) && (i <? 9))%nat
         then rotation_data n (Z.to_nat (cell_data_seed cell c)) i
         else cell_data cell c i.
Proof. exact (update_rows_spec n (sc_numElem cell) cell). Qed.

(** *** The stored values form a rotation *)

Lemma quaternion_unit (k : nat) :
  let x0 := normal_draws newrandseed (4 * k) in
  let y0 := normal_draws newrandseed (4 * k + 1) in
  let z0 := normal_draws newrandseed (4 * k + 2) in
  let w0 := normal_draws newrandseed (4 * k + 3) in
  x0 * x0 + y0 * y0 + z0 * z0 + w0 * w0 <> 0 ->
  let '(x, y, z, w) := quaternion k in
  x * x + y * y + z * z + w * w = 1.
Proof.
  cbv zeta. intros Hs. unfold quaternion.
  set (x0 := normal_draws newrandseed (4 * k)) in *.
  set (y0 := normal_draws newrandseed (4 * k + 1)) in *.
  set (z0 := normal_draws newrandseed (4 * k + 2)) in *.
  set (w0 := normal_draws newrandseed (4 * k + 3)) in *.
  set (s := x0 * x0 + y0 * y0 + z0 * z0 + w0 * w0) in *.
  assert (Hpos : 0 < s) by (unfold s in *; nra).
  assert (Hr : sqrt s * sqrt s = s) by (apply sqrt_sqrt; lra).
  assert (Hr0 : sqrt s <> 0).
  { intros H0. rewrite H0 in Hr. lra. }
  transitivity (s * (1 / sqrt s) * (1 / sqrt s)); [unfold s; ring|].
  rewrite <- Hr at 1. field. exact Hr0.
Qed.

Lemma rotation_entries_orthonormal (x y z w : R) :
  x * x + y * y + z * z + w * w = 1 ->
  let M (i j : nat) := nth (3 * i + j) (rotation_entries x y z w) 0 in
  (forall i j, (i < 3)%nat -> (j < 3)%nat ->
     M i 0%nat * M j 0%nat + M i 1%nat * M j 1%nat + M i 2%nat * M j 2%nat
     = if (i =? j)%nat then 1 else 0)
  /\ M 0%nat 0%nat * (M 1%nat 1%nat * M 2%nat 2%nat
                      - M 1%nat 2%nat * M 2%nat 1%nat)
     - M 0%nat 1%nat * (M 1%nat 0%nat * M 2%nat 2%nat
                        - M 1%nat 2%nat * M 2%nat 0%nat)
     + M 0%nat 2%nat * (M 1%nat 0%nat * M 2%nat 1%nat
                        - M 1%nat 1%nat * M 2%nat 0%nat)
     = 1.
Proof.
  intros H. cbv zeta.
  set (N := x * x + y * y + z * z + w * w) in *.
  assert (H2 : N * N = 1) by (rewrite H; ring).
  assert (H3 : N * N * N = 1) by (rewrite H; ring).
  split.
  - intros i j Hi Hj.
    destruct i as [|[|[|i]]]; [| | |lia];
      destruct j as [|[|[|j]]]; try lia;
      cbn [Nat.mul Nat.add nth rotation_entries Nat.eqb];
      try ring; rewrite <- H2; unfold N; ring.
  - cbn [Nat.mul Nat.add nth rotation_entries].
    rewrite <- H3. unfold N. ring.
Qed.

Definition dummy_cell : seeded_cell :=
  {| sc_numElem := 0; cell_data_seed := fun _ => 0%Z;
     cell_data := fun _ _ => 0 |}.

(** Every element with a seed that is not negative receives a rotation:
    its seed indexes inside the view of [numSeeds] rows, its nine values
    are those computed for the seed, and, when the quaternion drawn for
    the seed is not zero, they form row by row an orthogonal matrix of
    determinant 1. *)
Theorem updateMeshData_stores_rotations (cells : list seeded_cell)
    (others : list Z) (e c : nat)
    (He : (e < length cells)%nat)
    (Hc : (c < sc_numElem (nth e cells dummy_cell))%nat)
    (Hs : (0 <= cell_data_seed (nth e cells dummy_cell) c)%Z)
    (Hq : drawn_norm2 (Z.to_nat (cell_data_seed (nth e cells dummy_cell) c))
          <> 0) :
  let cell := nth e cells dummy_cell in
  let cell' := nth e (updateMeshData cells others) dummy_cell in
  let s := cell_data_seed cell c in
  let M (i j : nat) := cell_data cell' c (3 * i + j) in
  (s < numSeeds cells others)%Z
  /\ (forall i, (i < 9)%nat ->
        cell_data cell' c i = nth i (rotation_row (Z.to_nat s)) 0)
  /\ (forall i j, (i < 3)%nat -> (j < 3)%nat ->
        M i 0%nat * M j 0%nat + M i 1%nat * M j 1%nat
        + M i 2%nat * M j 2%nat
        = if (i =? j)%nat then 1 else 0)
  /\ M 0%nat 0%nat * (M 1%nat 1%nat * M 2%nat 2%nat
                      - M 1%nat 2%nat * M 2%nat 1%nat)
     - M 0%nat 1%nat * (M 1%nat 0%nat * M 2%nat 2%nat
                        - M 1%nat 2%nat * M 2%nat 0%nat)
     + M 0%nat 2%nat * (M 1%nat 0%nat * M 2%nat 1%nat
                        - M 1%nat 1%nat * M 2%nat 0%nat)
     = 1.
Proof.
  cbv zeta.
  set (cell := nth e cells dummy_cell) in *.
  set (s := cell_data_seed cell c) in *.
  assert (Hin : In cell cells) by (apply nth_In; exact He).
  assert (Hlt : (s < numSeeds cells others)%Z)
    by (apply seed_below_numSeeds; assumption).
  assert (Hcell : nth e (updateMeshData cells others) dummy_cell
                  = update_cell (numSeeds cells others) cell).
  { unfold updateMeshData.
    rewrite (nth_indep _ dummy_cell
               (update_cell (numSeeds cells others) dummy_cell))
      by (rewrite length_map; exact He).
    apply map_nth. }
  rewrite Hcell.
  destruct (update_cell_spec (numSeeds cells others) cell) as (_ & _ & Hd).
  assert (Hrow : forall i, (i < 9)%nat ->
            cell_data (update_cell (numSeeds cells others) cell) c i
            = nth i (rotation_row (Z.to_nat s)) 0).
  { intros i Hi. rewrite Hd.
    replace (c <? sc_numElem cell)%nat with true
      by (symmetry; apply Nat.ltb_lt; exact Hc).
    replace (i <? 9)%nat with true by (symmetry; apply Nat.ltb_lt; exact Hi).
    cbn [andb]. unfold rotation_data. fold s.
    replace (Z.of_nat (Z.to_nat s) <? numSeeds cells others)%Z with true
      by (symmetry; apply Z.ltb_lt; lia).
    reflexivity. }
  split; [exact Hlt|]. split; [exact Hrow|].
  pose proof (quaternion_unit (Z.to_nat s) Hq) as Hunit.
  unfold rotation_row in Hrow.
  destruct (quaternion (Z.to_nat s)) as [[[x y] z] w].
  destruct (rotation_entries_orthonormal x y z w Hunit) as [Ho Hdet].
  cbv zeta in Ho, Hdet. split.
  - intros i j Hi Hj. rewrite !Hrow by lia. apply Ho; assumption.
  - rewrite !Hrow by lia. exact Hdet.
Qed.

End Rotations.

(** One element with seed 0, for which the draws are 1, 0, 0, 0: it
    receives the identity. *)
Definition demo_draws (newrandseed : Z) (n : nat) : R :=
  if (n =? 0)%nat then 1 else 0.

Definition demo_seeded_cell : seeded_cell :=
  {| sc_numElem := 1; cell_data_seed := fun _ => 0%Z;
     cell_data := fun _ _ => 0 |}.

Lemma updateMeshData_stores_rotations_witness :
  let cell' := nth 0 (updateMeshData demo_draws 0 [demo_seeded_cell] [])
                     dummy_cell in
  (numSeeds [demo_seeded_cell] [] = 1)%Z
  /\ cell_data cell' 0%nat 0%nat * cell_data cell' 0%nat 0%nat
     + cell_data cell' 0%nat 1%nat * cell_data cell' 0%nat 1%nat
     + cell_data cell' 0%nat 2%nat * cell_data cell' 0%nat 2%nat
     = 1.
Proof.
  cbv zeta. split; [reflexivity|].
  assert (Hq : drawn_norm2 demo_draws 0
                 (Z.to_nat (cell_data_seed
                              (nth 0 [demo_seeded_cell] dummy_cell) 0%nat))
               <> 0).
  { unfold drawn_norm2, demo_draws. simpl. lra. }
  destruct (updateMeshData_stores_rotations demo_draws 0
              [demo_seeded_cell] [] 0%nat 0%nat
              ltac:(simpl; lia) ltac:(simpl; lia) ltac:(simpl; lia) Hq)
    as (_ & _ & H & _).
  exact (H 0%nat 0%nat ltac:(lia) ltac:(lia)).
Defined.

End MeshData.

(** * The linear solves of the Newton loop

    [solver::linearSolver] has two overloads. The Newton loop and
    [setInitial] call the one for the Tpetra stack; the cascade of
    preconditioner re-setups is in the one for the Epetra stack. *)

Module SolverLinear.

Import Solver.

(** The parameter list the Tpetra overload hands to Belos. *)
Record belos_list : Type := {
  Maximum_Iterations : Z;
  Convergence_Tolerance : Q;
  Verbosity_details : bool;     (* Errors + Warnings + StatusTestDetails,
                                   else Errors *)
  Output_Frequency : Z;
  number_of_equations : Z
}.

(** What one call of the Tpetra overload does: the preconditioners it
    builds, in order, the list it solves with, and the solution. *)
Record tpetra_solve (Prec : Type) : Type := {
  built : list Prec;
  solved_with : belos_list;
  soln : vec
}.

Arguments built {Prec} _.
Arguments solved_with {Prec} _.
Arguments soln {Prec} _.

Section LinearSolverTpetra.

Set Default Proof Using "Type".

Variable Prec : Type.
Variable buildPreconditioner : matrix -> Prec.       (* the MueLu operator *)
Variable BlockGmres_solve : belos_list -> Prec -> matrix -> vec -> vec.
Variable kspace : Z.
Variable lintol : Q.
Variable numVars0 : Z.                               (* numVars[0] *)
Variable numBlocks : nat.                            (* assembler->cells.size() *)

(** [solver::linearSolver(matrix_RCP, vector_RCP, vector_RCP)]. *)
Definition linearSolver (sv : solver) (J : matrix) (r : vec)
    : tpetra_solve Prec :=
  let M := buildPreconditioner J in
  let belosList :=
    {| Maximum_Iterations := kspace;
       Convergence_Tolerance := lintol;
       Verbosity_details := (9 <? verbosity sv)%Z;
       Output_Frequency := if (8 <? verbosity sv)%Z then 10%Z else 0%Z;
       number_of_equations := if (numBlocks =? 1)%nat then numVars0
                              else 1%Z |} in
  {| built := [M]; solved_with := belosList;
     soln := BlockGmres_solve belosList M J r |}.

Variable World : Type.
Variable assembleJacRes : World -> asm_args -> World * (multivec * matrix).
Variable exportVec : vec -> vec.
Variable exportMat : matrix -> matrix.
Variable importVec : vec -> vec.
Variable setDirichlet : World -> vec -> vec.

(** [solver::nonlinearSolver] with the linear solve it calls. *)
Definition newton_solve (sv : solver) (alpha beta : Q) (w : World)
    (u u_dot phi phi_dot : vec) : newton World :=
  nonlinearSolver World assembleJacRes exportVec exportMat importVec
    (fun J r => soln (linearSolver sv J r)) setDirichlet
    sv alpha beta w u u_dot phi phi_dot.

(** The state at the head of the loop after [n] passes. *)
Definition passes (sv : solver) (alpha beta : Q) (n : nat)
    (s : newton World) : newton World :=
  after_passes World assembleJacRes exportVec exportMat importVec
    (fun J r => soln (linearSolver sv J r)) sv alpha beta n s.

(** The re-setups grow: each pair of thresholds is above the one tried
    before it. *)
Lemma tried_increasing (tried : list az_params) (d : az_params) (i : nat) :
  map thresholds tried = firstn (length tried) cascade ->
  (S i < length tried)%nat ->
  lex_lt (thresholds (nth i tried d)) (thresholds (nth (S i) tried d)).
Proof.
  intros Hth Hi.
  assert (Hlen : (length tried <= 4)%nat).
  { rewrite <- (length_map thresholds), Hth, length_firstn.
    unfold cascade. simpl. lia. }
  assert (Hn : forall j, (j < length tried)%nat ->
            thresholds (nth j tried d) = nth j cascade (0, 0)).
  { intros j Hj.
    rewrite <- (map_nth thresholds).
    rewrite (nth_indep _ (thresholds d) (0, 0))
      by (rewrite length_map; exact Hj).
    rewrite Hth, nth_firstn.
    replace (j <? length tried)%nat with true
      by (symmetry; apply Nat.ltb_lt; exact Hj).
    reflexivity. }
  rewrite (Hn i) by lia. rewrite (Hn (S i)) by lia.
  apply cascade_increasing. unfold cascade. simpl. lia.
Qed.

Lemma no_preconditioner_message (sv : solver) (alpha beta : Q) (w : World)
    (u u_dot phi phi_dot : vec) (c : Q) :
  ~ In (MsgSadPreconditioner c)
       (n_cout (newton_solve sv alpha beta w u u_dot phi phi_dot)).
Proof.
  unfold newton_solve, nonlinearSolver. cbn [n_cout].
  rewrite in_app_iff. intros [H|H].
  - pose proof (cout_newton_run World assembleJacRes exportVec exportMat
                  importVec (fun J r => soln (linearSolver sv J r))
                  setDirichlet sv alpha beta w u u_dot phi phi_dot) as Hall.
    rewrite Forall_forall in Hall. exact (Hall _ H).
  - unfold failure_report in H.
    destruct (rank sv =? 0)%Z; [|destruct H].
    destruct (negb (useadjoint sv)); [|destruct H].
    match type of H with
    | In _ (if ?b then _ else _) => destruct b
    end; [|destruct H].
    destruct H as [H|[]]. discriminate H.
Qed.

(** The loop leaves by its own test after at most [maxiter] passes and
    hands back the state it has reached. *)
Lemma newton_solve_returns (sv : solver) (alpha beta : Q) (w : World)
    (u u_dot phi phi_dot : vec) :
  let s0 := newton_init World setDirichlet sv w u u_dot phi phi_dot in
  let r := newton_solve sv alpha beta w u u_dot phi phi_dot in
  exists n : nat,
    (n <= Z.to_nat (maxiter sv))%nat
    /\ NLiter r = Z.of_nat n
    /\ n_u r = n_u (passes sv alpha beta n s0)
    /\ n_u_dot r = n_u_dot (passes sv alpha beta n s0)
    /\ n_phi r = n_phi (passes sv alpha beta n s0)
    /\ n_phi_dot r = n_phi_dot (passes sv alpha beta n s0)
    /\ NLerr_scaled r = NLerr_scaled (passes sv alpha beta n s0)
    /\ (NLerr_scaled r <= NLtol sv \/ (maxiter sv <= NLiter r)%Z).
Proof.
  intros s0 r.
  destruct (newton_loop_passes World assembleJacRes exportVec exportMat
              importVec (fun J r => soln (linearSolver sv J r))
              sv alpha beta (Z.to_nat (maxiter sv)) s0)
    as (n & Hle & Heq & _ & Hlast).
  assert (Hrun : newton_run World assembleJacRes exportVec exportMat
                   importVec (fun J r => soln (linearSolver sv J r))
                   setDirichlet sv alpha beta w u u_dot phi phi_dot
                 = passes sv alpha beta n s0) by exact Heq.
  assert (Hit : NLiter (passes sv alpha beta n s0) = Z.of_nat n).
  { unfold passes.
    rewrite (NLiter_passes World assembleJacRes exportVec exportMat
               importVec (fun J r => soln (linearSolver sv J r))
               sv alpha beta n s0).
    unfold s0. cbn [NLiter newton_init]. lia. }
  exists n. unfold r, newton_solve, nonlinearSolver.
  cbn [NLiter n_u n_u_dot n_phi n_phi_dot NLerr_scaled].
  rewrite Hrun, Hit.
  repeat (split; [first [exact Hle|reflexivity]|]).
  destruct Hlast as [->|H].
  - right. lia.
  - apply cond_false in H. fold (passes sv alpha beta n s0) in H.
    rewrite Hit in H. exact H.
Qed.

(** C8 (as amended). In the overload of [linearSolver] for the Epetra
    stack with the domain-decomposition preconditioner, a first condition
    estimate above the quality threshold [10^13] is followed by a cascade
    of re-setups of the preconditioner, at most four, each with
    thresholds above those of the one before, each tried only when every
    earlier estimate was poor; after the fourth the overload gives up on
    re-setups and prints a message when the estimate is still above the
    threshold. The Newton loop does not go through that overload: each
    of its linear solves builds one preconditioner and asks for no
    estimate, and the text of a call never has the preconditioner's
    message. When the loop fails to reach the tolerance within its cap,
    the non-convergence is reported as a message on rank 0 exactly when
    the mode is not adjoint and the verbosity exceeds 1; in every case
    the call returns: the loop leaves by its own test after at most
    [maxiter] passes, and a failed call hands back the count [maxiter]
    and the vectors of its last pass. *)
Theorem C8_cascade_and_guarded_report
    (CP : az_params -> Q) (defaults : az_params) (sv : solver)
    (alpha beta : Q) (w : World) (u u_dot phi phi_dot : vec) :
  let p := domDecompPreconditioner CP sv defaults in
  let p0 := {| AZ_drop := dropTol sv; AZ_ilut_fill := fillParam sv;
               AZ_athresh := AZ_athresh defaults;
               AZ_rthresh := AZ_rthresh defaults |} in
  let s0 := newton_init World setDirichlet sv w u u_dot phi phi_dot in
  let r := newton_solve sv alpha beta w u u_dot phi phi_dot in
  (* the cascade of the Epetra overload *)
  (useDirect sv = false -> useDomDecomp sv = true ->
   linearSolver_epetra CP sv defaults = GmresDomDecomp p)
  /\ (exists tried : list az_params,
        constructed p = p0 :: tried
        /\ (condest_max < CP p0 -> tried <> [])
        /\ (poor_condest (CP p0) = true <-> tried <> [])
        /\ (length tried <= 4)%nat
        /\ map thresholds tried = firstn (length tried) cascade
        /\ (forall i, (S i < length tried)%nat ->
              lex_lt (thresholds (nth i tried p0))
                     (thresholds (nth (S i) tried p0)))
        /\ (forall q, In q (removelast (constructed p)) ->
                      poor_condest (CP q) = true)
        /\ condest p = CP (last (constructed p) p0)
        /\ (length tried = 4%nat \/ poor_condest (condest p) = false)
        /\ p_cout p = (if (length tried =? 4)%nat
                          && Qltb condest_max (condest p)
                       then [MsgSadPreconditioner (condest p)] else []))
  (* the linear solves of the Newton loop *)
  /\ (forall J res, built (linearSolver sv J res) = [buildPreconditioner J])
  /\ (forall c, ~ In (MsgSadPreconditioner c) (n_cout r))
  (* the report *)
  /\ (forall it e,
        In (MsgFailedToConverge it e) (n_cout r)
        <-> (it = NLiter r /\ e = NLerr r
             /\ rank sv = 0%Z /\ useadjoint sv = false
             /\ (1 < verbosity sv)%Z
             /\ ((MaxNLiter sv < NLiter r)%Z \/ NLtol sv < NLerr_scaled r)))
  (* the return *)
  /\ (exists n : nat,
        (n <= Z.to_nat (maxiter sv))%nat
        /\ NLiter r = Z.of_nat n
        /\ n_u r = n_u (passes sv alpha beta n s0)
        /\ n_u_dot r = n_u_dot (passes sv alpha beta n s0)
        /\ n_phi r = n_phi (passes sv alpha beta n s0)
        /\ n_phi_dot r = n_phi_dot (passes sv alpha beta n s0)
        /\ (NLerr_scaled r <= NLtol sv \/ (maxiter sv <= NLiter r)%Z)
        /\ (NLtol sv < NLerr_scaled r -> n = Z.to_nat (maxiter sv))).
Proof.
  intros p p0 s0 r.
  split; [|split; [|split; [|split; [|split]]]].
  - intros Hd Hdd. unfold linearSolver_epetra. rewrite Hd, Hdd. reflexivity.
  - destruct (domDecomp_cascade CP sv defaults)
      as (tried & Hc & Hpoor & Hth & _ & Hbefore & Hfin & Hest & Hstop & Hmsg).
    fold p in Hc, Hbefore, Hfin, Hest, Hstop, Hmsg. fold p0 in Hc, Hpoor, Hfin.
    exists tried.
    split; [exact Hc|]. split.
    { intros Hbig. apply Hpoor. unfold poor_condest.
      apply orb_true_iff. left. now apply Qltb_lt. }
    split; [exact Hpoor|]. split.
    { rewrite <- (length_map thresholds), Hth, length_firstn.
      unfold cascade. simpl. lia. }
    split; [exact Hth|]. split.
    { intros i Hi. now apply tried_increasing. }
    split; [exact Hbefore|].
    split; [rewrite Hest, Hfin; reflexivity|].
    split; [exact Hstop|exact Hmsg].
  - intros J res. reflexivity.
  - intros c. apply no_preconditioner_message.
  - intros it e.
    apply (failure_reported_iff World assembleJacRes exportVec exportMat
             importVec (fun J r => soln (linearSolver sv J r)) setDirichlet
             sv alpha beta w u u_dot phi phi_dot it e).
  - destruct (newton_solve_returns sv alpha beta w u u_dot phi phi_dot)
      as (n & Hle & Hit & Hu & Hud & Hp & Hpd & _ & Hstop).
    fold s0 in Hu, Hud, Hp, Hpd. fold r in Hit, Hu, Hud, Hp, Hpd, Hstop.
    exists n. repeat (split; [assumption|]).
    intros Hfail. destruct Hstop as [Hs|Hs].
    + exfalso. apply (Qlt_not_le _ _ Hfail). exact Hs.
    + rewrite Hit in Hs. lia.
Qed.

End LinearSolverTpetra.

(** ** An instance: a solve that never reduces the residual *)

(** One unknown, the preconditioner is the matrix itself, and the Krylov
    solve returns the zero step. *)
Definition demo_buildPreconditioner (J : matrix) : matrix := J.

Definition demo_solve (l : belos_list) (M J : matrix) (r : vec) : vec :=
  map (fun _ => 0) r.

Definition demo_newton_solve (sv : solver) : newton unit :=
  newton_solve matrix demo_buildPreconditioner demo_solve 100 (1 # 10000000)
    1 1 unit (demo_assemble true) demo_same demo_sameMat demo_same
    demo_setDirichlet sv 0 1 tt [0] [0] [0] [0].

(** An estimate that stays above the threshold whatever is set up. *)
Definition demo_poor_estimate (p : az_params) : Q := 100000000000000 # 1.

Definition demo_defaults : az_params :=
  {| AZ_drop := 0; AZ_ilut_fill := 1; AZ_athresh := 0; AZ_rthresh := 0 |}.

(** C8 as stated fails. A forward call at the default verbosity 0 hits
    its cap of two passes with the scaled residual still 1 and prints
    nothing; an adjoint call at verbosity 2 makes its two passes, is left
    with the scaled residual 1 and prints only its two iteration lines.
    On the same solver object, whose settings select the
    domain-decomposition preconditioner and whose estimates all come out
    at [10^14], the Epetra overload runs the whole cascade (five set-ups
    and the message), while the failing Newton call has built one
    preconditioner in its linear solve and printed no such message: no
    cascade comes before its failure. *)
Lemma C8_failure_unreported_and_no_cascade :
  let quiet := demo_solver false 1 0 2 in
  let adj := demo_solver true 1 2 10 in
  let r := demo_newton_solve quiet in
  let ra := demo_newton_solve adj in
  (rank quiet = 0%Z
   /\ NLiter r = MaxNLiter quiet
   /\ NLtol quiet < NLerr_scaled r
   /\ n_cout r = [])
  /\ (rank adj = 0%Z /\ (1 < verbosity adj)%Z
      /\ NLiter ra = maxiter adj
      /\ NLtol adj < NLerr_scaled ra
      /\ n_cout ra = [MsgIteration 0 (10 * NLtol adj) 1;
                      MsgIteration 1 1 1])
  /\ (useDirect quiet = false /\ useDomDecomp quiet = true
      /\ (exists setup,
            linearSolver_epetra demo_poor_estimate quiet demo_defaults
            = GmresDomDecomp setup
            /\ length (constructed setup) = 5%nat
            /\ p_cout setup = [MsgSadPreconditioner (100000000000000 # 1)])
      /\ built (linearSolver matrix demo_buildPreconditioner demo_solve
                  100 (1 # 10000000) 1 1 quiet [[1]] [1])
         = [[[1]]]
      /\ n_cout r = []).
Proof.
  vm_compute. repeat split.
  eexists. repeat split.
Qed.

End SolverLinear.

(** * The assembly passes of the sensitivity routines

    The per-step [computeSensitivities] and the two trajectory-level
    routines from their entry: the objective, the calls of
    [assembleJacRes] with their flags on every rank, the exports, and
    the gradient formed from them. *)

Module SolverSensitivities.

Import Solver SolverEstimates.

(** What one MPI rank holds when the per-step routine is entered. *)
Record rank_state (World : Type) : Type := {
  rs_world : World;
  rs_owned : nat;                   (* LA_owned.size() *)
  rs_paramOwned : list nat;         (* params->paramOwned *)
  rs_u : vec; rs_u_dot : vec; rs_a2 : vec
}.

(** What one MPI rank holds when a trajectory-level routine is entered. *)
Record rank_history (World : Type) : Type := {
  rh_world : World;
  rh_owned : nat;
  rh_paramOwned : list nat;
  rh_F : multivec;                  (* GF_soln / F_soln, one column per time *)
  rh_A : multivec                   (* GA_soln / A_soln *)
}.

Arguments rs_world {World} _.
Arguments rs_owned {World} _.
Arguments rs_paramOwned {World} _.
Arguments rs_u {World} _.
Arguments rs_u_dot {World} _.
Arguments rs_a2 {World} _.
Arguments rh_world {World} _.
Arguments rh_owned {World} _.
Arguments rh_paramOwned {World} _.
Arguments rh_F {World} _.
Arguments rh_A {World} _.

Section Passes.

Set Default Proof Using "Type".

Variable World : Type.

(** Collaborators outside the modelled file. The exports are collective:
    they take what every rank has assembled and give what rank [r] owns. *)
Variable assembleJacRes : World -> asm_args -> World * (multivec * matrix).
Variable exportRes : (nat -> multivec) -> nat -> multivec.
    (* res->doExport of res_over, Tpetra::ADD *)
Variable exportParamMat : (nat -> matrix) -> nat -> matrix.
    (* J->doExport of J_over through param_exporter, Tpetra::ADD *)
Variable sacadoizeParams : bool -> World -> World.
Variable cells_objective : World -> vec -> Q -> World * list obj_cell.
    (* the gathers and cells[b][e]->computeObjective(time, 0, 0) of a rank *)
Variable cells_multiscale : World -> bool.      (* cells[0][0]->multiscale *)
Variable cells_subgradient : World -> list (list vec).

Variable pm : obj_params.
Variable numDiscParams : nat.                   (* params->getNumParams(4) *)
Variable sv : solver.
Variable nranks : nat.
Variable solvetimes : list Q.

(** The argument list of a sensitivity pass:
    [assembleJacRes(u, u_dot, u, u_dot, alpha, beta, build_jacobian,
    compute_sens, compute_disc_sens, ..., isTransient, current_time,
    useadjoint, store_adjPrev, ..., is_final_time)]. *)
Definition pass_args (u u_dot : vec) (alpha beta : Q)
    (build_jacobian compute_sens compute_disc_sens : bool)
    (time : Q) (adjoint : bool) : asm_args :=
  {| a_u := u; a_u_dot := u_dot; a_phi := u; a_phi_dot := u_dot;
     a_alpha := alpha; a_beta := beta;
     a_build_jacobian := build_jacobian;
     a_compute_sens := compute_sens;
     a_compute_disc_sens := compute_disc_sens;
     a_isTransient := isTransient sv;
     a_current_time := time;
     a_useadjoint := adjoint;
     a_store_adjPrev := store_adjPrev sv;
     a_is_final_time := is_final_time sv |}.

(** ** The per-step routine *)

(** [computeObjective(u, current_time, 0)] on one rank: the parameters
    are seeded, then the cells are asked. *)
Definition objective_pass (rs : rank_state World) : World * list obj_cell :=
  cells_objective (sacadoizeParams true (rs_world rs)) (rs_u rs)
                  (current_time sv).

(** [obj_sens]. *)
Definition obj_sens (rk : nat -> rank_state World) : AD :=
  computeObjective pm
    (map (fun r => snd (objective_pass (rk r))) (seq 0 nranks)).

(** The block [if (params->num_active_params > 0)]: the parameters are
    seeded again, [useadjoint] is off for the one call, and [res_over] is
    what the call has assembled. *)
Definition sens_pass (alpha beta : Q) (rs : rank_state World)
    : World * multivec :=
  let w := fst (objective_pass rs) in
  if (0 <? num_active_params pm)%nat then
    let r := assembleJacRes (sacadoizeParams true w)
               (pass_args (rs_u rs) (rs_u_dot rs) alpha beta
                          false true false (current_time sv) false) in
    (fst r, fst (snd r))
  else (w, []).

(** The block [if (numDiscParams > 0)]: [J_over] of the call. *)
Definition disc_pass (alpha beta : Q) (rs : rank_state World)
    : World * matrix :=
  let w := fst (sens_pass alpha beta rs) in
  if (0 <? numDiscParams)%nat then
    let r := assembleJacRes (sacadoizeParams false w)
               (pass_args (rs_u rs) (rs_u_dot rs) alpha beta
                          true false true (current_time sv)
                          (useadjoint sv)) in
    (fst r, snd (snd r))
  else (w, []).

(** What rank [r] holds when the gradient is formed. *)
Definition rank_view (rk : nat -> rank_state World) (alpha beta : Q)
    (r : nat) : rank_input :=
  {| r_owned := rs_owned (rk r);
     r_a2 := rs_a2 (rk r);
     r_res := exportRes (fun q => snd (sens_pass alpha beta (rk q))) r;
     r_multiscale := cells_multiscale (fst (sens_pass alpha beta (rk r)));
     r_subgradient := cells_subgradient (fst (sens_pass alpha beta (rk r)));
     r_J := exportParamMat (fun q => snd (disc_pass alpha beta (rk q))) r;
     r_paramOwned := rs_paramOwned (rk r) |}.

Definition sens_view (rk : nat -> rank_state World) (alpha beta : Q)
    : sens_input :=
  {| s_ranks := map (rank_view rk alpha beta) (seq 0 nranks);
     s_obj_sens := ad_dx (obj_sens rk);
     s_num_active_params := num_active_params pm;
     s_numDiscParams := numDiscParams |}.

(** [solver::computeSensitivities(u, u_dot, a2, gradient, alpha, beta)]:
    the new content of [gradient]. *)
Definition step_sensitivities (rk : nat -> rank_state World)
    (alpha beta : Q) (gradient : list Q) : list Q :=
  computeSensitivities (sens_view rk alpha beta) gradient.

(** ** The trajectory-level routines *)

(** [u], [u_dot] and [current_time] of step [timeiter]; [alpha] is [0.0]
    and [u_dot] is never written in a steady run. *)
Definition traj_col (t : nat) : nat := if isTransient sv then S t else t.

Definition traj_u (h : rank_history World) (t : nat) : vec :=
  tabulate (num_local_rows sv)
           (fun i => kv (rh_F h) i (Z.of_nat (traj_col t))).

Definition traj_u_dot (h : rank_history World) (t : nat) : vec :=
  if isTransient sv
  then tabulate (num_local_rows sv)
         (fun i => 0 * (kv (rh_F h) i (Z.of_nat (S t))
                        - kv (rh_F h) i (Z.of_nat t)))
  else repeat 0 (num_local_rows sv).

Definition traj_args (build_jacobian compute_sens compute_disc_sens : bool)
    (h : rank_history World) (t : nat) : asm_args :=
  pass_args (traj_u h t) (traj_u_dot h t) 0 1
            build_jacobian compute_sens compute_disc_sens
            (nth (traj_col t) solvetimes 0) (useadjoint sv).

(** The assembler of a rank before the pass of step [t], and what that
    pass assembles. *)
Fixpoint traj_world (args : nat -> asm_args) (w : World) (t : nat) : World :=
  match t with
  | O => w
  | S t' => fst (assembleJacRes (traj_world args w t') (args t'))
  end.

Definition traj_pass (args : nat -> asm_args) (w : World) (t : nat)
    : multivec * matrix :=
  snd (assembleJacRes (traj_world args w t) (args t)).

(** The passes of [computeSensitivities(GF_soln, GA_soln)]:
    [sacadoizeParams(true)], then one call with the flags
    [(false, true, false)] per time step. *)
Definition sens_history (hist : nat -> rank_history World) (r : nat)
    : rank_traj :=
  {| rt_owned := rh_owned (hist r);
     rt_GA := rh_A (hist r);
     rt_res := fun t =>
       exportRes (fun q => fst (traj_pass (traj_args false true false (hist q))
                                 (sacadoizeParams true (rh_world (hist q))) t))
                 r;
     rt_J := fun t => [];
     rt_paramOwned := rh_paramOwned (hist r) |}.


Definition trajectory_sensitivities (hist : nat -> rank_history World)
    : list Q :=
  computeSensitivities_traj (isTransient sv) (length solvetimes)
    (num_active_params pm) (map (sens_history hist) (seq 0 nranks)).


(** ** Facts *)

Lemma Qsum_map_seq (A : Type) (g : nat -> A) (f : A -> Q) (n : nat) :
  Qsum (map f (map g (seq 0 n))) = sum_n n (fun r => f (g r)).
Proof. unfold sum_n. rewrite map_map. reflexivity. Qed.

(** Slot [j] of [obj_sens] for an active parameter: only slot 0 is
    written by the loops over the points. *)
Lemma obj_sens_slot (rk : nat -> rank_state World) (j : nat) :
  (j < num_active_params pm)%nat ->
  cobj (ad_dx (obj_sens rk)) j
  == pick (j =? 0)%nat
       (sum_n nranks (fun r =>
          Qsum (map cell_first_dx (snd (objective_pass (rk r)))))).
Proof.
  intros Hj. unfold cobj, obj_sens, computeObjective, reduceAll_sum.
  cbn [ad_dx]. rewrite length_map, length_seq.
  assert (Hin : (j < numParams pm)%nat) by (unfold numParams; lia).
  replace (j <? numParams pm)%nat with true
    by (symmetry; apply Nat.ltb_lt; exact Hin).
  set (slot := fun j : nat =>
         Qsum (map (fun cells =>
                 nth j (dmGradient (objective_rank pm cells)) 0
                 + nth j (regGradient (objective_rank pm cells)) 0)
               (map (fun r => snd (objective_pass (rk r))) (seq 0 nranks)))).
  rewrite (nth_indep _ 0 (slot 0%nat))
    by (rewrite length_map, length_seq; exact Hin).
  rewrite (map_nth slot), seq_nth by exact Hin. cbn [Nat.add].
  unfold slot. rewrite Qsum_map_seq.
  destruct (j =? 0)%nat eqn:Hj0; cbn [pick].
  - apply sum_n_ext. intros r _.
    destruct (objective_rank_spec pm (snd (objective_pass (rk r)))) as [_ H].
    rewrite (H j Hj), Hj0. reflexivity.
  - unfold sum_n. rewrite (Qsum_ext _ _ (fun _ => 0)).
    + clear. induction (seq 0 nranks) as [|a l IH]; simpl; [reflexivity|].
      rewrite IH. ring.
    + intros r _.
      destruct (objective_rank_spec pm (snd (objective_pass (rk r))))
        as [_ H].
      rewrite (H j Hj), Hj0. reflexivity.
Qed.

Lemma a2_at_row (transient : bool) (nsteps : nat) (r : rank_traj)
    (t i : nat) :
  (i < rt_owned r)%nat ->
  nth i (a2_at transient nsteps r t) 0
  = kv (rt_GA r) i (if transient
                    then (Z.of_nat nsteps - Z.of_nat t)%Z
                    else (Z.of_nat nsteps - Z.of_nat t - 1)%Z).
Proof.
  intros Hi. unfold a2_at. rewrite nth_tabulate by exact Hi.
  destruct transient; reflexivity.
Qed.

(** C6 (as amended). For an active scalar parameter [p], a call of the
    per-step [computeSensitivities] adds to entry [p] of the gradient (an
    absent entry counts as 0 and is created) the sum over all MPI ranks of
    [- phi^T (dR/dtheta_p)] plus slot [p] of the objective sensitivity that
    [computeObjective] returns; for [p = 0] that slot is the explicit
    derivative of the objective, the sum over the ranks, cells and points
    of the first derivative component of the point's objective. The
    column [dR/dtheta_p] is column [p] of the exported residual of the
    rank's single pass through [assembleJacRes] with the parameters
    seeded and the flags [build_jacobian = false], [compute_sens = true],
    [compute_disc_sens = false] (the adjoint flag is off for the call);
    a rank whose first cell is multiscale contributes the negated sum of
    its cells' subgradient entries for [p] instead. The trajectory-level
    overload makes one such pass per time step and returns the sum over
    ranks and time steps of [- phi^T (dR/dtheta_p)], with no objective
    term. *)
Theorem C6_scalar_gradient_entry (rk : nat -> rank_state World)
    (hist : nat -> rank_history World) (alpha beta : Q)
    (gradient : list Q) (p : nat)
    (Hp : (p < num_active_params pm)%nat) :
  let pass r :=
    assembleJacRes
      (sacadoizeParams true (fst (objective_pass (rk r))))
      (pass_args (rs_u (rk r)) (rs_u_dot (rk r)) alpha beta
                 false true false (current_time sv) false) in
  let dR r :=
    nth p (exportRes (fun q => snd (sens_pass alpha beta (rk q))) r) [] in
  let local r :=
    if cells_multiscale (fst (pass r))
    then - Qsum (map (fun row0 => nth p row0 0)
                     (concat (cells_subgradient (fst (pass r)))))
    else - sum_n (rs_owned (rk r))
                 (fun i => nth i (rs_a2 (rk r)) 0 * nth i (dR r) 0) in
  let nsteps := nsteps_of (isTransient sv) (length solvetimes) in
  let tpass q t :=
    traj_pass (traj_args false true false (hist q))
              (sacadoizeParams true (rh_world (hist q))) t in
  let dRt r t := nth p (exportRes (fun q => fst (tpass q t)) r) [] in
  (forall r, sens_pass alpha beta (rk r) = (fst (pass r), fst (snd (pass r))))
  /\ nth p (step_sensitivities rk alpha beta gradient) 0
     == nth p gradient 0 + sum_n nranks local + cobj (ad_dx (obj_sens rk)) p
  /\ (p = 0%nat ->
      cobj (ad_dx (obj_sens rk)) p
      == sum_n nranks (fun r =>
           Qsum (map cell_first_dx (snd (objective_pass (rk r))))))
  /\ nth p (trajectory_sensitivities hist) 0
     == sum_n nranks (fun r =>
          - sum_n nsteps (fun t =>
              sum_n (rh_owned (hist r)) (fun i =>
                kv (rh_A (hist r)) i
                   (if isTransient sv
                    then (Z.of_nat nsteps - Z.of_nat t)%Z
                    else (Z.of_nat nsteps - Z.of_nat t - 1)%Z)
                * nth i (dRt r t) 0))).
Proof.
  intros pass dR local nsteps tpass dRt.
  assert (Hpass : forall r,
            sens_pass alpha beta (rk r) = (fst (pass r), fst (snd (pass r)))).
  { intros r. unfold sens_pass.
    replace (0 <? num_active_params pm)%nat with true
      by (symmetry; apply Nat.ltb_lt; lia).
    reflexivity. }
  assert (Hp' : (p < s_num_active_params (sens_view rk alpha beta))%nat)
    by exact Hp.
  destruct (scalar_gradient_entry (sens_view rk alpha beta) gradient p Hp')
    as (Hstep & _ & Htraj).
  split; [exact Hpass|]. split; [|split].
  - unfold step_sensitivities. rewrite Hstep.
    cbn [s_ranks s_obj_sens sens_view]. rewrite Qsum_map_seq.
    apply Qplus_comp; [|reflexivity].
    apply Qplus_comp; [reflexivity|].
    apply sum_n_ext. intros r _.
    unfold local_term, rank_view, local, dR.
    cbn [r_multiscale r_subgradient r_owned r_a2 r_res].
    rewrite (Hpass r). cbn [fst]. reflexivity.
  - intros ->. rewrite (obj_sens_slot rk 0 Hp). reflexivity.
  - unfold trajectory_sensitivities.
    cbn [s_num_active_params sens_view] in Htraj.
    rewrite (Htraj (isTransient sv) (length solvetimes)
                   (map (sens_history hist) (seq 0 nranks))).
    rewrite Qsum_map_seq. fold nsteps.
    apply sum_n_ext. intros r _.
    apply Qopp_comp. apply sum_n_ext. intros t _.
    cbn [rt_owned sens_history].
    apply sum_n_ext. intros i Hi.
    rewrite a2_at_row by exact Hi. reflexivity.
Qed.


End Passes.

(** ** An instance: one rank, one unknown, two scalar parameters and one
    discretized parameter DOF *)

Definition demo_pm : obj_params :=
  {| num_active_params := 2; globalParamUnknowns := 1;
     paramoffsets := [[0%nat]];
     domainRegIndices := []; boundaryRegIndices := [] |}.

(** The assembler of the instance. A residual-only pass with the
    sensitivity flag gives the columns [dR/dtheta_0 = 1] and
    [dR/dtheta_1 = 4]; a pass with the Jacobian and the
    discretized-sensitivity flags gives the parameter-map matrix [3];
    any other pass gives nothing. *)
Definition demo_passes (w : unit) (a : asm_args)
    : unit * (multivec * matrix) :=
  (tt,
   (if a_compute_sens a && negb (a_build_jacobian a)
       && negb (a_compute_disc_sens a)
    then [[1]; [4]] else [],
    if a_compute_disc_sens a && a_build_jacobian a
       && negb (a_compute_sens a)
    then [[3]] else [])).

Definition demo_export (A : Type) (over : nat -> A) (r : nat) : A := over r.

(** One cell with one point; the objective of the point has the
    derivative components [dx]. *)
Definition demo_objective_cell (dx : list Q) : obj_cell :=
  {| oc_numElem := 1; oc_obj_dim1 := 1;
     oc_obj := fun c i => {| ad_val := 0; ad_dx := dx |};
     oc_paramGIDs := fun c k => 0%nat;
     oc_regDomain := {| ad_val := 0; ad_dx := [] |};
     oc_regBoundary := {| ad_val := 0; ad_dx := [] |} |}.

Definition demo_cells_objective (w : unit) (u : vec) (t : Q)
    : unit * list obj_cell :=
  (tt, [demo_objective_cell [7; 5; 11]]).

(** The adjoint is [phi = 2]. *)
Definition demo_rank_state (r : nat) : rank_state unit :=
  {| rs_world := tt; rs_owned := 1; rs_paramOwned := [0%nat];
     rs_u := [0]; rs_u_dot := [0]; rs_a2 := [2] |}.

Definition demo_history (r : nat) : rank_history unit :=
  {| rh_world := tt; rh_owned := 1; rh_paramOwned := [0%nat];
     rh_F := [[0]; [1]; [3]]; rh_A := [[9]; [2]; [2]] |}.

Definition demo_times : list Q := [0; 1 # 2; 1].

(** The gradient after a per-step call; the cells' subgradient entries
    are [5] and [6]. *)
Definition demo_step (multiscale : bool) (gradient : list Q) : list Q :=
  step_sensitivities unit demo_passes (demo_export multivec)
    (demo_export matrix) demo_sacadoize demo_cells_objective
    (fun w => multiscale) (fun w => [[[5; 6]]]) demo_pm 1
    (demo_solver true 1 0 10) 1 demo_rank_state 0 1 gradient.

Definition demo_trajectory_sensitivities : list Q :=
  trajectory_sensitivities unit demo_passes (demo_export multivec)
    demo_sacadoize demo_pm (demo_solver true 1 0 10) 1 demo_times
    demo_history.

(** Column [p] of the exported residual of the pass, the explicit
    derivative of the objective with respect to the first parameter, and
    the exported parameter-map matrix, on the instance. *)
Definition demo_dR (p : nat) : vec :=
  nth p (demo_export multivec
           (fun q => snd (sens_pass unit demo_passes demo_sacadoize
                            demo_cells_objective demo_pm
                            (demo_solver true 1 0 10) 0 1
                            (demo_rank_state q))) 0%nat) [].

Definition demo_dJ : Q :=
  Qsum (map cell_first_dx
            (snd (objective_pass unit demo_sacadoize demo_cells_objective
                    (demo_solver true 1 0 10) (demo_rank_state 0)))).


Example demo_step_gradient : demo_step false [] = [-2 + 7; -8 + 0; 6 + 11].
Proof. vm_compute. reflexivity. Qed.

(** The objective of the point has the derivative [5] with respect to
    the second scalar parameter; slot 1 of the objective sensitivity is
    [0], and entry 1 of the gradient is the residual term alone. *)
Example demo_second_parameter_slot :
  fastAccessDx (oc_obj (demo_objective_cell [7; 5; 11]) 0%nat 0%nat) 1 == 5
  /\ cobj (ad_dx (obj_sens unit demo_sacadoize demo_cells_objective demo_pm
                           (demo_solver true 1 0 10) 1 demo_rank_state)) 1
     == 0
  /\ nth 1 (demo_step false []) 0 == - (2 * nth 0 (demo_dR 1) 0).
Proof. vm_compute. repeat split. Qed.

(** C6 on the instance: [phi = 2], [dR/dtheta_0 = 1], [dJ/dtheta_0 = 7],
    an empty gradient: the entry is [-2 + 7 = 5]. *)
Lemma C6_scalar_gradient_entry_witness :
  (0 < num_active_params demo_pm)%nat
  /\ nth 0 (demo_step false []) 0 == 5.
Proof.
  split; [simpl; lia|].
  destruct (C6_scalar_gradient_entry unit demo_passes (demo_export multivec)
              (demo_export matrix) demo_sacadoize demo_cells_objective
              (fun w => false) (fun w => [[[5; 6]]]) demo_pm 1
              (demo_solver true 1 0 10) 1 demo_times
              demo_rank_state demo_history 0 1 [] 0%nat
              ltac:(simpl; lia)) as (_ & H & _).
  unfold demo_step. refine (Qeq_trans _ _ _ H _).
  vm_compute. reflexivity.
Defined.

(** C6 as stated fails. With [phi = 2], [dR/dtheta_0 = 1] and
    [dJ/dtheta_0 = 7] the claimed entry is [-2 + 7 = 5]. A call on a
    gradient whose entry is already [10] (the call of an earlier time
    step) leaves [15]: the call adds to the entry. On a rank whose first
    cell is multiscale the entry is [-5 + 7 = 2], from the subgradient
    of the cell. The trajectory-level overload returns the residual
    terms of its two time steps, [-2 - 2 = -4], and no objective
    term. *)
Lemma C6_entry_is_accumulated :
  let claimed := - (2 * nth 0 (demo_dR 0) 0) + demo_dJ in
  claimed == 5
  /\ nth 0 (demo_step false [10; 0; 0]) 0 == 15
  /\ ~ (nth 0 (demo_step false [10; 0; 0]) 0 == claimed)
  /\ nth 0 (demo_step true []) 0 == 2
  /\ ~ (nth 0 (demo_step true []) 0 == claimed)
  /\ demo_trajectory_sensitivities = [-4; -16]
  /\ ~ (nth 0 demo_trajectory_sensitivities 0
        == - (2 * nth 0 (demo_dR 0) 0) - (2 * nth 0 (demo_dR 0) 0)
           + demo_dJ).
Proof.
  vm_compute. repeat split; discriminate.
Qed.



End SolverSensitivities.
